(** * PyGPR: the Gaussian-process regression core [lib_gpr.c]

    A shallow embedding of [src/lib_gpr.c] and the verification of its
    specification.

    Modelling decisions.
    - A C [double] is a real number ([R]): the properties below are the
      exact-arithmetic content of the code.  Where rounding decides
      whether a call returns, the module [Binary64] runs
      [get_gpr_weights] on IEEE binary64 numbers.
    - A [double *] is a pointer into a heap of buffers; every function of
      the source is a computation in a state-and-failure monad over that
      heap, so that aliasing and in-place updates are visible.
    - [unsigned long] sizes and indices are natural numbers; the [int]
      arguments handed to BLAS/LAPACK are 32-bit signed integers, and the
      conversion from [unsigned long] wraps.
    - An access outside a buffer, a failed [assert] and an argument
      rejected by a BLAS/LAPACK routine (XERBLA) end the run with a fault.
    - The BLAS/LAPACK routines are modelled after the reference
      implementation, for the option flags and unit strides [lib_gpr.c]
      passes. *)

From Stdlib Require Floats.
From Stdlib Require Import Reals Lra Lia ZArith List Bool Arith.
From Stdlib Require Import FunctionalExtensionality.
Import ListNotations.

Local Open Scope R_scope.

(* ================================================================== *)
(** * Finite sums of reals *)

Fixpoint Rsum (n : nat) (f : nat -> R) : R :=
  match n with
  | O => 0
  | S k => Rsum k f + f k
  end.

(* ================================================================== *)
(** * Buffers *)

Definition get (l : list R) (i : nat) : R := nth i l 0.

Fixpoint put (l : list R) (i : nat) (v : R) : list R :=
  match l, i with
  | [], _ => []
  | _ :: t, O => v :: t
  | x :: t, S k => x :: put t k v
  end.

(** Loops over pure state: [upto n body] runs [body 0], ..., [body (n-1)];
    [downto n body] runs [body (n-1)], ..., [body 0]. *)
Fixpoint upto {S : Type} (n : nat) (body : nat -> S -> S) (s : S) : S :=
  match n with
  | O => s
  | Datatypes.S k => body k (upto k body s)
  end.

Fixpoint downto {S : Type} (n : nat) (body : nat -> S -> S) (s : S) : S :=
  match n with
  | O => s
  | Datatypes.S k => downto k body (body k s)
  end.

Definition range {S : Type} (lo hi : nat) (body : nat -> S -> S) (s : S) : S :=
  upto (hi - lo) (fun d => body (lo + d)%nat) s.

(* ================================================================== *)
(** * The heap and the monad of C computations *)

Definition ptr := nat.

Record heap := mkHeap { cells : ptr -> list R; brk : ptr }.

Inductive fault := AssertFailed | XerblaStop | OutOfBounds.

Inductive outcome (A : Type) :=
| Done (a : A) (h : heap)
| Fatal (f : fault).
Arguments Done {A} a h.
Arguments Fatal {A} f.

Definition Comp (A : Type) := heap -> outcome A.

Definition ret {A} (a : A) : Comp A := fun h => Done a h.

Definition bind {A B} (m : Comp A) (k : A -> Comp B) : Comp B :=
  fun h => match m h with
           | Done a h' => k a h'
           | Fatal f => Fatal f
           end.

Notation "x <- m ;; k" := (bind m (fun x => k))
  (at level 61, m at next level, right associativity).
Notation "m ;; k" := (bind m (fun _ => k))
  (at level 61, right associativity).

Definition raise {A} (f : fault) : Comp A := fun _ => Fatal f.

Definition poke (h : heap) (p : ptr) (l : list R) : heap :=
  mkHeap (fun q => if Nat.eqb q p then l else cells h q) (brk h).

(** [p[i]] as an rvalue and [p[i] = v]. *)
Definition load (p : ptr) (i : nat) : Comp R :=
  fun h => if Nat.ltb i (length (cells h p))
           then Done (get (cells h p) i) h
           else Fatal OutOfBounds.

Definition store (p : ptr) (i : nat) (v : R) : Comp unit :=
  fun h => if Nat.ltb i (length (cells h p))
           then Done tt (poke h p (put (cells h p) i v))
           else Fatal OutOfBounds.

(** [malloc(n * sizeof(double))]: a fresh buffer, here zero-filled (the
    source writes every scratch entry before reading it, except in
    [sample_gp] once its copy count no longer fits an [int]; allocation
    failure is not modelled); [free] releases it. *)
Definition grow (h : heap) (l : list R) : heap :=
  mkHeap (fun q => if Nat.eqb q (brk h) then l else cells h q) (S (brk h)).

Definition malloc (n : nat) : Comp ptr :=
  fun h => Done (brk h) (grow h (repeat 0 n)).

Definition free (p : ptr) : Comp unit :=
  fun h => Done tt (poke h p []).

(** [assert(c)] *)
Definition assert_ (c : bool) : Comp unit :=
  if c then ret tt else raise AssertFailed.

(** [for (i = lo; i < hi; i++) body] *)
Fixpoint for_upto (n : nat) (body : nat -> Comp unit) : Comp unit :=
  match n with
  | O => ret tt
  | S k => for_upto k body ;; body k
  end.

Definition for_ (lo hi : nat) (body : nat -> Comp unit) : Comp unit :=
  for_upto (hi - lo) (fun d => body (lo + d)%nat).

(** A loop that accumulates into a local variable. *)
Fixpoint fold_upto {A : Type} (n : nat) (body : nat -> A -> Comp A) (a : A) : Comp A :=
  match n with
  | O => ret a
  | S k => a' <- fold_upto k body a ;; body k a'
  end.

(** Conversion of an [unsigned long] to [int]. *)
Definition to_int (n : nat) : Z :=
  let z := (Z.of_nat n mod 4294967296)%Z in
  if (z <? 2147483648)%Z then z else (z - 4294967296)%Z.

(* ================================================================== *)
(** * BLAS and LAPACK

    Matrices are column-major with leading dimension [ld]: entry (i,j)
    is at offset [i + j*ld].  Each routine has a pure core on buffers and
    a wrapper that performs the argument checks of the reference
    implementation, checks the extent of the buffers and updates the
    heap.  The sums of the inner loops are written with [Rsum]. *)

Definition ix (ld i j : nat) : nat := (i + j * ld)%nat.

(** Extent of an [m] x [n] matrix with leading dimension [ld]. *)
Definition matlen (m n ld : nat) : nat :=
  if (Nat.eqb m 0 || Nat.eqb n 0)%bool then O else ((n - 1) * ld + m)%nat.

Module Blas.

(** DCOPY, DAXPY, DDOT with unit strides. *)
Definition dcopy (n : nat) (x y : list R) : list R :=
  upto n (fun i y => put y i (get x i)) y.

Definition daxpy (n : nat) (a : R) (x y : list R) : list R :=
  upto n (fun i y => put y i (get y i + a * get x i)) y.

Definition ddot (n : nat) (x y : list R) : R :=
  Rsum n (fun i => get x i * get y i).

(** DGEMV, TRANS = 'T': y := alpha * A^T x + beta * y, A is m x n. *)
Definition dgemv_T (m n : nat) (alpha : R) (A : list R) (lda : nat)
           (x : list R) (beta : R) (y : list R) : list R :=
  let y := upto n (fun i y => put y i (beta * get y i)) y in
  upto n (fun j y =>
            let temp := Rsum m (fun i => get A (ix lda i j) * get x i) in
            put y j (get y j + alpha * temp)) y.

(** DGEMM, TRANSA = 'T', TRANSB = 'N': C := alpha * A^T B + beta * C,
    A is k x m, B is k x n, C is m x n. *)
Definition dgemm_TN (m n k : nat) (alpha : R) (A : list R) (lda : nat)
           (B : list R) (ldb : nat) (beta : R) (C : list R) (ldc : nat) : list R :=
  upto n (fun j C =>
    upto m (fun i C =>
      let temp := Rsum k (fun l => get A (ix lda l i) * get B (ix ldb l j)) in
      put C (ix ldc i j) (alpha * temp + beta * get C (ix ldc i j))) C) C.

(** DSYRK, UPLO = 'L', TRANS = 'T': the lower triangle of
    C := alpha * A^T A + beta * C, A is k x n, C is n x n. *)
Definition dsyrk_LT (n k : nat) (alpha : R) (A : list R) (lda : nat)
           (beta : R) (C : list R) (ldc : nat) : list R :=
  upto n (fun j C =>
    range j n (fun i C =>
      let temp := Rsum k (fun l => get A (ix lda l i) * get A (ix lda l j)) in
      put C (ix ldc i j) (alpha * temp + beta * get C (ix ldc i j))) C) C.

(** DTRSM, SIDE = 'L', UPLO = 'L', TRANSA = 'N', DIAG = 'N':
    B := alpha * inv(A) * B by forward substitution, column by column.
    [trsm_LLNN_step] is the body of the loop over the rows [k] of
    column [j]. *)
Definition trsm_LLNN_step (m : nat) (A : list R) (lda ldb j k : nat) (B : list R)
  : list R :=
  let B := put B (ix ldb k j) (get B (ix ldb k j) / get A (ix lda k k)) in
  range (S k) m (fun i B =>
    put B (ix ldb i j)
        (get B (ix ldb i j) - get B (ix ldb k j) * get A (ix lda i k))) B.

Definition trsm_LLNN_col (m : nat) (alpha : R) (A : list R) (lda : nat)
           (ldb j : nat) (B : list R) : list R :=
  let B := upto m (fun i B => put B (ix ldb i j) (alpha * get B (ix ldb i j))) B in
  upto m (trsm_LLNN_step m A lda ldb j) B.

Definition dtrsm_LLNN (m n : nat) (alpha : R) (A : list R) (lda : nat)
           (B : list R) (ldb : nat) : list R :=
  upto n (trsm_LLNN_col m alpha A lda ldb) B.

(** DTRSM, SIDE = 'L', UPLO = 'L', TRANSA = 'T', DIAG = 'N':
    B := alpha * inv(A^T) * B by back substitution; [trsm_LLTN_step] is
    the body of the loop over the rows [i], from the last to the first. *)
Definition trsm_LLTN_step (m : nat) (alpha : R) (A : list R) (lda ldb j i : nat)
           (B : list R) : list R :=
  let temp := range (S i) m (fun k t => t - get A (ix lda k i) * get B (ix ldb k j))
                    (alpha * get B (ix ldb i j)) in
  put B (ix ldb i j) (temp / get A (ix lda i i)).

Definition trsm_LLTN_col (m : nat) (alpha : R) (A : list R) (lda : nat)
           (ldb j : nat) (B : list R) : list R :=
  downto m (trsm_LLTN_step m alpha A lda ldb j) B.

Definition dtrsm_LLTN (m n : nat) (alpha : R) (A : list R) (lda : nat)
           (B : list R) (ldb : nat) : list R :=
  upto n (trsm_LLTN_col m alpha A lda ldb) B.

(** DTRMV, UPLO = 'L', TRANS = 'N', DIAG = 'N': x := A x; [trmv_LNN_step]
    is the body of the loop over the columns [j], from the last to the
    first. *)
Definition trmv_LNN_step (n : nat) (A : list R) (lda j : nat) (x : list R) : list R :=
  let temp := get x j in
  let x := downto (n - S j) (fun d x =>
             let i := (S j + d)%nat in
             put x i (get x i + temp * get A (ix lda i j))) x in
  put x j (get x j * get A (ix lda j j)).

Definition dtrmv_LNN (n : nat) (A : list R) (lda : nat) (x : list R) : list R :=
  downto n (trmv_LNN_step n A lda) x.

(** DPOTF2, UPLO = 'L': column [j] of the Cholesky factorization.
    [pivot] is the diagonal entry before the square root; the result is
    paired with [false] when it is not positive. *)
Definition pivot (lda j : nat) (A : list R) : R :=
  get A (ix lda j j) - Rsum j (fun k => get A (ix lda j k) * get A (ix lda j k)).

Definition potf2_col (n lda j : nat) (A : list R) : list R * bool :=
  let ajj := pivot lda j A in
  if Rle_dec ajj 0 then (put A (ix lda j j) ajj, false)
  else
    let ajj := sqrt ajj in
    let A := put A (ix lda j j) ajj in
    let A := range (S j) n (fun i A =>
               put A (ix lda i j)
                   (get A (ix lda i j)
                    + -1 * Rsum j (fun k => get A (ix lda i k) * get A (ix lda j k)))) A in
    let A := range (S j) n (fun i A =>
               put A (ix lda i j) (1 / ajj * get A (ix lda i j))) A in
    (A, true).

(** Columns [j], [j+1], ... ; the status is 0, or the 1-based index of
    the column whose pivot is not positive. *)
Fixpoint potf2_from (cnt n lda j : nat) (A : list R) : list R * nat :=
  match cnt with
  | O => (A, O)
  | S c =>
      let (A', ok) := potf2_col n lda j A in
      if ok then potf2_from c n lda (S j) A' else (A', S j)
  end.

Definition dpotf2_L (n : nat) (A : list R) (lda : nat) : list R * nat :=
  potf2_from n n lda O A.

End Blas.

(** ** The routines as C sees them

    Dimensions are [int]s.  An illegal argument reaches XERBLA, which
    stops the program in the reference implementation. *)

Definition xerbla {A} : Comp A := raise XerblaStop.

Definition need (p : ptr) (len : nat) : Comp unit :=
  fun h => if Nat.leb len (length (cells h p)) then Done tt h else Fatal OutOfBounds.

Definition peek (p : ptr) : Comp (list R) := fun h => Done (cells h p) h.

Definition modify (p : ptr) (f : list R -> list R) : Comp unit :=
  fun h => Done tt (poke h p (f (cells h p))).

(** [dcopy_(&N, X, &1, Y, &1)] *)
Definition dcopy_ (N : Z) (X Y : ptr) : Comp unit :=
  if (N <=? 0)%Z then ret tt
  else
    let n := Z.to_nat N in
    need X n ;; need Y n ;;
    x <- peek X ;;
    modify Y (Blas.dcopy n x).

(** [daxpy_(&N, &ALPHA, X, &1, Y, &1)] *)
Definition daxpy_ (N : Z) (ALPHA : R) (X Y : ptr) : Comp unit :=
  if (N <=? 0)%Z then ret tt
  else
    let n := Z.to_nat N in
    need X n ;; need Y n ;;
    x <- peek X ;;
    modify Y (Blas.daxpy n ALPHA x).

(** [ddot_(&N, X, &1, Y, &1)] *)
Definition ddot_ (N : Z) (X Y : ptr) : Comp R :=
  if (N <=? 0)%Z then ret 0
  else
    let n := Z.to_nat N in
    need X n ;; need Y n ;;
    x <- peek X ;;
    y <- peek Y ;;
    ret (Blas.ddot n x y).

(** [dgemv_("T", &M, &N, &ALPHA, A, &LDA, X, &1, &BETA, Y, &1)] *)
Definition dgemv_T_ (M N : Z) (ALPHA : R) (A : ptr) (LDA : Z) (X : ptr)
           (BETA : R) (Y : ptr) : Comp unit :=
  if (M <? 0)%Z then xerbla
  else if (N <? 0)%Z then xerbla
  else if (LDA <? Z.max 1 M)%Z then xerbla
  else if ((M =? 0) || (N =? 0))%Z then ret tt
  else
    let m := Z.to_nat M in
    let n := Z.to_nat N in
    let lda := Z.to_nat LDA in
    need A (matlen m n lda) ;; need X m ;; need Y n ;;
    a <- peek A ;;
    x <- peek X ;;
    modify Y (Blas.dgemv_T m n ALPHA a lda x BETA).

(** [dgemm_("T", "N", &M, &N, &K, &ALPHA, A, &LDA, B, &LDB, &BETA, C, &LDC)] *)
Definition dgemm_TN_ (M N K : Z) (ALPHA : R) (A : ptr) (LDA : Z) (B : ptr)
           (LDB : Z) (BETA : R) (C : ptr) (LDC : Z) : Comp unit :=
  if (M <? 0)%Z then xerbla
  else if (N <? 0)%Z then xerbla
  else if (K <? 0)%Z then xerbla
  else if (LDA <? Z.max 1 K)%Z then xerbla
  else if (LDB <? Z.max 1 K)%Z then xerbla
  else if (LDC <? Z.max 1 M)%Z then xerbla
  else if ((M =? 0) || (N =? 0))%Z then ret tt
  else
    let m := Z.to_nat M in
    let n := Z.to_nat N in
    let k := Z.to_nat K in
    let lda := Z.to_nat LDA in
    let ldb := Z.to_nat LDB in
    let ldc := Z.to_nat LDC in
    need A (matlen k m lda) ;; need B (matlen k n ldb) ;; need C (matlen m n ldc) ;;
    a <- peek A ;;
    b <- peek B ;;
    modify C (fun c => Blas.dgemm_TN m n k ALPHA a lda b ldb BETA c ldc).

(** [dsyrk_("L", "T", &N, &K, &ALPHA, A, &LDA, &BETA, C, &LDC)] *)
Definition dsyrk_LT_ (N K : Z) (ALPHA : R) (A : ptr) (LDA : Z) (BETA : R)
           (C : ptr) (LDC : Z) : Comp unit :=
  if (N <? 0)%Z then xerbla
  else if (K <? 0)%Z then xerbla
  else if (LDA <? Z.max 1 K)%Z then xerbla
  else if (LDC <? Z.max 1 N)%Z then xerbla
  else if (N =? 0)%Z then ret tt
  else
    let n := Z.to_nat N in
    let k := Z.to_nat K in
    let lda := Z.to_nat LDA in
    let ldc := Z.to_nat LDC in
    need A (matlen k n lda) ;; need C (matlen n n ldc) ;;
    a <- peek A ;;
    modify C (fun c => Blas.dsyrk_LT n k ALPHA a lda BETA c ldc).

(** [dtrsm_("L", "L", "N", "N", &M, &N, &ALPHA, A, &LDA, B, &LDB)] *)
Definition dtrsm_LLNN_ (M N : Z) (ALPHA : R) (A : ptr) (LDA : Z) (B : ptr)
           (LDB : Z) : Comp unit :=
  if (M <? 0)%Z then xerbla
  else if (N <? 0)%Z then xerbla
  else if (LDA <? Z.max 1 M)%Z then xerbla
  else if (LDB <? Z.max 1 M)%Z then xerbla
  else if ((M =? 0) || (N =? 0))%Z then ret tt
  else
    let m := Z.to_nat M in
    let n := Z.to_nat N in
    let lda := Z.to_nat LDA in
    let ldb := Z.to_nat LDB in
    need A (matlen m m lda) ;; need B (matlen m n ldb) ;;
    a <- peek A ;;
    modify B (fun b => Blas.dtrsm_LLNN m n ALPHA a lda b ldb).

(** [dtrsm_("L", "L", "T", "N", &M, &N, &ALPHA, A, &LDA, B, &LDB)] *)
Definition dtrsm_LLTN_ (M N : Z) (ALPHA : R) (A : ptr) (LDA : Z) (B : ptr)
           (LDB : Z) : Comp unit :=
  if (M <? 0)%Z then xerbla
  else if (N <? 0)%Z then xerbla
  else if (LDA <? Z.max 1 M)%Z then xerbla
  else if (LDB <? Z.max 1 M)%Z then xerbla
  else if ((M =? 0) || (N =? 0))%Z then ret tt
  else
    let m := Z.to_nat M in
    let n := Z.to_nat N in
    let lda := Z.to_nat LDA in
    let ldb := Z.to_nat LDB in
    need A (matlen m m lda) ;; need B (matlen m n ldb) ;;
    a <- peek A ;;
    modify B (fun b => Blas.dtrsm_LLTN m n ALPHA a lda b ldb).

(** [dtrmv_("L", "N", "N", &N, A, &LDA, X, &1)] *)
Definition dtrmv_LNN_ (N : Z) (A : ptr) (LDA : Z) (X : ptr) : Comp unit :=
  if (N <? 0)%Z then xerbla
  else if (LDA <? Z.max 1 N)%Z then xerbla
  else if (N =? 0)%Z then ret tt
  else
    let n := Z.to_nat N in
    let lda := Z.to_nat LDA in
    need A (matlen n n lda) ;; need X n ;;
    a <- peek A ;;
    modify X (Blas.dtrmv_LNN n a lda).

(** [dpotrf_("L", &N, A, &LDA, &INFO)]; the value is INFO.  The
    factorization is the unblocked DPOTF2; the blocked and recursive
    variants compute the same factor and status in exact arithmetic. *)
Definition dpotrf_L_ (N : Z) (A : ptr) (LDA : Z) : Comp Z :=
  if (N <? 0)%Z then xerbla
  else if (LDA <? Z.max 1 N)%Z then xerbla
  else if (N =? 0)%Z then ret 0%Z
  else
    let n := Z.to_nat N in
    let lda := Z.to_nat LDA in
    need A (matlen n n lda) ;;
    a <- peek A ;;
    let (a', info) := Blas.dpotf2_L n a lda in
    modify A (fun _ => a') ;;
    ret (Z.of_nat info).

(** [dpotrs_("L", &N, &NRHS, A, &LDA, B, &LDB, &INFO)] *)
Definition dpotrs_L_ (N NRHS : Z) (A : ptr) (LDA : Z) (B : ptr) (LDB : Z) : Comp Z :=
  if (N <? 0)%Z then xerbla
  else if (NRHS <? 0)%Z then xerbla
  else if (LDA <? Z.max 1 N)%Z then xerbla
  else if (LDB <? Z.max 1 N)%Z then xerbla
  else if ((N =? 0) || (NRHS =? 0))%Z then ret 0%Z
  else
    dtrsm_LLNN_ N NRHS 1 A LDA B LDB ;;
    dtrsm_LLTN_ N NRHS 1 A LDA B LDB ;;
    ret 0%Z.

(** [dposv_("L", &N, &NRHS, A, &LDA, B, &LDB, &INFO)]; the value is INFO. *)
Definition dposv_L_ (N NRHS : Z) (A : ptr) (LDA : Z) (B : ptr) (LDB : Z) : Comp Z :=
  if (N <? 0)%Z then xerbla
  else if (NRHS <? 0)%Z then xerbla
  else if (LDA <? Z.max 1 N)%Z then xerbla
  else if (LDB <? Z.max 1 N)%Z then xerbla
  else
    info <- dpotrf_L_ N A LDA ;;
    if (info =? 0)%Z then dpotrs_L_ N NRHS A LDA B LDB else ret info.

(* ================================================================== *)
(** * lib_gpr.c *)

(** [#define PI (3.14159265358979)] *)
Definition PI : R := 3.14159265358979.

(** [get_gpr_weights], its three copy loops first. *)
Definition get_gpr_weights_prepare (wt krn_chd krn : ptr) (ns : nat) (y : ptr) : Comp unit :=
  for_ 0 (ns * ns) (fun i => v <- load krn i ;; store krn_chd i v) ;;
  let eps := 1E-7 in
  for_ 0 ns (fun i =>
    v <- load krn_chd (i * ns + i) ;; store krn_chd (i * ns + i) (v + eps)) ;;
  for_ 0 ns (fun i => v <- load y i ;; store wt i v).

Definition get_gpr_weights (wt krn_chd krn : ptr) (ns dim : nat) (y : ptr) : Comp unit :=
  get_gpr_weights_prepare wt krn_chd krn ns y ;;
  let N := to_int ns in
  let LDA := to_int ns in
  let LDB := to_int ns in
  let NRHS := 1%Z in
  info <- dposv_L_ N NRHS krn_chd LDA wt LDB ;;
  assert_ (info =? 0)%Z.

Definition gpr_predict (yp wt krnp : ptr) (np ns : nat) : Comp unit :=
  let M := to_int ns in
  let N := to_int np in
  let LDA := M in
  let alph := 1 in
  let bet := 0 in
  dgemv_T_ M N alph krnp LDA wt bet yp.

Definition get_var_mat (var krnpp krnp krn : ptr) (np ns : nat) : Comp unit :=
  V <- malloc (np * ns) ;;
  let eps := 1E-7 in
  for_ 0 ns (fun i =>
    v <- load krn (i * ns + i) ;; store krn (i * ns + i) (v + eps)) ;;
  for_ 0 (ns * np) (fun i => v <- load krnp i ;; store V i v) ;;
  let N := to_int ns in
  let NRHS := to_int np in
  let LDA := N in
  let LDB := N in
  info <- dposv_L_ N NRHS krn LDA V LDB ;;
  assert_ (info =? 0)%Z ;;
  for_ 0 (np * np) (fun i => v <- load krnpp i ;; store var i v) ;;
  let N := to_int ns in
  let M := to_int np in
  let LDA := N in
  let LDB := N in
  let LDC := M in
  let alph := -1 in
  let bet := 1 in
  dgemm_TN_ M M N alph krnp LDA V LDB bet var LDC ;;
  free V ;;
  assert_ (info =? 0)%Z.

Definition get_var_mat_chd (var krnpp krnp krn_chd : ptr) (np ns : nat) : Comp unit :=
  V <- malloc (np * ns) ;;
  for_ 0 (ns * np) (fun i => v <- load krnp i ;; store V i v) ;;
  let N := to_int ns in
  let NRHS := to_int np in
  let LDA := N in
  let LDB := N in
  let alph := 1 in
  dtrsm_LLNN_ N NRHS alph krn_chd LDA V LDB ;;
  for_ 0 (np * np) (fun i => v <- load krnpp i ;; store var i v) ;;
  let N := to_int ns in
  let M := to_int np in
  let LDC := M in
  let alph := -1 in
  let bet := 1 in
  dsyrk_LT_ M N alph V N bet var LDC ;;
  for_ 0 np (fun i =>
    for_ (i + 1) np (fun j =>
      v <- load var (i * np + j) ;; store var (j * np + i) v)) ;;
  free V.

(** [ret] may be a null pointer. *)
Definition get_log_likelihood (wt y : ptr) (ns : nat) (krn_chd : ptr)
           (ret_ : option ptr) : Comp R :=
  let N := to_int ns in
  ywt <- ddot_ N y wt ;;
  log_det_k <- fold_upto ns (fun i acc =>
                 d <- load krn_chd (i * ns + i) ;; ret (acc + 2 * ln d)) 0 ;;
  let llhd := -0.5 * ywt - 0.5 * log_det_k - 0.5 * INR ns * ln (2 * PI) in
  match ret_ with
  | Some r =>
      store r 0 (-0.5 * ywt) ;;
      store r 1 (- log_det_k) ;;
      store r 2 (-0.5 * INR ns * ln (2 * PI))
  | None => ret tt
  end ;;
  ret llhd.

Section Collaborators.

(** Modelled from the spec: the kernel evaluator (not in [lib_gpr.c]),
    [evaluate_kernel(set_a, set_b, count_a, count_b, dim, hyperparams,
    nparams) -> matrix[count_a x count_b]]; the last argument is the
    offset of an entry in the output buffer. *)
Variable krn_se_ard : list R -> list R -> nat -> nat -> nat -> list R -> nat -> nat -> R.

(** Modelled from the spec: the hyperparameter optimizer (not in
    [lib_gpr.c]), [optimize(hyperparams, training_x, training_y, ns, dim)
    -> hyperparams'], in place. *)
Variable hyper_param_ard : list R -> nat -> list R -> list R -> nat -> nat -> list R.

(** Modelled from the spec: the random source (not in [lib_gpr.c]),
    [fill_standard_normal(buffer, count, seed) -> buffer], deterministic
    given the seed; the last argument is the offset in the buffer. *)
Variable normal_rnd : nat -> Z -> nat -> R.

(** Modelled from the spec: the asymmetric-coordinate variant of the
    kernel evaluator (not in [lib_gpr.c]), which takes two auxiliary
    coordinate arrays besides the two point sets. *)
Variable asymm_covar :
  list R -> list R -> list R -> list R -> nat -> nat -> nat -> list R -> nat -> nat -> R.

(** Modelled from the spec: the hyperparameter optimizer as the
    asymmetric-kernel orchestrator calls it (not in [lib_gpr.c]), with
    the auxiliary coordinates of the training set as a further input;
    in place. *)
Variable hyper_param_ard_asymm :
  list R -> nat -> list R -> list R -> list R -> nat -> nat -> list R.

Definition get_krn_se_ard (krn xa xb : ptr) (na nb dim : nat) (p : ptr) (npar : nat)
  : Comp unit :=
  a <- peek xa ;;
  b <- peek xb ;;
  hp <- peek p ;;
  need krn (na * nb) ;;
  modify krn (upto (na * nb) (fun i k => put k i (krn_se_ard a b na nb dim hp npar i))).

Definition get_hyper_param_ard (p : ptr) (npar : nat) (x y : ptr) (ns dim : nat)
  : Comp unit :=
  a <- peek x ;;
  b <- peek y ;;
  modify p (fun hp => hyper_param_ard hp npar a b ns dim).

Definition fill_normal_rnd (y : ptr) (ns : nat) (seed : Z) : Comp unit :=
  need y ns ;;
  modify y (upto ns (fun i b => put b i (normal_rnd ns seed i))).

Definition get_asymm_covar (krn xa xb axa axb : ptr) (na nb dim : nat) (p : ptr)
           (npar : nat) : Comp unit :=
  a <- peek xa ;;
  b <- peek xb ;;
  aa <- peek axa ;;
  ab <- peek axb ;;
  hp <- peek p ;;
  need krn (na * nb) ;;
  modify krn (upto (na * nb)
                (fun i k => put k i (asymm_covar a b aa ab na nb dim hp npar i))).

Definition get_hyper_param_ard_asymm (p : ptr) (npar : nat) (x ax y : ptr) (ns dim : nat)
  : Comp unit :=
  a <- peek x ;;
  aa <- peek ax ;;
  b <- peek y ;;
  modify p (fun hp => hyper_param_ard_asymm hp npar a aa b ns dim).

(** [var_yp] may be a null pointer. *)
Definition gpr_interpolate (xp yp : ptr) (np : nat) (x y : ptr) (ns dim : nat)
           (p : ptr) (npar : nat) (var_yp : option ptr) (is_opt : bool) : Comp unit :=
  krxx <- malloc (ns * ns) ;;
  lkrxx <- malloc (ns * ns) ;;
  krpx <- malloc (np * ns) ;;
  krpp <- malloc (np * np) ;;
  wt <- malloc ns ;;
  (if is_opt then get_hyper_param_ard p npar x y ns dim else ret tt) ;;
  get_krn_se_ard krxx x x ns ns dim p npar ;;
  get_gpr_weights wt lkrxx krxx ns dim y ;;
  get_krn_se_ard krpx xp x np ns dim p npar ;;
  gpr_predict yp wt krpx np ns ;;
  match var_yp with
  | Some v =>
      get_krn_se_ard krpp xp xp np np dim p npar ;;
      get_var_mat_chd v krpp krpx lkrxx np ns
  | None => ret tt
  end ;;
  free wt ;;
  free krpx ;;
  free lkrxx ;;
  free krxx ;;
  free krpp.

(** [var_yp] may be a null pointer. *)
Definition gpr_interpolate_asymm (xp axp yp : ptr) (np : nat) (x ax y : ptr)
           (ns dim : nat) (p : ptr) (npar : nat) (var_yp : option ptr)
           (is_opt : bool) : Comp unit :=
  krxx <- malloc (ns * ns) ;;
  lkrxx <- malloc (ns * ns) ;;
  krpx <- malloc (np * ns) ;;
  krpp <- malloc (np * np) ;;
  wt <- malloc ns ;;
  (if is_opt then get_hyper_param_ard_asymm p npar x ax y ns dim else ret tt) ;;
  get_asymm_covar krxx x x ax ax ns ns dim p npar ;;
  get_gpr_weights wt lkrxx krxx ns dim y ;;
  get_asymm_covar krpx xp x axp ax np ns dim p npar ;;
  gpr_predict yp wt krpx np ns ;;
  match var_yp with
  | Some v =>
      get_asymm_covar krpp xp xp axp axp np np dim p npar ;;
      get_var_mat_chd v krpp krpx lkrxx np ns
  | None => ret tt
  end ;;
  free wt ;;
  free krpx ;;
  free lkrxx ;;
  free krxx ;;
  free krpp.

(** [var_yp] may be a null pointer. *)
Definition gpr_interpolate_mean (xp yp yp_mn : ptr) (np : nat) (x y y_mn : ptr)
           (ns dim : nat) (p : ptr) (npar : nat) (var_yp : option ptr)
           (is_opt : bool) : Comp unit :=
  krxx <- malloc (ns * ns) ;;
  lkrxx <- malloc (ns * ns) ;;
  krpx <- malloc (np * ns) ;;
  krpp <- malloc (np * np) ;;
  y_res <- malloc ns ;;
  wt <- malloc ns ;;
  let N := to_int ns in
  let ALPHA := -1 in
  dcopy_ N y y_res ;;
  daxpy_ N ALPHA y_mn y_res ;;
  (if is_opt then get_hyper_param_ard p npar x y_res ns dim else ret tt) ;;
  get_krn_se_ard krxx x x ns ns dim p npar ;;
  get_gpr_weights wt lkrxx krxx ns dim y_res ;;
  get_krn_se_ard krpx xp x np ns dim p npar ;;
  gpr_predict yp wt krpx np ns ;;
  let N := to_int np in
  daxpy_ N ALPHA yp_mn yp ;;
  match var_yp with
  | Some v =>
      get_krn_se_ard krpp xp xp np np dim p npar ;;
      get_var_mat_chd v krpp krpx lkrxx np ns
  | None => ret tt
  end ;;
  free wt ;;
  free y_res ;;
  free krpx ;;
  free lkrxx ;;
  free krxx ;;
  free krpp.

(** [mn] may be a null pointer. *)
Definition sample_gp (y : ptr) (mn : option ptr) (kxx : ptr) (ns : nat) (seed : Z)
  : Comp unit :=
  lkxx <- malloc (ns * ns) ;;
  let N := to_int (ns * ns) in
  dcopy_ N kxx lkxx ;;
  for_ 0 ns (fun i =>
    v <- load lkxx (i * ns + i) ;; store lkxx (i * ns + i) (v + 1E-7)) ;;
  let N := to_int ns in
  let LDA := to_int ns in
  INFO <- dpotrf_L_ N lkxx LDA ;;
  assert_ (INFO =? 0)%Z ;;
  fill_normal_rnd y ns seed ;;
  dtrmv_LNN_ N lkxx LDA y ;;
  match mn with
  | Some m => for_ 0 ns (fun i => a <- load y i ;; b <- load m i ;; store y i (a + b))
  | None => ret tt
  end ;;
  free lkxx.

End Collaborators.

(* ================================================================== *)
(** * [get_gpr_weights] in binary64 arithmetic

    The definitions above read a [double] as a real number.  This module
    runs [get_gpr_weights] on IEEE binary64 numbers, rounded to nearest
    even (the primitive floats): the three copy loops, the jitter, and
    DPOSV with the factorization DPOTF2 and the two triangular solves,
    operation by operation in the order of the reference implementation.
    The buffers are passed explicitly; they are distinct and long enough
    for [ns], and [ns] fits an [int]. *)

Module Binary64.

Import PrimFloat.
Local Open Scope float_scope.

Definition get (l : list float) (i : nat) : float := nth i l 0.

Fixpoint put (l : list float) (i : nat) (v : float) : list float :=
  match l, i with
  | [], _ => []
  | _ :: t, O => v :: t
  | x :: t, S k => x :: put t k v
  end.

(** The conversion of an integer to [double], and the real number a
    finite [double] stands for. *)
Definition of_int (z : Z) : float := of_uint63 (Uint63.of_Z z).

Definition value (x : float) : R :=
  match FloatOps.Prim2SF x with
  | SpecFloat.S754_finite s m e =>
      ((if s then -1 else 1) * IZR (Z.pos m) * powerRZ 2 e)%R
  | _ => 0%R
  end.

(** DDOT with stride [lda] over the rows [i] and [j] of the columns
    [< j]: the sum is accumulated from zero, first column first. *)
Definition ddot_rows (lda i j : nat) (A : list float) : float :=
  upto j (fun k t => t + get A (ix lda i k) * get A (ix lda j k)) 0.

(** DPOTF2, UPLO = 'L', column [j]:
    AJJ = A(J,J) - DDOT(J-1, A(J,1), LDA, A(J,1), LDA); the column is
    abandoned when AJJ <= 0 or AJJ is not a number; otherwise DGEMV
    ('N', alpha = -1, beta = 1) and DSCAL by 1/AJJ update the rows below
    the diagonal. *)
Definition potf2_col (n lda j : nat) (A : list float) : list float * bool :=
  let ajj := get A (ix lda j j) - ddot_rows lda j j A in
  if (ajj <=? 0) || is_nan ajj then (put A (ix lda j j) ajj, false)
  else
    let ajj := sqrt ajj in
    let A := put A (ix lda j j) ajj in
    let A := upto j (fun k A =>
               let temp := -1 * get A (ix lda j k) in
               range (S j) n (fun i A =>
                 put A (ix lda i j) (get A (ix lda i j) + temp * get A (ix lda i k))) A) A in
    let A := range (S j) n (fun i A =>
               put A (ix lda i j) (1 / ajj * get A (ix lda i j))) A in
    (A, true).

Fixpoint potf2_from (cnt n lda j : nat) (A : list float) : list float * nat :=
  match cnt with
  | O => (A, O)
  | S c =>
      let (A', ok) := potf2_col n lda j A in
      if ok then potf2_from c n lda (S j) A' else (A', S j)
  end.

Definition dpotf2_L (n : nat) (A : list float) (lda : nat) : list float * nat :=
  potf2_from n n lda O A.

(** DTRSM, 'L', 'L', 'N', 'N', alpha = 1: forward substitution; a zero
    entry of B is skipped. *)
Definition trsm_LLNN_step (m : nat) (A : list float) (lda ldb j k : nat)
           (B : list float) : list float :=
  if get B (ix ldb k j) =? 0 then B
  else
    let B := put B (ix ldb k j) (get B (ix ldb k j) / get A (ix lda k k)) in
    range (S k) m (fun i B =>
      put B (ix ldb i j)
          (get B (ix ldb i j) - get B (ix ldb k j) * get A (ix lda i k))) B.

Definition dtrsm_LLNN (m n : nat) (A : list float) (lda : nat)
           (B : list float) (ldb : nat) : list float :=
  upto n (fun j B => upto m (trsm_LLNN_step m A lda ldb j) B) B.

(** DTRSM, 'L', 'L', 'T', 'N', alpha = 1: back substitution. *)
Definition trsm_LLTN_step (m : nat) (A : list float) (lda ldb j i : nat)
           (B : list float) : list float :=
  let temp := range (S i) m (fun k t => t - get A (ix lda k i) * get B (ix ldb k j))
                    (1 * get B (ix ldb i j)) in
  put B (ix ldb i j) (temp / get A (ix lda i i)).

Definition dtrsm_LLTN (m n : nat) (A : list float) (lda : nat)
           (B : list float) (ldb : nat) : list float :=
  upto n (fun j B => downto m (trsm_LLTN_step m A lda ldb j) B) B.

(** DPOSV, UPLO = 'L': DPOTRF (the unblocked DPOTF2, as in [dpotrf_L_]),
    and DPOTRS when the status is zero.  The value is the buffers A and
    B, and INFO. *)
Definition dposv_L (n nrhs : nat) (A : list float) (lda : nat) (B : list float)
           (ldb : nat) : list float * list float * nat :=
  let (A, info) := dpotf2_L n A lda in
  match info with
  | O => (A, dtrsm_LLTN n nrhs A lda (dtrsm_LLNN n nrhs A lda B ldb) ldb, O)
  | _ => (A, B, info)
  end.

(** [get_gpr_weights], its three copy loops first: the buffers [wt] and
    [krn_chd] on return, or the failed [assert]. *)
Definition get_gpr_weights_prepare (wt krn_chd krn : list float) (ns : nat)
           (y : list float) : list float * list float :=
  let krn_chd := upto (ns * ns) (fun i c => put c i (get krn i)) krn_chd in
  let eps := 1e-7 in
  let krn_chd := upto ns (fun i c => put c (i * ns + i) (get c (i * ns + i) + eps))
                      krn_chd in
  let wt := upto ns (fun i w => put w i (get y i)) wt in
  (wt, krn_chd).

Definition get_gpr_weights (wt krn_chd krn : list float) (ns dim : nat)
           (y : list float) : list float * list float + fault :=
  let (wt, krn_chd) := get_gpr_weights_prepare wt krn_chd krn ns y in
  let '(krn_chd, wt, info) := dposv_L ns 1 krn_chd ns wt ns in
  if Nat.eqb info 0 then inl (wt, krn_chd) else inr AssertFailed.

End Binary64.

(* ================================================================== *)
(** * Vocabulary of the specification *)

(** A heap holding the given buffers at the pointers 0, 1, 2, ... *)
Definition heap_of (bufs : list (list R)) : heap :=
  mkHeap (fun p => nth p bufs []) (length bufs).

(** The jitter of the source. *)
Definition eps : R := 1E-7.

(** The mirroring loops of [get_var_mat_chd]. *)
Definition mirror (var : ptr) (np : nat) : Comp unit :=
  for_ 0 np (fun i =>
    for_ (i + 1) np (fun j =>
      v <- load var (i * np + j) ;; store var (j * np + i) v)).

(** The lower triangle of a column-major buffer, as a matrix. *)
Definition Lw (A : list R) (ld : nat) (i k : nat) : R :=
  if Nat.leb k i then get A (ix ld i k) else 0.

(** The columns of a matrix, as the cells a column loop writes. *)
Definition in_col (m ld : nat) (c t : nat) : Prop :=
  exists i, (i < m)%nat /\ t = ix ld i c.

(** The symmetric matrix whose lower triangle is the lower triangle of a
    column-major buffer: what a routine with UPLO = 'L' takes the buffer
    to be. *)
Definition Asym (A : list R) (ld : nat) (i j : nat) : R :=
  if Nat.leb j i then get A (ix ld i j) else get A (ix ld j i).

Definition symmetric (n : nat) (a : nat -> nat -> R) : Prop :=
  forall i j, (i < n)%nat -> (j < n)%nat -> a i j = a j i.

Definition posdef (n : nat) (a : nat -> nat -> R) : Prop :=
  forall x : nat -> R,
    (exists i, (i < n)%nat /\ x i <> 0) ->
    0 < Rsum n (fun i => Rsum n (fun j => x i * a i j * x j)).

(** [F] holds, in the lower part of its columns [< j], the Cholesky
    factor of the lower triangle of [A], and is [A] everywhere else. *)
Definition factored (n ld j : nat) (A F : list R) : Prop :=
  length F = length A /\
  (forall c i, (c < j)%nat -> (c <= i < n)%nat ->
     Rsum (S c) (fun k => get F (ix ld i k) * get F (ix ld c k)) = get A (ix ld i c)) /\
  (forall c, (c < j)%nat -> 0 < get F (ix ld c c)) /\
  (forall t, (forall c i, (c < j)%nat -> (c <= i < n)%nat -> t <> ix ld i c) ->
     get F t = get A t).

(** The diagonal jitter loop of the source: [K[i*ns + i] += e]. *)
Definition jitter (ns : nat) (e : R) (K : list R) : list R :=
  upto ns (fun i l => put l (i * ns + i) (get l (i * ns + i) + e)) K.

(** [K + e I] for a row-major [ns] x [ns] buffer, as a matrix. *)
Definition jittered (ns : nat) (e : R) (K : list R) (i j : nat) : R :=
  get K (i * ns + j) + (if Nat.eqb i j then e else 0).

(** A row-major [ns] x [ns] buffer of the source, as a matrix. *)
Definition rowmajor (K : list R) (ns : nat) (i j : nat) : R := get K (i * ns + j).

(** The mean loop of [sample_gp]: [y[i] += mn[i]]. *)
Definition add_mean (ns : nat) (m l : list R) : list R :=
  upto ns (fun i l => put l i (get l i + get m i)) l.

(** The draw [fill_normal_rnd] leaves in a buffer. *)
Definition drawn (z : nat -> R) (ns : nat) (l : list R) : list R :=
  upto ns (fun i b => put b i (z i)) l.

(** What [sample_gp] expects of its arguments: valid, distinct buffers
    of the right sizes, and a symmetric covariance that is positive
    definite after the jitter. *)
Definition sample_ready (y : ptr) (mn : option ptr) (kxx : ptr) (ns : nat) (h : heap)
  : Prop :=
  (y < brk h)%nat /\ (kxx < brk h)%nat /\ y <> kxx /\
  (forall m, mn = Some m -> (m < brk h)%nat /\ m <> y /\ (ns <= length (cells h m))%nat) /\
  (ns * ns <= length (cells h kxx))%nat /\ (ns <= length (cells h y))%nat /\
  symmetric ns (rowmajor (cells h kxx) ns) /\
  posdef ns (jittered ns eps (cells h kxx)).

(** A sweep over the columns of a column-major matrix: column [j]
    receives, in its rows [lo j <= i < m], the value [val i j]. *)
Definition sweep_col (m ld : nat) (lo : nat -> nat) (val : nat -> nat -> list R -> R)
           (j : nat) (C : list R) : list R :=
  range (lo j) m (fun i C => put C (ix ld i j) (val i j C)) C.

Definition sweep (m n ld : nat) (lo : nat -> nat) (val : nat -> nat -> list R -> R)
           (C : list R) : list R :=
  upto n (sweep_col m ld lo val) C.

(** A computation that, whenever it returns, has allocated nothing and
    has changed no buffer outside [W]. *)
Definition writes_only {A : Type} (W : ptr -> Prop) (m : Comp A) : Prop :=
  forall h a h', m h = Done a h' ->
    brk h' = brk h /\ forall q, ~ W q -> cells h' q = cells h q.

(** A computation that, whenever it returns, has released the buffer [p]. *)
Definition releases {A : Type} (p : ptr) (m : Comp A) : Prop :=
  forall h a h', m h = Done a h' -> cells h' p = [].

(** A computation that, started with the buffers of [W] allocated, has
    on return changed no other buffer of the caller and has released
    every buffer it allocated. *)
Definition tidy {A : Type} (W : ptr -> Prop) (m : Comp A) : Prop :=
  forall h a h', (forall q, W q -> (q < brk h)%nat) -> m h = Done a h' ->
    (brk h <= brk h')%nat /\
    (forall q, (q < brk h)%nat -> ~ W q -> cells h' q = cells h q) /\
    (forall q, (brk h <= q < brk h')%nat -> cells h' q = []).

(* ================================================================== *)
(** * Buffers and loops: basic facts *)

Lemma get_nil i : get [] i = 0.
Proof. now destruct i. Qed.

Lemma length_put l i v : length (put l i v) = length l.
Proof.
  revert i; induction l as [|x t IH]; intros [|k]; simpl; auto.
Qed.

Lemma get_put_eq l i v : (i < length l)%nat -> get (put l i v) i = v.
Proof.
  unfold get; revert i; induction l as [|x t IH]; intros [|k] H; simpl in *;
    try lia; auto.
  apply IH; lia.
Qed.

Lemma get_put_neq l i j v : i <> j -> get (put l i v) j = get l j.
Proof.
  unfold get; revert i j; induction l as [|x t IH]; intros [|k] [|m] H; simpl;
    try congruence; auto.
Qed.

Lemma get_put l i j v :
  get (put l i v) j = if (Nat.eqb i j && Nat.ltb i (length l))%bool then v else get l j.
Proof.
  destruct (Nat.eqb_spec i j) as [->|Hne]; simpl.
  - destruct (Nat.ltb_spec j (length l)) as [Hlt|Hge].
    + now apply get_put_eq.
    + unfold get. rewrite !nth_overflow; auto. rewrite length_put; lia.
  - now apply get_put_neq.
Qed.

Lemma put_overflow l i v : (length l <= i)%nat -> put l i v = l.
Proof.
  revert i; induction l as [|x t IH]; intros [|k] H; simpl in *; auto; try lia.
  f_equal; apply IH; lia.
Qed.

Lemma buffer_ext (l1 l2 : list R) :
  length l1 = length l2 ->
  (forall i, (i < length l1)%nat -> get l1 i = get l2 i) -> l1 = l2.
Proof.
  intros Hl H. apply (nth_ext l1 l2 0 0); auto.
Qed.

Lemma length_upto_put (f : nat -> list R -> nat) (g : nat -> list R -> R) n l :
  length (upto n (fun i b => put b (f i b) (g i b)) l) = length l.
Proof.
  induction n; simpl; auto. now rewrite length_put.
Qed.

Lemma upto_ext {S} n (f g : nat -> S -> S) s :
  (forall i s, (i < n)%nat -> f i s = g i s) -> upto n f s = upto n g s.
Proof.
  induction n; simpl; intros H; auto.
  rewrite IHn by (intros; apply H; lia). apply H; lia.
Qed.

(** Index arithmetic for column-major matrices. *)
Lemma ix_inj ld i j i' j' :
  (i < ld)%nat -> (i' < ld)%nat -> ix ld i j = ix ld i' j' -> i = i' /\ j = j'.
Proof.
  unfold ix; intros Hi Hi' H.
  assert (j = j') by nia. subst; lia.
Qed.

Lemma ix_lt ld n i j :
  (i < ld)%nat -> (j < n)%nat -> (ix ld i j < ld * n)%nat.
Proof. unfold ix; intros Hi Hj. nia. Qed.

Ltac ix_bound :=
  first [ apply ix_lt; assumption | apply Nat.le_refl | unfold ix; nia ].

Lemma ix_lt_matlen m n ld i j :
  (m <= ld)%nat -> (i < m)%nat -> (j < n)%nat -> (ix ld i j < matlen m n ld)%nat.
Proof.
  unfold ix, matlen; intros.
  destruct (Nat.eqb_spec m 0); [lia|].
  destruct (Nat.eqb_spec n 0); [lia|]. simpl. nia.
Qed.

Lemma to_int_small n : (Z.of_nat n < 2147483648)%Z -> to_int n = Z.of_nat n.
Proof.
  intros H. unfold to_int.
  rewrite Z.mod_small by lia.
  destruct (Z.ltb_spec (Z.of_nat n) 2147483648); lia.
Qed.

(* ================================================================== *)
(** * Finite sums: basic facts *)

Lemma Rsum_ext n f g : (forall i, (i < n)%nat -> f i = g i) -> Rsum n f = Rsum n g.
Proof.
  induction n; simpl; intros H; auto.
  rewrite IHn by (intros; apply H; lia). rewrite H by lia. reflexivity.
Qed.

Lemma Rsum_zero n f : (forall i, (i < n)%nat -> f i = 0) -> Rsum n f = 0.
Proof.
  induction n; simpl; intros H; auto.
  rewrite IHn by (intros; apply H; lia). rewrite H by lia. lra.
Qed.

Lemma Rsum_plus n f g : Rsum n (fun i => f i + g i) = Rsum n f + Rsum n g.
Proof. induction n; simpl; [lra | rewrite IHn; lra]. Qed.

Lemma Rsum_minus n f g : Rsum n (fun i => f i - g i) = Rsum n f - Rsum n g.
Proof. induction n; simpl; [lra | rewrite IHn; lra]. Qed.

Lemma Rsum_scal_l n c f : Rsum n (fun i => c * f i) = c * Rsum n f.
Proof. induction n; simpl; [lra | rewrite IHn; lra]. Qed.

Lemma Rsum_scal_r n c f : Rsum n (fun i => f i * c) = Rsum n f * c.
Proof. induction n; simpl; [lra | rewrite IHn; lra]. Qed.

Lemma Rsum_swap m n (f : nat -> nat -> R) :
  Rsum m (fun i => Rsum n (fun j => f i j)) = Rsum n (fun j => Rsum m (fun i => f i j)).
Proof.
  induction m; simpl.
  - symmetry; apply Rsum_zero; auto.
  - rewrite IHm, <- Rsum_plus. reflexivity.
Qed.

(** A sum whose terms vanish from [m] on. *)
Lemma Rsum_trunc m n f :
  (m <= n)%nat -> (forall i, (m <= i < n)%nat -> f i = 0) -> Rsum n f = Rsum m f.
Proof.
  intros Hle H. induction n.
  - now replace m with O by lia.
  - destruct (Nat.eq_dec m (S n)) as [->|Hne]; auto.
    simpl. rewrite IHn by (try lia; intros; apply H; lia).
    rewrite H by lia. lra.
Qed.

(** A sum with a single non-zero term. *)
Lemma Rsum_single n f k :
  (k < n)%nat -> (forall i, (i < n)%nat -> i <> k -> f i = 0) -> Rsum n f = f k.
Proof.
  intros Hk H. induction n; [lia|].
  simpl. destruct (Nat.eq_dec k n) as [->|Hne].
  - rewrite Rsum_zero by (intros; apply H; lia). lra.
  - rewrite IHn by (try lia; intros; apply H; lia). rewrite (H n) by lia. lra.
Qed.

Lemma Rsum_nonneg n f : (forall i, (i < n)%nat -> 0 <= f i) -> 0 <= Rsum n f.
Proof.
  induction n; simpl; intros H; [lra|].
  assert (0 <= Rsum n f) by (apply IHn; intros; apply H; lia).
  assert (0 <= f n) by (apply H; lia). lra.
Qed.

Lemma Rsum_pos n f k :
  (k < n)%nat -> (forall i, (i < n)%nat -> 0 <= f i) -> 0 < f k -> 0 < Rsum n f.
Proof.
  intros Hk H Hp. induction n; [lia|]. simpl.
  assert (0 <= f n) by (apply H; lia).
  assert (0 <= Rsum n f) by (apply Rsum_nonneg; intros; apply H; lia).
  destruct (Nat.eq_dec k n) as [->|Hne]; [lra|].
  assert (0 < Rsum n f) by (apply IHn; try lia; intros; apply H; lia). lra.
Qed.

(* ================================================================== *)
(** * Running computations *)


Lemma heap_ext h1 h2 :
  (forall q, cells h1 q = cells h2 q) -> brk h1 = brk h2 -> h1 = h2.
Proof.
  destruct h1 as [c1 b1], h2 as [c2 b2]; simpl; intros Hc Hb.
  f_equal; auto. now apply functional_extensionality.
Qed.

Lemma cells_poke h p l q : cells (poke h p l) q = if Nat.eqb q p then l else cells h q.
Proof. reflexivity. Qed.

Lemma cells_poke_eq h p l : cells (poke h p l) p = l.
Proof. simpl. now rewrite Nat.eqb_refl. Qed.

Lemma cells_poke_neq h p l q : q <> p -> cells (poke h p l) q = cells h q.
Proof. intros H; simpl. now rewrite (proj2 (Nat.eqb_neq q p) H). Qed.

Lemma brk_poke h p l : brk (poke h p l) = brk h.
Proof. reflexivity. Qed.

Lemma poke_poke h p a b : poke (poke h p a) p b = poke h p b.
Proof.
  apply heap_ext; auto. intros q; simpl. now destruct (Nat.eqb q p).
Qed.

Lemma poke_self h p : poke h p (cells h p) = h.
Proof.
  apply heap_ext; auto. intros q; simpl.
  destruct (Nat.eqb_spec q p); congruence.
Qed.

Lemma poke_comm h p a q b :
  p <> q -> poke (poke h p a) q b = poke (poke h q b) p a.
Proof.
  intros H. apply heap_ext; auto. intros r; simpl.
  destruct (Nat.eqb_spec r q), (Nat.eqb_spec r p); congruence.
Qed.

Lemma bind_Done {A B} (m : Comp A) (k : A -> Comp B) h b h' :
  bind m k h = Done b h' -> exists a h1, m h = Done a h1 /\ k a h1 = Done b h'.
Proof.
  unfold bind. destruct (m h) as [a h1|f]; [eauto | discriminate].
Qed.

Lemma bind_run {A B} (m : Comp A) (k : A -> Comp B) h a h1 :
  m h = Done a h1 -> bind m k h = k a h1.
Proof. unfold bind; intros ->; reflexivity. Qed.

Lemma bind_Fatal {A B} (m : Comp A) (k : A -> Comp B) h f :
  m h = Fatal f -> bind m k h = Fatal f.
Proof. unfold bind; intros ->; reflexivity. Qed.

Lemma load_ok p i h :
  (i < length (cells h p))%nat -> load p i h = Done (get (cells h p) i) h.
Proof.
  intros H; unfold load. now rewrite (proj2 (Nat.ltb_lt _ _) H).
Qed.

Lemma store_ok p i v h :
  (i < length (cells h p))%nat ->
  store p i v h = Done tt (poke h p (put (cells h p) i v)).
Proof.
  intros H; unfold store. now rewrite (proj2 (Nat.ltb_lt _ _) H).
Qed.

Lemma load_Done p i h v h' :
  load p i h = Done v h' ->
  h' = h /\ v = get (cells h p) i /\ (i < length (cells h p))%nat.
Proof.
  unfold load. destruct (Nat.ltb_spec i (length (cells h p))); [|discriminate].
  intros E; injection E as <- <-; auto.
Qed.

Lemma store_Done p i v h u h' :
  store p i v h = Done u h' ->
  h' = poke h p (put (cells h p) i v) /\ (i < length (cells h p))%nat.
Proof.
  unfold store. destruct (Nat.ltb_spec i (length (cells h p))); [|discriminate].
  intros E; injection E as <-; auto.
Qed.

Lemma need_ok p n h : (n <= length (cells h p))%nat -> need p n h = Done tt h.
Proof.
  intros H; unfold need. now rewrite (proj2 (Nat.leb_le _ _) H).
Qed.

Lemma for_from_0 n body : for_ 0 n body = for_upto n body.
Proof. unfold for_. now rewrite Nat.sub_0_r. Qed.

(** A loop that only rewrites the buffer [p], one step [f k] at a time. *)
Lemma for_upto_buffer p (f : nat -> list R -> list R) n body h :
  (forall k l, (k < n)%nat -> length l = length (cells h p) ->
     body k (poke h p l) = Done tt (poke h p (f k l)) /\ length (f k l) = length l) ->
  for_upto n body h = Done tt (poke h p (upto n f (cells h p))) /\
  length (upto n f (cells h p)) = length (cells h p).
Proof.
  intros Hb. induction n; simpl.
  - unfold ret. now rewrite poke_self.
  - destruct IHn as (IH1 & IH2); [intros k l Hk; apply Hb; lia|].
    rewrite (bind_run _ _ _ _ _ IH1).
    destruct (Hb n (upto n f (cells h p)) ltac:(lia) IH2) as (H1 & H2).
    split; [exact H1 | congruence].
Qed.

(** Success of a loop transports an invariant. *)
Lemma for_upto_inv (I : nat -> heap -> Prop) n body h h' :
  for_upto n body h = Done tt h' ->
  I O h ->
  (forall k h1 h2, (k < n)%nat -> I k h1 -> body k h1 = Done tt h2 -> I (S k) h2) ->
  I n h'.
Proof.
  revert h'. induction n; simpl; intros h' Hr H0 Hs.
  - unfold ret in Hr. now injection Hr as <-.
  - apply bind_Done in Hr as ([] & h1 & Hr1 & Hr2).
    apply (Hs n h1 h'); auto.
    apply IHn; auto. intros k h2 h3 Hk; apply Hs; lia.
Qed.

Lemma fold_upto_pure {A} n (body : nat -> A -> Comp A) (g : nat -> A -> A) a h :
  (forall k b, (k < n)%nat -> body k b h = Done (g k b) h) ->
  fold_upto n body a h = Done (upto n g a) h.
Proof.
  intros Hb. induction n; simpl; auto.
  rewrite (bind_run _ _ _ _ _ (IHn (fun k b Hk => Hb k b (Nat.lt_lt_succ_r _ _ Hk)))).
  apply Hb; lia.
Qed.

Lemma upto_accumulate n (f : nat -> R) c :
  upto n (fun i acc => acc + c * f i) 0 = c * Rsum n f.
Proof. induction n; simpl; [lra | rewrite IHn; lra]. Qed.

Lemma diag_lt ns i : (i < ns)%nat -> (i * ns + i < ns * ns)%nat.
Proof. nia. Qed.

(* ================================================================== *)
(** * The marginal log-likelihood *)

(** C5. For weights [wt], targets [y], [ns] samples and a factor whose
    diagonal is positive, [get_log_likelihood] returns
    -1/2 (y . wt) - 1/2 log_det - 1/2 ns log(2 PI) with
    log_det = 2 * sum of the logarithms of the diagonal of the factor;
    when [ret] is supplied it receives -1/2 (y . wt), -log_det (not
    halved) and -1/2 ns log(2 PI), so that the first plus half the second
    plus the third is the returned score; nothing else is written. *)
Theorem get_log_likelihood_score :
  forall (wt y : ptr) (ns : nat) (krn_chd : ptr) (ret_ : option ptr) (h : heap),
    (Z.of_nat ns < 2147483648)%Z ->
    (ns <= length (cells h wt))%nat ->
    (ns <= length (cells h y))%nat ->
    (ns * ns <= length (cells h krn_chd))%nat ->
    (forall i, (i < ns)%nat -> 0 < get (cells h krn_chd) (i * ns + i)) ->
    (forall r, ret_ = Some r -> (3 <= length (cells h r))%nat) ->
    let ywt := Rsum ns (fun i => get (cells h y) i * get (cells h wt) i) in
    let log_det := 2 * Rsum ns (fun i => ln (get (cells h krn_chd) (i * ns + i))) in
    let score := - (1/2) * ywt - (1/2) * log_det - (1/2) * INR ns * ln (2 * PI) in
    exists h',
      get_log_likelihood wt y ns krn_chd ret_ h = Done score h' /\
      match ret_ with
      | Some r =>
          get (cells h' r) 0 = - (1/2) * ywt /\
          get (cells h' r) 1 = - log_det /\
          get (cells h' r) 2 = - (1/2) * INR ns * ln (2 * PI) /\
          get (cells h' r) 0 + (1/2) * get (cells h' r) 1 + get (cells h' r) 2 = score /\
          (forall q, q <> r -> cells h' q = cells h q)
      | None => h' = h
      end.
Proof.
  intros wt y ns kc ret_ h Hns Hwt Hy Hkc Hpos Hret ywt log_det score.
  assert (Hdot : ddot_ (to_int ns) y wt h = Done ywt h).
  { unfold ddot_. rewrite to_int_small by assumption.
    destruct (Z.leb_spec (Z.of_nat ns) 0) as [Hz|Hz].
    - assert (ns = O) by lia. subst ns. reflexivity.
    - rewrite Nat2Z.id.
      rewrite (bind_run _ _ _ _ _ (need_ok y ns h Hy)).
      rewrite (bind_run _ _ _ _ _ (need_ok wt ns h Hwt)). reflexivity. }
  assert (Hld : fold_upto ns (fun i acc =>
                   d <- load kc (i * ns + i) ;; ret (acc + 2 * ln d)) 0 h
                = Done log_det h).
  { rewrite (fold_upto_pure ns _
               (fun i acc => acc + 2 * ln (get (cells h kc) (i * ns + i)))).
    - now rewrite (upto_accumulate ns (fun i => ln (get (cells h kc) (i * ns + i)))).
    - intros k b Hk. rewrite (bind_run _ _ _ _ _ (load_ok kc (k * ns + k) h
                                (Nat.lt_le_trans _ _ _ (diag_lt ns k Hk) Hkc))).
      reflexivity. }
  unfold get_log_likelihood.
  rewrite (bind_run _ _ _ _ _ Hdot).
  rewrite (bind_run _ _ _ _ _ Hld).
  assert (Es : -0.5 * ywt - 0.5 * log_det - 0.5 * INR ns * ln (2 * PI) = score)
    by (unfold score; lra).
  destruct ret_ as [r|].
  - specialize (Hret r eq_refl).
    set (v0 := -0.5 * ywt). set (v1 := - log_det).
    set (v2 := -0.5 * INR ns * ln (2 * PI)).
    set (h1 := poke h r (put (cells h r) 0 v0)).
    set (h2 := poke h1 r (put (cells h1 r) 1 v1)).
    set (h3 := poke h2 r (put (cells h2 r) 2 v2)).
    assert (L1 : length (cells h1 r) = length (cells h r))
      by (unfold h1; rewrite cells_poke_eq; apply length_put).
    assert (L2 : length (cells h2 r) = length (cells h r))
      by (unfold h2; rewrite cells_poke_eq, length_put; exact L1).
    assert (S1 : store r 0 v0 h = Done tt h1) by (apply store_ok; lia).
    assert (S2 : store r 1 v1 h1 = Done tt h2) by (apply store_ok; lia).
    assert (S3 : store r 2 v2 h2 = Done tt h3) by (apply store_ok; lia).
    exists h3. split.
    + rewrite (bind_run _ _ _ _ _
                 (eq_trans (bind_run _ _ _ _ _ S1)
                    (eq_trans (bind_run _ _ _ _ _ S2) S3))).
      unfold ret. f_equal. exact Es.
    + assert (G0 : get (cells h3 r) 0 = v0).
      { unfold h3. rewrite cells_poke_eq, get_put_neq by lia.
        unfold h2. rewrite cells_poke_eq, get_put_neq by lia.
        unfold h1. rewrite cells_poke_eq. apply get_put_eq; lia. }
      assert (G1 : get (cells h3 r) 1 = v1).
      { unfold h3. rewrite cells_poke_eq, get_put_neq by lia.
        unfold h2. rewrite cells_poke_eq. apply get_put_eq; lia. }
      assert (G2 : get (cells h3 r) 2 = v2).
      { unfold h3. rewrite cells_poke_eq. apply get_put_eq; lia. }
      rewrite G0, G1, G2. unfold v0, v1, v2, score.
      repeat split; try lra.
      intros q Hq. unfold h3, h2, h1. now rewrite !cells_poke_neq.
  - exists h. split; auto.
    rewrite (bind_run _ _ _ _ _ (eq_refl : ret tt h = Done tt h)).
    unfold ret. f_equal. exact Es.
Qed.

Lemma get_log_likelihood_score_witness :
  exists h',
    get_log_likelihood 0%nat 1%nat 1%nat 2%nat (Some 3%nat) (heap_of [[3]; [2]; [1]; [0; 0; 0]])
    = Done (- (1/2) * (2 * 3) - (1/2) * (2 * (0 + ln 1)) - (1/2) * 1 * ln (2 * PI)) h'.
Proof.
  destruct (get_log_likelihood_score 0%nat 1%nat 1%nat 2%nat (Some 3%nat)
              (heap_of [[3]; [2]; [1]; [0; 0; 0]])) as (h' & Hr & _).
  - lia.
  - simpl; lia.
  - simpl; lia.
  - simpl; lia.
  - intros i Hi. assert (i = O) by lia. subst i. simpl. unfold get; simpl. lra.
  - intros r Hr. injection Hr as <-. simpl; lia.
  - exists h'. rewrite Hr. f_equal. simpl. unfold get; simpl. lra.
Defined.

(* ================================================================== *)
(** * The posterior covariance from the Cholesky factor: symmetry *)

Lemma cell_inj n a b c d :
  (a < n)%nat -> (c < n)%nat -> (b * n + a = d * n + c)%nat -> a = c /\ b = d.
Proof.
  intros Ha Hc H. assert (b = d) by nia. subst; lia.
Qed.

Lemma mirror_inner var np i h h' :
  (i < np)%nat ->
  for_ (i + 1) np (fun j => v <- load var (i * np + j) ;; store var (j * np + i) v) h
  = Done tt h' ->
  (forall a b, (a < i)%nat -> (a < b < np)%nat ->
     get (cells h var) (b * np + a) = get (cells h var) (a * np + b)) ->
  forall a b, (a < S i)%nat -> (a < b < np)%nat ->
     get (cells h' var) (b * np + a) = get (cells h' var) (a * np + b).
Proof.
  intros Hi Hrun Hprev.
  unfold for_ in Hrun.
  pose (J := fun (d : nat) (g : heap) =>
    forall a b, (a < b < np)%nat -> (a < i \/ (a = i /\ b < i + 1 + d))%nat ->
      get (cells g var) (b * np + a) = get (cells g var) (a * np + b)).
  assert (HJ : J (np - (i + 1))%nat h').
  { apply (for_upto_inv J _ _ _ _ Hrun).
    - intros a b Hab [Ha|[Ha Hb]]; [now apply Hprev | lia].
    - intros d h1 h2 Hd HJ1 Hbody.
      apply bind_Done in Hbody as (v & h1' & Hl & Hs).
      apply load_Done in Hl as (-> & -> & _).
      apply store_Done in Hs as (-> & Hlen).
      intros a b Hab Hcase. rewrite cells_poke_eq.
      set (j := (i + 1 + d)%nat) in *.
      assert (Hj : (i < j < np)%nat) by (unfold j; lia).
      assert (Hsrc : (a * np + b)%nat <> (j * np + i)%nat).
      { intros E. apply cell_inj in E; lia. }
      destruct (Nat.eq_dec (b * np + a) (j * np + i)) as [E|E].
      + rewrite E, get_put_eq by exact Hlen.
        rewrite get_put_neq by congruence.
        apply cell_inj in E as [-> ->]; try lia. reflexivity.
      + rewrite !get_put_neq by congruence.
        apply HJ1; auto.
        destruct Hcase as [Ha|[-> Hb]]; [now left | right; split; auto].
        assert (b <> j).
        { intros ->. apply E. reflexivity. }
        unfold j in *; lia. }
  intros a b Ha Hab. apply HJ; auto.
  destruct (Nat.eq_dec a i); [right | left]; lia.
Qed.

Lemma mirror_symmetric var np h h' :
  mirror var np h = Done tt h' ->
  forall i j, (i < np)%nat -> (j < np)%nat ->
    get (cells h' var) (i * np + j) = get (cells h' var) (j * np + i).
Proof.
  unfold mirror. rewrite for_from_0. intros Hrun.
  assert (HI : forall a b, (a < np)%nat -> (a < b < np)%nat ->
            get (cells h' var) (b * np + a) = get (cells h' var) (a * np + b)).
  { apply (for_upto_inv
             (fun k g => forall a b, (a < k)%nat -> (a < b < np)%nat ->
                get (cells g var) (b * np + a) = get (cells g var) (a * np + b))
             _ _ _ _ Hrun).
    - intros; lia.
    - intros k h1 h2 Hk Hprev Hbody. eapply mirror_inner; eauto. }
  intros i j Hi Hj.
  destruct (Nat.lt_trichotomy i j) as [Hlt|[->|Hgt]]; auto.
  symmetry. apply HI; lia.
Qed.

(** C6. Whenever [get_var_mat_chd] returns, its output matrix is exactly
    symmetric: var[i*np + j] = var[j*np + i] for all i, j < np. *)
Theorem get_var_mat_chd_symmetric :
  forall (var krnpp krnp krn_chd : ptr) (np ns : nat) (h h' : heap),
    get_var_mat_chd var krnpp krnp krn_chd np ns h = Done tt h' ->
    forall i j, (i < np)%nat -> (j < np)%nat ->
      get (cells h' var) (i * np + j) = get (cells h' var) (j * np + i).
Proof.
  intros var krnpp krnp kc np ns h h' Hrun i j Hi Hj.
  unfold get_var_mat_chd in Hrun.
  apply bind_Done in Hrun as (V & h0 & _ & Hrun).
  apply bind_Done in Hrun as (? & h1 & _ & Hrun).
  apply bind_Done in Hrun as (? & h2 & _ & Hrun).
  apply bind_Done in Hrun as (? & h3 & _ & Hrun).
  apply bind_Done in Hrun as (? & h4 & _ & Hrun).
  apply bind_Done in Hrun as ([] & h5 & Hmir & Hfree).
  injection Hfree as <-.
  rewrite cells_poke.
  destruct (Nat.eqb var V); [now rewrite !get_nil|].
  now apply (mirror_symmetric var np h4 h5).
Qed.

Lemma get_var_mat_chd_symmetric_witness :
  exists h',
    get_var_mat_chd 0%nat 1%nat 2%nat 3%nat 2 1
      (heap_of [[0; 0; 0; 0]; [5; 7; 8; 6]; [1; 1]; [2]]) = Done tt h' /\
    get (cells h' 0%nat) (0 * 2 + 1) = get (cells h' 0%nat) (1 * 2 + 0).
Proof.
  eexists. split.
  - vm_compute. reflexivity.
  - apply (get_var_mat_chd_symmetric 0%nat 1%nat 2%nat 3%nat 2 1
             (heap_of [[0; 0; 0; 0]; [5; 7; 8; 6]; [1; 1]; [2]]));
      [vm_compute; reflexivity | lia | lia].
Defined.

(* ================================================================== *)
(** * Loops over a buffer

    [step j] writes the cells [W j] of the buffer and no other. *)

Section BufferLoops.

Variable step : nat -> list R -> list R.
Variable W : nat -> nat -> Prop.
Variable n : nat.
Hypothesis step_length : forall j l, (j < n)%nat -> length (step j l) = length l.
Hypothesis step_frame :
  forall j l t, (j < n)%nat -> ~ W j t -> get (step j l) t = get l t.

Lemma upto_length k l : (k <= n)%nat -> length (upto k step l) = length l.
Proof.
  induction k; simpl; intros Hk; auto.
  rewrite step_length by lia. apply IHk; lia.
Qed.

Lemma upto_frame k l t :
  (k <= n)%nat -> (forall j, (j < k)%nat -> ~ W j t) ->
  get (upto k step l) t = get l t.
Proof.
  induction k; simpl; intros Hk H; auto.
  rewrite step_frame by (try lia; apply H; lia).
  apply IHk; [lia | intros; apply H; lia].
Qed.

Hypothesis W_disjoint : forall j j' t, W j t -> W j' t -> j = j'.

(** The value of a cell written by [step j] is the one [step j] left. *)
Lemma upto_block k l j t :
  (k <= n)%nat -> (j < k)%nat -> W j t ->
  get (upto k step l) t = get (step j (upto j step l)) t.
Proof.
  induction k; simpl; intros Hk Hj Hw; [lia|].
  destruct (Nat.eq_dec j k) as [->|Hne]; auto.
  rewrite step_frame; [apply IHk; auto; lia | lia |].
  intros Hw'. apply Hne. eapply W_disjoint; eauto.
Qed.

Lemma downto_length k l : (k <= n)%nat -> length (downto k step l) = length l.
Proof.
  revert l; induction k; simpl; intros l Hk; auto.
  rewrite IHk by lia. apply step_length; lia.
Qed.

Lemma downto_frame k l t :
  (k <= n)%nat -> (forall j, (j < k)%nat -> ~ W j t) ->
  get (downto k step l) t = get l t.
Proof.
  revert l; induction k; simpl; intros l Hk H; auto.
  rewrite IHk by (try lia; intros; apply H; lia).
  apply step_frame; [lia | apply H; lia].
Qed.

End BufferLoops.

(** A loop of single writes [l[idx i] = val i l]. *)
Section PutLoops.

Variable idx : nat -> nat.
Variable val : nat -> list R -> R.
Variable n : nat.
Hypothesis idx_inj : forall i i', (i < n)%nat -> (i' < n)%nat -> idx i = idx i' -> i = i'.

Let pstep := fun (i : nat) (l : list R) => put l (idx i) (val i l).

Lemma pstep_length j l : (j < n)%nat -> length (pstep j l) = length l.
Proof. intros _; apply length_put. Qed.

Lemma pstep_frame j l t : (j < n)%nat -> ~ (t = idx j) -> get (pstep j l) t = get l t.
Proof. intros _ H. unfold pstep. apply get_put_neq. congruence. Qed.

Lemma upto_put_length_below k l : (k <= n)%nat -> length (upto k pstep l) = length l.
Proof. apply (upto_length pstep n pstep_length). Qed.

Lemma upto_put_length l : length (upto n pstep l) = length l.
Proof. apply upto_put_length_below; lia. Qed.

Lemma upto_put_frame_below k l t :
  (k <= n)%nat -> (forall i, (i < k)%nat -> t <> idx i) ->
  get (upto k pstep l) t = get l t.
Proof.
  intros Hk H.
  apply (upto_frame pstep (fun i t => t = idx i) n pstep_frame k l t Hk).
  intros j Hj E. now apply (H j).
Qed.

Lemma upto_put_frame l t :
  (forall i, (i < n)%nat -> t <> idx i) -> get (upto n pstep l) t = get l t.
Proof. apply upto_put_frame_below; lia. Qed.

Lemma upto_put_get l i :
  (i < n)%nat -> (idx i < length l)%nat ->
  get (upto n pstep l) (idx i) = val i (upto i pstep l).
Proof.
  intros Hi Hlen.
  assert (Hd : forall j j' t,
             ((j < n)%nat /\ t = idx j) -> ((j' < n)%nat /\ t = idx j') -> j = j').
  { intros j j' t [Hj ->] [Hj' E]. now apply idx_inj. }
  assert (Hf : forall j l t, (j < n)%nat -> ~ ((j < n)%nat /\ t = idx j) ->
                             get (pstep j l) t = get l t).
  { intros j l' t Hj Hw. apply pstep_frame; auto. }
  rewrite (upto_block pstep (fun i t => (i < n)%nat /\ t = idx i) n Hf Hd
             n l i (idx i) (Nat.le_refl n) Hi (conj Hi eq_refl)).
  unfold pstep at 1. apply get_put_eq.
  rewrite upto_put_length_below; lia.
Qed.

Lemma downto_put_length l : length (downto n pstep l) = length l.
Proof. apply (downto_length pstep n pstep_length); lia. Qed.

Lemma downto_put_frame l t :
  (forall i, (i < n)%nat -> t <> idx i) -> get (downto n pstep l) t = get l t.
Proof.
  intros H.
  apply (downto_frame pstep (fun i t => t = idx i) n pstep_frame n l t (Nat.le_refl n)).
  intros j Hj E. now apply (H j).
Qed.

End PutLoops.

(* ================================================================== *)
(** * What the level-1 and level-2 routines compute *)

Lemma length_dcopy n x y : length (Blas.dcopy n x y) = length y.
Proof. apply (upto_put_length (fun i => i) (fun i _ => get x i)). Qed.

Lemma get_dcopy n x y i :
  (n <= length y)%nat ->
  get (Blas.dcopy n x y) i = if Nat.ltb i n then get x i else get y i.
Proof.
  intros Hn. unfold Blas.dcopy.
  destruct (Nat.ltb_spec i n) as [Hi|Hi].
  - rewrite (upto_put_get (fun i => i) (fun i _ => get x i) n) by (auto; lia).
    reflexivity.
  - apply (upto_put_frame (fun i => i) (fun i _ => get x i) n). intros; lia.
Qed.

(** Copying a whole buffer onto one of the same length. *)
Lemma dcopy_full n x y : length x = n -> length y = n -> Blas.dcopy n x y = x.
Proof.
  intros Hx Hy. apply buffer_ext.
  - rewrite length_dcopy; congruence.
  - intros i Hi. rewrite length_dcopy in Hi.
    rewrite get_dcopy by lia.
    destruct (Nat.ltb_spec i n); auto; lia.
Qed.

Lemma length_daxpy n a x y : length (Blas.daxpy n a x y) = length y.
Proof. apply (upto_put_length (fun i => i) (fun i l => get l i + a * get x i)). Qed.

Lemma get_daxpy n a x y i :
  (n <= length y)%nat ->
  get (Blas.daxpy n a x y) i = if Nat.ltb i n then get y i + a * get x i else get y i.
Proof.
  intros Hn. unfold Blas.daxpy.
  destruct (Nat.ltb_spec i n) as [Hi|Hi].
  - rewrite (upto_put_get (fun i => i) (fun i l => get l i + a * get x i) n)
      by (auto; lia).
    rewrite (upto_put_frame_below (fun i => i) (fun i l => get l i + a * get x i) n)
      by (intros; lia).
    reflexivity.
  - apply (upto_put_frame (fun i => i) (fun i l => get l i + a * get x i) n).
    intros; lia.
Qed.

Lemma length_dgemv_T m n alpha A lda x beta y :
  length (Blas.dgemv_T m n alpha A lda x beta y) = length y.
Proof.
  unfold Blas.dgemv_T.
  rewrite (upto_put_length (fun j => j)
             (fun j l => get l j + alpha * Rsum m (fun i => get A (ix lda i j) * get x i))).
  apply (upto_put_length (fun i => i) (fun i l => beta * get l i)).
Qed.

Lemma get_dgemv_T m n alpha A lda x beta y j :
  (n <= length y)%nat -> (j < n)%nat ->
  get (Blas.dgemv_T m n alpha A lda x beta y) j
  = beta * get y j + alpha * Rsum m (fun i => get A (ix lda i j) * get x i).
Proof.
  intros Hn Hj. unfold Blas.dgemv_T.
  set (y1 := upto n (fun i l => put l i (beta * get l i)) y).
  assert (L1 : length y1 = length y)
    by apply (upto_put_length (fun i => i) (fun i l => beta * get l i)).
  rewrite (upto_put_get (fun j => j)
             (fun j l => get l j + alpha * Rsum m (fun i => get A (ix lda i j) * get x i)) n)
    by (auto; lia).
  rewrite (upto_put_frame_below (fun j => j)
             (fun j l => get l j + alpha * Rsum m (fun i => get A (ix lda i j) * get x i)) n)
    by (intros; lia).
  unfold y1.
  rewrite (upto_put_get (fun i => i) (fun i l => beta * get l i) n) by (auto; lia).
  rewrite (upto_put_frame_below (fun i => i) (fun i l => beta * get l i) n)
    by (intros; lia).
  reflexivity.
Qed.


(** Loops [for (i = lo; i < hi; i++) l[idx i] = val i l]. *)
Section RangePut.

Variable idx : nat -> nat.
Variable val : nat -> list R -> R.
Variables lo hi : nat.
Hypothesis idx_inj :
  forall i i', (lo <= i < hi)%nat -> (lo <= i' < hi)%nat -> idx i = idx i' -> i = i'.

Let body := fun (i : nat) (l : list R) => put l (idx i) (val i l).

Lemma range_put_length l : length (range lo hi body l) = length l.
Proof.
  unfold range.
  apply (upto_put_length (fun d => idx (lo + d)) (fun d => val (lo + d))).
Qed.

Lemma range_put_frame l t :
  (forall i, (lo <= i < hi)%nat -> t <> idx i) -> get (range lo hi body l) t = get l t.
Proof.
  intros H. unfold range.
  apply (upto_put_frame (fun d => idx (lo + d)) (fun d => val (lo + d))).
  intros d Hd. apply H; lia.
Qed.

Lemma range_put_get l i :
  (lo <= i < hi)%nat -> (idx i < length l)%nat ->
  (forall l', length l' = length l ->
     (forall t, (forall i', (lo <= i' < i)%nat -> t <> idx i') -> get l' t = get l t) ->
     val i l' = val i l) ->
  get (range lo hi body l) (idx i) = val i l.
Proof.
  intros Hi Hlen Hval. unfold range.
  replace i with (lo + (i - lo))%nat at 1 by lia.
  rewrite (upto_put_get (fun d => idx (lo + d)) (fun d => val (lo + d)) (hi - lo)).
  - replace (lo + (i - lo))%nat with i by lia.
    apply Hval.
    + apply (upto_put_length_below (fun d => idx (lo + d)) (fun d => val (lo + d))
               (hi - lo)); lia.
    + intros t Ht.
      apply (upto_put_frame_below (fun d => idx (lo + d)) (fun d => val (lo + d))
               (hi - lo)); [lia|].
      intros d Hd. apply Ht; lia.
  - intros d d' Hd Hd' E.
    assert (lo + d = lo + d')%nat by (apply idx_inj; auto; lia). lia.
  - lia.
  - replace (lo + (i - lo))%nat with i by lia. exact Hlen.
Qed.

End RangePut.

Lemma range_from_0 {S} n (body : nat -> S -> S) s : range 0 n body s = upto n body s.
Proof. unfold range. now rewrite Nat.sub_0_r. Qed.

(** Sweeps over the columns of a matrix: column [j] receives, in its rows
    [lo j <= i < m], a value computed from the buffer before the sweep. *)
Section Sweep.

Variables m n ld : nat.
Variable lo : nat -> nat.
Variable val : nat -> nat -> list R -> R.
Hypothesis Hld : (m <= ld)%nat.

Local Abbreviation sweep_col := (sweep_col m ld lo val).
Local Abbreviation sweep := (sweep m n ld lo val).

Lemma sweep_col_length j C : length (sweep_col j C) = length C.
Proof. apply (range_put_length (fun i => ix ld i j) (fun i => val i j)). Qed.

Lemma sweep_col_frame j C t :
  (forall i, (lo j <= i < m)%nat -> t <> ix ld i j) -> get (sweep_col j C) t = get C t.
Proof. apply (range_put_frame (fun i => ix ld i j) (fun i => val i j)). Qed.

Lemma sweep_length C : length (sweep C) = length C.
Proof.
  clear Hld. apply (upto_length sweep_col n); auto.
  intros; apply sweep_col_length.
Qed.

Lemma sweep_frame_below k C t :
  (k <= n)%nat ->
  (forall i j, (j < k)%nat -> (lo j <= i < m)%nat -> t <> ix ld i j) ->
  get (upto k sweep_col C) t = get C t.
Proof.
  clear Hld. intros Hk H.
  apply (upto_frame sweep_col
           (fun j t => exists i, (lo j <= i < m)%nat /\ t = ix ld i j) n); auto.
  - intros j l t' Hj Hw. apply sweep_col_frame.
    intros i Hi E. apply Hw; eauto.
  - intros j Hj (i & Hi & E). now apply (H i j).
Qed.

Lemma sweep_frame C t :
  (forall i j, (j < n)%nat -> (lo j <= i < m)%nat -> t <> ix ld i j) ->
  get (sweep C) t = get C t.
Proof. clear Hld. apply sweep_frame_below; lia. Qed.

(** [val i j] reads the buffer only where the sweep has not written yet. *)
Hypothesis val_local :
  forall i j C C', (j < n)%nat -> (lo j <= i < m)%nat ->
    length C' = length C ->
    (forall t, (forall i' j', (j' < n)%nat -> (lo j' <= i' < m)%nat ->
                  (j' < j \/ (j' = j /\ i' < i))%nat -> t <> ix ld i' j') ->
               get C' t = get C t) ->
    val i j C' = val i j C.

Lemma sweep_get C i j :
  (matlen m n ld <= length C)%nat -> (j < n)%nat -> (lo j <= i < m)%nat ->
  get (sweep C) (ix ld i j) = val i j C.
Proof.
  intros Hlen Hj Hi. unfold sweep.
  assert (Hin : (ix ld i j < length C)%nat).
  { eapply Nat.lt_le_trans; [apply (ix_lt_matlen m n ld)|exact Hlen]; lia. }
  assert (Hf : forall j l t, (j < n)%nat ->
            ~ (exists i, (lo j <= i < m)%nat /\ t = ix ld i j) ->
            get (sweep_col j l) t = get l t).
  { intros j0 l t Hj0 Hw. apply sweep_col_frame.
    intros i0 Hi0 E. apply Hw; eauto. }
  assert (Hd : forall j j' t,
            (exists i, (lo j <= i < m)%nat /\ t = ix ld i j) ->
            (exists i, (lo j' <= i < m)%nat /\ t = ix ld i j') -> j = j').
  { intros j1 j2 t (i1 & H1 & ->) (i2 & H2 & E).
    apply ix_inj in E; lia. }
  rewrite (upto_block sweep_col _ n Hf Hd n C j (ix ld i j) (Nat.le_refl n) Hj
             (ex_intro _ i (conj Hi eq_refl))).
  set (C1 := upto j sweep_col C).
  assert (L1 : length C1 = length C).
  { apply (upto_length sweep_col n); [intros; apply sweep_col_length | lia]. }
  unfold sweep_col at 1.
  rewrite (range_put_get (fun i => ix ld i j) (fun i => val i j)).
  - apply val_local; auto.
    intros t Ht. apply sweep_frame_below; [lia|].
    intros i' j' Hj' Hi'. apply Ht; auto; lia.
  - intros i1 i2 H1 H2 E. apply ix_inj in E; lia.
  - exact Hi.
  - now rewrite L1.
  - intros l' Hl' Hag. apply val_local; auto.
    intros t Ht. apply Hag. intros i' Hi'. apply Ht; lia.
Qed.

End Sweep.

(* ================================================================== *)
(** * What the level-3 products compute *)

Lemma dgemm_TN_sweep m n k alpha A lda B ldb beta C ldc :
  Blas.dgemm_TN m n k alpha A lda B ldb beta C ldc
  = sweep m n ldc (fun _ => O)
      (fun i j C => alpha * Rsum k (fun l => get A (ix lda l i) * get B (ix ldb l j))
                    + beta * get C (ix ldc i j)) C.
Proof.
  unfold Blas.dgemm_TN, sweep. apply upto_ext.
  intros j s _. unfold sweep_col. now rewrite range_from_0.
Qed.

Lemma self_read_local m n ld lo (g : nat -> nat -> R -> R) :
  (m <= ld)%nat ->
  forall i j C C', (j < n)%nat -> (lo j <= i < m)%nat ->
    length C' = length C ->
    (forall t, (forall i' j', (j' < n)%nat -> (lo j' <= i' < m)%nat ->
                  (j' < j \/ (j' = j /\ i' < i))%nat -> t <> ix ld i' j') ->
               get C' t = get C t) ->
    g i j (get C' (ix ld i j)) = g i j (get C (ix ld i j)).
Proof.
  intros Hld i j C C' Hj Hi _ Hag. f_equal. apply Hag.
  intros i' j' Hj' Hi' Hcase E. apply ix_inj in E; lia.
Qed.

Lemma length_dgemm_TN m n k alpha A lda B ldb beta C ldc :
  length (Blas.dgemm_TN m n k alpha A lda B ldb beta C ldc) = length C.
Proof. rewrite dgemm_TN_sweep. apply sweep_length. Qed.

Lemma get_dgemm_TN m n k alpha A lda B ldb beta C ldc i j :
  (m <= ldc)%nat -> (matlen m n ldc <= length C)%nat -> (i < m)%nat -> (j < n)%nat ->
  get (Blas.dgemm_TN m n k alpha A lda B ldb beta C ldc) (ix ldc i j)
  = alpha * Rsum k (fun l => get A (ix lda l i) * get B (ix ldb l j))
    + beta * get C (ix ldc i j).
Proof.
  intros Hld Hlen Hi Hj. rewrite dgemm_TN_sweep.
  apply (sweep_get m n ldc (fun _ => O)
           (fun i j C => alpha * Rsum k (fun l => get A (ix lda l i) * get B (ix ldb l j))
                         + beta * get C (ix ldc i j)) Hld); simpl; auto; try lia.
  intros i0 j0 C0 C' Hj0 Hi0 Hl Hag.
  apply (self_read_local m n ldc (fun _ => O)
           (fun i j c => alpha * Rsum k (fun l => get A (ix lda l i) * get B (ix ldb l j))
                         + beta * c)); auto.
Qed.

Lemma get_dgemm_TN_frame m n k alpha A lda B ldb beta C ldc t :
  (forall i j, (i < m)%nat -> (j < n)%nat -> t <> ix ldc i j) ->
  get (Blas.dgemm_TN m n k alpha A lda B ldb beta C ldc) t = get C t.
Proof.
  intros H. rewrite dgemm_TN_sweep. apply sweep_frame.
  intros i j Hj Hi. apply H; lia.
Qed.

Lemma dsyrk_LT_sweep n k alpha A lda beta C ldc :
  Blas.dsyrk_LT n k alpha A lda beta C ldc
  = sweep n n ldc (fun j => j)
      (fun i j C => alpha * Rsum k (fun l => get A (ix lda l i) * get A (ix lda l j))
                    + beta * get C (ix ldc i j)) C.
Proof. reflexivity. Qed.

Lemma length_dsyrk_LT n k alpha A lda beta C ldc :
  length (Blas.dsyrk_LT n k alpha A lda beta C ldc) = length C.
Proof. rewrite dsyrk_LT_sweep. apply sweep_length. Qed.

Lemma get_dsyrk_LT n k alpha A lda beta C ldc i j :
  (n <= ldc)%nat -> (matlen n n ldc <= length C)%nat -> (j <= i < n)%nat ->
  get (Blas.dsyrk_LT n k alpha A lda beta C ldc) (ix ldc i j)
  = alpha * Rsum k (fun l => get A (ix lda l i) * get A (ix lda l j))
    + beta * get C (ix ldc i j).
Proof.
  intros Hld Hlen Hij. rewrite dsyrk_LT_sweep.
  apply (sweep_get n n ldc (fun j => j)
           (fun i j C => alpha * Rsum k (fun l => get A (ix lda l i) * get A (ix lda l j))
                         + beta * get C (ix ldc i j)) Hld); simpl; auto; try lia.
  intros i0 j0 C0 C' Hj0 Hi0 Hl Hag.
  apply (self_read_local n n ldc (fun j => j)
           (fun i j c => alpha * Rsum k (fun l => get A (ix lda l i) * get A (ix lda l j))
                         + beta * c)); auto.
Qed.

Lemma get_dsyrk_LT_frame n k alpha A lda beta C ldc t :
  (forall i j, (j <= i < n)%nat -> t <> ix ldc i j) ->
  get (Blas.dsyrk_LT n k alpha A lda beta C ldc) t = get C t.
Proof.
  intros H. rewrite dsyrk_LT_sweep. apply sweep_frame.
  intros i j Hj Hi. apply H; lia.
Qed.

(* ================================================================== *)
(** * Triangular solves *)

(** Forward substitution on one column of the right-hand side. *)
Section ForwardSubstitution.

Variables (m : nat) (A : list R) (lda ldb c : nat).
Hypothesis Hldb : (m <= ldb)%nat.
Hypothesis Hdiag : forall k, (k < m)%nat -> get A (ix lda k k) <> 0.

Let fstep := Blas.trsm_LLNN_step m A lda ldb c.

Lemma cell_neq i i' : (i < m)%nat -> (i' < m)%nat -> i <> i' -> ix ldb i c <> ix ldb i' c.
Proof. intros Hi Hi' Hne E. apply ix_inj in E; lia. Qed.

Lemma fstep_length k B : length (fstep k B) = length B.
Proof.
  unfold fstep, Blas.trsm_LLNN_step.
  rewrite (range_put_length (fun i => ix ldb i c)
             (fun i B => get B (ix ldb i c) - get B (ix ldb k c) * get A (ix lda i k))).
  apply length_put.
Qed.

Lemma fstep_frame k B t :
  (k < m)%nat -> (forall i, (k <= i < m)%nat -> t <> ix ldb i c) ->
  get (fstep k B) t = get B t.
Proof.
  intros Hk H. unfold fstep, Blas.trsm_LLNN_step.
  rewrite (range_put_frame (fun i => ix ldb i c)
             (fun i B => get B (ix ldb i c) - get B (ix ldb k c) * get A (ix lda i k)))
    by (intros; apply H; lia).
  apply get_put_neq. intros E. apply (H k); auto; lia.
Qed.

Lemma fstep_pivot k B :
  (k < m)%nat -> (ix ldb k c < length B)%nat ->
  get (fstep k B) (ix ldb k c) = get B (ix ldb k c) / get A (ix lda k k).
Proof.
  intros Hk Hlen. unfold fstep, Blas.trsm_LLNN_step.
  rewrite (range_put_frame (fun i => ix ldb i c)
             (fun i B => get B (ix ldb i c) - get B (ix ldb k c) * get A (ix lda i k)))
    by (intros; apply cell_neq; lia).
  now apply get_put_eq.
Qed.

Lemma fstep_below k B i :
  (k < i < m)%nat -> (ix ldb i c < length B)%nat -> (ix ldb k c < length B)%nat ->
  get (fstep k B) (ix ldb i c)
  = get B (ix ldb i c) - get B (ix ldb k c) / get A (ix lda k k) * get A (ix lda i k).
Proof.
  intros Hi Hleni Hlenk. unfold fstep, Blas.trsm_LLNN_step.
  set (B' := put B (ix ldb k c) (get B (ix ldb k c) / get A (ix lda k k))).
  rewrite (range_put_get (fun i => ix ldb i c)
             (fun i B => get B (ix ldb i c) - get B (ix ldb k c) * get A (ix lda i k))).
  - unfold B'. rewrite get_put_neq by (apply cell_neq; lia).
    now rewrite get_put_eq.
  - intros i1 i2 H1 H2 E. apply ix_inj in E; lia.
  - lia.
  - unfold B'. now rewrite length_put.
  - intros l' _ Hag.
    rewrite !Hag; auto; intros i' Hi'; apply cell_neq; lia.
Qed.

Lemma forward_inv k B :
  (k <= m)%nat -> (forall i, (i < m)%nat -> (ix ldb i c < length B)%nat) ->
  length (upto k fstep B) = length B /\
  (forall t, (forall i, (i < m)%nat -> t <> ix ldb i c) ->
     get (upto k fstep B) t = get B t) /\
  (forall i, (i < k)%nat ->
     Rsum (S i) (fun t => get A (ix lda i t) * get (upto k fstep B) (ix ldb t c))
     = get B (ix ldb i c)) /\
  (forall i, (k <= i < m)%nat ->
     get (upto k fstep B) (ix ldb i c)
     = get B (ix ldb i c)
       - Rsum k (fun t => get A (ix lda i t) * get (upto k fstep B) (ix ldb t c))).
Proof.
  intros Hk Hlen. induction k as [|k IH].
  - simpl. repeat split; auto; intros; try lia. lra.
  - destruct IH as (IHl & IHf & IHs & IHr); [lia|].
    simpl upto. set (Bk := upto k fstep B) in *.
    assert (Hlk : forall i, (i < m)%nat -> (ix ldb i c < length Bk)%nat)
      by (intros; rewrite IHl; auto).
    assert (Hold : forall t, (t < k)%nat ->
              get (fstep k Bk) (ix ldb t c) = get Bk (ix ldb t c)).
    { intros t Ht. apply fstep_frame; [lia|]. intros i Hi. apply cell_neq; lia. }
    assert (Hpiv := fstep_pivot k Bk ltac:(lia) (Hlk k ltac:(lia))).
    repeat split.
    + now rewrite fstep_length.
    + intros t Ht. rewrite fstep_frame; auto.
      intros i Hi. apply Ht; lia.
    + intros i Hi. destruct (Nat.eq_dec i k) as [->|Hne].
      * simpl Rsum. rewrite Hpiv.
        rewrite (Rsum_ext k _ (fun t => get A (ix lda k t) * get Bk (ix ldb t c)))
          by (intros t Ht; now rewrite Hold).
        rewrite (IHr k) by lia.
        field. apply Hdiag; lia.
      * rewrite <- (IHs i) by lia.
        apply Rsum_ext. intros t Ht. rewrite Hold by lia. reflexivity.
    + intros i Hi. simpl Rsum.
      rewrite fstep_below by (auto; try lia; apply Hlk; lia).
      rewrite Hpiv, (IHr i) by lia.
      rewrite (Rsum_ext k (fun t => get A (ix lda i t) * get (fstep k Bk) (ix ldb t c))
                 (fun t => get A (ix lda i t) * get Bk (ix ldb t c)))
        by (intros t Ht; now rewrite Hold).
      lra.
Qed.

End ForwardSubstitution.

Lemma Rsum_mask_le m i f :
  (i < m)%nat -> Rsum (S i) f = Rsum m (fun t => if Nat.leb t i then f t else 0).
Proof.
  intros Hi.
  rewrite (Rsum_trunc (S i) m (fun t => if Nat.leb t i then f t else 0)); [|lia|].
  - apply Rsum_ext. intros t Ht.
    destruct (Nat.leb_spec t i); auto; lia.
  - intros t Ht. destruct (Nat.leb_spec t i); auto; lia.
Qed.

Lemma Rsum_shift lo n f :
  Rsum n (fun d => f (lo + d)%nat)
  = Rsum (lo + n) (fun t => if Nat.leb lo t then f t else 0).
Proof.
  induction n.
  - rewrite Nat.add_0_r. simpl. symmetry. apply Rsum_zero.
    intros t Ht. destruct (Nat.leb_spec lo t); auto; lia.
  - rewrite Nat.add_succ_r. simpl. rewrite IHn.
    destruct (Nat.leb_spec lo (lo + n)); auto; lia.
Qed.

Lemma Rsum_mask_ge m i f :
  (i < m)%nat ->
  f i + Rsum (m - S i) (fun d => f (S i + d)%nat)
  = Rsum m (fun t => if Nat.leb i t then f t else 0).
Proof.
  intros Hi. rewrite Rsum_shift. replace (S i + (m - S i))%nat with m by lia.
  assert (E : Rsum m (fun t => if Nat.eqb t i then f t else 0) = f i).
  { rewrite (Rsum_single m _ i); auto.
    - now rewrite Nat.eqb_refl.
    - intros t Ht Hne. destruct (Nat.eqb_spec t i); auto; lia. }
  rewrite <- E, <- Rsum_plus. apply Rsum_ext. intros t Ht.
  destruct (Nat.eqb_spec t i), (Nat.leb_spec (S i) t), (Nat.leb_spec i t);
    subst; try lia; lra.
Qed.

Lemma range_accumulate lo hi (f : nat -> R) init :
  range lo hi (fun k t => t - f k) init = init - Rsum (hi - lo) (fun d => f (lo + d)%nat).
Proof.
  unfold range. induction (hi - lo)%nat; simpl; [lra | rewrite IHn; lra].
Qed.

Lemma matlen_cell m n ld i j (C : list R) :
  (m <= ld)%nat -> (matlen m n ld <= length C)%nat -> (i < m)%nat -> (j < n)%nat ->
  (ix ld i j < length C)%nat.
Proof.
  intros. eapply Nat.lt_le_trans; [apply (ix_lt_matlen m n ld)|]; eauto.
Qed.

Lemma in_col_disjoint m ld c c' t :
  (m <= ld)%nat -> in_col m ld c t -> in_col m ld c' t -> c = c'.
Proof.
  intros Hld (i & Hi & ->) (i' & Hi' & E). apply ix_inj in E; lia.
Qed.

(** A loop over the columns of a matrix whose step [col c] rewrites
    column [c] only. *)
Section Columns.

Variables (m n ldb : nat) (col : nat -> list R -> list R) (B : list R).
Hypothesis Hldb : (m <= ldb)%nat.
Hypothesis Hlen : (matlen m n ldb <= length B)%nat.
Hypothesis col_length :
  forall c l, (c < n)%nat -> length l = length B -> length (col c l) = length l.
Hypothesis col_frame :
  forall c l t, (c < n)%nat -> length l = length B ->
    ~ in_col m ldb c t -> get (col c l) t = get l t.

Lemma columns_length k : (k <= n)%nat -> length (upto k col B) = length B.
Proof.
  induction k; simpl; intros Hk; auto.
  rewrite col_length; [apply IHk | | apply IHk]; lia.
Qed.

Lemma columns_frame k t :
  (k <= n)%nat -> (forall c, (c < k)%nat -> ~ in_col m ldb c t) ->
  get (upto k col B) t = get B t.
Proof.
  induction k; simpl; intros Hk Ht; auto.
  rewrite col_frame; [apply IHk; [lia | intros; apply Ht; lia] | lia | | apply Ht; lia].
  apply columns_length; lia.
Qed.

Lemma columns_block k c t :
  (k <= n)%nat -> (c < k)%nat -> in_col m ldb c t ->
  get (upto k col B) t = get (col c (upto c col B)) t.
Proof.
  induction k; simpl; intros Hk Hc Ht; [lia|].
  destruct (Nat.eq_dec c k) as [->|Hne]; auto.
  rewrite col_frame; [apply IHk; auto; lia | lia | apply columns_length; lia |].
  intros Ht'. apply Hne. exact (in_col_disjoint m ldb c k t Hldb Ht Ht').
Qed.

(** The input of [col c] still has the original column [c]. *)
Lemma columns_input c i :
  (c < n)%nat -> (i < m)%nat -> get (upto c col B) (ix ldb i c) = get B (ix ldb i c).
Proof.
  intros Hc Hi. apply columns_frame; [lia|].
  intros c' Hc' (i' & Hi' & E). apply ix_inj in E; lia.
Qed.

Lemma columns_cell c i (l : list R) :
  (c < n)%nat -> (i < m)%nat -> length l = length B -> (ix ldb i c < length l)%nat.
Proof.
  intros Hc Hi ->. now apply (matlen_cell m n ldb).
Qed.

End Columns.

Section ForwardSolve.

Variables (m : nat) (alpha : R) (A : list R) (lda ldb : nat).
Hypothesis Hldb : (m <= ldb)%nat.
Hypothesis Hdiag : forall k, (k < m)%nat -> get A (ix lda k k) <> 0.

Lemma trsm_LLNN_col_spec c B :
  (forall i, (i < m)%nat -> (ix ldb i c < length B)%nat) ->
  let X := Blas.trsm_LLNN_col m alpha A lda ldb c B in
  length X = length B /\
  (forall t, ~ in_col m ldb c t -> get X t = get B t) /\
  (forall i, (i < m)%nat ->
     Rsum m (fun t => Lw A lda i t * get X (ix ldb t c)) = alpha * get B (ix ldb i c)).
Proof.
  intros Hlen X. unfold Blas.trsm_LLNN_col in X.
  set (B1 := upto m (fun i B => put B (ix ldb i c) (alpha * get B (ix ldb i c))) B) in X.
  assert (L1 : length B1 = length B)
    by apply (upto_put_length (fun i => ix ldb i c) (fun i l => alpha * get l (ix ldb i c))).
  assert (Hinj : forall i i', (i < m)%nat -> (i' < m)%nat ->
                   ix ldb i c = ix ldb i' c -> i = i').
  { intros i i' Hi Hi' E. apply ix_inj in E; lia. }
  assert (G1 : forall i, (i < m)%nat -> get B1 (ix ldb i c) = alpha * get B (ix ldb i c)).
  { intros i Hi. unfold B1.
    rewrite (upto_put_get (fun i => ix ldb i c) (fun i l => alpha * get l (ix ldb i c)) m)
      by auto.
    rewrite (upto_put_frame_below (fun i => ix ldb i c)
               (fun i l => alpha * get l (ix ldb i c)) m); auto; try lia.
    intros i' Hi' E. apply Hinj in E; lia. }
  assert (F1 : forall t, ~ in_col m ldb c t -> get B1 t = get B t).
  { intros t Ht. unfold B1.
    apply (upto_put_frame (fun i => ix ldb i c) (fun i l => alpha * get l (ix ldb i c)) m).
    intros i Hi E. apply Ht. exists i; auto. }
  destruct (forward_inv m A lda ldb c Hldb Hdiag m B1 (Nat.le_refl m)) as (Hl & Hf & Hs & _).
  { intros i Hi. rewrite L1; auto. }
  fold X in Hl, Hf, Hs.
  repeat split.
  - congruence.
  - intros t Ht. rewrite Hf; auto.
    intros i Hi E. apply Ht. exists i; auto.
  - intros i Hi. rewrite <- G1, <- Hs by auto.
    rewrite (Rsum_mask_le m i) by auto.
    apply Rsum_ext. intros t Ht. unfold Lw.
    destruct (Nat.leb t i); lra.
Qed.

Lemma dtrsm_LLNN_spec n B :
  (matlen m n ldb <= length B)%nat ->
  let X := Blas.dtrsm_LLNN m n alpha A lda B ldb in
  length X = length B /\
  (forall t, (forall c, (c < n)%nat -> ~ in_col m ldb c t) -> get X t = get B t) /\
  (forall i c, (i < m)%nat -> (c < n)%nat ->
     Rsum m (fun t => Lw A lda i t * get X (ix ldb t c)) = alpha * get B (ix ldb i c)).
Proof.
  intros Hlen X. unfold Blas.dtrsm_LLNN in X.
  set (col := Blas.trsm_LLNN_col m alpha A lda ldb) in *.
  assert (Hcl : forall c l, (c < n)%nat -> length l = length B ->
                  length (col c l) = length l).
  { intros c l Hc Hl. apply trsm_LLNN_col_spec.
    intros i Hi. now apply (columns_cell m n ldb B Hldb Hlen). }
  assert (Hcf : forall c l t, (c < n)%nat -> length l = length B ->
                  ~ in_col m ldb c t -> get (col c l) t = get l t).
  { intros c l t Hc Hl. apply trsm_LLNN_col_spec.
    intros i Hi. now apply (columns_cell m n ldb B Hldb Hlen). }
  pose proof (columns_length m n ldb col B Hldb Hlen Hcl) as CL.
  pose proof (columns_frame m n ldb col B Hldb Hlen Hcl Hcf) as CF.
  pose proof (columns_block m n ldb col B Hldb Hlen Hcl Hcf) as CB.
  pose proof (columns_input m n ldb col B Hldb Hlen Hcl Hcf) as CI.
  repeat split.
  - apply CL; lia.
  - intros t Ht. apply CF; auto.
  - intros i c Hi Hc.
    destruct (trsm_LLNN_col_spec c (upto c col B)) as (_ & _ & Hs).
    { intros i' Hi'. apply (columns_cell m n ldb B Hldb Hlen); auto.
      apply CL; lia. }
    rewrite <- (CI c i) by auto.
    rewrite <- Hs by auto. apply Rsum_ext. intros t Ht.
    unfold X. rewrite (CB n c (ix ldb t c)); auto.
    exists t; auto.
Qed.

End ForwardSolve.

Lemma downto_ind {S} (I : nat -> S -> Prop) n (body : nat -> S -> S) s :
  I n s ->
  (forall k s, (k < n)%nat -> I (Datatypes.S k) s -> I k (body k s)) ->
  I O (downto n body s).
Proof.
  revert s. induction n; simpl; intros s H0 Hs; [exact H0|].
  apply IHn.
  - apply Hs; [lia | exact H0].
  - intros k s' Hk. apply Hs; lia.
Qed.

Section BackSolve.

Variables (m : nat) (alpha : R) (A : list R) (lda ldb : nat).
Hypothesis Hldb : (m <= ldb)%nat.
Hypothesis Hdiag : forall k, (k < m)%nat -> get A (ix lda k k) <> 0.

Lemma trsm_LLTN_step_get c k B t :
  get (Blas.trsm_LLTN_step m alpha A lda ldb c k B) t
  = if (Nat.eqb (ix ldb k c) t && Nat.ltb (ix ldb k c) (length B))%bool
    then (alpha * get B (ix ldb k c)
          - Rsum (m - S k) (fun d => get A (ix lda (S k + d) k) * get B (ix ldb (S k + d) c)))
         / get A (ix lda k k)
    else get B t.
Proof.
  unfold Blas.trsm_LLTN_step.
  rewrite (range_accumulate (S k) m
             (fun j => get A (ix lda j k) * get B (ix ldb j c))).
  apply get_put.
Qed.

Lemma trsm_LLTN_col_spec c B :
  (forall i, (i < m)%nat -> (ix ldb i c < length B)%nat) ->
  let X := Blas.trsm_LLTN_col m alpha A lda ldb c B in
  length X = length B /\
  (forall t, ~ in_col m ldb c t -> get X t = get B t) /\
  (forall i, (i < m)%nat ->
     Rsum m (fun t => Lw A lda t i * get X (ix ldb t c)) = alpha * get B (ix ldb i c)).
Proof.
  intros Hlen X.
  pose (I := fun (k : nat) (B' : list R) =>
    length B' = length B /\
    (forall t, ~ in_col m ldb c t -> get B' t = get B t) /\
    (forall i, (i < k)%nat -> get B' (ix ldb i c) = get B (ix ldb i c)) /\
    (forall i, (k <= i < m)%nat ->
       Rsum m (fun t => Lw A lda t i * get B' (ix ldb t c)) = alpha * get B (ix ldb i c))).
  assert (HI : I O X).
  { apply (downto_ind I).
    - repeat split; auto. intros; lia.
    - intros k B' Hk (Hl & Hf & Hu & Hs).
      assert (Hcell : forall t, (t < m)%nat ->
                get (Blas.trsm_LLTN_step m alpha A lda ldb c k B') (ix ldb t c)
                = if Nat.eqb t k
                  then (alpha * get B (ix ldb k c)
                        - Rsum (m - S k) (fun d => get A (ix lda (S k + d) k)
                                                   * get B' (ix ldb (S k + d) c)))
                       / get A (ix lda k k)
                  else get B' (ix ldb t c)).
      { intros t Ht. rewrite trsm_LLTN_step_get.
        assert (Hin : Nat.ltb (ix ldb k c) (length B') = true).
        { apply Nat.ltb_lt. rewrite Hl. apply Hlen; lia. }
        rewrite Hin, andb_true_r.
        destruct (Nat.eqb_spec t k) as [->|Hne].
        - rewrite Nat.eqb_refl, Hu by lia. reflexivity.
        - destruct (Nat.eqb_spec (ix ldb k c) (ix ldb t c)) as [E|E]; auto.
          apply ix_inj in E; lia. }
      repeat split.
      + unfold Blas.trsm_LLTN_step. now rewrite length_put.
      + intros t Ht. rewrite trsm_LLTN_step_get.
        destruct (Nat.eqb_spec (ix ldb k c) t) as [E|E]; simpl; auto.
        exfalso. apply Ht. exists k; auto.
      + intros i Hi. rewrite Hcell by lia.
        destruct (Nat.eqb_spec i k); [lia|]. apply Hu; lia.
      + intros i Hi. destruct (Nat.eq_dec i k) as [->|Hne].
        * set (new := Blas.trsm_LLTN_step m alpha A lda ldb c k B') in *.
          rewrite (Rsum_ext m _
                     (fun t => if Nat.leb k t
                               then get A (ix lda t k) * get new (ix ldb t c) else 0))
            by (intros t Ht; unfold Lw; destruct (Nat.leb k t); lra).
          rewrite <- (Rsum_mask_ge m k
                        (fun t => get A (ix lda t k) * get new (ix ldb t c))) by lia.
          rewrite Hcell, Nat.eqb_refl by lia.
          rewrite (Rsum_ext (m - S k)
                     (fun d => get A (ix lda (S k + d) k) * get new (ix ldb (S k + d) c))
                     (fun d => get A (ix lda (S k + d) k) * get B' (ix ldb (S k + d) c))).
          -- field. apply Hdiag; lia.
          -- intros d Hd. rewrite Hcell by lia.
             destruct (Nat.eqb_spec (S k + d) k); [lia|]. reflexivity.
        * rewrite <- (Hs i) by lia.
          apply Rsum_ext. intros t Ht. unfold Lw.
          destruct (Nat.leb_spec i t); [|lra].
          rewrite Hcell by lia.
          destruct (Nat.eqb_spec t k); [lia|]. reflexivity. }
  destruct HI as (Hl & Hf & _ & Hs).
  repeat split; auto. intros i Hi. apply Hs; lia.
Qed.

Lemma dtrsm_LLTN_spec n B :
  (matlen m n ldb <= length B)%nat ->
  let X := Blas.dtrsm_LLTN m n alpha A lda B ldb in
  length X = length B /\
  (forall t, (forall c, (c < n)%nat -> ~ in_col m ldb c t) -> get X t = get B t) /\
  (forall i c, (i < m)%nat -> (c < n)%nat ->
     Rsum m (fun t => Lw A lda t i * get X (ix ldb t c)) = alpha * get B (ix ldb i c)).
Proof.
  intros Hlen X. unfold Blas.dtrsm_LLTN in X.
  set (col := Blas.trsm_LLTN_col m alpha A lda ldb) in *.
  assert (Hcl : forall c l, (c < n)%nat -> length l = length B ->
                  length (col c l) = length l).
  { intros c l Hc Hl. apply trsm_LLTN_col_spec.
    intros i Hi. now apply (columns_cell m n ldb B Hldb Hlen). }
  assert (Hcf : forall c l t, (c < n)%nat -> length l = length B ->
                  ~ in_col m ldb c t -> get (col c l) t = get l t).
  { intros c l t Hc Hl. apply trsm_LLTN_col_spec.
    intros i Hi. now apply (columns_cell m n ldb B Hldb Hlen). }
  pose proof (columns_length m n ldb col B Hldb Hlen Hcl) as CL.
  pose proof (columns_frame m n ldb col B Hldb Hlen Hcl Hcf) as CF.
  pose proof (columns_block m n ldb col B Hldb Hlen Hcl Hcf) as CB.
  pose proof (columns_input m n ldb col B Hldb Hlen Hcl Hcf) as CI.
  repeat split.
  - apply CL; lia.
  - intros t Ht. apply CF; auto.
  - intros i c Hi Hc.
    destruct (trsm_LLTN_col_spec c (upto c col B)) as (_ & _ & Hs).
    { intros i' Hi'. apply (columns_cell m n ldb B Hldb Hlen); auto.
      apply CL; lia. }
    rewrite <- (CI c i) by auto.
    rewrite <- Hs by auto. apply Rsum_ext. intros t Ht.
    unfold X. rewrite (CB n c (ix ldb t c)); auto.
    exists t; auto.
Qed.

End BackSolve.

(* ================================================================== *)
(** * The Cholesky factorization *)

Section CholeskyColumn.

Variables (n lda j : nat) (A : list R).
Hypothesis Hlda : (n <= lda)%nat.
Hypothesis Hj : (j < n)%nat.
Hypothesis Hlen : (matlen n n lda <= length A)%nat.

Let pivot : R := Blas.pivot lda j A.

Lemma potf2_col_fail :
  pivot <= 0 -> Blas.potf2_col n lda j A = (put A (ix lda j j) pivot, false).
Proof.
  intros H. unfold Blas.potf2_col. fold pivot.
  destruct (Rle_dec pivot 0); [reflexivity | contradiction].
Qed.

Lemma potf2_col_ok :
  0 < pivot ->
  exists A',
    Blas.potf2_col n lda j A = (A', true) /\
    length A' = length A /\
    (forall t, (forall i, (j <= i < n)%nat -> t <> ix lda i j) -> get A' t = get A t) /\
    get A' (ix lda j j) = sqrt pivot /\
    (forall i, (j < i < n)%nat ->
       get A' (ix lda i j)
       = 1 / sqrt pivot
         * (get A (ix lda i j)
            + -1 * Rsum j (fun k => get A (ix lda i k) * get A (ix lda j k)))).
Proof.
  intros Hp. unfold Blas.potf2_col. fold pivot.
  destruct (Rle_dec pivot 0) as [Hle|_]; [lra|].
  set (A1 := put A (ix lda j j) (sqrt pivot)).
  set (v2 := fun (i : nat) (l : list R) =>
               get l (ix lda i j)
               + -1 * Rsum j (fun k => get l (ix lda i k) * get l (ix lda j k))).
  set (A2 := range (S j) n (fun i l => put l (ix lda i j) (v2 i l)) A1).
  set (v3 := fun (i : nat) (l : list R) => 1 / sqrt pivot * get l (ix lda i j)).
  set (A3 := range (S j) n (fun i l => put l (ix lda i j) (v3 i l)) A2).
  assert (Hcell : forall i c, (i < n)%nat -> (c < n)%nat -> (ix lda i c < length A)%nat).
  { intros. now apply (matlen_cell n n lda). }
  assert (Hinj : forall i1 i2, (S j <= i1 < n)%nat -> (S j <= i2 < n)%nat ->
                   ix lda i1 j = ix lda i2 j -> i1 = i2).
  { intros i1 i2 H1 H2 E. apply ix_inj in E; lia. }
  assert (L1 : length A1 = length A) by apply length_put.
  assert (L2 : length A2 = length A).
  { unfold A2. rewrite (range_put_length (fun i => ix lda i j) v2). exact L1. }
  assert (L3 : length A3 = length A).
  { unfold A3. rewrite (range_put_length (fun i => ix lda i j) v3). exact L2. }
  assert (F1 : forall t, t <> ix lda j j -> get A1 t = get A t).
  { intros t Ht. unfold A1. apply get_put_neq. congruence. }
  assert (F2 : forall t, (forall i, (j < i < n)%nat -> t <> ix lda i j) ->
                 get A2 t = get A1 t).
  { intros t Ht. unfold A2.
    apply (range_put_frame (fun i => ix lda i j) v2). intros; apply Ht; lia. }
  assert (F3 : forall t, (forall i, (j < i < n)%nat -> t <> ix lda i j) ->
                 get A3 t = get A2 t).
  { intros t Ht. unfold A3.
    apply (range_put_frame (fun i => ix lda i j) v3). intros; apply Ht; lia. }
  assert (Hcol : forall i i', (i < n)%nat -> (i' < n)%nat -> i <> i' ->
                   ix lda i j <> ix lda i' j).
  { intros i i' Hi Hi' Hne E. apply ix_inj in E; lia. }
  assert (Hleft : forall i k i', (i < n)%nat -> (k < j)%nat -> (i' < n)%nat ->
                    ix lda i k <> ix lda i' j).
  { intros i k i' Hi Hk Hi' E. apply ix_inj in E; lia. }
  exists A3. repeat split; auto.
  - intros t Ht. rewrite F3, F2, F1; auto; try (intros; apply Ht; lia).
  - rewrite F3, F2 by (intros; apply Hcol; lia).
    unfold A1. apply get_put_eq. apply Hcell; lia.
  - intros i Hi. unfold A3.
    rewrite (range_put_get (fun i => ix lda i j) v3); auto; try lia.
    + unfold v3. f_equal. unfold A2.
      rewrite (range_put_get (fun i => ix lda i j) v2); auto; try lia.
      * unfold v2. rewrite F1 by (apply Hcol; lia). f_equal. f_equal.
        apply Rsum_ext. intros k Hk.
        rewrite !F1 by (apply Hleft; lia). reflexivity.
      * rewrite L1. apply Hcell; lia.
      * intros l' _ Hag. unfold v2.
        rewrite Hag by (intros; apply Hcol; lia). f_equal. f_equal.
        apply Rsum_ext. intros k Hk.
        rewrite !Hag by (intros; apply Hleft; lia). reflexivity.
    + rewrite L2. apply Hcell; lia.
    + intros l' _ Hag. unfold v3.
      rewrite Hag by (intros; apply Hcol; lia). reflexivity.
Qed.

End CholeskyColumn.

(** ** Linear algebra on index functions *)

Lemma Rsum_mul n m f g :
  Rsum n f * Rsum m g = Rsum n (fun i => Rsum m (fun c => f i * g c)).
Proof.
  rewrite <- Rsum_scal_r. apply Rsum_ext. intros i _.
  now rewrite Rsum_scal_l.
Qed.

(** A triangular system with non-zero diagonal has a solution
    (transposed form: sum over the rows). *)
Lemma tri_back_exists j (T : nat -> nat -> R) (l : nat -> R) :
  (forall p k, (p < k)%nat -> T p k = 0) ->
  (forall p, (p < j)%nat -> T p p <> 0) ->
  exists w, forall k, (k < j)%nat -> Rsum j (fun p => T p k * w p) = l k.
Proof.
  intros Hup. revert l. induction j as [|j IH]; intros l Hd.
  - exists (fun _ => 0). intros; lia.
  - destruct (IH (fun k => l k - T j k * (l j / T j j))) as (w' & Hw').
    { intros; apply Hd; lia. }
    exists (fun p => if Nat.ltb p j then w' p else l j / T j j).
    intros k Hk. simpl Rsum.
    rewrite Nat.ltb_irrefl.
    rewrite (Rsum_ext j _ (fun p => T p k * w' p)).
    2:{ intros p Hp. destruct (Nat.ltb_spec p j); [reflexivity | lia]. }
    destruct (Nat.eq_dec k j) as [->|Hne].
    + rewrite Rsum_zero by (intros p Hp; rewrite Hup by lia; lra).
      field. apply Hd; lia.
    + rewrite Hw' by lia. lra.
Qed.

(** A triangular system with non-zero diagonal has at most one solution. *)
Lemma tri_forward_unique m (T : nat -> nat -> R) (u v : nat -> R) :
  (forall i k, (i < k)%nat -> T i k = 0) ->
  (forall i, (i < m)%nat -> T i i <> 0) ->
  (forall i, (i < m)%nat ->
     Rsum m (fun k => T i k * u k) = Rsum m (fun k => T i k * v k)) ->
  forall i, (i < m)%nat -> u i = v i.
Proof.
  intros Hup Hd Heq.
  assert (H : forall b i, (i < b)%nat -> (b <= m)%nat -> u i = v i).
  { induction b as [|b IH]; intros i Hi Hb; [lia|].
    destruct (Nat.eq_dec i b) as [->|Hne]; [|apply IH; lia].
    specialize (Heq b ltac:(lia)).
    rewrite (Rsum_trunc (S b) m), (Rsum_trunc (S b) m (fun k => T b k * v k)) in Heq;
      try lia; try (intros k Hk; rewrite Hup by lia; lra).
    simpl in Heq.
    rewrite (Rsum_ext b (fun k => T b k * u k) (fun k => T b k * v k)) in Heq
      by (intros k Hk; rewrite (IH k) by lia; reflexivity).
    apply (Rmult_eq_reg_l (T b b)); [lra | apply Hd; lia]. }
  intros i Hi. apply (H m); auto.
Qed.

(** The pivot of column [j] is the value of the quadratic form of the
    matrix at a vector whose entry [j] is 1. *)
Lemma pivot_quadratic n j (a Lf : nat -> nat -> R) (l w : nat -> R) :
  (j < n)%nat ->
  (forall c, (c < j)%nat -> a c j = a j c) ->
  (forall i c, (i < j)%nat -> (c < j)%nat -> a i c = Rsum j (fun k => Lf i k * Lf c k)) ->
  (forall c, (c < j)%nat -> a j c = Rsum j (fun k => l k * Lf c k)) ->
  (forall k, (k < j)%nat -> Rsum j (fun p => Lf p k * w p) = l k) ->
  let x := fun i => if Nat.ltb i j then - w i else if Nat.eqb i j then 1 else 0 in
  Rsum n (fun i => Rsum n (fun c => x i * a i c * x c))
  = a j j - Rsum j (fun k => l k * l k).
Proof.
  intros Hj Hsym H1 H2 H3 x.
  assert (Hx1 : forall i, (i < j)%nat -> x i = - w i).
  { intros i Hi. unfold x. destruct (Nat.ltb_spec i j); [reflexivity | lia]. }
  assert (Hx2 : x j = 1).
  { unfold x. now rewrite Nat.ltb_irrefl, Nat.eqb_refl. }
  assert (Hx3 : forall i, (j < i)%nat -> x i = 0).
  { intros i Hi. unfold x. destruct (Nat.ltb_spec i j); [lia|].
    destruct (Nat.eqb_spec i j); [lia | reflexivity]. }
  set (Q1 := Rsum j (fun i => Rsum j (fun c => w i * a i c * w c))).
  set (Q2 := Rsum j (fun c => a j c * w c)).
  assert (E3 : Q2 = Rsum j (fun k => l k * l k)).
  { unfold Q2.
    transitivity (Rsum j (fun c => Rsum j (fun k => l k * (Lf c k * w c)))).
    { apply Rsum_ext; intros c Hc. rewrite H2 by auto.
      rewrite <- Rsum_scal_r. apply Rsum_ext; intros; ring. }
    rewrite Rsum_swap. apply Rsum_ext; intros k Hk.
    rewrite Rsum_scal_l, H3 by auto. reflexivity. }
  assert (E4 : Q1 = Rsum j (fun k => l k * l k)).
  { unfold Q1.
    transitivity (Rsum j (fun i => Rsum j (fun c =>
                    Rsum j (fun k => (Lf i k * w i) * (Lf c k * w c))))).
    { apply Rsum_ext; intros i Hi. apply Rsum_ext; intros c Hc.
      rewrite H1 by auto.
      rewrite (Rsum_ext j (fun k => Lf i k * w i * (Lf c k * w c))
                 (fun k => (w i * w c) * (Lf i k * Lf c k))) by (intros; ring).
      rewrite Rsum_scal_l. ring. }
    transitivity (Rsum j (fun i => Rsum j (fun k => (Lf i k * w i) * l k))).
    { apply Rsum_ext; intros i Hi. rewrite Rsum_swap.
      apply Rsum_ext; intros k Hk. rewrite Rsum_scal_l, H3 by auto. reflexivity. }
    rewrite Rsum_swap. apply Rsum_ext; intros k Hk.
    rewrite Rsum_scal_r, H3 by auto. reflexivity. }
  assert (E1 : Rsum j (fun i => Rsum j (fun c => x i * a i c * x c) + x i * a i j * x j)
               = Q1 - Q2).
  { unfold Q1, Q2. rewrite <- Rsum_minus. apply Rsum_ext; intros i Hi.
    rewrite (Rsum_ext j (fun c => x i * a i c * x c) (fun c => w i * a i c * w c))
      by (intros c Hc; rewrite !Hx1 by lia; ring).
    rewrite Hx1, Hx2, Hsym by lia. ring. }
  assert (E2 : Rsum j (fun c => x j * a j c * x c) = - Q2).
  { unfold Q2. rewrite Hx2.
    rewrite (Rsum_ext j (fun c => 1 * a j c * x c) (fun c => -1 * (a j c * w c)))
      by (intros c Hc; rewrite Hx1 by lia; ring).
    rewrite Rsum_scal_l. ring. }
  rewrite (Rsum_trunc (S j) n); [|lia|].
  2:{ intros i Hi. apply Rsum_zero. intros c _. rewrite (Hx3 i) by lia. ring. }
  rewrite (Rsum_ext (S j) _ (fun i => Rsum (S j) (fun c => x i * a i c * x c))).
  2:{ intros i Hi. apply Rsum_trunc; [lia|].
      intros c Hc. rewrite (Hx3 c) by lia. ring. }
  simpl Rsum. rewrite E1, E2, Hx2, E3, E4. ring.
Qed.

Section CholeskyLoop.

Variables (n lda : nat) (A : list R).
Hypothesis Hlda : (n <= lda)%nat.
Hypothesis Hlen : (matlen n n lda <= length A)%nat.

Lemma Asym_sym i j : Asym A lda i j = Asym A lda j i.
Proof.
  unfold Asym. destruct (Nat.leb_spec j i), (Nat.leb_spec i j); auto; try lia.
  now replace j with i by lia.
Qed.

(** Entries of [A] as products of rows of the factor. *)
Lemma factored_entry j F c i b :
  factored n lda j A F -> (c < j)%nat -> (c <= i < n)%nat -> (c < b)%nat ->
  Rsum b (fun k => Lw F lda i k * Lw F lda c k) = get A (ix lda i c).
Proof.
  intros (_ & Hs & _) Hc Hi Hb.
  rewrite <- (Hs c i Hc Hi).
  rewrite (Rsum_trunc (S c) b); [|lia|].
  - apply Rsum_ext. intros k Hk. unfold Lw.
    destruct (Nat.leb_spec k i), (Nat.leb_spec k c); auto; lia.
  - intros k Hk. unfold Lw. destruct (Nat.leb_spec k c); [lia | ring].
Qed.

Lemma factored_Asym j F i c b :
  factored n lda j A F -> (i < n)%nat -> (c < n)%nat ->
  (Nat.min i c < j)%nat -> (Nat.min i c < b)%nat ->
  Rsum b (fun k => Lw F lda i k * Lw F lda c k) = Asym A lda i c.
Proof.
  intros HF Hi Hc Hj Hb. unfold Asym.
  destruct (Nat.leb_spec c i) as [Hci|Hci].
  - apply (factored_entry j); auto; lia.
  - rewrite <- (factored_entry j F i c b HF); try lia.
    apply Rsum_ext; intros; ring.
Qed.

Lemma pivot_pos j F :
  (j < n)%nat -> factored n lda j A F -> posdef n (Asym A lda) ->
  0 < Blas.pivot lda j F.
Proof.
  intros Hj HF Hpd.
  pose proof HF as (Hl & Hs & Hd & Hf).
  destruct (tri_back_exists j (Lw F lda) (fun k => get F (ix lda j k))) as (w & Hw).
  { intros p k Hpk. unfold Lw. destruct (Nat.leb_spec k p); [lia | reflexivity]. }
  { intros p Hp. unfold Lw. rewrite Nat.leb_refl.
    apply Rgt_not_eq. apply Hd; auto. }
  pose (x := fun i => if Nat.ltb i j then - w i else if Nat.eqb i j then 1 else 0).
  assert (Hq := pivot_quadratic n j (Asym A lda) (Lw F lda)
                  (fun k => get F (ix lda j k)) w Hj).
  cbv zeta in Hq. fold x in Hq.
  assert (Hpiv : Blas.pivot lda j F
                 = Asym A lda j j
                   - Rsum j (fun k => get F (ix lda j k) * get F (ix lda j k))).
  { unfold Blas.pivot, Asym. rewrite Nat.leb_refl. f_equal.
    apply Hf. intros c i Hc Hi E. apply ix_inj in E; lia. }
  rewrite Hpiv, <- Hq.
  - apply Hpd. exists j. split; auto.
    unfold x. rewrite Nat.ltb_irrefl, Nat.eqb_refl. lra.
  - intros c Hc. apply Asym_sym.
  - intros i c Hi Hc. symmetry. apply (factored_Asym j); auto; lia.
  - intros c Hc. rewrite <- (factored_Asym j F j c j HF); try lia.
    apply Rsum_ext. intros k Hk. unfold Lw at 1.
    destruct (Nat.leb_spec k j); [reflexivity | lia].
  - exact Hw.
Qed.

Lemma factored_start : factored n lda 0 A A.
Proof.
  repeat split; auto; intros; lia.
Qed.

Lemma potf2_col_factored j F :
  (j < n)%nat -> factored n lda j A F -> 0 < Blas.pivot lda j F ->
  exists F', Blas.potf2_col n lda j F = (F', true) /\ factored n lda (S j) A F'.
Proof.
  intros Hj (Hl & Hs & Hd & Hf) Hp.
  destruct (potf2_col_ok n lda j F Hlda Hj) as (F' & Hrun & Hl' & Hf' & Hjj & Hij); auto.
  { now rewrite Hl. }
  exists F'. split; auto.
  assert (Hold : forall i k, (i < n)%nat -> (k < j)%nat ->
            get F' (ix lda i k) = get F (ix lda i k)).
  { intros i k Hi Hk. apply Hf'. intros i' Hi' E. apply ix_inj in E; lia. }
  assert (Hsq : sqrt (Blas.pivot lda j F) * sqrt (Blas.pivot lda j F)
                = Blas.pivot lda j F) by (apply sqrt_sqrt; lra).
  assert (Hs0 : 0 < sqrt (Blas.pivot lda j F)) by now apply sqrt_lt_R0.
  repeat split.
  - congruence.
  - intros c i Hc Hi. destruct (Nat.eq_dec c j) as [->|Hne].
    + simpl Rsum.
      rewrite (Rsum_ext j (fun k => get F' (ix lda i k) * get F' (ix lda j k))
                 (fun k => get F (ix lda i k) * get F (ix lda j k)))
        by (intros k Hk; rewrite !Hold by lia; reflexivity).
      rewrite Hjj.
      assert (HA : get F (ix lda i j) = get A (ix lda i j)).
      { apply Hf. intros c' i' Hc' Hi' E. apply ix_inj in E; lia. }
      destruct (Nat.eq_dec i j) as [->|Hij'].
      * rewrite Hjj, Hsq, <- HA. unfold Blas.pivot. ring.
      * rewrite Hij by lia. rewrite <- HA. field. lra.
    + rewrite <- (Hs c i) by lia.
      apply Rsum_ext. intros k Hk. rewrite !Hold by lia. reflexivity.
  - intros c Hc. destruct (Nat.eq_dec c j) as [->|Hne].
    + now rewrite Hjj.
    + rewrite Hold by lia. apply Hd; lia.
  - intros t Ht. rewrite Hf'.
    + apply Hf. intros c i Hc Hi. apply Ht; lia.
    + intros i Hi. apply Ht; lia.
Qed.

(** Success of the factorization from column [j] on. *)
Lemma potf2_from_ok cnt j F F' :
  (j + cnt = n)%nat -> factored n lda j A F ->
  Blas.potf2_from cnt n lda j F = (F', O) -> factored n lda n A F'.
Proof.
  revert j F. induction cnt as [|cnt IH]; intros j F Hcnt HF Hrun.
  - simpl in Hrun. injection Hrun as <-.
    assert (j = n) by lia. subst j. exact HF.
  - simpl in Hrun.
    destruct (Rle_dec (Blas.pivot lda j F) 0) as [Hle|Hgt].
    + rewrite (potf2_col_fail n lda j F Hle) in Hrun. discriminate.
    + destruct (potf2_col_factored j F) as (F1 & Hcol & HF1); auto; try lia; try lra.
      rewrite Hcol in Hrun. apply (IH (S j) F1); auto. lia.
Qed.

Lemma potf2_from_length cnt j F :
  (j + cnt = n)%nat -> factored n lda j A F ->
  length (fst (Blas.potf2_from cnt n lda j F)) = length A.
Proof.
  revert j F. induction cnt as [|cnt IH]; intros j F Hcnt HF.
  - simpl. apply HF.
  - simpl.
    destruct (Rle_dec (Blas.pivot lda j F) 0) as [Hle|Hgt].
    + rewrite (potf2_col_fail n lda j F Hle). simpl.
      rewrite length_put. apply HF.
    + destruct (potf2_col_factored j F) as (F1 & Hcol & HF1); auto; try lia; try lra.
      rewrite Hcol. apply (IH (S j) F1); auto. lia.
Qed.

(** On a positive definite matrix every pivot is positive. *)
Lemma potf2_from_posdef cnt j F :
  (j + cnt = n)%nat -> factored n lda j A F -> posdef n (Asym A lda) ->
  snd (Blas.potf2_from cnt n lda j F) = O.
Proof.
  revert j F. induction cnt as [|cnt IH]; intros j F Hcnt HF Hpd.
  - reflexivity.
  - simpl.
    assert (Hp : 0 < Blas.pivot lda j F) by (apply pivot_pos; auto; lia).
    destruct (potf2_col_factored j F) as (F1 & Hcol & HF1); auto; try lia.
    rewrite Hcol. apply (IH (S j) F1); auto. lia.
Qed.

End CholeskyLoop.

(* ================================================================== *)
(** * The triangular matrix-vector product *)

Lemma downto_put_get (idx : nat -> nat) (val : nat -> list R -> R) n l i :
  (forall i i', (i < n)%nat -> (i' < n)%nat -> idx i = idx i' -> i = i') ->
  (i < n)%nat -> (idx i < length l)%nat ->
  (forall l', length l' = length l ->
     (forall t, (forall i', (i < i' < n)%nat -> t <> idx i') -> get l' t = get l t) ->
     val i l' = val i l) ->
  get (downto n (fun i l => put l (idx i) (val i l)) l) (idx i) = val i l.
Proof.
  revert l. induction n as [|n IH]; intros l Hinj Hi Hlen Hval; [lia|].
  simpl. destruct (Nat.eq_dec i n) as [->|Hne].
  - rewrite (downto_put_frame idx val n).
    + now apply get_put_eq.
    + intros i' Hi' E. apply Hinj in E; lia.
  - assert (Hag : forall t, t <> idx n ->
              get (put l (idx n) (val n l)) t = get l t).
    { intros t Ht. apply get_put_neq. congruence. }
    rewrite IH.
    + apply Hval; [apply length_put|].
      intros t Ht. apply Hag. apply Ht; lia.
    + intros a b Ha Hb. apply Hinj; lia.
    + lia.
    + now rewrite length_put.
    + intros l' Hl' Hag'.
      transitivity (val i l).
      * apply Hval; [now rewrite Hl', length_put|].
        intros t Ht. rewrite Hag'; [apply Hag; apply Ht; lia|].
        intros i' Hi'. apply Ht; lia.
      * symmetry. apply Hval; [apply length_put|].
        intros t Ht. apply Hag. apply Ht; lia.
Qed.

Section Trmv.

Variables (n : nat) (A : list R) (lda : nat).

Lemma trmv_LNN_step_spec j x :
  (j < n)%nat -> (n <= length x)%nat ->
  let x' := Blas.trmv_LNN_step n A lda j x in
  length x' = length x /\
  (forall i, (i < j \/ n <= i)%nat -> get x' i = get x i) /\
  get x' j = get x j * get A (ix lda j j) /\
  (forall i, (j < i < n)%nat -> get x' i = get x i + get x j * get A (ix lda i j)).
Proof.
  intros Hj Hlen.
  set (idx := fun d => (S j + d)%nat).
  set (val := fun d (l : list R) => get l (S j + d) + get x j * get A (ix lda (S j + d) j)).
  set (x1 := downto (n - S j) (fun d l => put l (idx d) (val d l)) x).
  change (Blas.trmv_LNN_step n A lda j x) with (put x1 j (get x1 j * get A (ix lda j j))).
  assert (L1 : length x1 = length x) by apply (downto_put_length idx val).
  assert (F1 : forall i, (i <= j \/ n <= i)%nat -> get x1 i = get x i).
  { intros i Hi. apply (downto_put_frame idx val). unfold idx. intros; lia. }
  assert (G1 : forall i, (j < i < n)%nat ->
             get x1 i = get x i + get x j * get A (ix lda i j)).
  { intros i Hi. replace i with (idx (i - S j)%nat) at 1 by (unfold idx; lia).
    unfold x1. rewrite (downto_put_get idx val).
    - unfold val. replace (S j + (i - S j))%nat with i by lia. reflexivity.
    - unfold idx; intros; lia.
    - lia.
    - unfold idx; lia.
    - intros l' _ Hag. unfold val. rewrite Hag; auto.
      unfold idx. intros; lia. }
  cbv zeta. repeat split.
  - now rewrite length_put.
  - intros i Hi. rewrite get_put_neq by lia. apply F1; lia.
  - rewrite get_put_eq by lia. rewrite F1 by lia. reflexivity.
  - intros i Hi. rewrite get_put_neq by lia. now apply G1.
Qed.

Lemma dtrmv_LNN_spec x :
  (n <= length x)%nat ->
  let x' := Blas.dtrmv_LNN n A lda x in
  length x' = length x /\
  (forall i, (n <= i)%nat -> get x' i = get x i) /\
  (forall i, (i < n)%nat -> get x' i = Rsum n (fun t => Lw A lda i t * get x t)).
Proof.
  intros Hlen x'.
  pose (I := fun (k : nat) (y : list R) =>
    length y = length x /\
    (forall i, (i < k \/ n <= i)%nat -> get y i = get x i) /\
    (forall i, (k <= i < n)%nat ->
       get y i = Rsum n (fun t => if (Nat.leb k t && Nat.leb t i)%bool
                                  then get A (ix lda i t) * get x t else 0))).
  assert (HI : I O x').
  { apply (downto_ind I).
    - repeat split; auto. intros; lia.
    - intros k y Hk (Hl & Hu & Hs).
      destruct (trmv_LNN_step_spec k y Hk) as (Hl' & Hu' & Hk' & Hi'); [lia|].
      repeat split.
      + congruence.
      + intros i Hi. rewrite Hu' by lia. apply Hu; lia.
      + intros i Hi. destruct (Nat.eq_dec i k) as [->|Hne].
        * rewrite Hk', Hu by lia.
          rewrite (Rsum_single n _ k); auto.
          -- rewrite Nat.leb_refl. simpl. ring.
          -- intros t Ht Htk.
             destruct (Nat.leb_spec k t), (Nat.leb_spec t k); simpl; auto; lia.
        * rewrite Hi', Hs, (Hu k) by lia.
          assert (E : get x k * get A (ix lda i k)
                      = Rsum n (fun t => if Nat.eqb t k
                                         then get A (ix lda i t) * get x t else 0)).
          { rewrite (Rsum_single n _ k); auto.
            - rewrite Nat.eqb_refl. ring.
            - intros t Ht Htk. destruct (Nat.eqb_spec t k); auto; lia. }
          rewrite E, <- Rsum_plus. apply Rsum_ext. intros t Ht.
          destruct (Nat.eqb_spec t k), (Nat.leb_spec (S k) t), (Nat.leb_spec k t),
            (Nat.leb_spec t i); simpl; subst; try lia; lra. }
  destruct HI as (Hl & Hu & Hs).
  split; [exact Hl | split].
  - intros i Hi. apply Hu; lia.
  - intros i Hi. rewrite Hs by lia.
    apply Rsum_ext. intros t Ht. unfold Lw. simpl.
    destruct (Nat.leb t i); ring.
Qed.

End Trmv.

(* ================================================================== *)
(** * Running the BLAS and LAPACK calls *)

Lemma matlen_sq n : (0 < n)%nat -> matlen n n n = (n * n)%nat.
Proof.
  intros H. unfold matlen. destruct (Nat.eqb_spec n 0); [lia|]. simpl. nia.
Qed.

Lemma matlen_rect n r : (0 < n)%nat -> matlen n r n = (r * n)%nat.
Proof.
  intros H. unfold matlen.
  destruct (Nat.eqb_spec n 0); [lia|].
  destruct (Nat.eqb_spec r 0); simpl; nia.
Qed.

Lemma dcopy_run n X Y h :
  (n <= length (cells h X))%nat -> (n <= length (cells h Y))%nat ->
  dcopy_ (Z.of_nat n) X Y h
  = Done tt (poke h Y (Blas.dcopy n (cells h X) (cells h Y))).
Proof.
  intros HX HY. unfold dcopy_.
  destruct (Z.leb_spec (Z.of_nat n) 0) as [Hz|Hz].
  - assert (n = O) by lia. subst n. simpl. unfold ret. now rewrite poke_self.
  - rewrite Nat2Z.id.
    rewrite (bind_run _ _ _ _ _ (need_ok X n h HX)).
    rewrite (bind_run _ _ _ _ _ (need_ok Y n h HY)). reflexivity.
Qed.

Lemma daxpy_run n a X Y h :
  (n <= length (cells h X))%nat -> (n <= length (cells h Y))%nat ->
  daxpy_ (Z.of_nat n) a X Y h
  = Done tt (poke h Y (Blas.daxpy n a (cells h X) (cells h Y))).
Proof.
  intros HX HY. unfold daxpy_.
  destruct (Z.leb_spec (Z.of_nat n) 0) as [Hz|Hz].
  - assert (n = O) by lia. subst n. simpl. unfold ret. now rewrite poke_self.
  - rewrite Nat2Z.id.
    rewrite (bind_run _ _ _ _ _ (need_ok X n h HX)).
    rewrite (bind_run _ _ _ _ _ (need_ok Y n h HY)). reflexivity.
Qed.

Lemma dgemv_T_run m n alpha A X beta Y h :
  (0 < m)%nat -> (0 < n)%nat ->
  (n * m <= length (cells h A))%nat ->
  (m <= length (cells h X))%nat -> (n <= length (cells h Y))%nat ->
  dgemv_T_ (Z.of_nat m) (Z.of_nat n) alpha A (Z.of_nat m) X beta Y h
  = Done tt (poke h Y (Blas.dgemv_T m n alpha (cells h A) m (cells h X) beta (cells h Y))).
Proof.
  intros Hm Hn HA HX HY. unfold dgemv_T_.
  destruct (Z.ltb_spec (Z.of_nat m) 0); [lia|].
  destruct (Z.ltb_spec (Z.of_nat n) 0); [lia|].
  destruct (Z.ltb_spec (Z.of_nat m) (Z.max 1 (Z.of_nat m))); [lia|].
  destruct (Z.eqb_spec (Z.of_nat m) 0); [lia|].
  destruct (Z.eqb_spec (Z.of_nat n) 0); [lia|]. cbn [orb].
  rewrite !Nat2Z.id.
  rewrite (bind_run _ _ _ _ _ (need_ok A _ h
             (eq_ind_r (fun k => (k <= _)%nat) HA (matlen_rect m n Hm)))).
  rewrite (bind_run _ _ _ _ _ (need_ok X m h HX)).
  rewrite (bind_run _ _ _ _ _ (need_ok Y n h HY)). reflexivity.
Qed.

Lemma dtrsm_LLNN_run m n alpha A B h :
  (0 < m)%nat ->
  (m * m <= length (cells h A))%nat -> (n * m <= length (cells h B))%nat ->
  dtrsm_LLNN_ (Z.of_nat m) (Z.of_nat n) alpha A (Z.of_nat m) B (Z.of_nat m) h
  = Done tt (poke h B (Blas.dtrsm_LLNN m n alpha (cells h A) m (cells h B) m)).
Proof.
  intros Hm HA HB. unfold dtrsm_LLNN_.
  destruct (Z.ltb_spec (Z.of_nat m) 0); [lia|].
  destruct (Z.ltb_spec (Z.of_nat n) 0); [lia|].
  destruct (Z.ltb_spec (Z.of_nat m) (Z.max 1 (Z.of_nat m))); [lia|].
  destruct (Z.eqb_spec (Z.of_nat m) 0); [lia|]. cbn [orb].
  destruct (Z.eqb_spec (Z.of_nat n) 0) as [Hz|Hz].
  - assert (n = O) by lia. subst n. unfold ret, Blas.dtrsm_LLNN. simpl.
    now rewrite poke_self.
  - rewrite !Nat2Z.id.
    rewrite (bind_run _ _ _ _ _ (need_ok A _ h
               (eq_ind_r (fun k => (k <= _)%nat) HA (matlen_sq m Hm)))).
    rewrite (bind_run _ _ _ _ _ (need_ok B _ h
               (eq_ind_r (fun k => (k <= _)%nat) HB (matlen_rect m n Hm)))).
    reflexivity.
Qed.

Lemma dtrsm_LLTN_run m n alpha A B h :
  (0 < m)%nat ->
  (m * m <= length (cells h A))%nat -> (n * m <= length (cells h B))%nat ->
  dtrsm_LLTN_ (Z.of_nat m) (Z.of_nat n) alpha A (Z.of_nat m) B (Z.of_nat m) h
  = Done tt (poke h B (Blas.dtrsm_LLTN m n alpha (cells h A) m (cells h B) m)).
Proof.
  intros Hm HA HB. unfold dtrsm_LLTN_.
  destruct (Z.ltb_spec (Z.of_nat m) 0); [lia|].
  destruct (Z.ltb_spec (Z.of_nat n) 0); [lia|].
  destruct (Z.ltb_spec (Z.of_nat m) (Z.max 1 (Z.of_nat m))); [lia|].
  destruct (Z.eqb_spec (Z.of_nat m) 0); [lia|]. cbn [orb].
  destruct (Z.eqb_spec (Z.of_nat n) 0) as [Hz|Hz].
  - assert (n = O) by lia. subst n. unfold ret, Blas.dtrsm_LLTN. simpl.
    now rewrite poke_self.
  - rewrite !Nat2Z.id.
    rewrite (bind_run _ _ _ _ _ (need_ok A _ h
               (eq_ind_r (fun k => (k <= _)%nat) HA (matlen_sq m Hm)))).
    rewrite (bind_run _ _ _ _ _ (need_ok B _ h
               (eq_ind_r (fun k => (k <= _)%nat) HB (matlen_rect m n Hm)))).
    reflexivity.
Qed.

Lemma dgemm_TN_run m k alpha A B beta C h :
  (0 < m)%nat -> (0 < k)%nat ->
  (m * k <= length (cells h A))%nat -> (m * k <= length (cells h B))%nat ->
  (m * m <= length (cells h C))%nat ->
  dgemm_TN_ (Z.of_nat m) (Z.of_nat m) (Z.of_nat k) alpha A (Z.of_nat k) B (Z.of_nat k)
            beta C (Z.of_nat m) h
  = Done tt (poke h C (Blas.dgemm_TN m m k alpha (cells h A) k (cells h B) k beta
                         (cells h C) m)).
Proof.
  intros Hm Hk HA HB HC. unfold dgemm_TN_.
  destruct (Z.ltb_spec (Z.of_nat m) 0); [lia|].
  destruct (Z.ltb_spec (Z.of_nat k) 0); [lia|].
  destruct (Z.ltb_spec (Z.of_nat k) (Z.max 1 (Z.of_nat k))); [lia|].
  destruct (Z.ltb_spec (Z.of_nat m) (Z.max 1 (Z.of_nat m))); [lia|].
  destruct (Z.eqb_spec (Z.of_nat m) 0); [lia|]. cbn [orb].
  rewrite !Nat2Z.id.
  rewrite (bind_run _ _ _ _ _ (need_ok A _ h
             (eq_ind_r (fun x => (x <= _)%nat) HA (matlen_rect k m Hk)))).
  rewrite (bind_run _ _ _ _ _ (need_ok B _ h
             (eq_ind_r (fun x => (x <= _)%nat) HB (matlen_rect k m Hk)))).
  rewrite (bind_run _ _ _ _ _ (need_ok C _ h
             (eq_ind_r (fun x => (x <= _)%nat) HC (matlen_sq m Hm)))).
  reflexivity.
Qed.

Lemma dsyrk_LT_run n k alpha A beta C h :
  (0 < n)%nat -> (0 < k)%nat ->
  (n * k <= length (cells h A))%nat -> (n * n <= length (cells h C))%nat ->
  dsyrk_LT_ (Z.of_nat n) (Z.of_nat k) alpha A (Z.of_nat k) beta C (Z.of_nat n) h
  = Done tt (poke h C (Blas.dsyrk_LT n k alpha (cells h A) k beta (cells h C) n)).
Proof.
  intros Hn Hk HA HC. unfold dsyrk_LT_.
  destruct (Z.ltb_spec (Z.of_nat n) 0); [lia|].
  destruct (Z.ltb_spec (Z.of_nat k) 0); [lia|].
  destruct (Z.ltb_spec (Z.of_nat k) (Z.max 1 (Z.of_nat k))); [lia|].
  destruct (Z.ltb_spec (Z.of_nat n) (Z.max 1 (Z.of_nat n))); [lia|].
  destruct (Z.eqb_spec (Z.of_nat n) 0); [lia|].
  rewrite !Nat2Z.id.
  rewrite (bind_run _ _ _ _ _ (need_ok A _ h
             (eq_ind_r (fun x => (x <= _)%nat) HA (matlen_rect k n Hk)))).
  rewrite (bind_run _ _ _ _ _ (need_ok C _ h
             (eq_ind_r (fun x => (x <= _)%nat) HC (matlen_sq n Hn)))).
  reflexivity.
Qed.

Lemma dtrmv_LNN_run n A X h :
  (0 < n)%nat ->
  (n * n <= length (cells h A))%nat -> (n <= length (cells h X))%nat ->
  dtrmv_LNN_ (Z.of_nat n) A (Z.of_nat n) X h
  = Done tt (poke h X (Blas.dtrmv_LNN n (cells h A) n (cells h X))).
Proof.
  intros Hn HA HX. unfold dtrmv_LNN_.
  destruct (Z.ltb_spec (Z.of_nat n) 0); [lia|].
  destruct (Z.ltb_spec (Z.of_nat n) (Z.max 1 (Z.of_nat n))); [lia|].
  destruct (Z.eqb_spec (Z.of_nat n) 0); [lia|].
  rewrite !Nat2Z.id.
  rewrite (bind_run _ _ _ _ _ (need_ok A _ h
             (eq_ind_r (fun x => (x <= _)%nat) HA (matlen_sq n Hn)))).
  rewrite (bind_run _ _ _ _ _ (need_ok X n h HX)).
  reflexivity.
Qed.

Lemma dpotrf_L_run n A h :
  (0 < n)%nat -> (n * n <= length (cells h A))%nat ->
  dpotrf_L_ (Z.of_nat n) A (Z.of_nat n) h
  = Done (Z.of_nat (snd (Blas.dpotf2_L n (cells h A) n)))
         (poke h A (fst (Blas.dpotf2_L n (cells h A) n))).
Proof.
  intros Hn HA. unfold dpotrf_L_.
  destruct (Z.ltb_spec (Z.of_nat n) 0); [lia|].
  destruct (Z.ltb_spec (Z.of_nat n) (Z.max 1 (Z.of_nat n))); [lia|].
  destruct (Z.eqb_spec (Z.of_nat n) 0); [lia|].
  rewrite !Nat2Z.id.
  rewrite (bind_run _ _ _ _ _ (need_ok A _ h
             (eq_ind_r (fun x => (x <= _)%nat) HA (matlen_sq n Hn)))).
  unfold bind, peek.
  destruct (Blas.dpotf2_L n (cells h A) n) as [F info]. reflexivity.
Qed.

Lemma length_trsm_LLNN_col m alpha A lda ldb c B :
  length (Blas.trsm_LLNN_col m alpha A lda ldb c B) = length B.
Proof.
  unfold Blas.trsm_LLNN_col.
  rewrite (upto_length (Blas.trsm_LLNN_step m A lda ldb c) m); auto.
  - apply (upto_put_length (fun i => ix ldb i c) (fun i l => alpha * get l (ix ldb i c))).
  - intros; apply fstep_length.
Qed.

Lemma length_dtrsm_LLNN m n alpha A lda B ldb :
  length (Blas.dtrsm_LLNN m n alpha A lda B ldb) = length B.
Proof.
  unfold Blas.dtrsm_LLNN. apply (upto_length _ n); auto.
  intros; apply length_trsm_LLNN_col.
Qed.

Lemma length_dtrsm_LLTN m n alpha A lda B ldb :
  length (Blas.dtrsm_LLTN m n alpha A lda B ldb) = length B.
Proof.
  unfold Blas.dtrsm_LLTN. apply (upto_length _ n); auto.
  intros j l _. unfold Blas.trsm_LLTN_col.
  apply (downto_length _ m); auto.
  intros i l' _. unfold Blas.trsm_LLTN_step. apply length_put.
Qed.

Lemma length_dpotf2_L n A :
  (n * n <= length A)%nat ->
  length (fst (Blas.dpotf2_L n A n)) = length A.
Proof.
  intros H. destruct (Nat.eq_dec n 0) as [->|Hn]; [reflexivity|].
  unfold Blas.dpotf2_L.
  assert (Hm : (matlen n n n <= length A)%nat) by (rewrite matlen_sq; lia).
  apply potf2_from_length; try apply factored_start; auto; lia.
Qed.

Lemma dposv_L_run n r A B h :
  (0 < n)%nat -> A <> B ->
  (n * n <= length (cells h A))%nat -> (r * n <= length (cells h B))%nat ->
  dposv_L_ (Z.of_nat n) (Z.of_nat r) A (Z.of_nat n) B (Z.of_nat n) h
  = let F := fst (Blas.dpotf2_L n (cells h A) n) in
    match snd (Blas.dpotf2_L n (cells h A) n) with
    | O => Done 0%Z
             (poke (poke h A F) B
                (Blas.dtrsm_LLTN n r 1 F n (Blas.dtrsm_LLNN n r 1 F n (cells h B) n) n))
    | S j => Done (Z.of_nat (S j)) (poke h A F)
    end.
Proof.
  intros Hn Hne HA HB. unfold dposv_L_.
  destruct (Z.ltb_spec (Z.of_nat n) 0); [lia|].
  destruct (Z.ltb_spec (Z.of_nat r) 0); [lia|].
  destruct (Z.ltb_spec (Z.of_nat n) (Z.max 1 (Z.of_nat n))); [lia|].
  rewrite (bind_run _ _ _ _ _ (dpotrf_L_run n A h Hn HA)).
  set (F := fst (Blas.dpotf2_L n (cells h A) n)).
  assert (LF : length F = length (cells h A)) by now apply length_dpotf2_L.
  destruct (snd (Blas.dpotf2_L n (cells h A) n)) as [|j]; cbv zeta.
  - change (Z.of_nat 0 =? 0)%Z with true. cbv iota.
    unfold dpotrs_L_.
    destruct (Z.ltb_spec (Z.of_nat n) 0); [lia|].
    destruct (Z.ltb_spec (Z.of_nat r) 0); [lia|].
    destruct (Z.ltb_spec (Z.of_nat n) (Z.max 1 (Z.of_nat n))); [lia|].
    destruct (Z.eqb_spec (Z.of_nat n) 0); [lia|]. cbn [orb].
    set (h1 := poke h A F).
    assert (C1A : cells h1 A = F) by apply cells_poke_eq.
    assert (C1B : cells h1 B = cells h B) by (apply cells_poke_neq; congruence).
    destruct (Z.eqb_spec (Z.of_nat r) 0) as [Hz|Hz].
    + assert (r = O) by lia. subst r. unfold ret, Blas.dtrsm_LLTN, Blas.dtrsm_LLNN.
      simpl upto. now rewrite <- C1B, poke_self.
    + rewrite (bind_run _ _ _ _ _ (dtrsm_LLNN_run n r 1 A B h1 Hn
                 ltac:(rewrite C1A, LF; exact HA) ltac:(rewrite C1B; exact HB))).
      set (h2 := poke h1 B (Blas.dtrsm_LLNN n r 1 (cells h1 A) n (cells h1 B) n)).
      assert (C2A : cells h2 A = F).
      { unfold h2. rewrite cells_poke_neq by congruence. exact C1A. }
      assert (C2B : cells h2 B = Blas.dtrsm_LLNN n r 1 F n (cells h B) n).
      { unfold h2. now rewrite cells_poke_eq, C1A, C1B. }
      rewrite (bind_run _ _ _ _ _ (dtrsm_LLTN_run n r 1 A B h2 Hn
                 ltac:(rewrite C2A, LF; exact HA)
                 ltac:(rewrite C2B, length_dtrsm_LLNN; exact HB))).
      unfold ret. f_equal. rewrite C2A, C2B. unfold h2. apply poke_poke.
  - destruct (Z.eqb_spec (Z.of_nat (S j)) 0); [lia|]. reflexivity.
Qed.

(* ================================================================== *)
(** * Running the loops of lib_gpr.c *)

Lemma copy_loop_run src dst n h :
  src <> dst ->
  (n <= length (cells h src))%nat -> (n <= length (cells h dst))%nat ->
  for_ 0 n (fun i => v <- load src i ;; store dst i v) h
  = Done tt (poke h dst (Blas.dcopy n (cells h src) (cells h dst))).
Proof.
  intros Hne Hs Hd. rewrite for_from_0.
  apply (for_upto_buffer dst (fun i l => put l i (get (cells h src) i))).
  intros k l Hk Hl. split; [|apply length_put].
  assert (Cs : cells (poke h dst l) src = cells h src)
    by (apply cells_poke_neq; congruence).
  rewrite (bind_run _ _ _ _ _ (load_ok src k (poke h dst l) ltac:(rewrite Cs; lia))).
  rewrite store_ok by (rewrite cells_poke_eq; lia).
  now rewrite Cs, cells_poke_eq, poke_poke.
Qed.

Lemma jitter_loop_run p ns e h :
  (ns * ns <= length (cells h p))%nat ->
  for_ 0 ns (fun i => v <- load p (i * ns + i) ;; store p (i * ns + i) (v + e)) h
  = Done tt (poke h p (jitter ns e (cells h p))).
Proof.
  intros Hlen. rewrite for_from_0.
  apply (for_upto_buffer p (fun i l => put l (i * ns + i) (get l (i * ns + i) + e))).
  intros k l Hk Hl. split; [|apply length_put].
  assert (Hin : (k * ns + k < length (cells (poke h p l) p))%nat).
  { rewrite cells_poke_eq, Hl. pose proof (diag_lt ns k Hk). lia. }
  rewrite (bind_run _ _ _ _ _ (load_ok p _ _ Hin)).
  rewrite store_ok by exact Hin.
  now rewrite cells_poke_eq, poke_poke.
Qed.

Lemma length_jitter ns e K : length (jitter ns e K) = length K.
Proof.
  apply (upto_put_length (fun i => (i * ns + i)%nat) (fun i l => get l (i * ns + i) + e)).
Qed.

Lemma get_jitter ns e K i j :
  (ns * ns <= length K)%nat -> (i < ns)%nat -> (j < ns)%nat ->
  get (jitter ns e K) (i * ns + j) = jittered ns e K i j.
Proof.
  intros Hlen Hi Hj. unfold jitter, jittered.
  assert (Hinj : forall a b, (a < ns)%nat -> (b < ns)%nat ->
                   (a * ns + a = b * ns + b)%nat -> a = b).
  { intros a b Ha Hb E. apply cell_inj in E; lia. }
  destruct (Nat.eqb_spec i j) as [->|Hne].
  - rewrite (upto_put_get (fun i => (i * ns + i)%nat)
               (fun i l => get l (i * ns + i) + e) ns Hinj) by (auto; nia).
    rewrite (upto_put_frame_below (fun i => (i * ns + i)%nat)
               (fun i l => get l (i * ns + i) + e) ns); auto; try lia.
    intros k Hk E. apply Hinj in E; lia.
  - rewrite (upto_put_frame (fun i => (i * ns + i)%nat)
               (fun i l => get l (i * ns + i) + e) ns); [lra|].
    intros k Hk E. apply cell_inj in E; lia.
Qed.

Lemma get_jitter_outside ns e K t :
  (ns * ns <= t)%nat -> get (jitter ns e K) t = get K t.
Proof.
  intros Ht. unfold jitter.
  apply (upto_put_frame (fun i => (i * ns + i)%nat) (fun i l => get l (i * ns + i) + e) ns).
  intros k Hk. pose proof (diag_lt ns k Hk). lia.
Qed.

(** The state after the copy loops of [get_gpr_weights]. *)
Lemma get_gpr_weights_prepare_run wt kc krn ns y h :
  krn <> kc -> y <> kc -> y <> wt -> wt <> kc ->
  (ns * ns <= length (cells h krn))%nat -> (ns * ns <= length (cells h kc))%nat ->
  (ns <= length (cells h y))%nat -> (ns <= length (cells h wt))%nat ->
  get_gpr_weights_prepare wt kc krn ns y h
  = Done tt (poke (poke h kc (jitter ns 1E-7
                                (Blas.dcopy (ns * ns) (cells h krn) (cells h kc))))
                  wt (Blas.dcopy ns (cells h y) (cells h wt))).
Proof.
  intros N1 N2 N3 N4 L1 L2 L3 L4. unfold get_gpr_weights_prepare.
  rewrite (bind_run _ _ _ _ _ (copy_loop_run krn kc (ns * ns) h N1 L1 L2)).
  set (h1 := poke h kc (Blas.dcopy (ns * ns) (cells h krn) (cells h kc))).
  assert (C1 : cells h1 kc = Blas.dcopy (ns * ns) (cells h krn) (cells h kc))
    by apply cells_poke_eq.
  rewrite (bind_run _ _ _ _ _ (jitter_loop_run kc ns 1E-7 h1
             ltac:(rewrite C1, length_dcopy; exact L2))).
  set (h2 := poke h1 kc (jitter ns 1E-7 (cells h1 kc))).
  assert (C2y : cells h2 y = cells h y).
  { unfold h2, h1. now rewrite !cells_poke_neq by congruence. }
  assert (C2w : cells h2 wt = cells h wt).
  { unfold h2, h1. now rewrite !cells_poke_neq by congruence. }
  rewrite (copy_loop_run y wt ns h2 N3) by (rewrite ?C2y, ?C2w; assumption).
  rewrite C2y, C2w. unfold h2. rewrite C1. unfold h1. now rewrite poke_poke.
Qed.

Ltac heap_eq :=
  apply heap_ext;
  [ let q := fresh "q" in
    intros q; cbn [cells poke];
    repeat match goal with
           | |- context [Nat.eqb q ?p] => destruct (Nat.eqb q p)
           end;
    reflexivity
  | reflexivity ].

(** What [get_gpr_weights] does to the heap: the factor and the solution
    of the jittered copy, or a failed assertion. *)
Lemma get_gpr_weights_run wt kc krn ns dim y h :
  krn <> kc -> y <> kc -> y <> wt -> wt <> kc ->
  (0 < ns)%nat -> (Z.of_nat ns < 2147483648)%Z ->
  (ns * ns <= length (cells h krn))%nat -> (ns * ns <= length (cells h kc))%nat ->
  (ns <= length (cells h y))%nat -> (ns <= length (cells h wt))%nat ->
  let K := jitter ns 1E-7 (Blas.dcopy (ns * ns) (cells h krn) (cells h kc)) in
  let b := Blas.dcopy ns (cells h y) (cells h wt) in
  let F := fst (Blas.dpotf2_L ns K ns) in
  get_gpr_weights wt kc krn ns dim y h
  = match snd (Blas.dpotf2_L ns K ns) with
    | O => Done tt (poke (poke h kc F) wt
                      (Blas.dtrsm_LLTN ns 1 1 F ns (Blas.dtrsm_LLNN ns 1 1 F ns b ns) ns))
    | S _ => Fatal AssertFailed
    end.
Proof.
  intros N1 N2 N3 N4 Hns Hint L1 L2 L3 L4 K b F.
  unfold get_gpr_weights.
  rewrite (bind_run _ _ _ _ _
             (get_gpr_weights_prepare_run wt kc krn ns y h N1 N2 N3 N4 L1 L2 L3 L4)).
  fold K b. set (h2 := poke (poke h kc K) wt b).
  assert (Ck : cells h2 kc = K).
  { unfold h2. rewrite cells_poke_neq by congruence. apply cells_poke_eq. }
  assert (Cw : cells h2 wt = b) by apply cells_poke_eq.
  cbv zeta. rewrite to_int_small by assumption.
  change 1%Z with (Z.of_nat 1).
  assert (Hrun := dposv_L_run ns 1 kc wt h2 Hns ltac:(congruence)
             ltac:(rewrite Ck; unfold K; rewrite length_jitter, length_dcopy; exact L2)
             ltac:(rewrite Cw; unfold b; rewrite length_dcopy; lia)).
  rewrite Ck, Cw in Hrun. fold F in Hrun. cbv zeta in Hrun.
  unfold bind at 1. rewrite Hrun.
  destruct (snd (Blas.dpotf2_L ns K ns)) as [|j].
  - rewrite Z.eqb_refl. unfold assert_, ret. f_equal.
    unfold h2. heap_eq.
  - destruct (Z.eqb_spec (Z.of_nat (S j)) 0); [lia|]. reflexivity.
Qed.

(* ================================================================== *)
(** * Positive definite matrices and the solve *)

Lemma posdef_ext n (a b : nat -> nat -> R) :
  (forall i j, (i < n)%nat -> (j < n)%nat -> a i j = b i j) ->
  posdef n a -> posdef n b.
Proof.
  intros E Ha x Hx. specialize (Ha x Hx).
  rewrite (Rsum_ext n _ (fun i => Rsum n (fun j => x i * b i j * x j))) in Ha; auto.
  intros i Hi. apply Rsum_ext. intros j Hj. now rewrite E.
Qed.

Lemma posdef_jitter n (a : nat -> nat -> R) e :
  0 < e -> posdef n a ->
  posdef n (fun i j => a i j + (if Nat.eqb i j then e else 0)).
Proof.
  intros He Ha x Hx. specialize (Ha x Hx).
  rewrite (Rsum_ext n _ (fun i => Rsum n (fun j => x i * a i j * x j) + e * (x i * x i))).
  - rewrite Rsum_plus, Rsum_scal_l.
    assert (0 <= Rsum n (fun i => x i * x i)).
    { apply Rsum_nonneg. intros i _. nra. }
    nra.
  - intros i Hi.
    rewrite (Rsum_ext n _ (fun j => x i * a i j * x j
                                    + (if Nat.eqb j i then e * (x i * x i) else 0))).
    + rewrite Rsum_plus. f_equal.
      rewrite (Rsum_single n _ i); auto.
      * now rewrite Nat.eqb_refl.
      * intros j Hj Hne. destruct (Nat.eqb_spec j i); [lia | reflexivity].
    + intros j Hj. rewrite (Nat.eqb_sym i j).
      destruct (Nat.eqb_spec j i); [subst; ring | ring].
Qed.

(** With [a = L L^T], solving [L z = b] and then [L^T w = z] solves
    [a w = b]. *)
Lemma chol_solve n (a L : nat -> nat -> R) (b z w : nat -> R) :
  (forall i j, (i < n)%nat -> (j < n)%nat -> Rsum n (fun k => L i k * L j k) = a i j) ->
  (forall i, (i < n)%nat -> Rsum n (fun t => L i t * z t) = b i) ->
  (forall i, (i < n)%nat -> Rsum n (fun t => L t i * w t) = z i) ->
  forall i, (i < n)%nat -> Rsum n (fun j => a i j * w j) = b i.
Proof.
  intros Ha Hz Hw i Hi. rewrite <- Hz by auto.
  transitivity (Rsum n (fun j => Rsum n (fun k => L i k * (L j k * w j)))).
  - apply Rsum_ext. intros j Hj. rewrite <- Ha by auto.
    rewrite <- Rsum_scal_r. apply Rsum_ext; intros; ring.
  - rewrite Rsum_swap. apply Rsum_ext. intros k Hk.
    rewrite Rsum_scal_l, Hw by auto. reflexivity.
Qed.

Lemma ix_col0 ld t : ix ld t 0 = t.
Proof. unfold ix. lia. Qed.

Lemma ix_rowmajor ns i j : ix ns i j = (j * ns + i)%nat.
Proof. unfold ix. lia. Qed.

Lemma cell_lt ns i j : (i < ns)%nat -> (j < ns)%nat -> (i * ns + j < ns * ns)%nat.
Proof. nia. Qed.

(** The matrix LAPACK sees in the jittered copy of a symmetric kernel. *)
Lemma Asym_jitter ns e K0 kc0 i j :
  symmetric ns (rowmajor K0 ns) ->
  (ns * ns <= length K0)%nat -> (ns * ns <= length kc0)%nat ->
  (i < ns)%nat -> (j < ns)%nat ->
  Asym (jitter ns e (Blas.dcopy (ns * ns) K0 kc0)) ns i j = jittered ns e K0 i j.
Proof.
  intros Hsym L0 L1 Hi Hj.
  assert (G : forall a b, (a < ns)%nat -> (b < ns)%nat ->
            get (jitter ns e (Blas.dcopy (ns * ns) K0 kc0)) (a * ns + b)
            = jittered ns e K0 a b).
  { intros a b Ha Hb. rewrite get_jitter; auto; [|now rewrite length_dcopy].
    unfold jittered. rewrite get_dcopy by exact L1.
    pose proof (cell_lt ns a b Ha Hb).
    destruct (Nat.ltb_spec (a * ns + b) (ns * ns)); [reflexivity | lia]. }
  unfold Asym. rewrite !ix_rowmajor.
  destruct (Nat.leb_spec j i).
  - rewrite G by auto. unfold jittered.
    rewrite (Nat.eqb_sym j i). f_equal. apply (Hsym j i); auto.
  - now rewrite G.
Qed.

(** The factor of a positive definite matrix and what it satisfies. *)
Lemma dpotf2_L_posdef n K :
  (0 < n)%nat -> (n * n <= length K)%nat -> posdef n (Asym K n) ->
  snd (Blas.dpotf2_L n K n) = O /\
  factored n n n K (fst (Blas.dpotf2_L n K n)).
Proof.
  intros Hn Hlen Hpd.
  assert (Hm : (matlen n n n <= length K)%nat) by (rewrite matlen_sq; lia).
  pose proof (factored_start n n K (Nat.le_refl n) Hm) as H0.
  assert (Hs : snd (Blas.dpotf2_L n K n) = O).
  { unfold Blas.dpotf2_L.
    exact (potf2_from_posdef n n K (Nat.le_refl n) Hm n 0 K eq_refl H0 Hpd). }
  split; auto.
  unfold Blas.dpotf2_L in *.
  destruct (Blas.potf2_from n n n 0 K) as [F info] eqn:E. simpl in *. subst info.
  exact (potf2_from_ok n n K (Nat.le_refl n) Hm n 0 K F eq_refl H0 E).
Qed.

Lemma factored_product n K F i j :
  (n * n <= length K)%nat ->
  factored n n n K F -> (i < n)%nat -> (j < n)%nat ->
  Rsum n (fun k => Lw F n i k * Lw F n j k) = Asym K n i j.
Proof.
  intros Hlen HF Hi Hj.
  assert (Hm : (matlen n n n <= length K)%nat) by (rewrite matlen_sq; lia).
  apply (factored_Asym n n K (Nat.le_refl n) Hm n F i j n HF); lia.
Qed.

(* ================================================================== *)
(** * The linear solve *)

(** On a symmetric kernel whose jittered version is positive definite,
    [get_gpr_weights] returns; the factor it leaves is the Cholesky
    factor of [krn + eps I], the weights solve the jittered system, and
    only the two output buffers change. *)
Lemma get_gpr_weights_core wt kc krn ns dim y h :
  krn <> kc -> y <> kc -> y <> wt -> wt <> kc ->
  (0 < ns)%nat -> (Z.of_nat ns < 2147483648)%Z ->
  (ns * ns <= length (cells h krn))%nat -> (ns * ns <= length (cells h kc))%nat ->
  (ns <= length (cells h y))%nat -> (ns <= length (cells h wt))%nat ->
  symmetric ns (rowmajor (cells h krn) ns) ->
  posdef ns (jittered ns eps (cells h krn)) ->
  exists h',
    get_gpr_weights wt kc krn ns dim y h = Done tt h' /\
    (forall q, q <> wt -> q <> kc -> cells h' q = cells h q) /\
    brk h' = brk h /\
    length (cells h' wt) = length (cells h wt) /\
    length (cells h' kc) = length (cells h kc) /\
    (forall i, (i < ns)%nat ->
       Rsum ns (fun j => jittered ns eps (cells h krn) i j * get (cells h' wt) j)
       = get (cells h y) i) /\
    (forall i j, (i < ns)%nat -> (j < ns)%nat ->
       Rsum ns (fun k => Lw (cells h' kc) ns i k * Lw (cells h' kc) ns j k)
       = jittered ns eps (cells h krn) i j) /\
    (forall i, (i < ns)%nat -> 0 < get (cells h' kc) (ix ns i i)).
Proof.
  intros N1 N2 N3 N4 Hns Hint L1 L2 L3 L4 Hsym Hpd.
  rewrite (get_gpr_weights_run wt kc krn ns dim y h) by assumption.
  cbv zeta. fold eps.
  set (K := jitter ns eps (Blas.dcopy (ns * ns) (cells h krn) (cells h kc))).
  set (b := Blas.dcopy ns (cells h y) (cells h wt)).
  assert (LK : (ns * ns <= length K)%nat).
  { unfold K. now rewrite length_jitter, length_dcopy. }
  assert (HA : forall i j, (i < ns)%nat -> (j < ns)%nat ->
             Asym K ns i j = jittered ns eps (cells h krn) i j).
  { intros i j Hi Hj. now apply Asym_jitter. }
  assert (HpdK : posdef ns (Asym K ns)).
  { apply (posdef_ext ns (jittered ns eps (cells h krn))); auto.
    intros i j Hi Hj. symmetry. now apply HA. }
  destruct (dpotf2_L_posdef ns K Hns LK HpdK) as (Hs & HF).
  rewrite Hs.
  set (F := fst (Blas.dpotf2_L ns K ns)) in *.
  set (Z := Blas.dtrsm_LLNN ns 1 1 F ns b ns).
  set (W := Blas.dtrsm_LLTN ns 1 1 F ns Z ns).
  assert (Hdiag : forall k, (k < ns)%nat -> get F (ix ns k k) <> 0).
  { intros k Hk. apply Rgt_not_eq. apply HF; auto. }
  assert (Lb : length b = length (cells h wt)) by apply length_dcopy.
  assert (LZ : length Z = length b) by apply length_dtrsm_LLNN.
  assert (LW : length W = length Z) by apply length_dtrsm_LLTN.
  assert (Hm1 : matlen ns 1 ns = ns) by (rewrite matlen_rect; lia).
  destruct (dtrsm_LLNN_spec ns 1 F ns ns (Nat.le_refl ns) Hdiag 1 b) as (_ & _ & HZ).
  { rewrite Hm1, Lb. exact L4. }
  destruct (dtrsm_LLTN_spec ns 1 F ns ns (Nat.le_refl ns) Hdiag 1 Z) as (_ & _ & HW).
  { rewrite Hm1, LZ, Lb. exact L4. }
  fold Z in HZ. fold W in HW.
  exists (poke (poke h kc F) wt W). split; [reflexivity|].
  rewrite cells_poke_eq, cells_poke_neq, cells_poke_eq by congruence.
  repeat split.
  - intros q Q1 Q2. now rewrite !cells_poke_neq.
  - congruence.
  - destruct HF as (-> & _). unfold K. now rewrite length_jitter, length_dcopy.
  - intros i Hi.
    rewrite (chol_solve ns (jittered ns eps (cells h krn)) (Lw F ns)
               (get b) (get Z) (get W)); auto.
    + unfold b. rewrite get_dcopy by exact L4.
      destruct (Nat.ltb_spec i ns); [reflexivity | lia].
    + intros a c Ha Hc. rewrite (factored_product ns K F a c LK HF Ha Hc).
      now apply HA.
    + intros a Ha. specialize (HZ a O Ha ltac:(lia)).
      rewrite ix_col0, Rmult_1_l in HZ. rewrite <- HZ.
      apply Rsum_ext. intros t _. now rewrite ix_col0.
    + intros a Ha. specialize (HW a O Ha ltac:(lia)).
      rewrite ix_col0, Rmult_1_l in HW. rewrite <- HW.
      apply Rsum_ext. intros t _. now rewrite ix_col0.
  - intros i j Hi Hj. rewrite (factored_product ns K F i j LK HF Hi Hj).
    now apply HA.
  - intros i Hi. apply HF; auto.
Qed.

Lemma eps_pos : 0 < eps.
Proof. unfold eps. lra. Qed.

(** C4. For a symmetric positive definite [ns] x [ns] kernel [krn] and a
    target [y] of length [ns], [get_gpr_weights] returns; it leaves in
    [krn_chd] the Cholesky factor [L] of the copy of [krn] with eps = 1e-7
    added once to each diagonal entry, [L L^T = krn + eps I]; the weights
    satisfy [(krn + eps I) wt = y]; the buffers [krn] and [y] are
    unchanged. *)
Theorem get_gpr_weights_solves :
  forall (wt krn_chd krn : ptr) (ns dim : nat) (y : ptr) (h : heap),
    krn <> krn_chd -> krn <> wt -> y <> krn_chd -> y <> wt -> wt <> krn_chd ->
    (0 < ns)%nat -> (Z.of_nat ns < 2147483648)%Z ->
    (ns * ns <= length (cells h krn))%nat ->
    (ns * ns <= length (cells h krn_chd))%nat ->
    (ns <= length (cells h y))%nat -> (ns <= length (cells h wt))%nat ->
    symmetric ns (rowmajor (cells h krn) ns) ->
    posdef ns (rowmajor (cells h krn) ns) ->
    exists h',
      get_gpr_weights wt krn_chd krn ns dim y h = Done tt h' /\
      cells h' krn = cells h krn /\
      cells h' y = cells h y /\
      (forall i, (i < ns)%nat ->
         Rsum ns (fun j => (get (cells h krn) (i * ns + j) + (if Nat.eqb i j then eps else 0))
                           * get (cells h' wt) j)
         = get (cells h y) i) /\
      (forall i j, (i < ns)%nat -> (j < ns)%nat ->
         Rsum ns (fun k => Lw (cells h' krn_chd) ns i k * Lw (cells h' krn_chd) ns j k)
         = get (cells h krn) (i * ns + j) + (if Nat.eqb i j then eps else 0)).
Proof.
  intros wt kc krn ns dim y h N1 N5 N2 N3 N4 Hns Hint L1 L2 L3 L4 Hsym Hpd.
  destruct (get_gpr_weights_core wt kc krn ns dim y h)
    as (h' & Hrun & Hfr & _ & _ & _ & Hsol & Hfac & _); auto.
  { apply (posdef_jitter ns (rowmajor (cells h krn) ns) eps eps_pos Hpd). }
  exists h'. repeat split; auto.
Qed.

Lemma get_gpr_weights_solves_witness :
  exists h',
    get_gpr_weights 0%nat 1%nat 2%nat 2 7 3%nat
      (heap_of [[0; 0]; [0; 0; 0; 0]; [2; 1; 1; 2]; [3; 3]]) = Done tt h' /\
    cells h' 2%nat = [2; 1; 1; 2].
Proof.
  destruct (get_gpr_weights_solves 0%nat 1%nat 2%nat 2 7 3%nat
              (heap_of [[0; 0]; [0; 0; 0; 0]; [2; 1; 1; 2]; [3; 3]]))
    as (h' & Hrun & Hk & _); try discriminate; try (simpl; lia).
  - intros i j Hi Hj. unfold rowmajor, get.
    destruct i as [|[|i]]; destruct j as [|[|j]]; simpl; try lia; reflexivity.
  - intros x (i & Hi & Hx). unfold rowmajor, get. simpl.
    assert (x 0%nat <> 0 \/ x 1%nat <> 0).
    { destruct i as [|[|i]]; [now left | now right | lia]. }
    assert (0 < x 0%nat * x 0%nat + x 1%nat * x 1%nat) by nra.
    nra.
  - exists h'. split; [exact Hrun | exact Hk].
Defined.

Lemma assert_Done c h u h' : assert_ c h = Done u h' -> c = true /\ h' = h.
Proof.
  destruct c; simpl; [|discriminate]. unfold ret. intros E; injection E as <-; auto.
Qed.

(** C7, in exact arithmetic.  With the doubles read as real numbers:
    when [krn + eps I] is symmetric positive definite the factorization
    inside [get_gpr_weights] reports status zero and the call returns
    normally; when the factorization reports any other status the call
    ends at once with the failed assertion.  (With rounding the first
    half fails: see the run in binary64 arithmetic below.) *)
Theorem get_gpr_weights_status :
  forall (wt krn_chd krn : ptr) (ns dim : nat) (y : ptr) (h : heap),
    krn <> krn_chd -> y <> krn_chd -> y <> wt -> wt <> krn_chd ->
    (0 < ns)%nat -> (Z.of_nat ns < 2147483648)%Z ->
    (ns * ns <= length (cells h krn))%nat ->
    (ns * ns <= length (cells h krn_chd))%nat ->
    (ns <= length (cells h y))%nat -> (ns <= length (cells h wt))%nat ->
    (symmetric ns (rowmajor (cells h krn) ns) ->
     posdef ns (jittered ns eps (cells h krn)) ->
     exists h1 h',
       get_gpr_weights_prepare wt krn_chd krn ns y h = Done tt h1 /\
       dposv_L_ (to_int ns) 1 krn_chd (to_int ns) wt (to_int ns) h1 = Done 0%Z h' /\
       get_gpr_weights wt krn_chd krn ns dim y h = Done tt h') /\
    (forall h1 h2 info,
       get_gpr_weights_prepare wt krn_chd krn ns y h = Done tt h1 ->
       dposv_L_ (to_int ns) 1 krn_chd (to_int ns) wt (to_int ns) h1 = Done info h2 ->
       info <> 0%Z ->
       get_gpr_weights wt krn_chd krn ns dim y h = Fatal AssertFailed).
Proof.
  intros wt kc krn ns dim y h N1 N2 N3 N4 Hns Hint L1 L2 L3 L4. split.
  - intros Hsym Hpd.
    destruct (get_gpr_weights_core wt kc krn ns dim y h) as (h' & Hrun & _); auto.
    pose proof Hrun as Hrun'. unfold get_gpr_weights in Hrun'.
    apply bind_Done in Hrun' as ([] & h1 & Hprep & Hrest).
    cbv zeta in Hrest.
    apply bind_Done in Hrest as (info & h2 & Hposv & Hassert).
    apply assert_Done in Hassert as (Hinfo & ->).
    apply Z.eqb_eq in Hinfo. subst info.
    exists h1, h2. auto.
  - intros h1 h2 info Hprep Hposv Hinfo.
    unfold get_gpr_weights.
    rewrite (bind_run _ _ _ _ _ Hprep). cbv zeta.
    rewrite (bind_run _ _ _ _ _ Hposv).
    destruct (Z.eqb_spec info 0); [contradiction | reflexivity].
Qed.

Lemma get_gpr_weights_status_witness :
  exists h', get_gpr_weights 0%nat 1%nat 2%nat 1 0 3%nat
               (heap_of [[0]; [0]; [4]; [6]]) = Done tt h'.
Proof.
  destruct (get_gpr_weights_status 0%nat 1%nat 2%nat 1 0%nat 3%nat
              (heap_of [[0]; [0]; [4]; [6]])) as (Hok & _);
    try discriminate; try (simpl; lia).
  destruct Hok as (h1 & h' & _ & _ & Hrun).
  - intros i j Hi Hj. replace i with O by lia. replace j with O by lia. reflexivity.
  - intros x (i & Hi & Hx). replace i with O in Hx by lia.
    unfold jittered, get, eps. simpl. nra.
  - exists h'. exact Hrun.
Defined.

(** A kernel that is not positive definite after the jitter: the call
    ends with the failed assertion. *)
Example get_gpr_weights_not_posdef :
  get_gpr_weights 0%nat 1%nat 2%nat 1 0 3%nat (heap_of [[0]; [0]; [-1]; [6]])
  = Fatal AssertFailed.
Proof.
  rewrite get_gpr_weights_run; try discriminate; try (simpl; lia).
  cbv zeta.
  replace (snd (Blas.dpotf2_L 1
                  (jitter 1 1E-7
                     (Blas.dcopy (1 * 1) (cells (heap_of [[0]; [0]; [-1]; [6]]) 2%nat)
                        (cells (heap_of [[0]; [0]; [-1]; [6]]) 1%nat))) 1))
    with 1%nat; [reflexivity|].
  unfold Blas.dpotf2_L. simpl Blas.potf2_from.
  rewrite potf2_col_fail; [reflexivity|].
  unfold Blas.pivot, Blas.dcopy, jitter. simpl. unfold get. simpl. lra.
Qed.

(** The double [2^32] stands for the real number [2^32]. *)
Lemma value_of_int_2p32 : Binary64.value (Binary64.of_int 4294967296) = 4294967296.
Proof.
  unfold Binary64.value.
  replace (FloatOps.Prim2SF (Binary64.of_int 4294967296))
    with (SpecFloat.S754_finite false 4503599627370496 (-20))
    by (vm_compute; reflexivity).
  simpl. lra.
Qed.

(** Without the proviso of exact arithmetic the statement on the status
    of [get_gpr_weights] fails in its first half: a run in binary64
    arithmetic.  The kernel
    [2^32 * [[1, 1], [1, 1]]] is symmetric and, over the reals,
    positive definite after the jitter.  In binary64 [2^32 + 1E-7]
    rounds to [2^32], so the jitter changes nothing: the first column of
    the factor is [(2^16, 2^16)], the second pivot is
    [2^32 - 2^16 * 2^16 = 0], DPOSV reports status 2 and the assertion
    of [get_gpr_weights] fails. *)
Lemma get_gpr_weights_status_binary64 :
  map Binary64.value
      (map Binary64.of_int [4294967296; 4294967296; 4294967296; 4294967296]%Z)
  = [4294967296; 4294967296; 4294967296; 4294967296] /\
  symmetric 2 (rowmajor [4294967296; 4294967296; 4294967296; 4294967296] 2) /\
  posdef 2 (jittered 2 eps [4294967296; 4294967296; 4294967296; 4294967296]) /\
  Binary64.get_gpr_weights_prepare
    (map Binary64.of_int [0; 0]%Z) (map Binary64.of_int [0; 0; 0; 0]%Z)
    (map Binary64.of_int [4294967296; 4294967296; 4294967296; 4294967296]%Z) 2
    (map Binary64.of_int [1; 1]%Z)
  = (map Binary64.of_int [1; 1]%Z,
     map Binary64.of_int [4294967296; 4294967296; 4294967296; 4294967296]%Z) /\
  snd (Binary64.dposv_L 2 1
         (map Binary64.of_int [4294967296; 4294967296; 4294967296; 4294967296]%Z) 2
         (map Binary64.of_int [1; 1]%Z) 2) = 2%nat /\
  Binary64.get_gpr_weights
    (map Binary64.of_int [0; 0]%Z) (map Binary64.of_int [0; 0; 0; 0]%Z)
    (map Binary64.of_int [4294967296; 4294967296; 4294967296; 4294967296]%Z) 2 1
    (map Binary64.of_int [1; 1]%Z)
  = inr AssertFailed.
Proof.
  split; [| split; [| split; [| split; [| split]]]].
  - cbn [map]. now rewrite value_of_int_2p32.
  - intros i j Hi Hj.
    destruct i as [| [| i]]; destruct j as [| [| j]]; try lia; reflexivity.
  - intros x (i & Hi & Hx). unfold jittered, get, eps. simpl.
    assert (x 0%nat <> 0 \/ x 1%nat <> 0).
    { destruct i as [| [| i]]; [now left | now right | lia]. }
    assert (H1 : 0 < x 0%nat * x 0%nat + x 1%nat * x 1%nat) by nra.
    assert (H2 : 0 <= (x 0%nat + x 1%nat) * (x 0%nat + x 1%nat)) by apply Rle_0_sqr.
    nra.
  - vm_compute. reflexivity.
  - vm_compute. reflexivity.
  - vm_compute. reflexivity.
Qed.

(* ================================================================== *)
(** * Repeating the linear solve *)

Lemma dcopy_tail_irrelevant n x y y' :
  length y = length y' -> (n <= length y)%nat ->
  (forall t, (n <= t)%nat -> get y t = get y' t) ->
  Blas.dcopy n x y = Blas.dcopy n x y'.
Proof.
  intros Hl Hn Ht. apply buffer_ext.
  - now rewrite !length_dcopy.
  - intros i _. rewrite !get_dcopy by lia.
    destruct (Nat.ltb_spec i n); auto.
Qed.

Lemma dpotf2_L_factored n K :
  (0 < n)%nat -> (n * n <= length K)%nat ->
  snd (Blas.dpotf2_L n K n) = O ->
  factored n n n K (fst (Blas.dpotf2_L n K n)).
Proof.
  intros Hn Hlen Hs.
  assert (Hm : (matlen n n n <= length K)%nat) by (rewrite matlen_sq; lia).
  unfold Blas.dpotf2_L in *.
  destruct (Blas.potf2_from n n n 0 K) as [F info] eqn:E. simpl in *. subst info.
  exact (potf2_from_ok n n K (Nat.le_refl n) Hm n 0 K F eq_refl
           (factored_start n n K (Nat.le_refl n) Hm) E).
Qed.

(** C9. A second call of [get_gpr_weights] on the same buffers, after a
    first call that returned, returns too and leaves the same weights
    and the same factor: the jitter does not accumulate. *)
Theorem get_gpr_weights_twice :
  forall (wt krn_chd krn : ptr) (ns dim : nat) (y : ptr) (h h1 : heap),
    krn <> krn_chd -> krn <> wt -> y <> krn_chd -> y <> wt -> wt <> krn_chd ->
    (0 < ns)%nat -> (Z.of_nat ns < 2147483648)%Z ->
    (ns * ns <= length (cells h krn))%nat ->
    (ns * ns <= length (cells h krn_chd))%nat ->
    (ns <= length (cells h y))%nat -> (ns <= length (cells h wt))%nat ->
    get_gpr_weights wt krn_chd krn ns dim y h = Done tt h1 ->
    exists h2,
      get_gpr_weights wt krn_chd krn ns dim y h1 = Done tt h2 /\
      cells h2 wt = cells h1 wt /\
      cells h2 krn_chd = cells h1 krn_chd /\
      cells h1 krn = cells h krn /\
      cells h2 krn = cells h krn.
Proof.
  intros wt kc krn ns dim y h h1 N1 N5 N2 N3 N4 Hns Hint L1 L2 L3 L4 Hrun.
  rewrite (get_gpr_weights_run wt kc krn ns dim y h) in Hrun by assumption.
  cbv zeta in Hrun.
  set (K := jitter ns 1E-7 (Blas.dcopy (ns * ns) (cells h krn) (cells h kc))) in *.
  set (b := Blas.dcopy ns (cells h y) (cells h wt)) in *.
  assert (LK : length K = length (cells h kc)).
  { unfold K. now rewrite length_jitter, length_dcopy. }
  destruct (snd (Blas.dpotf2_L ns K ns)) as [|j] eqn:Hs; [|discriminate].
  set (F := fst (Blas.dpotf2_L ns K ns)) in *.
  set (Z := Blas.dtrsm_LLNN ns 1 1 F ns b ns) in *.
  set (W := Blas.dtrsm_LLTN ns 1 1 F ns Z ns) in *.
  injection Hrun as <-.
  assert (HF : factored ns ns ns K F) by (apply dpotf2_L_factored; auto; lia).
  assert (Hdiag : forall k, (k < ns)%nat -> get F (ix ns k k) <> 0).
  { intros k Hk. apply Rgt_not_eq. apply HF; auto. }
  assert (Lb : length b = length (cells h wt)) by apply length_dcopy.
  assert (LZ : length Z = length b) by apply length_dtrsm_LLNN.
  assert (LW : length W = length Z) by apply length_dtrsm_LLTN.
  assert (Hm1 : matlen ns 1 ns = ns) by (rewrite matlen_rect; lia).
  set (h1 := poke (poke h kc F) wt W).
  assert (C1k : cells h1 krn = cells h krn).
  { unfold h1. now rewrite !cells_poke_neq by congruence. }
  assert (C1y : cells h1 y = cells h y).
  { unfold h1. now rewrite !cells_poke_neq by congruence. }
  assert (C1c : cells h1 kc = F).
  { unfold h1. rewrite cells_poke_neq by congruence. apply cells_poke_eq. }
  assert (C1w : cells h1 wt = W) by apply cells_poke_eq.
  assert (LF : length F = length (cells h kc)).
  { destruct HF as (-> & _). exact LK. }
  assert (Hcol : forall t, (ns <= t)%nat ->
            forall c, (c < 1)%nat -> ~ in_col ns ns c t).
  { intros t Ht c Hc (i & Hi & E). replace c with O in E by lia.
    rewrite ix_col0 in E. lia. }
  assert (EK : Blas.dcopy (ns * ns) (cells h krn) F
               = Blas.dcopy (ns * ns) (cells h krn) (cells h kc)).
  { apply dcopy_tail_irrelevant; [exact LF | lia |].
    intros t Ht. destruct HF as (_ & _ & _ & Hfr).
    rewrite Hfr.
    - unfold K. rewrite get_jitter_outside by exact Ht.
      rewrite get_dcopy by exact L2.
      destruct (Nat.ltb_spec t (ns * ns)); [lia | reflexivity].
    - intros c i Hc Hi E. subst t. rewrite ix_rowmajor in Ht.
      pose proof (cell_lt ns c i ltac:(lia) ltac:(lia)). lia. }
  assert (Eb : Blas.dcopy ns (cells h y) W = Blas.dcopy ns (cells h y) (cells h wt)).
  { apply dcopy_tail_irrelevant; [congruence | lia |].
    intros t Ht.
    destruct (dtrsm_LLTN_spec ns 1 F ns ns (Nat.le_refl ns) Hdiag 1 Z) as (_ & HfW & _).
    { rewrite Hm1, LZ, Lb. exact L4. }
    destruct (dtrsm_LLNN_spec ns 1 F ns ns (Nat.le_refl ns) Hdiag 1 b) as (_ & HfZ & _).
    { rewrite Hm1, Lb. exact L4. }
    fold Z in HfZ. fold W in HfW.
    rewrite HfW, HfZ by (apply Hcol; exact Ht).
    unfold b. rewrite get_dcopy by exact L4.
    destruct (Nat.ltb_spec t ns); [lia | reflexivity]. }
  rewrite (get_gpr_weights_run wt kc krn ns dim y h1); auto;
    try (rewrite ?C1k, ?C1y, ?C1c, ?C1w; lia).
  cbv zeta. rewrite C1k, C1y, C1c, C1w, EK, Eb.
  fold K b. rewrite Hs. fold F Z W.
  eexists. split; [reflexivity|].
  rewrite cells_poke_eq, (cells_poke_neq _ wt W kc), cells_poke_eq by congruence.
  rewrite !(cells_poke_neq _ _ _ krn) by congruence.
  repeat split; auto.
Qed.

Lemma get_gpr_weights_example_run :
  exists h1, get_gpr_weights 0%nat 1%nat 2%nat 1 0 3%nat
               (heap_of [[0]; [0]; [4]; [6]]) = Done tt h1.
Proof.
  destruct (get_gpr_weights_core 0%nat 1%nat 2%nat 1 0%nat 3%nat
              (heap_of [[0]; [0]; [4]; [6]])) as (h' & Hrun & _);
    try discriminate; try (simpl; lia).
  - intros i j Hi Hj. replace i with O by lia. replace j with O by lia. reflexivity.
  - intros x (i & Hi & Hx). replace i with O in Hx by lia.
    unfold jittered, get, eps. simpl. nra.
  - exists h'. exact Hrun.
Qed.

Lemma get_gpr_weights_twice_witness :
  exists h1 h2,
    get_gpr_weights 0%nat 1%nat 2%nat 1 0 3%nat (heap_of [[0]; [0]; [4]; [6]])
    = Done tt h1 /\
    get_gpr_weights 0%nat 1%nat 2%nat 1 0 3%nat h1 = Done tt h2 /\
    cells h2 0%nat = cells h1 0%nat /\ cells h2 1%nat = cells h1 1%nat.
Proof.
  destruct get_gpr_weights_example_run as (h1 & Hrun1).
  destruct (get_gpr_weights_twice 0%nat 1%nat 2%nat 1 0%nat 3%nat
              (heap_of [[0]; [0]; [4]; [6]]) h1)
    as (h2 & Hrun2 & Hw & Hc & _); try discriminate; try (simpl; lia); auto.
  exists h1, h2. auto.
Defined.

(* ================================================================== *)
(** * The unused argument *)

(** C10. The outcome of [get_gpr_weights], and with it the weights and
    the factor, does not depend on [dim]. *)
Theorem get_gpr_weights_dim_irrelevant :
  forall (wt krn_chd krn : ptr) (ns dim dim' : nat) (y : ptr) (h : heap),
    get_gpr_weights wt krn_chd krn ns dim y h
    = get_gpr_weights wt krn_chd krn ns dim' y h.
Proof. reflexivity. Qed.

(* ================================================================== *)
(** * The posterior covariance: running both variants *)

Lemma cells_grow_neq h l q : q <> brk h -> cells (grow h l) q = cells h q.
Proof. intros H. simpl. now rewrite (proj2 (Nat.eqb_neq q (brk h)) H). Qed.

Lemma cells_grow_eq h l : cells (grow h l) (brk h) = l.
Proof. simpl. now rewrite Nat.eqb_refl. Qed.

(** A loop whose steps all succeed and keep an invariant. *)
Lemma for_upto_total (I : nat -> heap -> Prop) n body h :
  I O h ->
  (forall k h1, (k < n)%nat -> I k h1 ->
     exists h2, body k h1 = Done tt h2 /\ I (S k) h2) ->
  exists h', for_upto n body h = Done tt h' /\ I n h'.
Proof.
  intros H0 Hs. induction n; simpl.
  - exists h. auto.
  - destruct IHn as (h1 & Hr & HI); [intros k g Hk; apply Hs; lia|].
    destruct (Hs n h1 ltac:(lia) HI) as (h2 & Hb & HI2).
    exists h2. split; auto. now rewrite (bind_run _ _ _ _ _ Hr).
Qed.

(** The mirroring loops return, copy the lower triangle (column-major)
    onto the upper one and change nothing else. *)
Lemma mirror_run var np h :
  (np * np <= length (cells h var))%nat ->
  exists h',
    mirror var np h = Done tt h' /\
    (forall q, q <> var -> cells h' q = cells h q) /\
    brk h' = brk h /\
    length (cells h' var) = length (cells h var) /\
    (forall i j, (i < np)%nat -> (j < np)%nat ->
       get (cells h' var) (ix np i j)
       = if Nat.ltb i j then get (cells h var) (ix np j i)
         else get (cells h var) (ix np i j)) /\
    (forall t, (np * np <= t)%nat -> get (cells h' var) t = get (cells h var) t).
Proof.
  intros Hlen.
  (* [done a b k d]: the pair (a, b), a < b, has been mirrored when the
     outer loop is at row [k] and the inner loop has made [d] steps *)
  pose (done := fun (k d a b : nat) =>
                  (a < b < np)%nat /\ (a < k \/ (a = k /\ b < k + 1 + d))%nat).
  pose (J := fun (k d : nat) (g : heap) =>
    (forall q, q <> var -> cells g q = cells h q) /\
    brk g = brk h /\
    length (cells g var) = length (cells h var) /\
    (forall a b, done k d a b ->
       get (cells g var) (b * np + a) = get (cells h var) (a * np + b)) /\
    (forall t, (forall a b, done k d a b -> t <> (b * np + a)%nat) ->
       get (cells g var) t = get (cells h var) t)).
  assert (Hinner : forall k g, (k < np)%nat -> J k O g ->
            exists g', for_ (k + 1) np (fun j =>
                         v <- load var (k * np + j) ;; store var (j * np + k) v) g
                       = Done tt g' /\ J (S k) O g').
  { intros k g Hk HJ.
    destruct (for_upto_total (fun d => J k d) (np - (k + 1))
                (fun d => v <- load var (k * np + (k + 1 + d)) ;;
                          store var ((k + 1 + d) * np + k) v) g HJ)
      as (g' & Hr & HJ').
    - intros d g1 Hd (Hq & Hb & Hl & Hm & Hf).
      set (j := (k + 1 + d)%nat).
      assert (Hj : (k < j < np)%nat) by (unfold j; lia).
      pose proof (cell_lt np k j ltac:(lia) ltac:(lia)) as Hsrc.
      pose proof (cell_lt np j k ltac:(lia) ltac:(lia)) as Hdst.
      rewrite (bind_run _ _ _ _ _ (load_ok var (k * np + j) g1 ltac:(lia))).
      rewrite store_ok by lia.
      eexists. split; [reflexivity|].
      assert (Hsrc0 : get (cells g1 var) (k * np + j) = get (cells h var) (k * np + j)).
      { apply Hf. intros a b (Hab & Hcase) E. apply cell_inj in E; lia. }
      repeat split.
      + intros q Hq'. rewrite cells_poke_neq by exact Hq'. now apply Hq.
      + exact Hb.
      + rewrite cells_poke_eq, length_put. exact Hl.
      + intros a b (Hab & Hcase). rewrite cells_poke_eq.
        destruct (Nat.eq_dec (b * np + a) (j * np + k)) as [E|E].
        * rewrite E, get_put_eq by lia.
          apply cell_inj in E as [-> ->]; try lia. exact Hsrc0.
        * rewrite get_put_neq by congruence.
          apply Hm. split; auto.
          destruct Hcase as [Ha|[-> Hb']]; [now left | right; split; auto].
          assert (b <> j) by (intros ->; apply E; reflexivity).
          unfold j in *; lia.
      + intros t Ht. rewrite cells_poke_eq.
        rewrite get_put_neq.
        * apply Hf. intros a b (Hab & Hcase). apply Ht.
          split; auto. destruct Hcase as [Ha|[-> Hb']]; [now left | right; lia].
        * intros E. apply (Ht k j); [|now rewrite E].
          split; [lia | right; unfold j; lia].
    - exists g'. split; [exact Hr|].
      destruct HJ' as (Hq & Hb & Hl & Hm & Hf).
      repeat split; auto.
      + intros a b (Hab & Hcase). apply Hm. split; auto.
        destruct (Nat.eq_dec a k); [right | left]; lia.
      + intros t Ht. apply Hf. intros a b (Hab & Hcase). apply Ht.
        split; auto. lia. }
  unfold mirror. rewrite for_from_0.
  destruct (for_upto_total (fun k => J k O) np
              (fun i => for_ (i + 1) np (fun j =>
                          v <- load var (i * np + j) ;; store var (j * np + i) v)) h)
    as (h' & Hr & (Hq & Hb & Hl & Hm & Hf)).
  - repeat split; auto. intros a b (Hab & Hcase). lia.
  - intros k g Hk HJ. now apply Hinner.
  - exists h'. split; [exact Hr|]. repeat split; auto.
    + intros i j Hi Hj. rewrite !ix_rowmajor.
      destruct (Nat.ltb_spec i j) as [Hij|Hij].
      * apply Hm. split; lia.
      * apply Hf. intros a b (Hab & Hcase) E. apply cell_inj in E; lia.
    + intros t Ht. apply Hf. intros a b (Hab & Hcase) E.
      pose proof (cell_lt np b a ltac:(lia) ltac:(lia)). lia.
Qed.

Ltac cells_simp :=
  repeat first
    [ rewrite cells_poke_eq
    | rewrite cells_poke_neq by congruence ].

(** What [get_var_mat] does: the training kernel buffer is jittered and
    factored in place. *)
Lemma get_var_mat_run var krnpp krnp krn np ns h :
  (var < brk h)%nat -> (krnpp < brk h)%nat -> (krnp < brk h)%nat -> (krn < brk h)%nat ->
  var <> krnpp -> var <> krnp -> var <> krn -> krn <> krnp -> krn <> krnpp ->
  (0 < ns)%nat -> (0 < np)%nat ->
  (Z.of_nat ns < 2147483648)%Z -> (Z.of_nat np < 2147483648)%Z ->
  (ns * ns <= length (cells h krn))%nat -> (ns * np <= length (cells h krnp))%nat ->
  (np * np <= length (cells h krnpp))%nat -> (np * np <= length (cells h var))%nat ->
  let K := jitter ns 1E-7 (cells h krn) in
  let F := fst (Blas.dpotf2_L ns K ns) in
  let B := Blas.dcopy (ns * np) (cells h krnp) (repeat 0 (np * ns)) in
  let X := Blas.dtrsm_LLTN ns np 1 F ns (Blas.dtrsm_LLNN ns np 1 F ns B ns) ns in
  let C := Blas.dgemm_TN np np ns (-1) (cells h krnp) ns X ns 1
             (Blas.dcopy (np * np) (cells h krnpp) (cells h var)) np in
  match snd (Blas.dpotf2_L ns K ns) with
  | O => exists h',
           get_var_mat var krnpp krnp krn np ns h = Done tt h' /\
           cells h' var = C /\ cells h' krn = F /\
           (forall q, (q < brk h)%nat -> q <> var -> q <> krn -> cells h' q = cells h q)
  | S _ => get_var_mat var krnpp krnp krn np ns h = Fatal AssertFailed
  end.
Proof.
  intros V1 V2 V3 V4 N1 N2 N3 N4 N5 Hns Hnp Ins Inp L1 L2 L3 L4 K F B X C.
  enough (Hgen : exists h',
            get_var_mat var krnpp krnp krn np ns h
            = match snd (Blas.dpotf2_L ns K ns) with
              | O => Done tt h'
              | S _ => Fatal AssertFailed
              end /\
            cells h' var = C /\ cells h' krn = F /\
            (forall q, (q < brk h)%nat -> q <> var -> q <> krn ->
                       cells h' q = cells h q)).
  { destruct Hgen as (h' & Hrun & Hrest).
    destruct (snd (Blas.dpotf2_L ns K ns)); [exists h'; auto | exact Hrun]. }
  unfold get_var_mat.
  rewrite (bind_run _ _ _ _ _ (eq_refl : malloc (np * ns) h
                                         = Done (brk h) (grow h (repeat 0 (np * ns))))).
  set (h0 := grow h (repeat 0 (np * ns))).
  assert (C0 : forall q, (q < brk h)%nat -> cells h0 q = cells h q).
  { intros q Hq. apply cells_grow_neq. lia. }
  assert (C0V : cells h0 (brk h) = repeat 0 (np * ns)) by apply cells_grow_eq.
  remember (brk h) as V eqn:EV.
  assert (NV1 : var <> V) by lia. assert (NV2 : krnpp <> V) by lia.
  assert (NV3 : krnp <> V) by lia. assert (NV4 : krn <> V) by lia.
  (* the jitter, in place *)
  rewrite (bind_run _ _ _ _ _ (jitter_loop_run krn ns 1E-7 h0
             ltac:(rewrite C0 by auto; exact L1))).
  rewrite (C0 krn) by auto. fold K.
  set (h1 := poke h0 krn K).
  assert (C1p : cells h1 krnp = cells h krnp).
  { unfold h1. cells_simp. now apply C0. }
  assert (C1V : cells h1 V = repeat 0 (np * ns)).
  { unfold h1. cells_simp. exact C0V. }
  (* the copy of the cross kernel *)
  rewrite (bind_run _ _ _ _ _ (copy_loop_run krnp V (ns * np) h1 NV3
             ltac:(rewrite C1p; exact L2)
             ltac:(rewrite C1V, repeat_length; lia))).
  rewrite C1p, C1V. fold B. set (h2 := poke h1 V B).
  assert (LB : length B = (np * ns)%nat).
  { unfold B. now rewrite length_dcopy, repeat_length. }
  assert (LKk : length K = length (cells h krn)) by apply length_jitter.
  assert (C2k : cells h2 krn = K) by (unfold h2, h1; now cells_simp).
  assert (C2V : cells h2 V = B) by (unfold h2; now cells_simp).
  (* the solve *)
  cbv zeta. rewrite !to_int_small by assumption.
  assert (Hrun := dposv_L_run ns np krn V h2 Hns NV4
            ltac:(rewrite C2k; lia) ltac:(rewrite C2V; lia)).
  rewrite C2k, C2V in Hrun.
  fold F in Hrun. cbv zeta in Hrun. fold X in Hrun.
  unfold bind at 1. rewrite Hrun. clear Hrun.
  set (h3 := poke (poke h2 krn F) V X).
  assert (C3 : forall q, (q < V)%nat -> q <> krn -> cells h3 q = cells h q).
  { intros q Hq Hqk. assert (q <> V) by lia.
    unfold h3, h2, h1. cells_simp. now apply C0. }
  assert (C3V : cells h3 V = X) by (unfold h3; now cells_simp).
  set (C1 := Blas.dcopy (np * np) (cells h krnpp) (cells h var)) in *.
  set (h4 := poke h3 var C1).
  assert (LX : length X = (np * ns)%nat).
  { unfold X. now rewrite length_dtrsm_LLTN, length_dtrsm_LLNN. }
  assert (C4p : cells h4 krnp = cells h krnp).
  { unfold h4. cells_simp. apply C3; auto; congruence. }
  assert (C4V : cells h4 V = X) by (unfold h4; cells_simp; exact C3V).
  assert (C4v : cells h4 var = C1) by (unfold h4; now cells_simp).
  set (h5 := poke h4 var C).
  exists (poke h5 V []). split.
  - destruct (snd (Blas.dpotf2_L ns K ns)) as [|j].
    + fold h3.
      rewrite (bind_run _ _ _ _ _ (eq_refl : assert_ (0 =? 0)%Z h3 = Done tt h3)).
      rewrite (bind_run _ _ _ _ _ (copy_loop_run krnpp var (np * np) h3 ltac:(congruence)
                 ltac:(rewrite C3 by (auto; congruence); exact L3)
                 ltac:(rewrite C3 by (auto; congruence); exact L4))).
      rewrite (C3 krnpp), (C3 var) by (auto; congruence).
      fold C1. fold h4.
      rewrite (bind_run _ _ _ _ _ (dgemm_TN_run np ns (-1) krnp V 1 var h4 Hnp Hns
                 ltac:(rewrite C4p; lia) ltac:(rewrite C4V; lia)
                 ltac:(rewrite C4v; unfold C1; rewrite length_dcopy; exact L4))).
      rewrite C4p, C4V, C4v. fold C. fold h5.
      reflexivity.
    + destruct (Z.eqb_spec (Z.of_nat (S j)) 0); [lia | reflexivity].
  - repeat split.
    + unfold h5. now cells_simp.
    + unfold h5, h4, h3. now cells_simp.
    + intros q Hq Q1 Q2. assert (q <> V) by lia.
      unfold h5, h4. cells_simp. now apply C3.
Qed.

(** C2, at the input var = [0], krnpp = [1], krnp = [1], krn = [1] with
    np = ns = 1: the call of the full-solve variant [get_var_mat]
    returns, and the caller's [krn] buffer does not hold its old value
    afterwards: it holds the Cholesky factor of the jittered kernel. *)
Theorem get_var_mat_overwrites_krn :
  exists h',
    get_var_mat 0%nat 1%nat 2%nat 3%nat 1 1 (heap_of [[0]; [1]; [1]; [1]]) = Done tt h' /\
    cells h' 3%nat <> [1] /\
    get (cells h' 3%nat) 0 * get (cells h' 3%nat) 0 = 1 + eps.
Proof.
  set (h := heap_of [[0]; [1]; [1]; [1]]).
  pose proof (get_var_mat_run 0%nat 1%nat 2%nat 3%nat 1 1 h) as Hrun.
  cbv zeta in Hrun.
  set (K := jitter 1 1E-7 (cells h 3%nat)) in *.
  assert (EK : K = [1 + eps]) by reflexivity.
  assert (Hpd : posdef 1 (Asym K 1)).
  { intros x (i & Hi & Hx). replace i with O in Hx by lia.
    rewrite EK. unfold Asym, get, eps. simpl. nra. }
  destruct (dpotf2_L_posdef 1 K ltac:(lia) ltac:(rewrite EK; simpl; lia) Hpd)
    as (Hs & HF).
  rewrite Hs in Hrun.
  destruct Hrun as (h' & Hr & _ & Hk & _); try discriminate; try (simpl; lia).
  exists h'. split; [exact Hr|].
  assert (Hsq : get (cells h' 3%nat) 0 * get (cells h' 3%nat) 0 = 1 + eps).
  { rewrite Hk. destruct HF as (_ & Hprod & _).
    specialize (Hprod O O ltac:(lia) ltac:(lia)).
    simpl in Hprod. rewrite EK in Hprod at 3. unfold get at 3 in Hprod.
    simpl in Hprod. unfold ix in Hprod. simpl in Hprod. lra. }
  split; [|exact Hsq].
  intros E. rewrite E in Hsq. unfold get, eps in Hsq. simpl in Hsq. lra.
Qed.

(** What [get_var_mat_chd] does: only [var] changes. *)
Lemma get_var_mat_chd_run var krnpp krnp kc np ns h :
  (var < brk h)%nat -> (krnpp < brk h)%nat -> (krnp < brk h)%nat -> (kc < brk h)%nat ->
  var <> krnpp -> var <> krnp -> var <> kc ->
  (0 < ns)%nat -> (0 < np)%nat ->
  (Z.of_nat ns < 2147483648)%Z -> (Z.of_nat np < 2147483648)%Z ->
  (ns * ns <= length (cells h kc))%nat -> (ns * np <= length (cells h krnp))%nat ->
  (np * np <= length (cells h krnpp))%nat -> (np * np <= length (cells h var))%nat ->
  let B := Blas.dcopy (ns * np) (cells h krnp) (repeat 0 (np * ns)) in
  let V2 := Blas.dtrsm_LLNN ns np 1 (cells h kc) ns B ns in
  let Sk := Blas.dsyrk_LT np ns (-1) V2 ns 1
             (Blas.dcopy (np * np) (cells h krnpp) (cells h var)) np in
  exists h',
    get_var_mat_chd var krnpp krnp kc np ns h = Done tt h' /\
    (forall q, (q < brk h)%nat -> q <> var -> cells h' q = cells h q) /\
    length (cells h' var) = length (cells h var) /\
    (forall i j, (i < np)%nat -> (j < np)%nat ->
       get (cells h' var) (ix np i j)
       = if Nat.ltb i j then get Sk (ix np j i) else get Sk (ix np i j)) /\
    (forall t, (np * np <= t)%nat -> get (cells h' var) t = get (cells h var) t).
Proof.
  intros V1 V2' V3 V4 N1 N2 N3 Hns Hnp Ins Inp L1 L2 L3 L4 B V2 Sk.
  unfold get_var_mat_chd.
  rewrite (bind_run _ _ _ _ _ (eq_refl : malloc (np * ns) h
                                         = Done (brk h) (grow h (repeat 0 (np * ns))))).
  set (h0 := grow h (repeat 0 (np * ns))).
  assert (C0 : forall q, (q < brk h)%nat -> cells h0 q = cells h q).
  { intros q Hq. apply cells_grow_neq. lia. }
  assert (C0V : cells h0 (brk h) = repeat 0 (np * ns)) by apply cells_grow_eq.
  assert (B0 : brk h0 = S (brk h)) by reflexivity.
  remember (brk h) as V eqn:EV.
  assert (NV1 : var <> V) by lia. assert (NV2 : krnpp <> V) by lia.
  assert (NV3 : krnp <> V) by lia. assert (NV4 : kc <> V) by lia.
  (* the copy of the cross kernel *)
  rewrite (bind_run _ _ _ _ _ (copy_loop_run krnp V (ns * np) h0 NV3
             ltac:(rewrite C0 by auto; exact L2)
             ltac:(rewrite C0V, repeat_length; lia))).
  rewrite (C0 krnp), C0V by auto. fold B. set (h1 := poke h0 V B).
  assert (LB : length B = (np * ns)%nat).
  { unfold B. now rewrite length_dcopy, repeat_length. }
  assert (C1 : forall q, (q < V)%nat -> cells h1 q = cells h q).
  { intros q Hq. assert (q <> V) by lia. unfold h1. cells_simp. now apply C0. }
  assert (C1V : cells h1 V = B) by (unfold h1; now cells_simp).
  (* the triangular solve *)
  cbv zeta. rewrite !to_int_small by assumption.
  rewrite (bind_run _ _ _ _ _ (dtrsm_LLNN_run ns np 1 kc V h1 Hns
             ltac:(rewrite C1 by auto; exact L1) ltac:(rewrite C1V; lia))).
  rewrite (C1 kc), C1V by auto. fold V2. set (h2 := poke h1 V V2).
  assert (LV2 : length V2 = (np * ns)%nat).
  { unfold V2. now rewrite length_dtrsm_LLNN. }
  assert (C2 : forall q, (q < V)%nat -> cells h2 q = cells h q).
  { intros q Hq. assert (q <> V) by lia. unfold h2. cells_simp. now apply C1. }
  assert (C2V : cells h2 V = V2) by (unfold h2; now cells_simp).
  (* the copy of the query kernel *)
  rewrite (bind_run _ _ _ _ _ (copy_loop_run krnpp var (np * np) h2 ltac:(congruence)
             ltac:(rewrite C2 by auto; exact L3)
             ltac:(rewrite C2 by auto; exact L4))).
  rewrite (C2 krnpp), (C2 var) by auto.
  set (C1' := Blas.dcopy (np * np) (cells h krnpp) (cells h var)) in *.
  set (h3 := poke h2 var C1').
  assert (C3V : cells h3 V = V2) by (unfold h3; cells_simp; exact C2V).
  assert (C3v : cells h3 var = C1') by (unfold h3; now cells_simp).
  (* the rank update *)
  rewrite (bind_run _ _ _ _ _ (dsyrk_LT_run np ns (-1) V 1 var h3 Hnp Hns
             ltac:(rewrite C3V; lia)
             ltac:(rewrite C3v; unfold C1'; rewrite length_dcopy; exact L4))).
  rewrite C3V, C3v. fold Sk. set (h4 := poke h3 var Sk).
  assert (LS : length Sk = length (cells h var)).
  { unfold Sk, C1'. now rewrite length_dsyrk_LT, length_dcopy. }
  assert (C4v : cells h4 var = Sk) by (unfold h4; now cells_simp).
  assert (C4 : forall q, (q < V)%nat -> q <> var -> cells h4 q = cells h q).
  { intros q Hq Hqv. unfold h4, h3. cells_simp. now apply C2. }
  (* the mirror *)
  destruct (mirror_run var np h4) as (h5 & Hm & Hq5 & _ & Hl5 & Hv5 & Ht5).
  { rewrite C4v, LS. exact L4. }
  fold (mirror var np). rewrite (bind_run _ _ _ _ _ Hm).
  exists (poke h5 V []). split; [reflexivity|].
  rewrite C4v in *.
  rewrite !cells_poke_neq by congruence.
  repeat split.
  - intros q Hq Hqv. assert (q <> V) by lia. cells_simp.
    rewrite Hq5 by auto. now apply C4.
  - congruence.
  - exact Hv5.
  - intros t Ht. rewrite Ht5 by exact Ht.
    unfold Sk, C1'. rewrite get_dsyrk_LT_frame.
    + rewrite get_dcopy by exact L4.
      destruct (Nat.ltb_spec t (np * np)); [lia | reflexivity].
    + intros i j Hij E. subst t. rewrite ix_rowmajor in Ht.
      pose proof (cell_lt np j i ltac:(lia) ltac:(lia)). lia.
Qed.

(* ================================================================== *)
(** * The two posterior covariances agree *)

(** With [a = L L^T], [a x = b], [L v = b] and [L u = b'], the products
    [b' . x] and [u . v] are equal. *)
Lemma schur_agree n (a L : nat -> nat -> R) (b b' x u v : nat -> R) :
  (forall i k, (i < k)%nat -> L i k = 0) ->
  (forall i, (i < n)%nat -> L i i <> 0) ->
  (forall i j, (i < n)%nat -> (j < n)%nat -> Rsum n (fun k => L i k * L j k) = a i j) ->
  (forall i, (i < n)%nat -> Rsum n (fun j => a i j * x j) = b i) ->
  (forall i, (i < n)%nat -> Rsum n (fun t => L i t * v t) = b i) ->
  (forall i, (i < n)%nat -> Rsum n (fun t => L i t * u t) = b' i) ->
  Rsum n (fun l => b' l * x l) = Rsum n (fun k => u k * v k).
Proof.
  intros Hup Hd Ha Hx Hv Hu.
  pose (w := fun k => Rsum n (fun l => L l k * x l)).
  assert (Hw : forall i, (i < n)%nat -> w i = v i).
  { apply (tri_forward_unique n L w v Hup Hd).
    intros i Hi. rewrite Hv, <- Hx by auto. unfold w.
    transitivity (Rsum n (fun k => Rsum n (fun l => (L i k * L l k) * x l))).
    - apply Rsum_ext. intros k Hk. rewrite <- Rsum_scal_l.
      apply Rsum_ext; intros; ring.
    - rewrite Rsum_swap. apply Rsum_ext. intros l Hl.
      rewrite Rsum_scal_r, Ha by auto. reflexivity. }
  transitivity (Rsum n (fun l => Rsum n (fun t => u t * (L l t * x l)))).
  - apply Rsum_ext. intros l Hl. rewrite <- Hu by auto.
    rewrite <- Rsum_scal_r. apply Rsum_ext; intros; ring.
  - rewrite Rsum_swap. apply Rsum_ext. intros t Ht.
    rewrite Rsum_scal_l. fold (w t). now rewrite Hw.
Qed.

Lemma Lw_upper F ld i k : (i < k)%nat -> Lw F ld i k = 0.
Proof. intros H. unfold Lw. destruct (Nat.leb_spec k i); [lia | reflexivity]. Qed.

Lemma Lw_diag F ld i : Lw F ld i i = get F (ix ld i i).
Proof. unfold Lw. now rewrite Nat.leb_refl. Qed.

Lemma Asym_jitter0 ns e K0 i j :
  symmetric ns (rowmajor K0 ns) -> (ns * ns <= length K0)%nat ->
  (i < ns)%nat -> (j < ns)%nat ->
  Asym (jitter ns e K0) ns i j = jittered ns e K0 i j.
Proof.
  intros Hsym L0 Hi Hj.
  unfold Asym. rewrite !ix_rowmajor.
  destruct (Nat.leb_spec j i).
  - rewrite get_jitter by auto. unfold jittered.
    rewrite (Nat.eqb_sym j i). f_equal. apply (Hsym j i); auto.
  - now rewrite get_jitter.
Qed.

(** Every offset below [np * np] is a cell of the [np] x [np] matrix. *)
Lemma cell_of_offset np t :
  (t < np * np)%nat -> exists i j, (i < np)%nat /\ (j < np)%nat /\ t = ix np i j.
Proof.
  intros Ht. assert (Hnp : np <> O) by lia.
  exists (t mod np)%nat, (t / np)%nat. repeat split.
  - now apply Nat.mod_upper_bound.
  - apply Nat.Div0.div_lt_upper_bound. lia.
  - unfold ix. rewrite (Nat.div_mod_eq t np) at 1. lia.
Qed.

(** C3. For a symmetric query-query kernel [krnpp], a cross kernel
    [krnp], a symmetric training kernel [krn] with [krn + eps I] positive
    definite and a lower Cholesky factor [L] of [krn + eps I] in
    [krn_chd], [get_var_mat] on [krn] and [get_var_mat_chd] on [krn_chd]
    both return and leave the same matrix in [var], namely
    krnpp - krnp^T X where X solves (krn + eps I) X = krnp. *)
Theorem get_var_mat_variants_agree :
  forall (var krnpp krnp krn krn_chd : ptr) (np ns : nat) (h : heap),
    (var < brk h)%nat -> (krnpp < brk h)%nat -> (krnp < brk h)%nat ->
    (krn < brk h)%nat -> (krn_chd < brk h)%nat ->
    var <> krnpp -> var <> krnp -> var <> krn -> var <> krn_chd ->
    krn <> krnp -> krn <> krnpp ->
    (0 < ns)%nat -> (0 < np)%nat ->
    (Z.of_nat ns < 2147483648)%Z -> (Z.of_nat np < 2147483648)%Z ->
    (ns * ns <= length (cells h krn))%nat ->
    (ns * ns <= length (cells h krn_chd))%nat ->
    (ns * np <= length (cells h krnp))%nat ->
    (np * np <= length (cells h krnpp))%nat ->
    (np * np <= length (cells h var))%nat ->
    symmetric ns (rowmajor (cells h krn) ns) ->
    posdef ns (jittered ns eps (cells h krn)) ->
    symmetric np (rowmajor (cells h krnpp) np) ->
    (forall i j, (i < ns)%nat -> (j < ns)%nat ->
       Rsum ns (fun k => Lw (cells h krn_chd) ns i k * Lw (cells h krn_chd) ns j k)
       = jittered ns eps (cells h krn) i j) ->
    (forall i, (i < ns)%nat -> 0 < get (cells h krn_chd) (ix ns i i)) ->
    exists h1 h2 X,
      get_var_mat var krnpp krnp krn np ns h = Done tt h1 /\
      get_var_mat_chd var krnpp krnp krn_chd np ns h = Done tt h2 /\
      cells h1 var = cells h2 var /\
      (forall i c, (i < ns)%nat -> (c < np)%nat ->
         Rsum ns (fun j => jittered ns eps (cells h krn) i j * get X (ix ns j c))
         = get (cells h krnp) (ix ns i c)) /\
      (forall r c, (r < np)%nat -> (c < np)%nat ->
         get (cells h1 var) (ix np r c)
         = get (cells h krnpp) (ix np r c)
           - Rsum ns (fun l => get (cells h krnp) (ix ns l r) * get X (ix ns l c))).
Proof.
  intros var krnpp krnp krn kc np ns h V1 V2 V3 V4 V5 N1 N2 N3 N6 N4 N5
         Hns Hnp Ins Inp L1 L5 L2 L3 L4 Hsym Hpd Hsympp HL HLd.
  pose proof (get_var_mat_run var krnpp krnp krn np ns h
                V1 V2 V3 V4 N1 N2 N3 N4 N5 Hns Hnp Ins Inp L1 L2 L3 L4) as R1.
  cbv zeta in R1. fold eps in R1.
  set (K := jitter ns eps (cells h krn)) in *.
  set (F := fst (Blas.dpotf2_L ns K ns)) in *.
  set (B := Blas.dcopy (ns * np) (cells h krnp) (repeat 0 (np * ns))) in *.
  set (Z := Blas.dtrsm_LLNN ns np 1 F ns B ns) in *.
  set (X := Blas.dtrsm_LLTN ns np 1 F ns Z ns) in *.
  set (C1 := Blas.dcopy (np * np) (cells h krnpp) (cells h var)) in *.
  set (C := Blas.dgemm_TN np np ns (-1) (cells h krnp) ns X ns 1 C1 np) in *.
  assert (LK : (ns * ns <= length K)%nat) by (unfold K; now rewrite length_jitter).
  assert (HA : forall i j, (i < ns)%nat -> (j < ns)%nat ->
             Asym K ns i j = jittered ns eps (cells h krn) i j).
  { intros i j Hi Hj. now apply Asym_jitter0. }
  assert (HpdK : posdef ns (Asym K ns)).
  { apply (posdef_ext ns (jittered ns eps (cells h krn))); auto.
    intros i j Hi Hj. symmetry. now apply HA. }
  destruct (dpotf2_L_posdef ns K Hns LK HpdK) as (Hs & HF). fold F in HF.
  rewrite Hs in R1. destruct R1 as (h1 & Hr1 & Hv1 & _).
  destruct (get_var_mat_chd_run var krnpp krnp kc np ns h
              V1 V2 V3 V5 N1 N2 N6 Hns Hnp Ins Inp L5 L2 L3 L4)
    as (h2 & Hr2 & _ & Hl2 & Hv2 & Ht2).
  cbv zeta in Hv2. fold B C1 in Hv2.
  set (V := Blas.dtrsm_LLNN ns np 1 (cells h kc) ns B ns) in *.
  set (Sk := Blas.dsyrk_LT np ns (-1) V ns 1 C1 np) in *.
  assert (LB : length B = (np * ns)%nat).
  { unfold B. now rewrite length_dcopy, repeat_length. }
  assert (Hmr : matlen ns np ns = (np * ns)%nat) by now apply matlen_rect.
  assert (Hmq : matlen np np np = (np * np)%nat) by now apply matlen_sq.
  assert (LC1 : length C1 = length (cells h var)) by apply length_dcopy.
  assert (HdF : forall k, (k < ns)%nat -> get F (ix ns k k) <> 0).
  { intros k Hk. apply Rgt_not_eq. apply HF; auto. }
  assert (Hdc : forall k, (k < ns)%nat -> get (cells h kc) (ix ns k k) <> 0).
  { intros k Hk. apply Rgt_not_eq. now apply HLd. }
  destruct (dtrsm_LLNN_spec ns 1 F ns ns (Nat.le_refl ns) HdF np B) as (LZ & _ & HZ).
  { rewrite Hmr, LB. lia. }
  fold Z in LZ, HZ.
  destruct (dtrsm_LLTN_spec ns 1 F ns ns (Nat.le_refl ns) HdF np Z) as (_ & _ & HX).
  { rewrite Hmr, LZ, LB. lia. }
  fold X in HX.
  destruct (dtrsm_LLNN_spec ns 1 (cells h kc) ns ns (Nat.le_refl ns) Hdc np B)
    as (LV & _ & HV).
  { rewrite Hmr, LB. lia. }
  fold V in LV, HV.
  assert (HB : forall i c, (i < ns)%nat -> (c < np)%nat ->
             get B (ix ns i c) = get (cells h krnp) (ix ns i c)).
  { intros i c Hi Hc. unfold B. rewrite get_dcopy by (rewrite repeat_length; lia).
    assert ((ix ns i c < ns * np)%nat) by ix_bound.
    destruct (Nat.ltb_spec (ix ns i c) (ns * np)); [reflexivity | lia]. }
  assert (HAX : forall i c, (i < ns)%nat -> (c < np)%nat ->
              Rsum ns (fun j => jittered ns eps (cells h krn) i j * get X (ix ns j c))
              = get B (ix ns i c)).
  { intros i c Hi Hc.
    apply (chol_solve ns (jittered ns eps (cells h krn)) (Lw F ns)
             (fun i => get B (ix ns i c)) (fun t => get Z (ix ns t c))
             (fun t => get X (ix ns t c))); auto.
    - intros a b Ha Hb. rewrite (factored_product ns K F a b LK HF Ha Hb).
      now apply HA.
    - intros a Ha. rewrite (HZ a c Ha Hc). ring.
    - intros a Ha. rewrite (HX a c Ha Hc). ring. }
  assert (Hagree : forall r c, (r < np)%nat -> (c < np)%nat ->
            Rsum ns (fun l => get B (ix ns l r) * get X (ix ns l c))
            = Rsum ns (fun k => get V (ix ns k r) * get V (ix ns k c))).
  { intros r c Hr Hc.
    apply (schur_agree ns (jittered ns eps (cells h krn)) (Lw (cells h kc) ns)
             (fun i => get B (ix ns i c)) (fun i => get B (ix ns i r))
             (fun l => get X (ix ns l c))
             (fun k => get V (ix ns k r)) (fun k => get V (ix ns k c))); auto.
    - intros i k Hik. now apply Lw_upper.
    - intros i Hi. rewrite Lw_diag. now apply Hdc.
    - intros i Hi. rewrite (HV i c Hi Hc). ring.
    - intros i Hi. rewrite (HV i r Hi Hr). ring. }
  assert (HC1 : forall r c, (r < np)%nat -> (c < np)%nat ->
              get C1 (ix np r c) = get (cells h krnpp) (ix np r c)).
  { intros r c Hr Hc. unfold C1. rewrite get_dcopy by exact L4.
    assert ((ix np r c < np * np)%nat) by ix_bound.
    destruct (Nat.ltb_spec (ix np r c) (np * np)); [reflexivity | lia]. }
  assert (Hsw : forall r c, (r < np)%nat -> (c < np)%nat ->
              get (cells h krnpp) (ix np r c) = get (cells h krnpp) (ix np c r)).
  { intros r c Hr Hc. rewrite !ix_rowmajor. exact (Hsympp c r Hc Hr). }
  assert (Hc1 : forall r c, (r < np)%nat -> (c < np)%nat ->
              get C (ix np r c)
              = get (cells h krnpp) (ix np r c)
                - Rsum ns (fun l => get (cells h krnp) (ix ns l r) * get X (ix ns l c))).
  { intros r c Hr Hc. unfold C.
    rewrite get_dgemm_TN; auto; [|rewrite Hmq, LC1; exact L4].
    rewrite HC1 by auto. ring. }
  assert (Hc2 : forall r c, (r < np)%nat -> (c < np)%nat -> (c <= r)%nat ->
              get Sk (ix np r c)
              = get (cells h krnpp) (ix np r c)
                - Rsum ns (fun l => get V (ix ns l r) * get V (ix ns l c))).
  { intros r c Hr Hc Hcr. unfold Sk.
    rewrite get_dsyrk_LT; auto; [|rewrite Hmq, LC1; exact L4].
    rewrite HC1 by auto. ring. }
  assert (Hcell : forall r c, (r < np)%nat -> (c < np)%nat ->
              get C (ix np r c) = get (cells h2 var) (ix np r c)).
  { intros r c Hr Hc. rewrite Hc1, Hv2 by auto.
    rewrite (Rsum_ext ns _ (fun l => get B (ix ns l r) * get X (ix ns l c)))
      by (intros l Hl; now rewrite HB).
    rewrite Hagree by auto.
    destruct (Nat.ltb_spec r c) as [Hrc|Hrc].
    - rewrite Hc2 by (auto; lia). rewrite (Hsw r c) by auto. f_equal.
      apply Rsum_ext; intros; ring.
    - now rewrite Hc2. }
  exists h1, h2, X. split; [exact Hr1|]. split; [exact Hr2|].
  rewrite Hv1. repeat split.
  - apply buffer_ext.
    + unfold C. rewrite length_dgemm_TN. congruence.
    + intros t _. destruct (Nat.lt_ge_cases t (np * np)) as [Ht|Ht].
      * destruct (cell_of_offset np t Ht) as (i & j & Hi & Hj & ->).
        now apply Hcell.
      * rewrite Ht2 by exact Ht. unfold C. rewrite get_dgemm_TN_frame.
        -- unfold C1. rewrite get_dcopy by exact L4.
           destruct (Nat.ltb_spec t (np * np)); [lia | reflexivity].
        -- intros i j Hi Hj E. subst t.
           assert ((ix np i j < np * np)%nat) by ix_bound. lia.
  - intros i c Hi Hc. rewrite HAX by auto. now apply HB.
  - intros r c Hr Hc. now apply Hc1.
Qed.

Lemma get_var_mat_variants_agree_witness :
  exists h1 h2,
    get_var_mat 0%nat 1%nat 2%nat 3%nat 1 1
      (heap_of [[0]; [5]; [1]; [4 - eps]; [2]]) = Done tt h1 /\
    get_var_mat_chd 0%nat 1%nat 2%nat 4%nat 1 1
      (heap_of [[0]; [5]; [1]; [4 - eps]; [2]]) = Done tt h2 /\
    cells h1 0%nat = cells h2 0%nat.
Proof.
  destruct (get_var_mat_variants_agree 0%nat 1%nat 2%nat 3%nat 4%nat 1 1
              (heap_of [[0]; [5]; [1]; [4 - eps]; [2]]))
    as (h1 & h2 & X & Hr1 & Hr2 & He & _);
    try discriminate; try (simpl; lia).
  - intros i j Hi Hj. replace i with O by lia. replace j with O by lia. reflexivity.
  - intros x (i & Hi & Hx). replace i with O in Hx by lia.
    unfold jittered, get. simpl. nra.
  - intros i j Hi Hj. replace i with O by lia. replace j with O by lia. reflexivity.
  - intros i j Hi Hj. replace i with O by lia. replace j with O by lia.
    unfold jittered, Lw, get, ix. simpl. lra.
  - intros i Hi. replace i with O by lia. unfold get, ix. simpl. lra.
  - exists h1, h2. auto.
Defined.

(* ================================================================== *)
(** * The sampler *)

Lemma get_add_mean ns m l i :
  (ns <= length l)%nat -> (i < ns)%nat -> get (add_mean ns m l) i = get l i + get m i.
Proof.
  intros Hl Hi. unfold add_mean.
  rewrite (upto_put_get (fun i => i) (fun i l => get l i + get m i) ns) by (auto; lia).
  rewrite (upto_put_frame_below (fun i => i) (fun i l => get l i + get m i) ns)
    by (intros; lia).
  reflexivity.
Qed.

Lemma length_drawn z ns l : length (drawn z ns l) = length l.
Proof. apply (upto_put_length (fun i => i) (fun i _ => z i)). Qed.

Lemma get_drawn z ns l i :
  (ns <= length l)%nat -> (i < ns)%nat -> get (drawn z ns l) i = z i.
Proof.
  intros Hl Hi. unfold drawn.
  now rewrite (upto_put_get (fun i => i) (fun i _ => z i) ns) by (auto; lia).
Qed.

Lemma mean_loop_run y m ns h :
  m <> y -> (ns <= length (cells h y))%nat -> (ns <= length (cells h m))%nat ->
  for_ 0 ns (fun i => a <- load y i ;; b <- load m i ;; store y i (a + b)) h
  = Done tt (poke h y (add_mean ns (cells h m) (cells h y))).
Proof.
  intros Hne Hy Hm. rewrite for_from_0.
  apply (for_upto_buffer y (fun i l => put l i (get l i + get (cells h m) i))).
  intros k l Hk Hl. split; [|apply length_put].
  assert (Cm : cells (poke h y l) m = cells h m) by (apply cells_poke_neq; congruence).
  rewrite (bind_run _ _ _ _ _ (load_ok y k (poke h y l)
             ltac:(rewrite cells_poke_eq; lia))).
  rewrite (bind_run _ _ _ _ _ (load_ok m k (poke h y l) ltac:(rewrite Cm; lia))).
  rewrite store_ok by (rewrite cells_poke_eq; lia).
  now rewrite Cm, cells_poke_eq, poke_poke.
Qed.

Section Sampler.

Variable normal_rnd : nat -> Z -> nat -> R.

Lemma fill_normal_rnd_run y ns seed h :
  (ns <= length (cells h y))%nat ->
  fill_normal_rnd normal_rnd y ns seed h
  = Done tt (poke h y (drawn (normal_rnd ns seed) ns (cells h y))).
Proof.
  intros Hl. unfold fill_normal_rnd.
  now rewrite (bind_run _ _ _ _ _ (need_ok y ns h Hl)).
Qed.

(** The factor [sample_gp] computes from the covariance buffer. *)
Let factor_of (ns : nat) (kxx0 : list R) : list R :=
  fst (Blas.dpotf2_L ns
         (jitter ns eps (Blas.dcopy (ns * ns) kxx0 (repeat 0 (ns * ns)))) ns).

Lemma sample_gp_run y mn kxx ns seed h :
  (y < brk h)%nat -> (kxx < brk h)%nat -> y <> kxx ->
  (forall m, mn = Some m -> (m < brk h)%nat /\ m <> y /\ (ns <= length (cells h m))%nat) ->
  (0 < ns)%nat -> (Z.of_nat (ns * ns) < 2147483648)%Z ->
  (ns * ns <= length (cells h kxx))%nat -> (ns <= length (cells h y))%nat ->
  symmetric ns (rowmajor (cells h kxx) ns) ->
  posdef ns (jittered ns eps (cells h kxx)) ->
  exists h',
    sample_gp normal_rnd y mn kxx ns seed h = Done tt h' /\
    (forall q, (q < brk h)%nat -> q <> y -> cells h' q = cells h q) /\
    factored ns ns ns (jitter ns eps (Blas.dcopy (ns * ns) (cells h kxx)
                                        (repeat 0 (ns * ns))))
             (factor_of ns (cells h kxx)) /\
    (forall i, (i < ns)%nat ->
       get (cells h' y) i
       = Rsum ns (fun k => Lw (factor_of ns (cells h kxx)) ns i k * normal_rnd ns seed k)
         + match mn with Some m => get (cells h m) i | None => 0 end).
Proof.
  intros V1 V2 N1 Hmn Hns Hint L1 L2 Hsym Hpd.
  assert (Hint' : (Z.of_nat ns < 2147483648)%Z) by nia.
  unfold sample_gp.
  rewrite (bind_run _ _ _ _ _ (eq_refl : malloc (ns * ns) h
                                         = Done (brk h) (grow h (repeat 0 (ns * ns))))).
  set (h0 := grow h (repeat 0 (ns * ns))).
  assert (C0 : forall q, (q < brk h)%nat -> cells h0 q = cells h q).
  { intros q Hq. apply cells_grow_neq. lia. }
  assert (C0V : cells h0 (brk h) = repeat 0 (ns * ns)) by apply cells_grow_eq.
  remember (brk h) as V eqn:EV.
  assert (NV1 : y <> V) by lia. assert (NV2 : kxx <> V) by lia.
  cbv zeta. rewrite !to_int_small by assumption.
  (* the copy *)
  rewrite (bind_run _ _ _ _ _ (dcopy_run (ns * ns) kxx V h0
             ltac:(rewrite C0 by auto; exact L1)
             ltac:(rewrite C0V, repeat_length; lia))).
  rewrite (C0 kxx), C0V by auto.
  set (K0 := Blas.dcopy (ns * ns) (cells h kxx) (repeat 0 (ns * ns))).
  set (h1 := poke h0 V K0).
  assert (LK0 : length K0 = (ns * ns)%nat).
  { unfold K0. now rewrite length_dcopy, repeat_length. }
  (* the jitter *)
  rewrite (bind_run _ _ _ _ _ (jitter_loop_run V ns 1E-7 h1
             ltac:(unfold h1; rewrite cells_poke_eq; lia))).
  replace (cells h1 V) with K0 by (unfold h1; now cells_simp).
  fold eps. set (K := jitter ns eps K0). set (h2 := poke h1 V K).
  assert (LK : (ns * ns <= length K)%nat) by (unfold K; rewrite length_jitter; lia).
  assert (HA : forall i j, (i < ns)%nat -> (j < ns)%nat ->
             Asym K ns i j = jittered ns eps (cells h kxx) i j).
  { intros i j Hi Hj. apply Asym_jitter; auto. rewrite repeat_length; lia. }
  assert (HpdK : posdef ns (Asym K ns)).
  { apply (posdef_ext ns (jittered ns eps (cells h kxx))); auto.
    intros i j Hi Hj. symmetry. now apply HA. }
  destruct (dpotf2_L_posdef ns K Hns LK HpdK) as (Hs & HF).
  (* the factorization *)
  rewrite (bind_run _ _ _ _ _ (dpotrf_L_run ns V h2 Hns
             ltac:(unfold h2; rewrite cells_poke_eq; exact LK))).
  replace (cells h2 V) with K by (unfold h2; now cells_simp).
  rewrite Hs. change (factor_of ns (cells h kxx)) with (fst (Blas.dpotf2_L ns K ns)).
  set (F := fst (Blas.dpotf2_L ns K ns)) in *.
  set (h3 := poke h2 V F).
  rewrite (bind_run _ _ _ _ _ (eq_refl : assert_ (Z.of_nat 0 =? 0)%Z h3 = Done tt h3)).
  assert (C3 : forall q, (q < V)%nat -> cells h3 q = cells h q).
  { intros q Hq. assert (q <> V) by lia. unfold h3, h2, h1. cells_simp. now apply C0. }
  assert (C3V : cells h3 V = F) by (unfold h3; now cells_simp).
  assert (LF : length F = length K) by apply HF.
  (* the draw *)
  rewrite (bind_run _ _ _ _ _ (fill_normal_rnd_run y ns seed h3
             ltac:(rewrite C3 by auto; exact L2))).
  rewrite (C3 y) by auto.
  set (z := drawn (normal_rnd ns seed) ns (cells h y)).
  set (h4 := poke h3 y z).
  assert (Lz : length z = length (cells h y)) by apply length_drawn.
  (* the product *)
  rewrite (bind_run _ _ _ _ _ (dtrmv_LNN_run ns V y h4 Hns
             ltac:(unfold h4; cells_simp; rewrite C3V; lia)
             ltac:(unfold h4; cells_simp; lia))).
  replace (cells h4 V) with F by (unfold h4; cells_simp; now rewrite C3V).
  replace (cells h4 y) with z by (unfold h4; now cells_simp).
  set (x := Blas.dtrmv_LNN ns F ns z). set (h5 := poke h4 y x).
  destruct (dtrmv_LNN_spec ns F ns z ltac:(lia)) as (Lx & _ & Hx). fold x in Lx, Hx.
  assert (C5 : forall q, (q < V)%nat -> q <> y -> cells h5 q = cells h q).
  { intros q Hq Hqy. unfold h5, h4. cells_simp. now apply C3. }
  assert (Hxi : forall i, (i < ns)%nat ->
             get x i = Rsum ns (fun k => Lw F ns i k * normal_rnd ns seed k)).
  { intros i Hi. rewrite Hx by auto. apply Rsum_ext. intros k Hk.
    unfold z. now rewrite get_drawn by auto. }
  destruct mn as [m|].
  - destruct (Hmn m eq_refl) as (Vm & Nm & Lm).
    rewrite (bind_run _ _ _ _ _ (mean_loop_run y m ns h5 Nm
               ltac:(unfold h5; cells_simp; lia)
               ltac:(rewrite C5 by auto; exact Lm))).
    replace (cells h5 y) with x by (unfold h5; now cells_simp).
    rewrite (C5 m) by auto.
    eexists. split; [reflexivity|]. split; [|split; [exact HF|]].
    + intros q Hq Hqy. assert (q <> V) by lia. cells_simp. now apply C5.
    + intros i Hi. cells_simp.
      rewrite get_add_mean by (auto; lia). now rewrite Hxi.
  - rewrite (bind_run _ _ _ _ _ (eq_refl : ret tt h5 = Done tt h5)).
    eexists. split; [reflexivity|]. split; [|split; [exact HF|]].
    + intros q Hq Hqy. assert (q <> V) by lia. cells_simp. now apply C5.
    + intros i Hi. cells_simp. unfold h5. cells_simp.
      rewrite Hxi by auto. ring.
Qed.

End Sampler.

(** X26. While [ns * ns] fits an [int], and in exact arithmetic,
    [sample_gp] is deterministic: two calls with the same mean,
    covariance, size and seed return the same vector; the vector is
    [L z], plus the mean when one is supplied, where [z] is the draw the
    seed determines and [L] the lower Cholesky factor of the jittered
    covariance.  (For larger [ns] see [sample_gp_wrapped_run].) *)
Theorem sample_gp_deterministic :
  forall (normal_rnd : nat -> Z -> nat -> R)
         (y : ptr) (mn : option ptr) (kxx : ptr) (ns : nat) (seed : Z) (h g : heap),
    (0 < ns)%nat -> (Z.of_nat (ns * ns) < 2147483648)%Z ->
    sample_ready y mn kxx ns h -> sample_ready y mn kxx ns g ->
    cells g kxx = cells h kxx ->
    (forall m, mn = Some m -> cells g m = cells h m) ->
    exists (h' g' : heap) (L : nat -> nat -> R),
      sample_gp normal_rnd y mn kxx ns seed h = Done tt h' /\
      sample_gp normal_rnd y mn kxx ns seed g = Done tt g' /\
      (forall i, (i < ns)%nat -> get (cells g' y) i = get (cells h' y) i) /\
      (forall i k, (i < k)%nat -> L i k = 0) /\
      (forall i, (i < ns)%nat -> 0 < L i i) /\
      (forall i j, (i < ns)%nat -> (j < ns)%nat ->
         Rsum ns (fun k => L i k * L j k) = jittered ns eps (cells h kxx) i j) /\
      (forall i, (i < ns)%nat ->
         get (cells h' y) i
         = match mn with
           | None => Rsum ns (fun k => L i k * normal_rnd ns seed k)
           | Some m => Rsum ns (fun k => L i k * normal_rnd ns seed k) + get (cells h m) i
           end).
Proof.
  intros normal_rnd y mn kxx ns seed h g Hns Hint
         (V1 & V2 & N1 & Hmn & L1 & L2 & Hsym & Hpd)
         (V1' & V2' & _ & Hmn' & L1' & L2' & Hsym' & Hpd') Ek Em.
  destruct (sample_gp_run normal_rnd y mn kxx ns seed h)
    as (h' & Hr & _ & HF & Hy); auto.
  destruct (sample_gp_run normal_rnd y mn kxx ns seed g)
    as (g' & Hr' & _ & _ & Hy'); auto.
  rewrite Ek in Hy'.
  set (K := jitter ns eps (Blas.dcopy (ns * ns) (cells h kxx) (repeat 0 (ns * ns)))) in *.
  set (F := fst (Blas.dpotf2_L ns K ns)) in *.
  assert (LK : (ns * ns <= length K)%nat).
  { unfold K. rewrite length_jitter, length_dcopy, repeat_length. lia. }
  exists h', g', (Lw F ns). split; [exact Hr|]. split; [exact Hr'|].
  repeat split.
  - intros i Hi. rewrite Hy, Hy' by auto. f_equal.
    destruct mn as [m|]; [|reflexivity]. now rewrite (Em m).
  - intros i k Hik. now apply Lw_upper.
  - intros i Hi. rewrite Lw_diag. apply HF; auto.
  - intros i j Hi Hj. rewrite (factored_product ns K F i j LK HF Hi Hj).
    apply Asym_jitter; auto. rewrite repeat_length; lia.
  - intros i Hi. rewrite Hy by auto. destruct mn; [reflexivity | ring].
Qed.

Lemma sample_gp_deterministic_witness :
  exists h' g',
    sample_gp (fun _ _ _ => 3) 0%nat (Some 2%nat) 1%nat 1 42
      (heap_of [[0]; [4 - eps]; [10]]) = Done tt h' /\
    sample_gp (fun _ _ _ => 3) 0%nat (Some 2%nat) 1%nat 1 42
      (heap_of [[7]; [4 - eps]; [10]]) = Done tt g' /\
    get (cells g' 0%nat) 0 = get (cells h' 0%nat) 0.
Proof.
  assert (Hready : forall y0,
            sample_ready 0%nat (Some 2%nat) 1%nat 1 (heap_of [[y0]; [4 - eps]; [10]])).
  { intros y0. unfold sample_ready. simpl.
    split; [lia|]. split; [lia|]. split; [lia|].
    split; [intros m Hm; injection Hm as <-; simpl; repeat split; lia|].
    split; [lia|]. split; [lia|]. split.
    - intros i j Hi Hj. replace i with O by lia. replace j with O by lia. reflexivity.
    - intros x (i & Hi & Hx). replace i with O in Hx by lia.
      unfold jittered, get. simpl. nra. }
  destruct (sample_gp_deterministic (fun _ _ _ => 3) 0%nat (Some 2%nat) 1%nat 1 42%Z
              (heap_of [[0]; [4 - eps]; [10]]) (heap_of [[7]; [4 - eps]; [10]]))
    as (h' & g' & L & Hr & Hr' & He & _); auto; try lia.
  - intros m Hm. injection Hm as <-. reflexivity.
  - exists h', g'. split; [exact Hr|]. split; [exact Hr'|]. apply He. lia.
Defined.

(* ================================================================== *)
(** * The mean-offset orchestrator *)

Lemma brk_grow h l : brk (grow h l) = S (brk h).
Proof. reflexivity. Qed.

Lemma cells_grow_old h l q : (q < brk h)%nat -> cells (grow h l) q = cells h q.
Proof. intros H. apply cells_grow_neq. lia. Qed.

Lemma gpr_predict_run yp wt krnp np ns h :
  (0 < ns)%nat -> (0 < np)%nat ->
  (Z.of_nat ns < 2147483648)%Z -> (Z.of_nat np < 2147483648)%Z ->
  (np * ns <= length (cells h krnp))%nat ->
  (ns <= length (cells h wt))%nat -> (np <= length (cells h yp))%nat ->
  gpr_predict yp wt krnp np ns h
  = Done tt (poke h yp (Blas.dgemv_T ns np 1 (cells h krnp) ns (cells h wt) 0
                          (cells h yp))).
Proof.
  intros Hns Hnp Ins Inp L1 L2 L3. unfold gpr_predict. cbv zeta.
  rewrite !to_int_small by assumption.
  now apply dgemv_T_run.
Qed.

Section Orchestrator.

Variable krn_se_ard : list R -> list R -> nat -> nat -> nat -> list R -> nat -> nat -> R.
Variable hyper_param_ard : list R -> nat -> list R -> list R -> nat -> nat -> list R.

Lemma get_krn_se_ard_run krn xa xb na nb dim p npar h :
  (na * nb <= length (cells h krn))%nat ->
  get_krn_se_ard krn_se_ard krn xa xb na nb dim p npar h
  = Done tt (poke h krn
               (drawn (krn_se_ard (cells h xa) (cells h xb) na nb dim (cells h p) npar)
                      (na * nb) (cells h krn))).
Proof.
  intros Hl. unfold get_krn_se_ard.
  rewrite (bind_run _ _ _ _ _ (eq_refl : peek xa h = Done (cells h xa) h)).
  rewrite (bind_run _ _ _ _ _ (eq_refl : peek xb h = Done (cells h xb) h)).
  rewrite (bind_run _ _ _ _ _ (eq_refl : peek p h = Done (cells h p) h)).
  now rewrite (bind_run _ _ _ _ _ (need_ok krn (na * nb) h Hl)).
Qed.

End Orchestrator.

Lemma malloc_run n h : malloc n h = Done (brk h) (grow h (repeat 0 n)).
Proof. reflexivity. Qed.

Lemma free_run p h : free p h = Done tt (poke h p []).
Proof. reflexivity. Qed.

Ltac ptr_simp :=
  repeat first
    [ rewrite cells_poke_eq
    | rewrite cells_poke_neq by (congruence || lia)
    | rewrite cells_grow_eq
    | rewrite cells_grow_old by (rewrite ?brk_grow; lia) ].

Section OrchestratorRun.

Variable krn_se_ard : list R -> list R -> nat -> nat -> nat -> list R -> nat -> nat -> R.
Variable hyper_param_ard : list R -> nat -> list R -> list R -> nat -> nat -> list R.

(** What [gpr_interpolate_mean] leaves in [yp] when no variance is
    requested: the prediction minus the query-side mean. *)
Lemma gpr_interpolate_mean_run xp yp yp_mn np x y y_mn ns dim p npar (is_opt : bool) h :
  (xp < brk h)%nat -> (yp < brk h)%nat -> (yp_mn < brk h)%nat -> (x < brk h)%nat ->
  (y < brk h)%nat -> (y_mn < brk h)%nat -> (p < brk h)%nat ->
  yp <> xp -> yp <> yp_mn -> yp <> x -> yp <> p ->
  p <> xp -> p <> x -> p <> yp_mn ->
  (0 < ns)%nat -> (0 < np)%nat ->
  (Z.of_nat ns < 2147483648)%Z -> (Z.of_nat np < 2147483648)%Z ->
  (ns <= length (cells h y))%nat -> (ns <= length (cells h y_mn))%nat ->
  (np <= length (cells h yp))%nat -> (np <= length (cells h yp_mn))%nat ->
  let y_res := Blas.daxpy ns (-1) (cells h y_mn)
                 (Blas.dcopy ns (cells h y) (repeat 0 ns)) in
  let p1 := if is_opt
            then hyper_param_ard (cells h p) npar (cells h x) y_res ns dim
            else cells h p in
  let krxx := drawn (krn_se_ard (cells h x) (cells h x) ns ns dim p1 npar)
                    (ns * ns) (repeat 0 (ns * ns)) in
  let krpx := drawn (krn_se_ard (cells h xp) (cells h x) np ns dim p1 npar)
                    (np * ns) (repeat 0 (np * ns)) in
  symmetric ns (rowmajor krxx ns) ->
  posdef ns (jittered ns eps krxx) ->
  exists h' wt,
    gpr_interpolate_mean krn_se_ard hyper_param_ard
      xp yp yp_mn np x y y_mn ns dim p npar None is_opt h = Done tt h' /\
    (forall i, (i < ns)%nat ->
       Rsum ns (fun j => jittered ns eps krxx i j * get wt j)
       = get (cells h y) i - get (cells h y_mn) i) /\
    (forall i, (i < np)%nat ->
       get (cells h' yp) i
       = Rsum ns (fun k => get krpx (i * ns + k) * get wt k) - get (cells h yp_mn) i).
Proof.
  intros V1 V2 V3 V4 V5 V6 V7 N1 N2 N3 N4 N5 N6 N7 Hns Hnp Ins Inp L1 L2 L3 L4
         y_res p1 krxx krpx Hsym Hpd.
  unfold gpr_interpolate_mean.
  rewrite (bind_run _ _ _ _ _ (malloc_run _ _)).
  rewrite (bind_run _ _ _ _ _ (malloc_run _ _)).
  rewrite (bind_run _ _ _ _ _ (malloc_run _ _)).
  rewrite (bind_run _ _ _ _ _ (malloc_run _ _)).
  rewrite (bind_run _ _ _ _ _ (malloc_run _ _)).
  rewrite (bind_run _ _ _ _ _ (malloc_run _ _)).
  rewrite !brk_grow.
  set (hm := grow (grow (grow (grow (grow (grow h (repeat 0 (ns * ns)))
               (repeat 0 (ns * ns))) (repeat 0 (np * ns))) (repeat 0 (np * np)))
               (repeat 0 ns)) (repeat 0 ns)).
  assert (Hold : forall q, (q < brk h)%nat -> cells hm q = cells h q).
  { intros q Hq. unfold hm. now ptr_simp. }
  assert (M0 : cells hm (brk h) = repeat 0 (ns * ns)) by (unfold hm; now ptr_simp).
  assert (M1 : cells hm (S (brk h)) = repeat 0 (ns * ns))
    by (unfold hm; now ptr_simp).
  assert (M2 : cells hm (S (S (brk h))) = repeat 0 (np * ns))
    by (unfold hm; now ptr_simp).
  assert (M4 : cells hm (S (S (S (S (brk h))))) = repeat 0 ns)
    by (unfold hm; now ptr_simp).
  assert (M5 : cells hm (S (S (S (S (S (brk h)))))) = repeat 0 ns)
    by (unfold hm; now ptr_simp).
  assert (Hb : brk hm = S (S (S (S (S (S (brk h))))))) by reflexivity.
  clearbody hm.
  rewrite (to_int_small ns Ins), (to_int_small np Inp).
  set (b := brk h) in *.
  assert (E1 : dcopy_ (Z.of_nat ns) y (S (S (S (S b)))) hm
               = Done tt (poke hm (S (S (S (S b))))
                            (Blas.dcopy ns (cells h y) (repeat 0 ns)))).
  { rewrite dcopy_run.
    - now rewrite M4, (Hold y V5).
    - now rewrite (Hold y V5).
    - now rewrite M4, repeat_length. }
  rewrite (bind_run _ _ _ _ _ E1). clear E1.
  set (h1 := poke hm _ _).
  assert (E2 : daxpy_ (Z.of_nat ns) (-1) y_mn (S (S (S (S b)))) h1
               = Done tt (poke h1 (S (S (S (S b)))) y_res)).
  { rewrite daxpy_run.
    - unfold h1. rewrite cells_poke_eq, cells_poke_neq by lia.
      now rewrite (Hold y_mn V6).
    - unfold h1. rewrite cells_poke_neq by lia. now rewrite (Hold y_mn V6).
    - unfold h1. now rewrite cells_poke_eq, length_dcopy, repeat_length. }
  rewrite (bind_run _ _ _ _ _ E2). clear E2.
  set (h2 := poke h1 _ _).
  assert (F2 : forall q, (q < b)%nat -> cells h2 q = cells h q).
  { intros q Hq. unfold h2, h1. rewrite !cells_poke_neq by lia. now apply Hold. }
  assert (F2y : cells h2 (S (S (S (S b)))) = y_res) by apply cells_poke_eq.
  assert (F2n : forall q, q <> S (S (S (S b))) -> cells h2 q = cells hm q).
  { intros q Hq. unfold h2, h1. now rewrite !cells_poke_neq by exact Hq. }
  clearbody h2. clear h1.
  set (opt := if is_opt then _ else _).
  assert (E3 : opt h2 = Done tt (poke h2 p p1)).
  { unfold opt, p1. destruct is_opt.
    - unfold get_hyper_param_ard, bind, peek, modify.
      now rewrite F2y, (F2 x V4), (F2 p V7).
    - unfold ret. f_equal. rewrite <- (F2 p V7). symmetry. apply poke_self. }
  rewrite (bind_run _ _ _ _ _ E3). clear E3 opt.
  set (h3 := poke h2 p p1).
  assert (F3p : cells h3 p = p1) by apply cells_poke_eq.
  assert (F3 : forall q, q <> p -> cells h3 q = cells h2 q).
  { intros q Hq. unfold h3. now rewrite cells_poke_neq by exact Hq. }
  clearbody h3.
  assert (E4 : get_krn_se_ard krn_se_ard b x x ns ns dim p npar h3
               = Done tt (poke h3 b krxx)).
  { rewrite get_krn_se_ard_run.
    - rewrite F3p, (F3 x), (F2 x V4) by congruence.
      rewrite (F3 b), (F2n b), M0 by lia. reflexivity.
    - rewrite (F3 b), (F2n b), M0 by lia. now rewrite repeat_length. }
  rewrite (bind_run _ _ _ _ _ E4). clear E4.
  set (h4 := poke h3 b krxx).
  assert (F4b : cells h4 b = krxx) by apply cells_poke_eq.
  assert (F4 : forall q, q <> b -> cells h4 q = cells h3 q).
  { intros q Hq. unfold h4. now rewrite cells_poke_neq by exact Hq. }
  clearbody h4.
  assert (G4y : cells h4 (S (S (S (S b)))) = y_res)
    by (rewrite F4, F3 by lia; exact F2y).
  assert (G4 : forall q, q <> b -> q <> p -> q <> S (S (S (S b))) ->
                 cells h4 q = cells hm q).
  { intros q Q1 Q2 Q3. now rewrite F4, F3, F2n. }
  assert (G4p : cells h4 p = p1) by (rewrite F4 by lia; exact F3p).
  clear F4 F3 F3p F2n F2y F2 h3 h2.
  destruct (get_gpr_weights_core (S (S (S (S (S b))))) (S b) b ns dim
              (S (S (S (S b)))) h4) as (h5 & E5 & F5 & _ & W5 & _ & S5 & _).
  1-4: lia.
  1-2: assumption.
  - rewrite F4b. unfold krxx. now rewrite length_drawn, repeat_length.
  - now rewrite G4, M1, repeat_length by lia.
  - unfold y_res in G4y. rewrite G4y, length_daxpy, length_dcopy, repeat_length.
    reflexivity.
  - now rewrite G4, M5, repeat_length by lia.
  - now rewrite F4b.
  - now rewrite F4b.
  - rewrite (bind_run _ _ _ _ _ E5). clear E5.
    rewrite F4b, G4y in S5. rewrite G4, M5, repeat_length in W5 by lia.
    set (w := S (S (S (S (S b))))) in *.
    assert (E6 : get_krn_se_ard krn_se_ard (S (S b)) xp x np ns dim p npar h5
                 = Done tt (poke h5 (S (S b)) krpx)).
    { rewrite get_krn_se_ard_run.
      - rewrite !F5 by (unfold w; lia).
        rewrite G4p, (G4 xp), (G4 x), (G4 (S (S b))), M2 by lia.
        now rewrite (Hold xp V1), (Hold x V4).
      - rewrite F5, G4, M2 by (unfold w; lia). now rewrite repeat_length. }
    rewrite (bind_run _ _ _ _ _ E6). clear E6.
    set (h6 := poke h5 (S (S b)) krpx).
    assert (F6k : cells h6 (S (S b)) = krpx) by apply cells_poke_eq.
    assert (F6w : cells h6 w = cells h5 w).
    { unfold h6. now rewrite cells_poke_neq by (unfold w; lia). }
    assert (F6 : forall q, (q < b)%nat -> q <> p -> cells h6 q = cells h q).
    { intros q Q1 Q2. unfold h6.
      rewrite cells_poke_neq, F5, G4 by (unfold w; lia). now apply Hold. }
    clearbody h6.
    rewrite (bind_run _ _ _ _ _
               (gpr_predict_run yp w (S (S b)) np ns h6 Hns Hnp Ins Inp
                  ltac:(rewrite F6k; unfold krpx;
                        now rewrite length_drawn, repeat_length)
                  ltac:(now rewrite F6w, W5)
                  ltac:(now rewrite (F6 yp V2 N4)))).
    rewrite F6k, F6w, (F6 yp V2 N4).
    set (pred := Blas.dgemv_T ns np 1 krpx ns (cells h5 w) 0 (cells h yp)).
    set (h7 := poke h6 yp pred).
    assert (E8 : daxpy_ (Z.of_nat np) (-1) yp_mn yp h7
                 = Done tt (poke h7 yp (Blas.daxpy np (-1) (cells h yp_mn) pred))).
    { assert (Hm : cells h7 yp_mn = cells h yp_mn).
      { unfold h7. rewrite cells_poke_neq by congruence.
        apply F6; [exact V3 | congruence]. }
      rewrite daxpy_run.
      - rewrite Hm. unfold h7. now rewrite cells_poke_eq.
      - now rewrite Hm.
      - unfold h7, pred. now rewrite cells_poke_eq, length_dgemv_T. }
    rewrite (bind_run _ _ _ _ _ E8). clear E8.
    eexists. exists (cells h5 w).
    split; [reflexivity |]. split.
    + intros i Hi. rewrite (S5 i Hi). unfold y_res.
      rewrite get_daxpy by now rewrite length_dcopy, repeat_length.
      rewrite get_dcopy by now rewrite repeat_length.
      rewrite (proj2 (Nat.ltb_lt i ns) Hi). lra.
    + intros i Hi. cbn [cells poke].
      rewrite !(proj2 (Nat.eqb_neq yp _)) by (unfold w; lia).
      rewrite Nat.eqb_refl.
      rewrite get_daxpy by (unfold pred; now rewrite length_dgemv_T).
      rewrite (proj2 (Nat.ltb_lt i np) Hi).
      unfold pred. rewrite get_dgemv_T by assumption.
      rewrite (Rsum_ext ns (fun i0 => get krpx (ix ns i0 i) * get (cells h5 w) i0)
                 (fun k => get krpx (i * ns + k) * get (cells h5 w) k)).
      * lra.
      * intros k Hk. unfold ix. now rewrite (Nat.add_comm k).
Qed.

End OrchestratorRun.

(** A positive definite system has at most one solution. *)
Lemma posdef_unique n a u v :
  posdef n a ->
  (forall i, (i < n)%nat ->
     Rsum n (fun j => a i j * u j) = Rsum n (fun j => a i j * v j)) ->
  forall i, (i < n)%nat -> u i = v i.
Proof.
  intros Hpd Heq i Hi.
  destruct (Req_dec (u i) (v i)) as [E | E]; [exact E | exfalso].
  pose (d := fun k => u k - v k).
  assert (Hd : exists k, (k < n)%nat /\ d k <> 0).
  { exists i. split; [exact Hi | unfold d; lra]. }
  apply Hpd in Hd.
  rewrite (Rsum_zero n) in Hd; [lra |].
  intros k Hk.
  rewrite (Rsum_ext n (fun j => d k * a k j * d j)
             (fun j => d k * (a k j * u j - a k j * v j)))
    by (intros j _; unfold d; ring).
  rewrite Rsum_scal_l, Rsum_minus, (Heq k Hk). ring.
Qed.

(** C1. With valid, distinct buffers and a symmetric kernel that is
    positive definite after the jitter, [gpr_interpolate_mean] returns.
    The training-side mean [y_mn] is subtracted from [y] before the
    weights are solved: they are the solution [wt] of
    [(krxx + eps I) wt = y - y_mn].  The scalar [ALPHA = -1.0] of that
    subtraction is still in force at the second [daxpy_], so the
    query-side mean is subtracted as well: the call leaves
    [yp = krpx^T wt - yp_mn], which differs from [krpx^T wt + yp_mn] at
    every index where [yp_mn] is not zero. *)
Theorem gpr_interpolate_mean_subtracts_query_mean :
  forall (krn_se_ard : list R -> list R -> nat -> nat -> nat -> list R -> nat -> nat -> R)
         (hyper_param_ard : list R -> nat -> list R -> list R -> nat -> nat -> list R)
         (xp yp yp_mn : ptr) (np : nat) (x y y_mn : ptr) (ns dim : nat)
         (p : ptr) (npar : nat) (is_opt : bool) (h : heap),
    (xp < brk h)%nat -> (yp < brk h)%nat -> (yp_mn < brk h)%nat -> (x < brk h)%nat ->
    (y < brk h)%nat -> (y_mn < brk h)%nat -> (p < brk h)%nat ->
    yp <> xp -> yp <> yp_mn -> yp <> x -> yp <> p ->
    p <> xp -> p <> x -> p <> yp_mn ->
    (0 < ns)%nat -> (0 < np)%nat ->
    (Z.of_nat ns < 2147483648)%Z -> (Z.of_nat np < 2147483648)%Z ->
    (ns <= length (cells h y))%nat -> (ns <= length (cells h y_mn))%nat ->
    (np <= length (cells h yp))%nat -> (np <= length (cells h yp_mn))%nat ->
    let y_res := Blas.daxpy ns (-1) (cells h y_mn)
                   (Blas.dcopy ns (cells h y) (repeat 0 ns)) in
    let p1 := if is_opt
              then hyper_param_ard (cells h p) npar (cells h x) y_res ns dim
              else cells h p in
    let krxx := drawn (krn_se_ard (cells h x) (cells h x) ns ns dim p1 npar)
                      (ns * ns) (repeat 0 (ns * ns)) in
    let krpx := drawn (krn_se_ard (cells h xp) (cells h x) np ns dim p1 npar)
                      (np * ns) (repeat 0 (np * ns)) in
    let solves (wt : list R) :=
      forall i, (i < ns)%nat ->
        Rsum ns (fun j => jittered ns eps krxx i j * get wt j)
        = get (cells h y) i - get (cells h y_mn) i in
    symmetric ns (rowmajor krxx ns) ->
    posdef ns (jittered ns eps krxx) ->
    exists h',
      gpr_interpolate_mean krn_se_ard hyper_param_ard
        xp yp yp_mn np x y y_mn ns dim p npar None is_opt h = Done tt h' /\
      (exists wt, solves wt) /\
      (forall wt, solves wt ->
         forall i, (i < np)%nat ->
           get (cells h' yp) i
           = Rsum ns (fun k => get krpx (i * ns + k) * get wt k) - get (cells h yp_mn) i /\
           (get (cells h yp_mn) i <> 0 ->
            get (cells h' yp) i
            <> Rsum ns (fun k => get krpx (i * ns + k) * get wt k)
               + get (cells h yp_mn) i)).
Proof.
  intros krn_se_ard hyper_param_ard xp yp yp_mn np x y y_mn ns dim p npar is_opt h
         V1 V2 V3 V4 V5 V6 V7 N1 N2 N3 N4 N5 N6 N7 Hns Hnp Ins Inp L1 L2 L3 L4
         y_res p1 krxx krpx solves Hsym Hpd.
  destruct (gpr_interpolate_mean_run krn_se_ard hyper_param_ard
              xp yp yp_mn np x y y_mn ns dim p npar is_opt h
              V1 V2 V3 V4 V5 V6 V7 N1 N2 N3 N4 N5 N6 N7 Hns Hnp Ins Inp
              L1 L2 L3 L4 Hsym Hpd) as (h' & w & Hrun & Hw & Hyp).
  exists h'. split; [exact Hrun |]. split; [exists w; exact Hw |].
  intros wt Hwt i Hi.
  assert (Hsame : forall k, (k < ns)%nat -> get wt k = get w k).
  { apply (posdef_unique ns (jittered ns eps krxx) (get wt) (get w) Hpd).
    intros k Hk. exact (eq_trans (Hwt k Hk) (eq_sym (Hw k Hk))). }
  assert (Hval : get (cells h' yp) i
                 = Rsum ns (fun k => get krpx (i * ns + k) * get wt k)
                   - get (cells h yp_mn) i).
  { rewrite (Hyp i Hi). f_equal. apply Rsum_ext.
    intros k Hk. now rewrite (Hsame k Hk). }
  split; [exact Hval |]. intros Hne. rewrite Hval. lra.
Qed.

Lemma gpr_interpolate_mean_subtracts_query_mean_witness :
  exists h',
    gpr_interpolate_mean (fun _ _ _ _ _ _ _ _ => 1) (fun hp _ _ _ _ _ => hp)
      0%nat 1%nat 2%nat 1 3%nat 4%nat 5%nat 1 1 6%nat 1 None false
      (heap_of [[0]; [0]; [5]; [0]; [3]; [1]; [1]]) = Done tt h' /\
    get (cells h' 1%nat) 0 = 2 / (1 + eps) - 5 /\
    get (cells h' 1%nat) 0 <> 2 / (1 + eps) + 5.
Proof.
  destruct (gpr_interpolate_mean_subtracts_query_mean
              (fun _ _ _ _ _ _ _ _ => 1) (fun hp _ _ _ _ _ => hp)
              0%nat 1%nat 2%nat 1 3%nat 4%nat 5%nat 1 1 6%nat 1 false
              (heap_of [[0]; [0]; [5]; [0]; [3]; [1]; [1]]))
    as (h' & Hrun & _ & Hyp); try discriminate; try (simpl; lia).
  - intros i j Hi Hj. replace i with O by lia. replace j with O by lia. reflexivity.
  - intros x (i & Hi & Hx). replace i with O in Hx by lia.
    unfold jittered, drawn, get, eps. simpl. nra.
  - exists h'. split; [exact Hrun |].
    destruct (Hyp [2 / (1 + eps)]) with (i := O) as (Hval & Hne); [| lia |].
    + intros i Hi. replace i with O by lia.
      unfold jittered, drawn, get, eps. simpl. field.
    + unfold drawn, get in Hval, Hne |- *. simpl in Hval, Hne |- *.
      split.
      * rewrite Hval. unfold eps. field.
      * intros E. apply Hne; [lra |]. rewrite E. unfold eps. field.
Defined.

(* ================================================================== *)
(** * Footprints: what a call writes, allocates and releases *)

Lemma wo_ret {A} W (a : A) : writes_only W (ret a).
Proof. intros h a' h' E. injection E; intros; subst; auto. Qed.

Lemma wo_raise {A} W f : writes_only W (@raise A f).
Proof. intros h a h' E. discriminate. Qed.

Lemma wo_bind {A B} W (m : Comp A) (k : A -> Comp B) :
  writes_only W m -> (forall a, writes_only W (k a)) -> writes_only W (bind m k).
Proof.
  intros Hm Hk h b h' E. apply bind_Done in E as (a & h1 & E1 & E2).
  destruct (Hm _ _ _ E1) as (B1 & F1). destruct (Hk a _ _ _ E2) as (B2 & F2).
  split; [congruence |]. intros q Hq. now rewrite F2, F1.
Qed.

Lemma wo_poke W h p l : W p ->
  brk (poke h p l) = brk h /\ forall q, ~ W q -> cells (poke h p l) q = cells h q.
Proof.
  intros Hp. split; [reflexivity |]. intros q Hq. apply cells_poke_neq.
  intros ->. now apply Hq.
Qed.

Lemma wo_load W p i : writes_only W (load p i).
Proof.
  intros h a h' E. unfold load in E.
  destruct (Nat.ltb i (length (cells h p))); [| discriminate].
  injection E; intros; subst; auto.
Qed.

Lemma wo_store W p i v : W p -> writes_only W (store p i v).
Proof.
  intros Hp h a h' E. unfold store in E.
  destruct (Nat.ltb i (length (cells h p))); [| discriminate].
  injection E; intros; subst. now apply wo_poke.
Qed.

Lemma wo_need W p n : writes_only W (need p n).
Proof.
  intros h a h' E. unfold need in E.
  destruct (Nat.leb n (length (cells h p))); [| discriminate].
  injection E; intros; subst; auto.
Qed.

Lemma wo_peek W p : writes_only W (peek p).
Proof. intros h a h' E. injection E; intros; subst; auto. Qed.

Lemma wo_modify W p f : W p -> writes_only W (modify p f).
Proof. intros Hp h a h' E. injection E; intros; subst. now apply wo_poke. Qed.

Lemma wo_free W p : W p -> writes_only W (free p).
Proof. intros Hp h a h' E. injection E; intros; subst. now apply wo_poke. Qed.

Lemma wo_assert W c : writes_only W (assert_ c).
Proof. destruct c; [apply wo_ret | apply wo_raise]. Qed.

Lemma wo_for_upto W n body :
  (forall i, writes_only W (body i)) -> writes_only W (for_upto n body).
Proof.
  intros Hb. induction n; simpl; [apply wo_ret |].
  apply wo_bind; [exact IHn | intros _; apply Hb].
Qed.

Lemma wo_for_ W lo hi body :
  (forall i, writes_only W (body i)) -> writes_only W (for_ lo hi body).
Proof. intros Hb. apply wo_for_upto. intros d. apply Hb. Qed.

Lemma wo_fold_upto {A} W n (body : nat -> A -> Comp A) a :
  (forall i x, writes_only W (body i x)) -> writes_only W (fold_upto n body a).
Proof.
  intros Hb. induction n; simpl; [apply wo_ret |].
  apply wo_bind; [exact IHn | intros x; apply Hb].
Qed.

(** The footprint of a straight-line computation, read off its text. *)
Ltac wo_step :=
  first
    [ apply wo_ret | apply wo_raise | apply wo_load | apply wo_need
    | apply wo_peek | apply wo_assert
    | apply wo_bind; [| intros ?]
    | apply wo_for_; intros ?
    | apply wo_fold_upto; intros ? ?
    | apply wo_store | apply wo_modify | apply wo_free
    | match goal with
      | |- writes_only _ (if ?c then _ else _) => destruct c
      | |- writes_only _ (let (_, _) := ?c in _) => destruct c
      | |- writes_only _ (match ?c with Some _ => _ | None => _ end) => destruct c
      end
    | progress cbv zeta
    | progress unfold xerbla ].

Ltac wo_side := try solve [cbn beta; first [tauto | lia | congruence]].

Ltac wo := repeat wo_step; wo_side.

Lemma wo_dcopy_ W N X Y : W Y -> writes_only W (dcopy_ N X Y).
Proof. intros HY. unfold dcopy_. wo. Qed.

Lemma wo_daxpy_ W N a X Y : W Y -> writes_only W (daxpy_ N a X Y).
Proof. intros HY. unfold daxpy_. wo. Qed.

Lemma wo_ddot_ W N X Y : writes_only W (ddot_ N X Y).
Proof. unfold ddot_. wo. Qed.

Lemma wo_dgemv_T_ W M N a A LDA X b Y : W Y -> writes_only W (dgemv_T_ M N a A LDA X b Y).
Proof. intros HY. unfold dgemv_T_. wo. Qed.

Lemma wo_dgemm_TN_ W M N K a A LDA B LDB b C LDC :
  W C -> writes_only W (dgemm_TN_ M N K a A LDA B LDB b C LDC).
Proof. intros HC. unfold dgemm_TN_. wo. Qed.

Lemma wo_dsyrk_LT_ W N K a A LDA b C LDC :
  W C -> writes_only W (dsyrk_LT_ N K a A LDA b C LDC).
Proof. intros HC. unfold dsyrk_LT_. wo. Qed.

Lemma wo_dtrsm_LLNN_ W M N a A LDA B LDB :
  W B -> writes_only W (dtrsm_LLNN_ M N a A LDA B LDB).
Proof. intros HB. unfold dtrsm_LLNN_. wo. Qed.

Lemma wo_dtrsm_LLTN_ W M N a A LDA B LDB :
  W B -> writes_only W (dtrsm_LLTN_ M N a A LDA B LDB).
Proof. intros HB. unfold dtrsm_LLTN_. wo. Qed.

Lemma wo_dtrmv_LNN_ W N A LDA X : W X -> writes_only W (dtrmv_LNN_ N A LDA X).
Proof. intros HX. unfold dtrmv_LNN_. wo. Qed.

Lemma wo_dpotrf_L_ W N A LDA : W A -> writes_only W (dpotrf_L_ N A LDA).
Proof. intros HA. unfold dpotrf_L_. wo. Qed.

Lemma wo_dpotrs_L_ W N NRHS A LDA B LDB :
  W B -> writes_only W (dpotrs_L_ N NRHS A LDA B LDB).
Proof.
  intros HB. unfold dpotrs_L_. wo.
  - now apply wo_dtrsm_LLNN_.
  - now apply wo_dtrsm_LLTN_.
Qed.

Lemma wo_dposv_L_ W N NRHS A LDA B LDB :
  W A -> W B -> writes_only W (dposv_L_ N NRHS A LDA B LDB).
Proof.
  intros HA HB. unfold dposv_L_. wo.
  - now apply wo_dpotrf_L_.
  - now apply wo_dpotrs_L_.
Qed.

Lemma rel_free p : releases p (free p).
Proof. intros h a h' E. injection E; intros; subst. apply cells_poke_eq. Qed.

Lemma rel_bind_r {A B} p (m : Comp A) (k : A -> Comp B) :
  (forall a, releases p (k a)) -> releases p (bind m k).
Proof.
  intros Hk h b h' E. apply bind_Done in E as (a & h1 & _ & E2).
  exact (Hk a _ _ _ E2).
Qed.

Lemma rel_bind_l {A B} p (m : Comp A) (k : A -> Comp B) :
  releases p m -> (forall a, writes_only (fun q => q <> p) (k a)) ->
  releases p (bind m k).
Proof.
  intros Hm Hk h b h' E. apply bind_Done in E as (a & h1 & E1 & E2).
  destruct (Hk a _ _ _ E2) as (_ & F). rewrite F by auto.
  exact (Hm _ _ _ E1).
Qed.

Ltac wo_blas :=
  repeat first
    [ apply wo_dcopy_ | apply wo_daxpy_ | apply wo_ddot_ | apply wo_dgemv_T_
    | apply wo_dgemm_TN_ | apply wo_dsyrk_LT_ | apply wo_dtrsm_LLNN_
    | apply wo_dtrsm_LLTN_ | apply wo_dtrmv_LNN_ | apply wo_dpotrf_L_
    | apply wo_dposv_L_ | wo_step ];
  wo_side.

Lemma wo_get_gpr_weights W wt kc krn ns dim y :
  W wt -> W kc -> writes_only W (get_gpr_weights wt kc krn ns dim y).
Proof. intros Hw Hk. unfold get_gpr_weights, get_gpr_weights_prepare. wo_blas. Qed.

Lemma wo_gpr_predict W yp wt krnp np ns :
  W yp -> writes_only W (gpr_predict yp wt krnp np ns).
Proof. intros Hy. unfold gpr_predict. wo_blas. Qed.

Lemma wo_get_krn_se_ard K W krn xa xb na nb dim p npar :
  W krn -> writes_only W (get_krn_se_ard K krn xa xb na nb dim p npar).
Proof. intros Hk. unfold get_krn_se_ard. wo. Qed.

Lemma wo_get_hyper_param_ard O W p npar x y ns dim :
  W p -> writes_only W (get_hyper_param_ard O p npar x y ns dim).
Proof. intros Hp. unfold get_hyper_param_ard. wo. Qed.

Lemma wo_get_asymm_covar K W krn xa xb axa axb na nb dim p npar :
  W krn -> writes_only W (get_asymm_covar K krn xa xb axa axb na nb dim p npar).
Proof. intros Hk. unfold get_asymm_covar. wo. Qed.

Lemma wo_get_hyper_param_ard_asymm O W p npar x ax y ns dim :
  W p -> writes_only W (get_hyper_param_ard_asymm O p npar x ax y ns dim).
Proof. intros Hp. unfold get_hyper_param_ard_asymm. wo. Qed.

Lemma wo_fill_normal_rnd Z W y ns seed :
  W y -> writes_only W (fill_normal_rnd Z y ns seed).
Proof. intros Hy. unfold fill_normal_rnd. wo. Qed.

Ltac head_of t :=
  lazymatch t with
  | ?f _ => head_of f
  | _ => t
  end.

Ltac wo_call :=
  cbv beta;
  lazymatch goal with
  | |- writes_only _ ?m =>
      let f := head_of m in
      lazymatch f with
      | @get_gpr_weights => apply wo_get_gpr_weights
      | @gpr_predict => apply wo_gpr_predict
      | @get_krn_se_ard => apply wo_get_krn_se_ard
      | @get_hyper_param_ard => apply wo_get_hyper_param_ard
      | @get_asymm_covar => apply wo_get_asymm_covar
      | @get_hyper_param_ard_asymm => apply wo_get_hyper_param_ard_asymm
      | @fill_normal_rnd => apply wo_fill_normal_rnd
      | @dcopy_ => apply wo_dcopy_
      | @daxpy_ => apply wo_daxpy_
      | @ddot_ => apply wo_ddot_
      | @dgemv_T_ => apply wo_dgemv_T_
      | @dgemm_TN_ => apply wo_dgemm_TN_
      | @dsyrk_LT_ => apply wo_dsyrk_LT_
      | @dtrsm_LLNN_ => apply wo_dtrsm_LLNN_
      | @dtrsm_LLTN_ => apply wo_dtrsm_LLTN_
      | @dtrmv_LNN_ => apply wo_dtrmv_LNN_
      | @dpotrf_L_ => apply wo_dpotrf_L_
      | @dposv_L_ => apply wo_dposv_L_
      end
  end.

Ltac wo_lib := repeat first [ wo_call | wo_step ]; wo_side.

(** The buffer a computation releases is released on return when
    nothing after the [free] writes to it. *)
Ltac rel :=
  repeat first
    [ apply rel_free
    | apply rel_bind_l; [apply rel_free | intros ?; wo_lib]
    | apply rel_bind_r; intros ?
    | progress cbv zeta ].

(** A function that allocates one scratch buffer, works on it and on the
    buffers of [W], and releases it. *)
Lemma scratch_footprint {A} (W : ptr -> Prop) n (body : ptr -> Comp A) h a h' :
  writes_only (fun q => W q \/ q = brk h) (body (brk h)) ->
  releases (brk h) (body (brk h)) ->
  (V <- malloc n ;; body V) h = Done a h' ->
  brk h' = S (brk h) /\ cells h' (brk h) = [] /\
  (forall q, ~ W q -> q <> brk h -> cells h' q = cells h q).
Proof.
  intros Hwo Hrel E.
  rewrite (bind_run _ _ _ _ _ (malloc_run n h)) in E.
  destruct (Hwo _ _ _ E) as (Hb & Hf).
  split; [exact Hb |]. split; [exact (Hrel _ _ _ E) |].
  intros q Hq Hn. rewrite Hf by tauto. now apply cells_grow_neq.
Qed.

Lemma scratch_tidy {A} (W : ptr -> Prop) (m : Comp A) :
  (forall h a h', m h = Done a h' ->
     brk h' = S (brk h) /\ cells h' (brk h) = [] /\
     (forall q, ~ W q -> q <> brk h -> cells h' q = cells h q)) ->
  tidy W m.
Proof.
  intros Hm h a h' _ E. destruct (Hm _ _ _ E) as (Hb & Hs & Hf).
  split; [lia |]. split.
  - intros q Hq Hn. apply Hf; [exact Hn | lia].
  - intros q Hq. assert (q = brk h) by lia. now subst q.
Qed.

Lemma wo_tidy {A} (W : ptr -> Prop) (m : Comp A) : writes_only W m -> tidy W m.
Proof.
  intros Hm h a h' _ E. destruct (Hm _ _ _ E) as (Hb & Hf).
  split; [lia |]. split; [intros q _ Hn; now apply Hf | intros q Hq; lia].
Qed.

Lemma tidy_bind {A B} W (m : Comp A) (k : A -> Comp B) :
  tidy W m -> (forall a, tidy W (k a)) -> tidy W (bind m k).
Proof.
  intros Hm Hk h b h' HW E. apply bind_Done in E as (a & h1 & E1 & E2).
  destruct (Hm _ _ _ HW E1) as (B1 & F1 & R1).
  assert (HW1 : forall q, W q -> (q < brk h1)%nat).
  { intros q Hq. specialize (HW q Hq). lia. }
  destruct (Hk a _ _ _ HW1 E2) as (B2 & F2 & R2).
  split; [lia |]. split.
  - intros q Hq Hn. rewrite F2 by (auto; lia). now apply F1.
  - intros q Hq. destruct (Nat.lt_ge_cases q (brk h1)) as [Hlt | Hge].
    + rewrite F2; [apply R1; lia | exact Hlt |].
      intros Hw. specialize (HW q Hw). lia.
    + apply R2. lia.
Qed.

(** The footprints of the three functions with one scratch buffer. *)
Lemma get_var_mat_scratch var krnpp krnp krn np ns h h' :
  get_var_mat var krnpp krnp krn np ns h = Done tt h' ->
  brk h' = S (brk h) /\ cells h' (brk h) = [] /\
  (forall q, ~ (q = var \/ q = krn) -> q <> brk h -> cells h' q = cells h q).
Proof.
  intros E. unfold get_var_mat in E.
  refine (scratch_footprint (fun q => q = var \/ q = krn) _ _ h tt h' _ _ E);
    cbv beta.
  - wo_lib.
  - rel.
Qed.

Lemma get_var_mat_chd_scratch var krnpp krnp kc np ns h h' :
  get_var_mat_chd var krnpp krnp kc np ns h = Done tt h' ->
  brk h' = S (brk h) /\ cells h' (brk h) = [] /\
  (forall q, ~ (q = var) -> q <> brk h -> cells h' q = cells h q).
Proof.
  intros E. unfold get_var_mat_chd in E.
  refine (scratch_footprint (fun q => q = var) _ _ h tt h' _ _ E); cbv beta.
  - wo_lib.
  - rel.
Qed.

Lemma sample_gp_scratch Z y mn kxx ns seed h h' :
  sample_gp Z y mn kxx ns seed h = Done tt h' ->
  brk h' = S (brk h) /\ cells h' (brk h) = [] /\
  (forall q, ~ (q = y) -> q <> brk h -> cells h' q = cells h q).
Proof.
  intros E. unfold sample_gp in E.
  refine (scratch_footprint (fun q => q = y) _ _ h tt h' _ _ E); cbv beta.
  - wo_lib.
  - rel.
Qed.

Lemma tidy_get_var_mat_chd (W : ptr -> Prop) var krnpp krnp kc np ns :
  W var -> tidy W (get_var_mat_chd var krnpp krnp kc np ns).
Proof.
  intros Hv. apply scratch_tidy. intros h [] h' E.
  destruct (get_var_mat_chd_scratch _ _ _ _ _ _ _ _ E) as (Hb & Hs & Hf).
  split; [exact Hb |]. split; [exact Hs |].
  intros q Hq Hn. apply Hf; [| exact Hn]. intros ->. now apply Hq.
Qed.

Ltac wside :=
  solve [ reflexivity | lia | assumption | congruence
        | split; wside | left; wside | right; wside ].

Ltac tidy_step :=
  first
    [ solve [apply wo_tidy; wo_lib; cbn beta; wside]
    | apply tidy_get_var_mat_chd; cbn beta; wside
    | apply tidy_bind; [| intros ?]
    | match goal with
      | |- tidy _ (match ?c with Some _ => _ | None => _ end) => destruct c
      | |- tidy _ (if ?c then _ else _) => destruct c
      end ].

(** A function that allocates [n] scratch buffers, runs a tidy body and
    releases them. *)
Lemma assemble_footprint {A} (W : ptr -> Prop) (body : Comp A) h hm a h' n :
  brk hm = (brk h + n)%nat ->
  (forall q, (q < brk h)%nat -> cells hm q = cells h q) ->
  (forall q, W q -> (q < brk h)%nat) ->
  tidy (fun q => W q \/ (brk h <= q < brk h + n)%nat) body ->
  (forall q, (brk h <= q < brk h + n)%nat -> releases q body) ->
  body hm = Done a h' ->
  (brk h + n <= brk h')%nat /\
  (forall q, (brk h <= q < brk h')%nat -> cells h' q = []) /\
  (forall q, (q < brk h)%nat -> ~ W q -> cells h' q = cells h q).
Proof.
  intros Hb Hold HW Ht Hrel E.
  destruct (Ht hm a h') as (B & F & R); [| exact E |].
  { intros q [Hq | Hq]; [specialize (HW q Hq) |]; lia. }
  split; [lia |]. split.
  - intros q Hq. destruct (Nat.lt_ge_cases q (brk h + n)) as [Hlt | Hge].
    + apply (Hrel q ltac:(lia) _ _ _ E).
    + apply R. lia.
  - intros q Hq Hn. rewrite F; [now apply Hold | lia |].
    intros [Hw | Hr]; [now apply Hn | lia].
Qed.

Lemma grow_old5 h l1 l2 l3 l4 l5 q :
  (q < brk h)%nat ->
  cells (grow (grow (grow (grow (grow h l1) l2) l3) l4) l5) q = cells h q.
Proof. intros Hq. now ptr_simp. Qed.

Lemma grow_old6 h l1 l2 l3 l4 l5 l6 q :
  (q < brk h)%nat ->
  cells (grow (grow (grow (grow (grow (grow h l1) l2) l3) l4) l5) l6) q = cells h q.
Proof. intros Hq. now ptr_simp. Qed.

(* ================================================================== *)
(** * Footprints of the components *)

Lemma symmetric_1 (a : nat -> nat -> R) : symmetric 1 a.
Proof. intros i j Hi Hj. replace i with O by lia. replace j with O by lia. reflexivity. Qed.

Lemma posdef_1 (a : nat -> nat -> R) : 0 < a O O -> posdef 1 a.
Proof.
  intros Ha x (i & Hi & Hx). replace i with O in Hx by lia. simpl.
  assert (0 < x O * x O) by nra. nra.
Qed.

(** X1. Whenever [get_gpr_weights] returns it has allocated nothing and
    has written to no buffer other than [wt] and [krn_chd]. *)
Theorem get_gpr_weights_footprint :
  forall (wt krn_chd krn : ptr) (ns dim : nat) (y : ptr) (h h' : heap),
    get_gpr_weights wt krn_chd krn ns dim y h = Done tt h' ->
    brk h' = brk h /\
    (forall q, q <> wt -> q <> krn_chd -> cells h' q = cells h q).
Proof.
  intros wt kc krn ns dim y h h' E.
  destruct (wo_get_gpr_weights (fun q => q = wt \/ q = kc) wt kc krn ns dim y
              (or_introl eq_refl) (or_intror eq_refl) _ _ _ E) as (Hb & Hf).
  split; [exact Hb |]. intros q Q1 Q2. apply Hf. tauto.
Qed.

Lemma get_gpr_weights_footprint_witness :
  exists h1,
    get_gpr_weights 0%nat 1%nat 2%nat 1 0 3%nat (heap_of [[0]; [0]; [4]; [6]])
    = Done tt h1 /\
    brk h1 = 4%nat /\ cells h1 2%nat = [4] /\ cells h1 3%nat = [6].
Proof.
  destruct get_gpr_weights_example_run as (h1 & Hr).
  destruct (get_gpr_weights_footprint _ _ _ _ _ _ _ _ Hr) as (Hb & Hf).
  exists h1. split; [exact Hr |]. split; [exact Hb |].
  split; apply Hf; discriminate.
Defined.

(** X2. Whenever [get_var_mat] returns it has released the one scratch
    buffer it allocated, and it has written to no buffer of the caller
    other than [var] and [krn]. *)
Theorem get_var_mat_footprint :
  forall (var krnpp krnp krn : ptr) (np ns : nat) (h h' : heap),
    get_var_mat var krnpp krnp krn np ns h = Done tt h' ->
    brk h' = S (brk h) /\ cells h' (brk h) = [] /\
    (forall q, q <> var -> q <> krn -> q <> brk h -> cells h' q = cells h q).
Proof.
  intros var krnpp krnp krn np ns h h' E.
  destruct (get_var_mat_scratch _ _ _ _ _ _ _ _ E) as (Hb & Hs & Hf).
  split; [exact Hb |]. split; [exact Hs |].
  intros q Q1 Q2 Q3. apply Hf; [tauto | exact Q3].
Qed.

Lemma get_var_mat_example_run :
  exists h', get_var_mat 0%nat 1%nat 2%nat 3%nat 1 1 (heap_of [[0]; [2]; [1]; [1]])
             = Done tt h'.
Proof.
  set (h := heap_of [[0]; [2]; [1]; [1]]).
  pose proof (get_var_mat_run 0%nat 1%nat 2%nat 3%nat 1 1 h) as Hrun.
  cbv zeta in Hrun.
  set (K := jitter 1 1E-7 (cells h 3%nat)) in *.
  assert (EK : K = [1 + eps]) by reflexivity.
  assert (Hpd : posdef 1 (Asym K 1)).
  { apply posdef_1. rewrite EK. unfold Asym, get, eps. simpl. lra. }
  destruct (dpotf2_L_posdef 1 K ltac:(lia) ltac:(rewrite EK; simpl; lia) Hpd)
    as (Hs & _).
  rewrite Hs in Hrun.
  destruct Hrun as (h' & Hr & _); try discriminate; try (simpl; lia).
  exists h'. exact Hr.
Qed.

Lemma get_var_mat_footprint_witness :
  exists h',
    get_var_mat 0%nat 1%nat 2%nat 3%nat 1 1 (heap_of [[0]; [2]; [1]; [1]])
    = Done tt h' /\
    cells h' 4%nat = [] /\ cells h' 1%nat = [2] /\ cells h' 2%nat = [1].
Proof.
  destruct get_var_mat_example_run as (h' & Hr).
  destruct (get_var_mat_footprint _ _ _ _ _ _ _ _ Hr) as (_ & Hs & Hf).
  exists h'. split; [exact Hr |]. split; [exact Hs |].
  split; apply Hf; discriminate.
Defined.

(** X3. Whenever [get_var_mat_chd] returns it has released the one
    scratch buffer it allocated, and it has written to no buffer of the
    caller other than [var]: [krnpp], [krnp] and the factor [krn_chd]
    are read only. *)
Theorem get_var_mat_chd_footprint :
  forall (var krnpp krnp krn_chd : ptr) (np ns : nat) (h h' : heap),
    get_var_mat_chd var krnpp krnp krn_chd np ns h = Done tt h' ->
    brk h' = S (brk h) /\ cells h' (brk h) = [] /\
    (forall q, q <> var -> q <> brk h -> cells h' q = cells h q).
Proof.
  intros var krnpp krnp kc np ns h h' E.
  destruct (get_var_mat_chd_scratch _ _ _ _ _ _ _ _ E) as (Hb & Hs & Hf).
  split; [exact Hb |]. split; [exact Hs |].
  intros q Q1 Q2. apply Hf; [tauto | exact Q2].
Qed.

Lemma get_var_mat_chd_footprint_witness :
  exists h',
    get_var_mat_chd 0%nat 1%nat 2%nat 3%nat 2 1
      (heap_of [[0; 0; 0; 0]; [5; 7; 8; 6]; [1; 1]; [2]]) = Done tt h' /\
    cells h' 4%nat = [] /\ cells h' 1%nat = [5; 7; 8; 6] /\
    cells h' 2%nat = [1; 1] /\ cells h' 3%nat = [2].
Proof.
  assert (Hr : exists h', get_var_mat_chd 0%nat 1%nat 2%nat 3%nat 2 1
                 (heap_of [[0; 0; 0; 0]; [5; 7; 8; 6]; [1; 1]; [2]]) = Done tt h').
  { eexists. vm_compute. reflexivity. }
  destruct Hr as (h' & Hr).
  destruct (get_var_mat_chd_footprint _ _ _ _ _ _ _ _ Hr) as (_ & Hs & Hf).
  exists h'. split; [exact Hr |]. split; [exact Hs |].
  repeat split; apply Hf; discriminate.
Defined.

(** X4. Whenever [sample_gp] returns it has released the one scratch
    buffer it allocated, and it has written to no buffer of the caller
    other than [y]: the covariance [kxx] and the mean are read only. *)
Theorem sample_gp_footprint :
  forall (normal_rnd : nat -> Z -> nat -> R)
         (y : ptr) (mn : option ptr) (kxx : ptr) (ns : nat) (seed : Z) (h h' : heap),
    sample_gp normal_rnd y mn kxx ns seed h = Done tt h' ->
    brk h' = S (brk h) /\ cells h' (brk h) = [] /\
    (forall q, q <> y -> q <> brk h -> cells h' q = cells h q).
Proof.
  intros Z y mn kxx ns seed h h' E.
  destruct (sample_gp_scratch _ _ _ _ _ _ _ _ E) as (Hb & Hs & Hf).
  split; [exact Hb |]. split; [exact Hs |].
  intros q Q1 Q2. apply Hf; [tauto | exact Q2].
Qed.

Lemma sample_gp_example_run (mn : option ptr) :
  mn = None \/ mn = Some 2%nat ->
  exists h', sample_gp (fun _ _ k => 3) 0%nat mn 1%nat 1 42
               (heap_of [[0]; [4 - eps]; [10]]) = Done tt h' /\
             get (cells h' 0%nat) 0
             = 2 * 3 + match mn with Some _ => 10 | None => 0 end.
Proof.
  intros Hmn.
  destruct (sample_gp_run (fun _ _ k => 3) 0%nat mn 1%nat 1 42%Z
              (heap_of [[0]; [4 - eps]; [10]])) as (h' & Hr & _ & HF & Hy);
    try discriminate; try (simpl; lia).
  - intros m Hm. destruct Hmn as [-> | ->]; [discriminate |].
    injection Hm as <-. simpl. repeat split; lia.
  - apply symmetric_1.
  - apply posdef_1. unfold jittered, get, eps. simpl. lra.
  - exists h'. split; [exact Hr |].
    rewrite (Hy O ltac:(lia)). simpl.
    destruct HF as (_ & Hprod & Hpos & _).
    specialize (Hprod O O ltac:(lia) ltac:(lia)).
    specialize (Hpos O ltac:(lia)).
    simpl in Hprod. unfold get at 3 in Hprod. unfold ix in Hprod, Hpos.
    simpl in Hprod, Hpos.
    unfold Lw, ix. simpl.
    match goal with
    | P : 0 < get ?F 0 |- _ => set (f := get F 0) in *
    end.
    assert (EF : f = 2).
    { unfold Blas.dcopy, get, eps in Hprod. simpl in Hprod. nra. }
    rewrite EF. destruct Hmn as [-> | ->]; unfold get; simpl; lra.
Qed.

Lemma sample_gp_footprint_witness :
  exists h',
    sample_gp (fun _ _ k => 3) 0%nat (Some 2%nat) 1%nat 1 42
      (heap_of [[0]; [4 - eps]; [10]]) = Done tt h' /\
    cells h' 3%nat = [] /\ cells h' 1%nat = [4 - eps] /\ cells h' 2%nat = [10].
Proof.
  destruct (sample_gp_example_run (Some 2%nat) (or_intror eq_refl)) as (h' & Hr & _).
  destruct (sample_gp_footprint _ _ _ _ _ _ _ _ Hr) as (_ & Hs & Hf).
  exists h'. split; [exact Hr |]. split; [exact Hs |].
  split; apply Hf; discriminate.
Defined.

(* ================================================================== *)
(** * Footprints of the orchestrators *)

(** X5. Whenever [gpr_interpolate] returns, every buffer it allocated has
    been released, and of the caller's buffers only [yp], [var_yp] when
    it is supplied and [p] when optimization is requested can have
    changed. *)
Theorem gpr_interpolate_footprint :
  forall (krn_se_ard : list R -> list R -> nat -> nat -> nat -> list R -> nat -> nat -> R)
         (hyper_param_ard : list R -> nat -> list R -> list R -> nat -> nat -> list R)
         (xp yp : ptr) (np : nat) (x y : ptr) (ns dim : nat) (p : ptr) (npar : nat)
         (var_yp : option ptr) (is_opt : bool) (h h' : heap),
    (yp < brk h)%nat -> (p < brk h)%nat ->
    (forall v, var_yp = Some v -> (v < brk h)%nat) ->
    gpr_interpolate krn_se_ard hyper_param_ard
      xp yp np x y ns dim p npar var_yp is_opt h = Done tt h' ->
    (brk h + 5 <= brk h')%nat /\
    (forall q, (brk h <= q < brk h')%nat -> cells h' q = []) /\
    (forall q, (q < brk h)%nat -> q <> yp -> var_yp <> Some q ->
       (is_opt = true -> q <> p) -> cells h' q = cells h q).
Proof.
  intros K O xp yp np x y ns dim p npar var_yp is_opt h h' Vy Vp Vv E.
  unfold gpr_interpolate in E.
  do 5 rewrite (bind_run _ _ _ _ _ (malloc_run _ _)) in E.
  rewrite !brk_grow in E.
  match type of E with
  | ?body ?hm = _ =>
      pose proof (assemble_footprint
                    (fun q => q = yp \/ var_yp = Some q \/ (is_opt = true /\ q = p))
                    body h hm tt h' 5) as AF
  end.
  destruct AF as (B & Rl & F).
  - simpl. lia.
  - apply grow_old5.
  - intros q [-> | [Hq | [_ ->]]]; auto.
  - repeat tidy_step.
  - intros q Hq.
    assert (Hc : q = brk h \/ q = S (brk h) \/ q = S (S (brk h)) \/
                 q = S (S (S (brk h))) \/ q = S (S (S (S (brk h))))) by lia.
    destruct Hc as [-> | [-> | [-> | [-> | ->]]]]; rel; cbn beta; wside.
  - exact E.
  - split; [exact B |]. split; [exact Rl |].
  intros q Hq N1 N2 N3. apply F; [exact Hq |].
  intros [-> | [Hs | [Ho ->]]]; [now apply N1 | now apply N2 | now apply N3].
Qed.

(** X6. Whenever [gpr_interpolate_asymm] returns, every buffer it
    allocated has been released, and of the caller's buffers only [yp],
    [var_yp] when it is supplied and [p] when optimization is requested
    can have changed. *)
Theorem gpr_interpolate_asymm_footprint :
  forall (asymm_covar : list R -> list R -> list R -> list R -> nat -> nat -> nat ->
                        list R -> nat -> nat -> R)
         (hyper_param_ard_asymm : list R -> nat -> list R -> list R -> list R ->
                                  nat -> nat -> list R)
         (xp axp yp : ptr) (np : nat) (x ax y : ptr) (ns dim : nat) (p : ptr)
         (npar : nat) (var_yp : option ptr) (is_opt : bool) (h h' : heap),
    (yp < brk h)%nat -> (p < brk h)%nat ->
    (forall v, var_yp = Some v -> (v < brk h)%nat) ->
    gpr_interpolate_asymm asymm_covar hyper_param_ard_asymm
      xp axp yp np x ax y ns dim p npar var_yp is_opt h = Done tt h' ->
    (brk h + 5 <= brk h')%nat /\
    (forall q, (brk h <= q < brk h')%nat -> cells h' q = []) /\
    (forall q, (q < brk h)%nat -> q <> yp -> var_yp <> Some q ->
       (is_opt = true -> q <> p) -> cells h' q = cells h q).
Proof.
  intros K O xp axp yp np x ax y ns dim p npar var_yp is_opt h h' Vy Vp Vv E.
  unfold gpr_interpolate_asymm in E.
  do 5 rewrite (bind_run _ _ _ _ _ (malloc_run _ _)) in E.
  rewrite !brk_grow in E.
  match type of E with
  | ?body ?hm = _ =>
      pose proof (assemble_footprint
                    (fun q => q = yp \/ var_yp = Some q \/ (is_opt = true /\ q = p))
                    body h hm tt h' 5) as AF
  end.
  destruct AF as (B & Rl & F).
  - simpl. lia.
  - apply grow_old5.
  - intros q [-> | [Hq | [_ ->]]]; auto.
  - repeat tidy_step.
  - intros q Hq.
    assert (Hc : q = brk h \/ q = S (brk h) \/ q = S (S (brk h)) \/
                 q = S (S (S (brk h))) \/ q = S (S (S (S (brk h))))) by lia.
    destruct Hc as [-> | [-> | [-> | [-> | ->]]]]; rel; cbn beta; wside.
  - exact E.
  - split; [exact B |]. split; [exact Rl |].
    intros q Hq N1 N2 N3. apply F; [exact Hq |].
    intros [-> | [Hs | [Ho ->]]]; [now apply N1 | now apply N2 | now apply N3].
Qed.

(** X7. Whenever [gpr_interpolate_mean] returns, every buffer it
    allocated has been released, and of the caller's buffers only [yp],
    [var_yp] when it is supplied and [p] when optimization is requested
    can have changed: the means [y_mn] and [yp_mn] and the data [x], [y],
    [xp] are read only. *)
Theorem gpr_interpolate_mean_footprint :
  forall (krn_se_ard : list R -> list R -> nat -> nat -> nat -> list R -> nat -> nat -> R)
         (hyper_param_ard : list R -> nat -> list R -> list R -> nat -> nat -> list R)
         (xp yp yp_mn : ptr) (np : nat) (x y y_mn : ptr) (ns dim : nat) (p : ptr)
         (npar : nat) (var_yp : option ptr) (is_opt : bool) (h h' : heap),
    (yp < brk h)%nat -> (p < brk h)%nat ->
    (forall v, var_yp = Some v -> (v < brk h)%nat) ->
    gpr_interpolate_mean krn_se_ard hyper_param_ard
      xp yp yp_mn np x y y_mn ns dim p npar var_yp is_opt h = Done tt h' ->
    (brk h + 6 <= brk h')%nat /\
    (forall q, (brk h <= q < brk h')%nat -> cells h' q = []) /\
    (forall q, (q < brk h)%nat -> q <> yp -> var_yp <> Some q ->
       (is_opt = true -> q <> p) -> cells h' q = cells h q).
Proof.
  intros K O xp yp yp_mn np x y y_mn ns dim p npar var_yp is_opt h h' Vy Vp Vv E.
  unfold gpr_interpolate_mean in E.
  do 6 rewrite (bind_run _ _ _ _ _ (malloc_run _ _)) in E.
  rewrite !brk_grow in E. cbv zeta in E.
  match type of E with
  | ?body ?hm = _ =>
      pose proof (assemble_footprint
                    (fun q => q = yp \/ var_yp = Some q \/ (is_opt = true /\ q = p))
                    body h hm tt h' 6) as AF
  end.
  destruct AF as (B & Rl & F).
  - simpl. lia.
  - apply grow_old6.
  - intros q [-> | [Hq | [_ ->]]]; auto.
  - repeat tidy_step.
  - intros q Hq.
    assert (Hc : q = brk h \/ q = S (brk h) \/ q = S (S (brk h)) \/
                 q = S (S (S (brk h))) \/ q = S (S (S (S (brk h)))) \/
                 q = S (S (S (S (S (brk h)))))) by lia.
    destruct Hc as [-> | [-> | [-> | [-> | [-> | ->]]]]]; rel; cbn beta; wside.
  - exact E.
  - split; [exact B |]. split; [exact Rl |].
    intros q Hq N1 N2 N3. apply F; [exact Hq |].
    intros [-> | [Hs | [Ho ->]]]; [now apply N1 | now apply N2 | now apply N3].
Qed.

(* ================================================================== *)
(** * In exact arithmetic the factorization succeeds exactly on positive
      definite input *)

Lemma Rsum_nonneg_zero n f :
  (forall i, (i < n)%nat -> 0 <= f i) -> Rsum n f <= 0 ->
  forall i, (i < n)%nat -> f i = 0.
Proof.
  induction n; intros Hf Hs i Hi; [lia |]. simpl in Hs.
  assert (H1 : 0 <= Rsum n f) by (apply Rsum_nonneg; intros; apply Hf; lia).
  assert (H2 : 0 <= f n) by (apply Hf; lia).
  destruct (Nat.eq_dec i n) as [-> | Hne]; [lra |].
  apply IHn; [intros; apply Hf; lia | lra | lia].
Qed.

(** Back substitution: a triangular system with a non-zero diagonal has
    only the trivial solution for a zero right-hand side. *)
Lemma tri_back_unique n (T : nat -> nat -> R) (x : nat -> R) :
  (forall i k, (i < k)%nat -> T i k = 0) ->
  (forall i, (i < n)%nat -> T i i <> 0) ->
  (forall k, (k < n)%nat -> Rsum n (fun i => T i k * x i) = 0) ->
  forall i, (i < n)%nat -> x i = 0.
Proof.
  intros Hup Hd Heq.
  assert (H : forall m, (m <= n)%nat -> forall i, (n - m <= i < n)%nat -> x i = 0).
  { induction m; intros Hm i Hi; [lia |].
    destruct (Nat.eq_dec i (n - S m)) as [-> | Hne]; [| apply IHm; lia].
    set (k := (n - S m)%nat) in *.
    specialize (Heq k ltac:(lia)).
    rewrite (Rsum_single n _ k) in Heq; [| lia |].
    - apply Rmult_integral in Heq. destruct Heq as [E | E]; [| exact E].
      exfalso. apply (Hd k); [lia | exact E].
    - intros i Hi' Hik. destruct (Nat.lt_ge_cases i k).
      + rewrite Hup by lia. ring.
      + rewrite (IHm ltac:(lia) i) by lia. ring. }
  intros i Hi. apply (H n); lia.
Qed.

Lemma chol_posdef n (a L : nat -> nat -> R) :
  (forall i k, (i < k)%nat -> L i k = 0) ->
  (forall i, (i < n)%nat -> L i i <> 0) ->
  (forall i j, (i < n)%nat -> (j < n)%nat -> Rsum n (fun k => L i k * L j k) = a i j) ->
  posdef n a.
Proof.
  intros Hup Hd Hprod x Hx.
  set (s := fun k => Rsum n (fun i => L i k * x i)).
  assert (HQ : Rsum n (fun i => Rsum n (fun j => x i * a i j * x j))
               = Rsum n (fun k => s k * s k)).
  { transitivity (Rsum n (fun i => Rsum n (fun k => (L i k * x i) * s k))).
    - apply Rsum_ext. intros i Hi.
      transitivity (Rsum n (fun j => Rsum n (fun k => (L i k * x i) * (L j k * x j)))).
      + apply Rsum_ext. intros j Hj. rewrite <- (Hprod i j Hi Hj).
        rewrite <- Rsum_scal_l, <- Rsum_scal_r.
        apply Rsum_ext. intros k _. ring.
      + rewrite Rsum_swap. apply Rsum_ext. intros k _.
        unfold s. now rewrite Rsum_scal_l.
    - rewrite Rsum_swap. apply Rsum_ext. intros k _.
      rewrite Rsum_scal_r. reflexivity. }
  rewrite HQ.
  destruct (Rlt_le_dec 0 (Rsum n (fun k => s k * s k))) as [Hlt | Hle];
    [exact Hlt | exfalso].
  assert (Hz : forall k, (k < n)%nat -> s k = 0).
  { intros k Hk.
    pose proof (Rsum_nonneg_zero n (fun k => s k * s k)
                  (fun i _ => Rle_0_sqr (s i)) Hle k Hk) as E.
    simpl in E. nra. }
  destruct Hx as (i & Hi & Hxi). apply Hxi.
  apply (tri_back_unique n L x Hup Hd Hz i Hi).
Qed.

Lemma factored_posdef n K F :
  (n * n <= length K)%nat -> factored n n n K F -> posdef n (Asym K n).
Proof.
  intros Hl HF. apply (chol_posdef n (Asym K n) (Lw F n)).
  - intros i k Hik. now apply Lw_upper.
  - intros i Hi. rewrite Lw_diag. apply Rgt_not_eq. apply HF; auto.
  - intros i j Hi Hj. now apply factored_product.
Qed.

(** The status of the factorization: zero exactly on positive definite
    input. *)
Lemma dpotf2_L_status n K :
  (0 < n)%nat -> (n * n <= length K)%nat ->
  (snd (Blas.dpotf2_L n K n) = O <-> posdef n (Asym K n)).
Proof.
  intros Hn Hl. split.
  - intros Hs. apply (factored_posdef n K (fst (Blas.dpotf2_L n K n)) Hl).
    now apply dpotf2_L_factored.
  - intros Hpd. now apply dpotf2_L_posdef.
Qed.

Lemma not_posdef_1 (a : nat -> nat -> R) : a O O <= 0 -> ~ posdef 1 a.
Proof.
  intros Ha Hpd.
  specialize (Hpd (fun _ => 1) (ex_intro _ O (conj Nat.lt_0_1 R1_neq_R0))).
  simpl in Hpd. lra.
Qed.

(** X8. In exact arithmetic (the doubles read as real numbers): for a
    symmetric [krn] on valid buffers, [get_gpr_weights] returns exactly
    when [krn + eps I] is positive definite; when it is not, the call
    ends with the failed assertion.  With rounding neither direction
    need hold: the run in binary64 arithmetic above stops on a matrix
    that is positive definite over the reals. *)
Theorem get_gpr_weights_returns_iff_posdef :
  forall (wt krn_chd krn : ptr) (ns dim : nat) (y : ptr) (h : heap),
    krn <> krn_chd -> y <> krn_chd -> y <> wt -> wt <> krn_chd ->
    (0 < ns)%nat -> (Z.of_nat ns < 2147483648)%Z ->
    (ns * ns <= length (cells h krn))%nat ->
    (ns * ns <= length (cells h krn_chd))%nat ->
    (ns <= length (cells h y))%nat -> (ns <= length (cells h wt))%nat ->
    symmetric ns (rowmajor (cells h krn) ns) ->
    ((exists h', get_gpr_weights wt krn_chd krn ns dim y h = Done tt h')
     <-> posdef ns (jittered ns eps (cells h krn))) /\
    (~ posdef ns (jittered ns eps (cells h krn)) ->
     get_gpr_weights wt krn_chd krn ns dim y h = Fatal AssertFailed).
Proof.
  intros wt kc krn ns dim y h N1 N2 N3 N4 Hns Hint L1 L2 L3 L4 Hsym.
  rewrite (get_gpr_weights_run wt kc krn ns dim y h) by assumption.
  cbv zeta. fold eps.
  set (K := jitter ns eps (Blas.dcopy (ns * ns) (cells h krn) (cells h kc))).
  assert (LK : (ns * ns <= length K)%nat).
  { unfold K. now rewrite length_jitter, length_dcopy. }
  assert (HA : forall i j, (i < ns)%nat -> (j < ns)%nat ->
             Asym K ns i j = jittered ns eps (cells h krn) i j).
  { intros i j Hi Hj. now apply Asym_jitter. }
  assert (Hiff : snd (Blas.dpotf2_L ns K ns) = O
                 <-> posdef ns (jittered ns eps (cells h krn))).
  { rewrite (dpotf2_L_status ns K Hns LK). split; apply posdef_ext; auto.
    intros i j Hi Hj. symmetry. now apply HA. }
  destruct (snd (Blas.dpotf2_L ns K ns)) as [| j].
  - split.
    + split; [intros _; now apply Hiff | intros _; eexists; reflexivity].
    + intros Hn. exfalso. apply Hn. now apply Hiff.
  - split; [| reflexivity].
    split; [intros (h' & E); discriminate |].
    intros Hpd. apply Hiff in Hpd. discriminate.
Qed.

Lemma get_gpr_weights_returns_iff_posdef_witness :
  get_gpr_weights 0%nat 1%nat 2%nat 1 0 3%nat (heap_of [[0]; [0]; [-1]; [6]])
  = Fatal AssertFailed.
Proof.
  apply (get_gpr_weights_returns_iff_posdef 0%nat 1%nat 2%nat 1 0%nat 3%nat
           (heap_of [[0]; [0]; [-1]; [6]]));
    try discriminate; try (simpl; lia).
  - apply symmetric_1.
  - apply not_posdef_1. unfold jittered, get, eps. simpl. lra.
Defined.

(** X9. In exact arithmetic (the doubles read as real numbers): for a
    symmetric [krn] on valid buffers, [get_var_mat] returns exactly when
    [krn + eps I] is positive definite; when it is not, the call ends
    with the failed assertion.  With rounding neither direction need
    hold. *)
Theorem get_var_mat_returns_iff_posdef :
  forall (var krnpp krnp krn : ptr) (np ns : nat) (h : heap),
    (var < brk h)%nat -> (krnpp < brk h)%nat -> (krnp < brk h)%nat ->
    (krn < brk h)%nat ->
    var <> krnpp -> var <> krnp -> var <> krn -> krn <> krnp -> krn <> krnpp ->
    (0 < ns)%nat -> (0 < np)%nat ->
    (Z.of_nat ns < 2147483648)%Z -> (Z.of_nat np < 2147483648)%Z ->
    (ns * ns <= length (cells h krn))%nat -> (ns * np <= length (cells h krnp))%nat ->
    (np * np <= length (cells h krnpp))%nat -> (np * np <= length (cells h var))%nat ->
    symmetric ns (rowmajor (cells h krn) ns) ->
    ((exists h', get_var_mat var krnpp krnp krn np ns h = Done tt h')
     <-> posdef ns (jittered ns eps (cells h krn))) /\
    (~ posdef ns (jittered ns eps (cells h krn)) ->
     get_var_mat var krnpp krnp krn np ns h = Fatal AssertFailed).
Proof.
  intros var krnpp krnp krn np ns h V1 V2 V3 V4 N1 N2 N3 N4 N5 Hns Hnp Ins Inp
         L1 L2 L3 L4 Hsym.
  pose proof (get_var_mat_run var krnpp krnp krn np ns h
                V1 V2 V3 V4 N1 N2 N3 N4 N5 Hns Hnp Ins Inp L1 L2 L3 L4) as R1.
  cbv zeta in R1. fold eps in R1.
  set (K := jitter ns eps (cells h krn)) in *.
  assert (LK : (ns * ns <= length K)%nat) by (unfold K; now rewrite length_jitter).
  assert (Hiff : snd (Blas.dpotf2_L ns K ns) = O
                 <-> posdef ns (jittered ns eps (cells h krn))).
  { rewrite (dpotf2_L_status ns K Hns LK). split; apply posdef_ext; auto.
    - intros i j Hi Hj. now apply Asym_jitter0.
    - intros i j Hi Hj. symmetry. now apply Asym_jitter0. }
  destruct (snd (Blas.dpotf2_L ns K ns)) as [| j].
  - destruct R1 as (h' & Hr & _). split.
    + split; [intros _; now apply Hiff | intros _; now exists h'].
    + intros Hn. exfalso. apply Hn. now apply Hiff.
  - split; [| intros _; exact R1].
    split; [intros (h' & E); rewrite R1 in E; discriminate |].
    intros Hpd. apply Hiff in Hpd. discriminate.
Qed.

Lemma get_var_mat_returns_iff_posdef_witness :
  get_var_mat 0%nat 1%nat 2%nat 3%nat 1 1 (heap_of [[0]; [2]; [1]; [-1]])
  = Fatal AssertFailed.
Proof.
  apply (get_var_mat_returns_iff_posdef 0%nat 1%nat 2%nat 3%nat 1 1
           (heap_of [[0]; [2]; [1]; [-1]]));
    try discriminate; try (simpl; lia).
  - apply symmetric_1.
  - apply not_posdef_1. unfold jittered, get, eps. simpl. lra.
Defined.

(** The sampler stops at its assertion when the factorization fails. *)
Lemma sample_gp_not_posdef Z y mn kxx ns seed h :
  (y < brk h)%nat -> (kxx < brk h)%nat -> y <> kxx ->
  (0 < ns)%nat -> (Z.of_nat (ns * ns) < 2147483648)%Z ->
  (ns * ns <= length (cells h kxx))%nat ->
  snd (Blas.dpotf2_L ns
         (jitter ns eps (Blas.dcopy (ns * ns) (cells h kxx) (repeat 0 (ns * ns))))
         ns) <> O ->
  sample_gp Z y mn kxx ns seed h = Fatal AssertFailed.
Proof.
  intros V1 V2 N1 Hns Hint L1 HnK.
  assert (Hint' : (Z.of_nat ns < 2147483648)%Z) by nia.
  unfold sample_gp.
  rewrite (bind_run _ _ _ _ _ (malloc_run (ns * ns) h)).
  set (h0 := grow h (repeat 0 (ns * ns))).
  assert (C0 : forall q, (q < brk h)%nat -> cells h0 q = cells h q).
  { intros q Hq. apply cells_grow_neq. lia. }
  assert (C0V : cells h0 (brk h) = repeat 0 (ns * ns)) by apply cells_grow_eq.
  remember (brk h) as V eqn:EV.
  assert (NV1 : y <> V) by lia. assert (NV2 : kxx <> V) by lia.
  cbv zeta. rewrite !to_int_small by assumption.
  rewrite (bind_run _ _ _ _ _ (dcopy_run (ns * ns) kxx V h0
             ltac:(rewrite C0 by auto; exact L1)
             ltac:(rewrite C0V, repeat_length; lia))).
  rewrite (C0 kxx), C0V by auto.
  set (K0 := Blas.dcopy (ns * ns) (cells h kxx) (repeat 0 (ns * ns))).
  set (h1 := poke h0 V K0).
  assert (LK0 : length K0 = (ns * ns)%nat).
  { unfold K0. now rewrite length_dcopy, repeat_length. }
  rewrite (bind_run _ _ _ _ _ (jitter_loop_run V ns 1E-7 h1
             ltac:(unfold h1; rewrite cells_poke_eq; lia))).
  replace (cells h1 V) with K0 by (unfold h1; now cells_simp).
  fold eps. set (K := jitter ns eps K0). set (h2 := poke h1 V K).
  assert (LK : (ns * ns <= length K)%nat) by (unfold K; rewrite length_jitter; lia).
  fold K0 K in HnK.
  rewrite (bind_run _ _ _ _ _ (dpotrf_L_run ns V h2 Hns
             ltac:(unfold h2; rewrite cells_poke_eq; exact LK))).
  replace (cells h2 V) with K by (unfold h2; now cells_simp).
  destruct (snd (Blas.dpotf2_L ns K ns)) as [| j]; [congruence |].
  unfold bind.
  destruct (Z.eqb_spec (Z.of_nat (S j)) 0); [lia | reflexivity].
Qed.

(** X10. In exact arithmetic (the doubles read as real numbers) and
    while [ns * ns] fits an [int]: for a symmetric covariance on valid
    buffers, [sample_gp] returns exactly when [kxx + eps I] is positive
    definite; when it is not, the call ends with the failed assertion.
    With rounding neither direction need hold. *)
Theorem sample_gp_returns_iff_posdef :
  forall (normal_rnd : nat -> Z -> nat -> R)
         (y : ptr) (mn : option ptr) (kxx : ptr) (ns : nat) (seed : Z) (h : heap),
    (y < brk h)%nat -> (kxx < brk h)%nat -> y <> kxx ->
    (forall m, mn = Some m ->
       (m < brk h)%nat /\ m <> y /\ (ns <= length (cells h m))%nat) ->
    (0 < ns)%nat -> (Z.of_nat (ns * ns) < 2147483648)%Z ->
    (ns * ns <= length (cells h kxx))%nat -> (ns <= length (cells h y))%nat ->
    symmetric ns (rowmajor (cells h kxx) ns) ->
    ((exists h', sample_gp normal_rnd y mn kxx ns seed h = Done tt h')
     <-> posdef ns (jittered ns eps (cells h kxx))) /\
    (~ posdef ns (jittered ns eps (cells h kxx)) ->
     sample_gp normal_rnd y mn kxx ns seed h = Fatal AssertFailed).
Proof.
  intros Z y mn kxx ns seed h V1 V2 N1 Hmn Hns Hint L1 L2 Hsym.
  set (K := jitter ns eps (Blas.dcopy (ns * ns) (cells h kxx) (repeat 0 (ns * ns)))).
  assert (LK : (ns * ns <= length K)%nat).
  { unfold K. rewrite length_jitter, length_dcopy, repeat_length. lia. }
  assert (Hiff : snd (Blas.dpotf2_L ns K ns) = O
                 <-> posdef ns (jittered ns eps (cells h kxx))).
  { rewrite (dpotf2_L_status ns K Hns LK). split; apply posdef_ext; auto.
    - intros i j Hi Hj. apply Asym_jitter; auto. rewrite repeat_length; lia.
    - intros i j Hi Hj. symmetry. apply Asym_jitter; auto.
      rewrite repeat_length; lia. }
  assert (Hok : posdef ns (jittered ns eps (cells h kxx)) ->
                exists h', sample_gp Z y mn kxx ns seed h = Done tt h').
  { intros Hpd.
    destruct (sample_gp_run Z y mn kxx ns seed h V1 V2 N1 Hmn Hns Hint L1 L2 Hsym Hpd)
      as (h' & Hr & _).
    now exists h'. }
  destruct (Nat.eq_dec (snd (Blas.dpotf2_L ns K ns)) O) as [Hs | Hs].
  - apply Hiff in Hs. split; [split; [intros _; exact Hs | exact Hok] |].
    intros Hn. now exfalso.
  - assert (Hfail : sample_gp Z y mn kxx ns seed h = Fatal AssertFailed)
      by now apply sample_gp_not_posdef.
    split; [| intros _; exact Hfail].
    split; [intros (h' & E); rewrite Hfail in E; discriminate |].
    intros Hpd. exfalso. apply Hs. now apply Hiff.
Qed.

Lemma sample_gp_returns_iff_posdef_witness :
  sample_gp (fun _ _ _ => 3) 0%nat None 1%nat 1 42 (heap_of [[0]; [-1]])
  = Fatal AssertFailed.
Proof.
  apply (sample_gp_returns_iff_posdef (fun _ _ _ => 3) 0%nat None 1%nat 1 42%Z
           (heap_of [[0]; [-1]]));
    try discriminate; try (simpl; lia).
  - apply symmetric_1.
  - apply not_posdef_1. unfold jittered, get, eps. simpl. lra.
Defined.

(* ================================================================== *)
(** * The linear solve: what is left in the buffers *)

(** The buffers [get_gpr_weights] leaves behind, in terms of the BLAS
    cores. *)
Lemma get_gpr_weights_result wt kc krn ns dim y h :
  krn <> kc -> y <> kc -> y <> wt -> wt <> kc ->
  (0 < ns)%nat -> (Z.of_nat ns < 2147483648)%Z ->
  (ns * ns <= length (cells h krn))%nat -> (ns * ns <= length (cells h kc))%nat ->
  (ns <= length (cells h y))%nat -> (ns <= length (cells h wt))%nat ->
  symmetric ns (rowmajor (cells h krn) ns) ->
  posdef ns (jittered ns eps (cells h krn)) ->
  let K := jitter ns eps (Blas.dcopy (ns * ns) (cells h krn) (cells h kc)) in
  let b := Blas.dcopy ns (cells h y) (cells h wt) in
  let F := fst (Blas.dpotf2_L ns K ns) in
  let W := Blas.dtrsm_LLTN ns 1 1 F ns (Blas.dtrsm_LLNN ns 1 1 F ns b ns) ns in
  factored ns ns ns K F /\
  get_gpr_weights wt kc krn ns dim y h = Done tt (poke (poke h kc F) wt W).
Proof.
  intros N1 N2 N3 N4 Hns Hint L1 L2 L3 L4 Hsym Hpd K b F W.
  rewrite (get_gpr_weights_run wt kc krn ns dim y h) by assumption.
  cbv zeta. fold eps. fold K b F W.
  assert (LK : (ns * ns <= length K)%nat).
  { unfold K. now rewrite length_jitter, length_dcopy. }
  assert (HpdK : posdef ns (Asym K ns)).
  { apply (posdef_ext ns (jittered ns eps (cells h krn))); auto.
    intros i j Hi Hj. symmetry. now apply Asym_jitter. }
  destruct (dpotf2_L_posdef ns K Hns LK HpdK) as (Hs & HF).
  rewrite Hs. split; [exact HF | reflexivity].
Qed.

Lemma upper_cell_free ns i j :
  (i < j)%nat -> (j < ns)%nat ->
  forall c i', (c < ns)%nat -> (c <= i' < ns)%nat -> (j * ns + i)%nat <> ix ns i' c.
Proof.
  intros Hij Hj c i' Hc Hi' E. unfold ix in E.
  rewrite (Nat.add_comm i') in E.
  destruct (cell_inj ns i j i' c ltac:(lia) ltac:(lia) E). lia.
Qed.

Lemma outside_cell_free ns t :
  (ns * ns <= t)%nat ->
  forall c i', (c < ns)%nat -> (c <= i' < ns)%nat -> t <> ix ns i' c.
Proof. intros Ht c i' Hc Hi' E. unfold ix in E. nia. Qed.

(** X11. After [get_gpr_weights] on a symmetric kernel that is positive
    definite after the jitter, [krn_chd] is not a clean triangular
    matrix: besides the factor it still holds, at the offsets
    [j*ns + i] with [i < j], the entries copied from [krn]; the cells of
    [krn_chd] from [ns*ns] on and the cells of [wt] from [ns] on are
    not written. *)
Theorem get_gpr_weights_layout :
  forall (wt krn_chd krn : ptr) (ns dim : nat) (y : ptr) (h : heap),
    krn <> krn_chd -> y <> krn_chd -> y <> wt -> wt <> krn_chd ->
    (0 < ns)%nat -> (Z.of_nat ns < 2147483648)%Z ->
    (ns * ns <= length (cells h krn))%nat ->
    (ns * ns <= length (cells h krn_chd))%nat ->
    (ns <= length (cells h y))%nat -> (ns <= length (cells h wt))%nat ->
    symmetric ns (rowmajor (cells h krn) ns) ->
    posdef ns (jittered ns eps (cells h krn)) ->
    exists h',
      get_gpr_weights wt krn_chd krn ns dim y h = Done tt h' /\
      (forall i j, (i < j)%nat -> (j < ns)%nat ->
         get (cells h' krn_chd) (j * ns + i) = get (cells h krn) (j * ns + i)) /\
      (forall i, (i < ns)%nat -> 0 < get (cells h' krn_chd) (i * ns + i)) /\
      (forall t, (ns * ns <= t)%nat ->
         get (cells h' krn_chd) t = get (cells h krn_chd) t) /\
      (forall t, (ns <= t)%nat -> get (cells h' wt) t = get (cells h wt) t) /\
      length (cells h' krn_chd) = length (cells h krn_chd) /\
      length (cells h' wt) = length (cells h wt).
Proof.
  intros wt kc krn ns dim y h N1 N2 N3 N4 Hns Hint L1 L2 L3 L4 Hsym Hpd.
  destruct (get_gpr_weights_result wt kc krn ns dim y h
              N1 N2 N3 N4 Hns Hint L1 L2 L3 L4 Hsym Hpd) as (HF & Hr).
  cbv zeta in HF, Hr.
  set (K0 := Blas.dcopy (ns * ns) (cells h krn) (cells h kc)) in *.
  set (K := jitter ns eps K0) in *.
  set (b := Blas.dcopy ns (cells h y) (cells h wt)) in *.
  set (F := fst (Blas.dpotf2_L ns K ns)) in *.
  set (Z := Blas.dtrsm_LLNN ns 1 1 F ns b ns) in *.
  set (W := Blas.dtrsm_LLTN ns 1 1 F ns Z ns) in *.
  assert (LK0 : (ns * ns <= length K0)%nat) by (unfold K0; now rewrite length_dcopy).
  destruct HF as (LF & _ & Hpos & Hout).
  assert (Hdiag : forall k, (k < ns)%nat -> get F (ix ns k k) <> 0).
  { intros k Hk. apply Rgt_not_eq. now apply Hpos. }
  assert (Lb : length b = length (cells h wt)) by apply length_dcopy.
  assert (Hm1 : matlen ns 1 ns = ns) by (rewrite matlen_rect; lia).
  destruct (dtrsm_LLNN_spec ns 1 F ns ns (Nat.le_refl ns) Hdiag 1 b) as (LZ & FZ & _).
  { rewrite Hm1, Lb. exact L4. }
  destruct (dtrsm_LLTN_spec ns 1 F ns ns (Nat.le_refl ns) Hdiag 1 Z) as (LW & FW & _).
  { rewrite Hm1. fold Z in LZ. rewrite LZ, Lb. exact L4. }
  fold Z in LZ, FZ. fold W in LW, FW.
  assert (Hcol : forall t, (ns <= t)%nat ->
             forall c, (c < 1)%nat -> ~ in_col ns ns c t).
  { intros t Ht c Hc (i & Hi & E). unfold ix in E. nia. }
  exists (poke (poke h kc F) wt W). split; [exact Hr |].
  rewrite cells_poke_eq, cells_poke_neq, cells_poke_eq by congruence.
  repeat split.
  - intros i j Hij Hj.
    rewrite (Hout (j * ns + i)%nat) by (apply upper_cell_free; lia).
    unfold K. rewrite get_jitter by (auto; lia). unfold jittered.
    destruct (Nat.eqb_spec j i); [lia |]. rewrite Rplus_0_r.
    unfold K0. rewrite get_dcopy by exact L2.
    assert ((j * ns + i < ns * ns)%nat) by (apply cell_lt; lia).
    destruct (Nat.ltb_spec (j * ns + i) (ns * ns)); [reflexivity | lia].
  - intros i Hi. specialize (Hpos i Hi). unfold ix in Hpos.
    now rewrite Nat.add_comm.
  - intros t Ht. rewrite (Hout t) by (now apply outside_cell_free).
    unfold K. rewrite get_jitter_outside by exact Ht.
    unfold K0. rewrite get_dcopy by exact L2.
    destruct (Nat.ltb_spec t (ns * ns)); [lia | reflexivity].
  - intros t Ht. rewrite FW by (now apply Hcol). rewrite FZ by (now apply Hcol).
    unfold b. rewrite get_dcopy by exact L4.
    destruct (Nat.ltb_spec t ns); [lia | reflexivity].
  - rewrite LF. unfold K. rewrite length_jitter. unfold K0. apply length_dcopy.
  - now rewrite LW, LZ.
Qed.

Lemma posdef_2_example e :
  0 < e -> posdef 2 (jittered 2 e [2; 1; 1; 2]).
Proof.
  intros He x (i & Hi & Hx). unfold jittered, get. simpl.
  assert (x 0%nat <> 0 \/ x 1%nat <> 0).
  { destruct i as [| [| i]]; [now left | now right | lia]. }
  assert (H1 : 0 < x 0%nat * x 0%nat + x 1%nat * x 1%nat) by nra.
  assert (H2 : 0 <= (x 0%nat + x 1%nat) * (x 0%nat + x 1%nat)) by apply Rle_0_sqr.
  assert (H3 : 0 < e * (x 0%nat * x 0%nat + x 1%nat * x 1%nat))
    by now apply Rmult_lt_0_compat.
  nra.
Qed.

Lemma symmetric_2_example : symmetric 2 (rowmajor [2; 1; 1; 2] 2).
Proof.
  intros i j Hi Hj. unfold rowmajor, get.
  destruct i as [| [| i]]; destruct j as [| [| j]]; simpl; try lia; reflexivity.
Qed.

Lemma get_gpr_weights_layout_witness :
  exists h',
    get_gpr_weights 0%nat 1%nat 2%nat 2 7 3%nat
      (heap_of [[0; 0; 9]; [0; 0; 0; 0; 8]; [2; 1; 1; 2]; [3; 3]]) = Done tt h' /\
    get (cells h' 1%nat) 2 = 1 /\ get (cells h' 1%nat) 4 = 8 /\
    get (cells h' 0%nat) 2 = 9.
Proof.
  destruct (get_gpr_weights_layout 0%nat 1%nat 2%nat 2 7 3%nat
              (heap_of [[0; 0; 9]; [0; 0; 0; 0; 8]; [2; 1; 1; 2]; [3; 3]]))
    as (h' & Hr & Hup & _ & Hk & Hw & _);
    try discriminate; try (simpl; lia).
  - apply symmetric_2_example.
  - apply posdef_2_example. apply eps_pos.
  - exists h'. split; [exact Hr |]. split; [| split].
    + apply (Hup 0%nat 1%nat); lia.
    + apply (Hk 4%nat). lia.
    + apply (Hw 2%nat). lia.
Defined.

(* ================================================================== *)
(** * The predictive mean *)



Lemma Rsum_delta n i (e : R) (w : nat -> R) :
  (i < n)%nat ->
  Rsum n (fun j => (if Nat.eqb i j then e else 0) * w j) = e * w i.
Proof.
  intros Hi. rewrite (Rsum_single n _ i Hi).
  - now rewrite Nat.eqb_refl.
  - intros j _ Hj. destruct (Nat.eqb_spec i j); [congruence | ring].
Qed.

(** X13. Predicting at the training points reproduces the targets up to
    the jitter: after [get_gpr_weights] on [krn] and [y], [gpr_predict]
    with [krn] itself as the cross kernel gives
    [yp[i] = y[i] - eps * wt[i]]. *)
Theorem gpr_predict_at_training_points :
  forall (wt krn_chd krn : ptr) (ns dim : nat) (y yp : ptr) (h : heap),
    krn <> krn_chd -> krn <> wt -> y <> krn_chd -> y <> wt -> wt <> krn_chd ->
    yp <> wt -> yp <> krn -> yp <> krn_chd ->
    (0 < ns)%nat -> (Z.of_nat ns < 2147483648)%Z ->
    (ns * ns <= length (cells h krn))%nat ->
    (ns * ns <= length (cells h krn_chd))%nat ->
    (ns <= length (cells h y))%nat -> (ns <= length (cells h wt))%nat ->
    (ns <= length (cells h yp))%nat ->
    symmetric ns (rowmajor (cells h krn) ns) ->
    posdef ns (jittered ns eps (cells h krn)) ->
    exists h1 h2,
      get_gpr_weights wt krn_chd krn ns dim y h = Done tt h1 /\
      gpr_predict yp wt krn ns ns h1 = Done tt h2 /\
      (forall i, (i < ns)%nat ->
         get (cells h2 yp) i = get (cells h y) i - eps * get (cells h1 wt) i).
Proof.
  intros wt kc krn ns dim y yp h N1 N5 N2 N3 N4 N6 N7 N8 Hns Hint L1 L2 L3 L4 L5
         Hsym Hpd.
  destruct (get_gpr_weights_core wt kc krn ns dim y h)
    as (h1 & E1 & F1 & _ & W1 & _ & S1 & _); auto.
  exists h1. eexists. split; [exact E1 |]. split.
  - apply gpr_predict_run; auto.
    + now rewrite (F1 krn N5 N1).
    + now rewrite W1.
    + now rewrite (F1 yp N6 N8).
  - intros i Hi. rewrite cells_poke_eq. rewrite get_dgemv_T; auto.
    2: now rewrite (F1 yp N6 N8).
    rewrite (F1 krn N5 N1). rewrite <- (S1 i Hi).
    unfold jittered.
    rewrite (Rsum_ext ns
               (fun j => (get (cells h krn) (i * ns + j) + (if Nat.eqb i j then eps else 0))
                         * get (cells h1 wt) j)
               (fun j => get (cells h krn) (i * ns + j) * get (cells h1 wt) j
                         + (if Nat.eqb i j then eps else 0) * get (cells h1 wt) j))
      by (intros; ring).
    rewrite Rsum_plus, (Rsum_delta ns i eps (get (cells h1 wt)) Hi).
    rewrite (Rsum_ext ns (fun k => get (cells h krn) (ix ns k i) * get (cells h1 wt) k)
               (fun j => get (cells h krn) (i * ns + j) * get (cells h1 wt) j)).
    + ring.
    + intros k _. unfold ix. now rewrite (Nat.add_comm k).
Qed.

Lemma gpr_predict_at_training_points_witness :
  exists h1 h2,
    get_gpr_weights 0%nat 1%nat 2%nat 1 0 3%nat (heap_of [[0]; [0]; [4]; [6]; [0]])
    = Done tt h1 /\
    gpr_predict 4%nat 0%nat 2%nat 1 1 h1 = Done tt h2 /\
    get (cells h2 4%nat) 0 = 6 - eps * get (cells h1 0%nat) 0.
Proof.
  destruct (gpr_predict_at_training_points 0%nat 1%nat 2%nat 1 0%nat 3%nat 4%nat
              (heap_of [[0]; [0]; [4]; [6]; [0]]))
    as (h1 & h2 & E1 & E2 & Hv);
    try discriminate; try (simpl; lia).
  - apply symmetric_1.
  - apply posdef_1. unfold jittered, get, eps. simpl. lra.
  - exists h1, h2. split; [exact E1 |]. split; [exact E2 |].
    apply (Hv 0%nat). lia.
Defined.

(* ================================================================== *)
(** * The likelihood of the solved weights *)

Lemma get_log_likelihood_none_run wt y ns kc h :
  (Z.of_nat ns < 2147483648)%Z ->
  (ns <= length (cells h wt))%nat -> (ns <= length (cells h y))%nat ->
  (ns * ns <= length (cells h kc))%nat ->
  get_log_likelihood wt y ns kc None h
  = Done (-0.5 * Rsum ns (fun i => get (cells h y) i * get (cells h wt) i)
          - 0.5 * (2 * Rsum ns (fun i => ln (get (cells h kc) (i * ns + i))))
          - 0.5 * INR ns * ln (2 * PI)) h.
Proof.
  intros Hns Hwt Hy Hkc.
  assert (Hdot : ddot_ (to_int ns) y wt h
                 = Done (Rsum ns (fun i => get (cells h y) i * get (cells h wt) i)) h).
  { unfold ddot_. rewrite to_int_small by assumption.
    destruct (Z.leb_spec (Z.of_nat ns) 0) as [Hz | Hz].
    - assert (ns = O) by lia. subst ns. reflexivity.
    - rewrite Nat2Z.id.
      rewrite (bind_run _ _ _ _ _ (need_ok y ns h Hy)).
      rewrite (bind_run _ _ _ _ _ (need_ok wt ns h Hwt)). reflexivity. }
  assert (Hld : fold_upto ns (fun i acc =>
                   d <- load kc (i * ns + i) ;; ret (acc + 2 * ln d)) 0 h
                = Done (2 * Rsum ns (fun i => ln (get (cells h kc) (i * ns + i)))) h).
  { rewrite (fold_upto_pure ns _
               (fun i acc => acc + 2 * ln (get (cells h kc) (i * ns + i)))).
    - now rewrite (upto_accumulate ns (fun i => ln (get (cells h kc) (i * ns + i)))).
    - intros k b Hk. rewrite (bind_run _ _ _ _ _ (load_ok kc (k * ns + k) h
                                (Nat.lt_le_trans _ _ _ (diag_lt ns k Hk) Hkc))).
      reflexivity. }
  unfold get_log_likelihood.
  rewrite (bind_run _ _ _ _ _ Hdot), (bind_run _ _ _ _ _ Hld).
  reflexivity.
Qed.

Lemma zero_or_not n (x : nat -> R) :
  (forall i, (i < n)%nat -> x i = 0) \/ (exists i, (i < n)%nat /\ x i <> 0).
Proof.
  induction n as [| n [IH | (i & Hi & Hx)]].
  - left. intros i Hi. lia.
  - destruct (Req_dec (x n) 0) as [E | E].
    + left. intros i Hi. destruct (Nat.eq_dec i n) as [-> | Hne]; [exact E |].
      apply IH. lia.
    + right. exists n. split; [lia | exact E].
  - right. exists i. split; [lia | exact Hx].
Qed.

(** The quadratic form of a positive definite matrix is never negative. *)
Lemma posdef_nonneg n a (x : nat -> R) :
  posdef n a -> 0 <= Rsum n (fun i => Rsum n (fun j => x i * a i j * x j)).
Proof.
  intros Hpd. destruct (zero_or_not n x) as [Hz | Hnz].
  - rewrite Rsum_zero; [lra |]. intros i Hi. apply Rsum_zero.
    intros j _. rewrite (Hz i Hi). ring.
  - apply Rlt_le. now apply Hpd.
Qed.

(** The pairing of a right-hand side with the solution of the system is
    the quadratic form at the solution. *)
Lemma solution_quadratic n (a : nat -> nat -> R) (w b : nat -> R) :
  (forall i, (i < n)%nat -> Rsum n (fun j => a i j * w j) = b i) ->
  Rsum n (fun i => b i * w i)
  = Rsum n (fun i => Rsum n (fun j => w i * a i j * w j)).
Proof.
  intros Hs. apply Rsum_ext. intros i Hi. rewrite <- (Hs i Hi).
  rewrite <- Rsum_scal_r. apply Rsum_ext. intros j _. ring.
Qed.

(** X14. The likelihood of solved weights: after [get_gpr_weights],
    [get_log_likelihood] on its outputs returns, and its data-fit term
    [-1/2 (y . wt)] is minus half the quadratic form of [krn + eps I] at
    the weights, so it is never positive and the score never exceeds
    [- sum_i ln L[i][i] - 1/2 ns ln(2 PI)]. *)
Theorem get_log_likelihood_after_weights :
  forall (wt krn_chd krn : ptr) (ns dim : nat) (y : ptr) (h : heap),
    krn <> krn_chd -> y <> krn_chd -> y <> wt -> wt <> krn_chd ->
    (0 < ns)%nat -> (Z.of_nat ns < 2147483648)%Z ->
    (ns * ns <= length (cells h krn))%nat ->
    (ns * ns <= length (cells h krn_chd))%nat ->
    (ns <= length (cells h y))%nat -> (ns <= length (cells h wt))%nat ->
    symmetric ns (rowmajor (cells h krn) ns) ->
    posdef ns (jittered ns eps (cells h krn)) ->
    exists h1 score,
      get_gpr_weights wt krn_chd krn ns dim y h = Done tt h1 /\
      get_log_likelihood wt y ns krn_chd None h1 = Done score h1 /\
      score
      = - (1/2) * Rsum ns (fun i => Rsum ns (fun j =>
            get (cells h1 wt) i * jittered ns eps (cells h krn) i j * get (cells h1 wt) j))
        - Rsum ns (fun i => ln (get (cells h1 krn_chd) (i * ns + i)))
        - (1/2) * INR ns * ln (2 * PI) /\
      score <= - Rsum ns (fun i => ln (get (cells h1 krn_chd) (i * ns + i)))
               - (1/2) * INR ns * ln (2 * PI).
Proof.
  intros wt kc krn ns dim y h N1 N2 N3 N4 Hns Hint L1 L2 L3 L4 Hsym Hpd.
  destruct (get_gpr_weights_core wt kc krn ns dim y h)
    as (h1 & E1 & F1 & _ & W1 & K1 & S1 & _); auto.
  exists h1. eexists. split; [exact E1 |]. split.
  - apply get_log_likelihood_none_run; auto.
    + now rewrite W1.
    + now rewrite (F1 y N3 N2).
    + now rewrite K1.
  - rewrite (F1 y N3 N2).
    rewrite (solution_quadratic ns (jittered ns eps (cells h krn))
               (get (cells h1 wt)) (get (cells h y)) S1).
    pose proof (posdef_nonneg ns (jittered ns eps (cells h krn))
                  (get (cells h1 wt)) Hpd) as Hq.
    split; lra.
Qed.

Lemma get_log_likelihood_after_weights_witness :
  exists h1 score,
    get_gpr_weights 0%nat 1%nat 2%nat 1 0 3%nat (heap_of [[0]; [0]; [4]; [6]])
    = Done tt h1 /\
    get_log_likelihood 0%nat 3%nat 1 1%nat None h1 = Done score h1 /\
    score <= - (0 + ln (get (cells h1 1%nat) 0)) - (1/2) * 1 * ln (2 * PI).
Proof.
  destruct (get_log_likelihood_after_weights 0%nat 1%nat 2%nat 1 0%nat 3%nat
              (heap_of [[0]; [0]; [4]; [6]]))
    as (h1 & score & E1 & E2 & _ & Hle);
    try discriminate; try (simpl; lia).
  - apply symmetric_1.
  - apply posdef_1. unfold jittered, get, eps. simpl. lra.
  - exists h1, score. split; [exact E1 |]. split; [exact E2 | exact Hle].
Defined.

(* ================================================================== *)
(** * The full-solve posterior covariance *)

(** What [get_var_mat] leaves behind on a symmetric kernel that is
    positive definite after the jitter. *)
Lemma get_var_mat_core var krnpp krnp krn np ns h :
  (var < brk h)%nat -> (krnpp < brk h)%nat -> (krnp < brk h)%nat -> (krn < brk h)%nat ->
  var <> krnpp -> var <> krnp -> var <> krn -> krn <> krnp -> krn <> krnpp ->
  (0 < ns)%nat -> (0 < np)%nat ->
  (Z.of_nat ns < 2147483648)%Z -> (Z.of_nat np < 2147483648)%Z ->
  (ns * ns <= length (cells h krn))%nat -> (ns * np <= length (cells h krnp))%nat ->
  (np * np <= length (cells h krnpp))%nat -> (np * np <= length (cells h var))%nat ->
  symmetric ns (rowmajor (cells h krn) ns) ->
  posdef ns (jittered ns eps (cells h krn)) ->
  exists h' X,
    get_var_mat var krnpp krnp krn np ns h = Done tt h' /\
    (forall q, (q < brk h)%nat -> q <> var -> q <> krn -> cells h' q = cells h q) /\
    (forall i c, (i < ns)%nat -> (c < np)%nat ->
       Rsum ns (fun j => jittered ns eps (cells h krn) i j * get X (ix ns j c))
       = get (cells h krnp) (ix ns i c)) /\
    (forall r c, (r < np)%nat -> (c < np)%nat ->
       get (cells h' var) (ix np r c)
       = get (cells h krnpp) (ix np r c)
         - Rsum ns (fun l => get (cells h krnp) (ix ns l r) * get X (ix ns l c))) /\
    (forall t, (np * np <= t)%nat -> get (cells h' var) t = get (cells h var) t) /\
    length (cells h' var) = length (cells h var) /\
    factored ns ns ns (jitter ns eps (cells h krn)) (cells h' krn).
Proof.
  intros V1 V2 V3 V4 N1 N2 N3 N4 N5 Hns Hnp Ins Inp L1 L2 L3 L4 Hsym Hpd.
  pose proof (get_var_mat_run var krnpp krnp krn np ns h
                V1 V2 V3 V4 N1 N2 N3 N4 N5 Hns Hnp Ins Inp L1 L2 L3 L4) as R1.
  cbv zeta in R1. fold eps in R1.
  set (K := jitter ns eps (cells h krn)) in *.
  set (F := fst (Blas.dpotf2_L ns K ns)) in *.
  set (B := Blas.dcopy (ns * np) (cells h krnp) (repeat 0 (np * ns))) in *.
  set (Z := Blas.dtrsm_LLNN ns np 1 F ns B ns) in *.
  set (X := Blas.dtrsm_LLTN ns np 1 F ns Z ns) in *.
  set (C1 := Blas.dcopy (np * np) (cells h krnpp) (cells h var)) in *.
  set (C := Blas.dgemm_TN np np ns (-1) (cells h krnp) ns X ns 1 C1 np) in *.
  assert (LK : (ns * ns <= length K)%nat) by (unfold K; now rewrite length_jitter).
  assert (HA : forall i j, (i < ns)%nat -> (j < ns)%nat ->
             Asym K ns i j = jittered ns eps (cells h krn) i j).
  { intros i j Hi Hj. now apply Asym_jitter0. }
  assert (HpdK : posdef ns (Asym K ns)).
  { apply (posdef_ext ns (jittered ns eps (cells h krn))); auto.
    intros i j Hi Hj. symmetry. now apply HA. }
  destruct (dpotf2_L_posdef ns K Hns LK HpdK) as (Hs & HF). fold F in HF.
  rewrite Hs in R1. destruct R1 as (h1 & Hr1 & Hv1 & Hk1 & Hf1).
  assert (LB : length B = (np * ns)%nat).
  { unfold B. now rewrite length_dcopy, repeat_length. }
  assert (Hmr : matlen ns np ns = (np * ns)%nat) by now apply matlen_rect.
  assert (Hmq : matlen np np np = (np * np)%nat) by now apply matlen_sq.
  assert (LC1 : length C1 = length (cells h var)) by apply length_dcopy.
  assert (HdF : forall k, (k < ns)%nat -> get F (ix ns k k) <> 0).
  { intros k Hk. apply Rgt_not_eq. apply HF; auto. }
  destruct (dtrsm_LLNN_spec ns 1 F ns ns (Nat.le_refl ns) HdF np B) as (LZ & _ & HZ).
  { rewrite Hmr, LB. lia. }
  fold Z in LZ, HZ.
  destruct (dtrsm_LLTN_spec ns 1 F ns ns (Nat.le_refl ns) HdF np Z) as (_ & _ & HX).
  { rewrite Hmr, LZ, LB. lia. }
  fold X in HX.
  assert (HB : forall i c, (i < ns)%nat -> (c < np)%nat ->
             get B (ix ns i c) = get (cells h krnp) (ix ns i c)).
  { intros i c Hi Hc. unfold B. rewrite get_dcopy by (rewrite repeat_length; lia).
    assert ((ix ns i c < ns * np)%nat) by ix_bound.
    destruct (Nat.ltb_spec (ix ns i c) (ns * np)); [reflexivity | lia]. }
  assert (HC1 : forall r c, (r < np)%nat -> (c < np)%nat ->
              get C1 (ix np r c) = get (cells h krnpp) (ix np r c)).
  { intros r c Hr Hc. unfold C1. rewrite get_dcopy by exact L4.
    assert ((ix np r c < np * np)%nat) by ix_bound.
    destruct (Nat.ltb_spec (ix np r c) (np * np)); [reflexivity | lia]. }
  exists h1, X. split; [exact Hr1 |]. split; [exact Hf1 |].
  rewrite Hv1, Hk1.
  split; [| split; [| split; [| split; [| exact HF]]]].
  - intros i c Hi Hc. rewrite <- (HB i c Hi Hc).
    apply (chol_solve ns (jittered ns eps (cells h krn)) (Lw F ns)
             (fun i => get B (ix ns i c)) (fun t => get Z (ix ns t c))
             (fun t => get X (ix ns t c))); auto.
    + intros a b Ha Hb. rewrite (factored_product ns K F a b LK HF Ha Hb).
      now apply HA.
    + intros a Ha. rewrite (HZ a c Ha Hc). ring.
    + intros a Ha. rewrite (HX a c Ha Hc). ring.
  - intros r c Hr Hc. unfold C.
    rewrite get_dgemm_TN; auto; [| rewrite Hmq, LC1; exact L4].
    rewrite HC1 by auto. ring.
  - intros t Ht. unfold C. rewrite get_dgemm_TN_frame.
    + unfold C1. rewrite get_dcopy by exact L4.
      destruct (Nat.ltb_spec t (np * np)); [lia | reflexivity].
    + intros i j Hi Hj E. subst t.
      assert ((ix np i j < np * np)%nat) by ix_bound. lia.
  - unfold C. rewrite length_dgemm_TN. exact LC1.
Qed.





(** X16. The posterior variance never exceeds the prior variance: after
    [get_var_mat] every diagonal entry of [var] is at most the
    corresponding diagonal entry of [krnpp]. *)
Theorem get_var_mat_diagonal_bound :
  forall (var krnpp krnp krn : ptr) (np ns : nat) (h : heap),
    (var < brk h)%nat -> (krnpp < brk h)%nat -> (krnp < brk h)%nat ->
    (krn < brk h)%nat ->
    var <> krnpp -> var <> krnp -> var <> krn -> krn <> krnp -> krn <> krnpp ->
    (0 < ns)%nat -> (0 < np)%nat ->
    (Z.of_nat ns < 2147483648)%Z -> (Z.of_nat np < 2147483648)%Z ->
    (ns * ns <= length (cells h krn))%nat -> (ns * np <= length (cells h krnp))%nat ->
    (np * np <= length (cells h krnpp))%nat -> (np * np <= length (cells h var))%nat ->
    symmetric ns (rowmajor (cells h krn) ns) ->
    posdef ns (jittered ns eps (cells h krn)) ->
    exists h',
      get_var_mat var krnpp krnp krn np ns h = Done tt h' /\
      (forall i, (i < np)%nat ->
         get (cells h' var) (i * np + i) <= get (cells h krnpp) (i * np + i)).
Proof.
  intros var krnpp krnp krn np ns h V1 V2 V3 V4 N1 N2 N3 N4 N5 Hns Hnp Ins Inp
         L1 L2 L3 L4 Hsym Hpd.
  destruct (get_var_mat_core var krnpp krnp krn np ns h
              V1 V2 V3 V4 N1 N2 N3 N4 N5 Hns Hnp Ins Inp L1 L2 L3 L4 Hsym Hpd)
    as (h' & X & Hr & _ & HAX & Hv & _).
  exists h'. split; [exact Hr |]. intros i Hi.
  replace (i * np + i)%nat with (ix np i i) by (unfold ix; lia).
  rewrite (Hv i i Hi Hi).
  rewrite (solution_quadratic ns (jittered ns eps (cells h krn))
             (fun l => get X (ix ns l i)) (fun l => get (cells h krnp) (ix ns l i))
             (fun l Hl => HAX l i Hl Hi)).
  pose proof (posdef_nonneg ns (jittered ns eps (cells h krn))
                (fun l => get X (ix ns l i)) Hpd) as Hq.
  simpl in Hq. lra.
Qed.

Lemma get_var_mat_diagonal_bound_witness :
  exists h',
    get_var_mat 0%nat 1%nat 2%nat 3%nat 1 1 (heap_of [[0]; [2]; [1]; [1]])
    = Done tt h' /\
    get (cells h' 0%nat) 0 <= 2.
Proof.
  destruct (get_var_mat_diagonal_bound 0%nat 1%nat 2%nat 3%nat 1 1
              (heap_of [[0]; [2]; [1]; [1]]))
    as (h' & Hr & Hd);
    try discriminate; try (simpl; lia).
  - apply symmetric_1.
  - apply posdef_1. unfold jittered, get, eps. simpl. lra.
  - exists h'. split; [exact Hr |]. apply (Hd 0%nat). lia.
Defined.



(** X18. At the training points the posterior covariance collapses to
    the jitter: when [krnpp] and [krnp] hold the same matrix as the
    symmetric [krn] (with [np = ns]), [get_var_mat] leaves
    [var = eps * X] entry by entry, where [X] solves
    [(krn + eps I) X = krn]. *)
Theorem get_var_mat_at_training_points :
  forall (var krnpp krnp krn : ptr) (ns : nat) (h : heap),
    (var < brk h)%nat -> (krnpp < brk h)%nat -> (krnp < brk h)%nat ->
    (krn < brk h)%nat ->
    var <> krnpp -> var <> krnp -> var <> krn -> krn <> krnp -> krn <> krnpp ->
    (0 < ns)%nat -> (Z.of_nat ns < 2147483648)%Z ->
    (ns * ns <= length (cells h krn))%nat ->
    (ns * ns <= length (cells h var))%nat ->
    cells h krnpp = cells h krn -> cells h krnp = cells h krn ->
    symmetric ns (rowmajor (cells h krn) ns) ->
    posdef ns (jittered ns eps (cells h krn)) ->
    exists h' X,
      get_var_mat var krnpp krnp krn ns ns h = Done tt h' /\
      (forall i c, (i < ns)%nat -> (c < ns)%nat ->
         Rsum ns (fun j => jittered ns eps (cells h krn) i j * get X (c * ns + j))
         = get (cells h krn) (c * ns + i)) /\
      (forall r c, (r < ns)%nat -> (c < ns)%nat ->
         get (cells h' var) (c * ns + r) = eps * get X (c * ns + r)).
Proof.
  intros var krnpp krnp krn ns h V1 V2 V3 V4 N1 N2 N3 N4 N5 Hns Ins L1 L4 Epp Ep
         Hsym Hpd.
  destruct (get_var_mat_core var krnpp krnp krn ns ns h
              V1 V2 V3 V4 N1 N2 N3 N4 N5 Hns Hns Ins Ins L1
              ltac:(rewrite Ep; exact L1) ltac:(rewrite Epp; exact L1) L4 Hsym Hpd)
    as (h' & X & Hr & _ & HAX & Hv & _).
  rewrite Ep in HAX, Hv. rewrite Epp in Hv.
  exists h', X. split; [exact Hr |]. split.
  - intros i c Hi Hc. rewrite <- ix_rowmajor, <- (HAX i c Hi Hc).
    apply Rsum_ext. intros j _. now rewrite ix_rowmajor.
  - intros r c Hr' Hc. rewrite <- !ix_rowmajor. rewrite (Hv r c Hr' Hc).
    rewrite <- (HAX r c Hr' Hc). unfold jittered.
    rewrite (Rsum_ext ns
               (fun j => (get (cells h krn) (r * ns + j)
                          + (if Nat.eqb r j then eps else 0)) * get X (ix ns j c))
               (fun j => get (cells h krn) (r * ns + j) * get X (ix ns j c)
                         + (if Nat.eqb r j then eps else 0) * get X (ix ns j c)))
      by (intros; ring).
    rewrite Rsum_plus, (Rsum_delta ns r eps (fun j => get X (ix ns j c)) Hr').
    rewrite (Rsum_ext ns (fun l => get (cells h krn) (ix ns l r) * get X (ix ns l c))
               (fun j => get (cells h krn) (r * ns + j) * get X (ix ns j c))).
    + ring.
    + intros l _. now rewrite ix_rowmajor.
Qed.

Lemma get_var_mat_at_training_points_witness :
  exists h' X,
    get_var_mat 0%nat 1%nat 2%nat 3%nat 1 1 (heap_of [[0]; [4]; [4]; [4]])
    = Done tt h' /\
    (4 + eps) * get X 0 = 4 /\
    get (cells h' 0%nat) 0 = eps * get X 0.
Proof.
  destruct (get_var_mat_at_training_points 0%nat 1%nat 2%nat 3%nat 1
              (heap_of [[0]; [4]; [4]; [4]]))
    as (h' & X & Hr & HX & Hv);
    try discriminate; try reflexivity; try (simpl; lia).
  - apply symmetric_1.
  - apply posdef_1. unfold jittered, get, eps. simpl. lra.
  - exists h', X. split; [exact Hr |]. split.
    + specialize (HX 0%nat 0%nat ltac:(lia) ltac:(lia)).
      unfold jittered, get in HX. simpl in HX. unfold get. lra.
    + apply (Hv 0%nat 0%nat); lia.
Defined.

(* ================================================================== *)
(** * The posterior covariance from the factor *)

(** What [get_var_mat_chd] computes, on and below the diagonal, from a
    factor with a non-zero diagonal. *)
Lemma get_var_mat_chd_core var krnpp krnp kc np ns h :
  (var < brk h)%nat -> (krnpp < brk h)%nat -> (krnp < brk h)%nat -> (kc < brk h)%nat ->
  var <> krnpp -> var <> krnp -> var <> kc ->
  (0 < ns)%nat -> (0 < np)%nat ->
  (Z.of_nat ns < 2147483648)%Z -> (Z.of_nat np < 2147483648)%Z ->
  (ns * ns <= length (cells h kc))%nat -> (ns * np <= length (cells h krnp))%nat ->
  (np * np <= length (cells h krnpp))%nat -> (np * np <= length (cells h var))%nat ->
  (forall i, (i < ns)%nat -> get (cells h kc) (ix ns i i) <> 0) ->
  exists h' V,
    get_var_mat_chd var krnpp krnp kc np ns h = Done tt h' /\
    (forall i c, (i < ns)%nat -> (c < np)%nat ->
       Rsum ns (fun t => Lw (cells h kc) ns i t * get V (ix ns t c))
       = get (cells h krnp) (ix ns i c)) /\
    (forall r c, (c <= r)%nat -> (r < np)%nat ->
       get (cells h' var) (ix np r c)
       = get (cells h krnpp) (ix np r c)
         - Rsum ns (fun l => get V (ix ns l r) * get V (ix ns l c))) /\
    (forall r c, (r < c)%nat -> (c < np)%nat ->
       get (cells h' var) (ix np r c) = get (cells h' var) (ix np c r)).
Proof.
  intros V1 V2 V3 V5 N1 N2 N6 Hns Hnp Ins Inp L5 L2 L3 L4 Hdc.
  destruct (get_var_mat_chd_run var krnpp krnp kc np ns h
              V1 V2 V3 V5 N1 N2 N6 Hns Hnp Ins Inp L5 L2 L3 L4)
    as (h2 & Hr2 & _ & _ & Hv2 & _).
  cbv zeta in Hv2.
  set (B := Blas.dcopy (ns * np) (cells h krnp) (repeat 0 (np * ns))) in *.
  set (C1 := Blas.dcopy (np * np) (cells h krnpp) (cells h var)) in *.
  set (V := Blas.dtrsm_LLNN ns np 1 (cells h kc) ns B ns) in *.
  set (Sk := Blas.dsyrk_LT np ns (-1) V ns 1 C1 np) in *.
  assert (LB : length B = (np * ns)%nat).
  { unfold B. now rewrite length_dcopy, repeat_length. }
  assert (Hmr : matlen ns np ns = (np * ns)%nat) by now apply matlen_rect.
  assert (Hmq : matlen np np np = (np * np)%nat) by now apply matlen_sq.
  assert (LC1 : length C1 = length (cells h var)) by apply length_dcopy.
  destruct (dtrsm_LLNN_spec ns 1 (cells h kc) ns ns (Nat.le_refl ns) Hdc np B)
    as (_ & _ & HV).
  { rewrite Hmr, LB. lia. }
  fold V in HV.
  assert (HB : forall i c, (i < ns)%nat -> (c < np)%nat ->
             get B (ix ns i c) = get (cells h krnp) (ix ns i c)).
  { intros i c Hi Hc. unfold B. rewrite get_dcopy by (rewrite repeat_length; lia).
    assert ((ix ns i c < ns * np)%nat) by ix_bound.
    destruct (Nat.ltb_spec (ix ns i c) (ns * np)); [reflexivity | lia]. }
  assert (HC1 : forall r c, (r < np)%nat -> (c < np)%nat ->
              get C1 (ix np r c) = get (cells h krnpp) (ix np r c)).
  { intros r c Hr Hc. unfold C1. rewrite get_dcopy by exact L4.
    assert ((ix np r c < np * np)%nat) by ix_bound.
    destruct (Nat.ltb_spec (ix np r c) (np * np)); [reflexivity | lia]. }
  assert (Hlow : forall r c, (c <= r)%nat -> (r < np)%nat ->
             get (cells h2 var) (ix np r c)
             = get (cells h krnpp) (ix np r c)
               - Rsum ns (fun l => get V (ix ns l r) * get V (ix ns l c))).
  { intros r c Hcr Hr. rewrite Hv2 by lia.
    destruct (Nat.ltb_spec r c); [lia |].
    unfold Sk. rewrite get_dsyrk_LT; auto; [| rewrite Hmq, LC1; exact L4].
    rewrite HC1 by lia. ring. }
  exists h2, V. split; [exact Hr2 |]. split; [| split; [exact Hlow |]].
  - intros i c Hi Hc. rewrite (HV i c Hi Hc), (HB i c Hi Hc). ring.
  - intros r c Hrc Hc. rewrite (Hv2 r c) by lia. rewrite (Hv2 c r) by lia.
    destruct (Nat.ltb_spec r c); [| lia].
    destruct (Nat.ltb_spec c r); [lia | reflexivity].
Qed.

(** X19. From a factor with a non-zero diagonal, [get_var_mat_chd]
    returns [var = krnpp - V^T V] on and below the diagonal, where
    [L V = krnp], and mirrors it above; every diagonal entry of [var] is
    the corresponding entry of [krnpp] minus a sum of squares, so the
    posterior variance never exceeds the prior variance. *)
Theorem get_var_mat_chd_value :
  forall (var krnpp krnp krn_chd : ptr) (np ns : nat) (h : heap),
    (var < brk h)%nat -> (krnpp < brk h)%nat -> (krnp < brk h)%nat ->
    (krn_chd < brk h)%nat ->
    var <> krnpp -> var <> krnp -> var <> krn_chd ->
    (0 < ns)%nat -> (0 < np)%nat ->
    (Z.of_nat ns < 2147483648)%Z -> (Z.of_nat np < 2147483648)%Z ->
    (ns * ns <= length (cells h krn_chd))%nat ->
    (ns * np <= length (cells h krnp))%nat ->
    (np * np <= length (cells h krnpp))%nat -> (np * np <= length (cells h var))%nat ->
    (forall i, (i < ns)%nat -> get (cells h krn_chd) (i * ns + i) <> 0) ->
    exists h' V,
      get_var_mat_chd var krnpp krnp krn_chd np ns h = Done tt h' /\
      (forall i c, (i < ns)%nat -> (c < np)%nat ->
         Rsum ns (fun t => Lw (cells h krn_chd) ns i t * get V (c * ns + t))
         = get (cells h krnp) (c * ns + i)) /\
      (forall r c, (c <= r)%nat -> (r < np)%nat ->
         get (cells h' var) (c * np + r)
         = get (cells h krnpp) (c * np + r)
           - Rsum ns (fun l => get V (r * ns + l) * get V (c * ns + l))) /\
      (forall r c, (r < np)%nat -> (c < np)%nat ->
         get (cells h' var) (r * np + c) = get (cells h' var) (c * np + r)) /\
      (forall i, (i < np)%nat ->
         get (cells h' var) (i * np + i) <= get (cells h krnpp) (i * np + i)).
Proof.
  intros var krnpp krnp kc np ns h V1 V2 V3 V5 N1 N2 N6 Hns Hnp Ins Inp
         L5 L2 L3 L4 Hd.
  destruct (get_var_mat_chd_core var krnpp krnp kc np ns h
              V1 V2 V3 V5 N1 N2 N6 Hns Hnp Ins Inp L5 L2 L3 L4)
    as (h' & V & Hr & HV & Hlow & Hup).
  { intros i Hi. unfold ix. rewrite Nat.add_comm. now apply Hd. }
  exists h', V. split; [exact Hr |].
  split; [| split; [| split]].
  - intros i c Hi Hc. rewrite <- !ix_rowmajor. rewrite <- (HV i c Hi Hc).
    apply Rsum_ext. intros t _. now rewrite ix_rowmajor.
  - intros r c Hcr Hr'. rewrite <- !ix_rowmajor. rewrite (Hlow r c Hcr Hr').
    f_equal. apply Rsum_ext. intros l _. now rewrite !ix_rowmajor.
  - intros r c Hr' Hc. rewrite <- !ix_rowmajor.
    destruct (Nat.lt_trichotomy r c) as [Hlt | [-> | Hgt]].
    + symmetry. now apply Hup.
    + reflexivity.
    + now apply Hup.
  - intros i Hi. rewrite <- ix_rowmajor. rewrite (Hlow i i (Nat.le_refl i) Hi).
    assert (0 <= Rsum ns (fun l => get V (ix ns l i) * get V (ix ns l i))).
    { apply Rsum_nonneg. intros l _. apply Rle_0_sqr. }
    lra.
Qed.

Lemma get_var_mat_chd_value_witness :
  exists h',
    get_var_mat_chd 0%nat 1%nat 2%nat 3%nat 2 1
      (heap_of [[0; 0; 0; 0]; [5; 7; 8; 6]; [1; 1]; [2]]) = Done tt h' /\
    get (cells h' 0%nat) 0 <= 5 /\ get (cells h' 0%nat) 3 <= 6 /\
    get (cells h' 0%nat) 2 = get (cells h' 0%nat) 1.
Proof.
  destruct (get_var_mat_chd_value 0%nat 1%nat 2%nat 3%nat 2 1
              (heap_of [[0; 0; 0; 0]; [5; 7; 8; 6]; [1; 1]; [2]]))
    as (h' & V & Hr & _ & _ & Hs & Hd);
    try discriminate; try (simpl; lia).
  - intros i Hi. replace i with O by lia. unfold get. simpl. lra.
  - exists h'. split; [exact Hr |]. split; [| split].
    + apply (Hd 0%nat). lia.
    + apply (Hd 1%nat). lia.
    + apply (Hs 1%nat 0%nat); lia.
Defined.

(** X20. [get_var_mat_chd] reads only one triangle of the factor and of
    [krnpp]: two runs whose inputs agree on [krnp], on the lower triangle
    of [krn_chd] and on the triangle of [krnpp] that the update reads
    leave the same matrix in [var], whatever the other triangles hold
    (after [get_gpr_weights] the other triangle of [krn_chd] still holds
    entries of the kernel). *)
Theorem get_var_mat_chd_triangles :
  forall (var krnpp krnp krn_chd : ptr) (np ns : nat) (h g : heap),
    (var < brk h)%nat -> (krnpp < brk h)%nat -> (krnp < brk h)%nat ->
    (krn_chd < brk h)%nat ->
    (var < brk g)%nat -> (krnpp < brk g)%nat -> (krnp < brk g)%nat ->
    (krn_chd < brk g)%nat ->
    var <> krnpp -> var <> krnp -> var <> krn_chd ->
    (0 < ns)%nat -> (0 < np)%nat ->
    (Z.of_nat ns < 2147483648)%Z -> (Z.of_nat np < 2147483648)%Z ->
    (ns * ns <= length (cells h krn_chd))%nat ->
    (ns * np <= length (cells h krnp))%nat ->
    (np * np <= length (cells h krnpp))%nat -> (np * np <= length (cells h var))%nat ->
    (ns * ns <= length (cells g krn_chd))%nat ->
    (ns * np <= length (cells g krnp))%nat ->
    (np * np <= length (cells g krnpp))%nat -> (np * np <= length (cells g var))%nat ->
    (forall i, (i < ns)%nat -> get (cells h krn_chd) (i * ns + i) <> 0) ->
    (forall t, (t < ns * np)%nat -> get (cells g krnp) t = get (cells h krnp) t) ->
    (forall i k, (k <= i)%nat -> (i < ns)%nat ->
       get (cells g krn_chd) (k * ns + i) = get (cells h krn_chd) (k * ns + i)) ->
    (forall r c, (c <= r)%nat -> (r < np)%nat ->
       get (cells g krnpp) (c * np + r) = get (cells h krnpp) (c * np + r)) ->
    exists h' g',
      get_var_mat_chd var krnpp krnp krn_chd np ns h = Done tt h' /\
      get_var_mat_chd var krnpp krnp krn_chd np ns g = Done tt g' /\
      (forall r c, (r < np)%nat -> (c < np)%nat ->
         get (cells g' var) (r * np + c) = get (cells h' var) (r * np + c)).
Proof.
  intros var krnpp krnp kc np ns h g V1 V2 V3 V5 G1 G2 G3 G5 N1 N2 N6 Hns Hnp Ins Inp
         L5 L2 L3 L4 M5 M2 M3 M4 Hd Ep Ek Epp.
  assert (HLw : forall i t, (i < ns)%nat ->
            Lw (cells g kc) ns i t = Lw (cells h kc) ns i t).
  { intros i t Hi. unfold Lw. destruct (Nat.leb_spec t i); [| reflexivity].
    rewrite !ix_rowmajor. now apply Ek. }
  assert (Hdh : forall i, (i < ns)%nat -> get (cells h kc) (ix ns i i) <> 0).
  { intros i Hi. unfold ix. rewrite Nat.add_comm. now apply Hd. }
  assert (Hdg : forall i, (i < ns)%nat -> get (cells g kc) (ix ns i i) <> 0).
  { intros i Hi. rewrite ix_rowmajor, Ek by lia. now apply Hd. }
  destruct (get_var_mat_chd_core var krnpp krnp kc np ns h
              V1 V2 V3 V5 N1 N2 N6 Hns Hnp Ins Inp L5 L2 L3 L4 Hdh)
    as (h' & V & Hr & HV & Hlow & Hup).
  destruct (get_var_mat_chd_core var krnpp krnp kc np ns g
              G1 G2 G3 G5 N1 N2 N6 Hns Hnp Ins Inp M5 M2 M3 M4 Hdg)
    as (g' & U & Hrg & HU & Hlowg & Hupg).
  assert (HUV : forall l c, (l < ns)%nat -> (c < np)%nat ->
            get U (ix ns l c) = get V (ix ns l c)).
  { intros l c Hl Hc.
    apply (tri_forward_unique ns (Lw (cells h kc) ns)
             (fun t => get U (ix ns t c)) (fun t => get V (ix ns t c))); auto.
    - intros i k Hik. now apply Lw_upper.
    - intros i Hi. rewrite Lw_diag. now apply Hdh.
    - intros i Hi. rewrite (HV i c Hi Hc).
      rewrite <- (Ep (ix ns i c)) by ix_bound.
      rewrite <- (HU i c Hi Hc).
      apply Rsum_ext. intros t _. now rewrite HLw. }
  assert (Hl : forall r c, (c <= r)%nat -> (r < np)%nat ->
             get (cells g' var) (ix np r c) = get (cells h' var) (ix np r c)).
  { intros r c Hcr Hr'. rewrite (Hlowg r c Hcr Hr'), (Hlow r c Hcr Hr').
    rewrite !ix_rowmajor, (Epp r c Hcr Hr'). f_equal.
    apply Rsum_ext. intros l Hl.
    rewrite (HUV l r Hl Hr'), (HUV l c Hl ltac:(lia)). reflexivity. }
  exists h', g'. split; [exact Hr |]. split; [exact Hrg |].
  intros r c Hr' Hc. rewrite <- !ix_rowmajor.
  destruct (Nat.le_gt_cases r c) as [Hle | Hgt].
  - now apply Hl.
  - rewrite (Hupg c r Hgt Hr'), (Hup c r Hgt Hr'). apply Hl; lia.
Qed.

Lemma get_var_mat_chd_triangles_witness :
  exists h' g',
    get_var_mat_chd 0%nat 1%nat 2%nat 3%nat 2 1
      (heap_of [[0; 0; 0; 0]; [5; 7; 8; 6]; [1; 1]; [2]]) = Done tt h' /\
    get_var_mat_chd 0%nat 1%nat 2%nat 3%nat 2 1
      (heap_of [[9; 9; 9; 9]; [5; 7; 0; 6]; [1; 1]; [2]]) = Done tt g' /\
    get (cells g' 0%nat) 2 = get (cells h' 0%nat) 2.
Proof.
  destruct (get_var_mat_chd_triangles 0%nat 1%nat 2%nat 3%nat 2 1
              (heap_of [[0; 0; 0; 0]; [5; 7; 8; 6]; [1; 1]; [2]])
              (heap_of [[9; 9; 9; 9]; [5; 7; 0; 6]; [1; 1]; [2]]))
    as (h' & g' & Hr & Hrg & He);
    try discriminate; try (simpl; lia).
  - intros i Hi. replace i with O by lia. unfold get. simpl. lra.
  - intros t Ht. reflexivity.
  - intros i k Hk Hi. reflexivity.
  - intros r c Hc Hr. unfold get.
    destruct r as [| [| r]]; destruct c as [| [| c]]; simpl in *; try lia; reflexivity.
  - exists h', g'. split; [exact Hr |]. split; [exact Hrg |].
    apply (He 1%nat 0%nat); lia.
Defined.

(* ================================================================== *)
(** * The sampler and its mean *)

(** X21. The mean only shifts the sample: on the same covariance and
    seed, [sample_gp] with a mean vector returns the sample it returns
    without one, plus the mean, entry by entry. *)
Theorem sample_gp_mean_shift :
  forall (normal_rnd : nat -> Z -> nat -> R)
         (y m kxx : ptr) (ns : nat) (seed : Z) (h : heap),
    (y < brk h)%nat -> (kxx < brk h)%nat -> (m < brk h)%nat ->
    y <> kxx -> m <> y ->
    (0 < ns)%nat -> (Z.of_nat (ns * ns) < 2147483648)%Z ->
    (ns * ns <= length (cells h kxx))%nat -> (ns <= length (cells h y))%nat ->
    (ns <= length (cells h m))%nat ->
    symmetric ns (rowmajor (cells h kxx) ns) ->
    posdef ns (jittered ns eps (cells h kxx)) ->
    exists h0 h1,
      sample_gp normal_rnd y None kxx ns seed h = Done tt h0 /\
      sample_gp normal_rnd y (Some m) kxx ns seed h = Done tt h1 /\
      (forall i, (i < ns)%nat ->
         get (cells h1 y) i = get (cells h0 y) i + get (cells h m) i).
Proof.
  intros Z y m kxx ns seed h V1 V2 V3 N1 N2 Hns Hint L1 L2 L3 Hsym Hpd.
  destruct (sample_gp_run Z y None kxx ns seed h V1 V2 N1
              ltac:(intros ? ?; discriminate) Hns Hint L1 L2 Hsym Hpd)
    as (h0 & E0 & _ & _ & Hy0).
  destruct (sample_gp_run Z y (Some m) kxx ns seed h V1 V2 N1
              ltac:(intros ? Hm; injection Hm as <-; auto) Hns Hint L1 L2 Hsym Hpd)
    as (h1 & E1 & _ & _ & Hy1).
  exists h0, h1. split; [exact E0 |]. split; [exact E1 |].
  intros i Hi. rewrite (Hy1 i Hi), (Hy0 i Hi). ring.
Qed.

Lemma sample_gp_mean_shift_witness :
  exists h0 h1,
    sample_gp (fun _ _ _ => 3) 0%nat None 1%nat 1 42
      (heap_of [[0]; [4 - eps]; [10]]) = Done tt h0 /\
    sample_gp (fun _ _ _ => 3) 0%nat (Some 2%nat) 1%nat 1 42
      (heap_of [[0]; [4 - eps]; [10]]) = Done tt h1 /\
    get (cells h1 0%nat) 0 = get (cells h0 0%nat) 0 + 10.
Proof.
  destruct (sample_gp_mean_shift (fun _ _ _ => 3) 0%nat 2%nat 1%nat 1 42%Z
              (heap_of [[0]; [4 - eps]; [10]]))
    as (h0 & h1 & E0 & E1 & Hs);
    try discriminate; try (simpl; lia).
  - apply symmetric_1.
  - apply posdef_1. unfold jittered, get, eps. simpl. lra.
  - exists h0, h1. split; [exact E0 |]. split; [exact E1 |].
    apply (Hs 0%nat). lia.
Defined.

(* ================================================================== *)
(** * The orchestrators: what the plain and the asymmetric variant return *)

Lemma cells_grow5 h l0 l1 l2 l3 l4 :
  let hm := grow (grow (grow (grow (grow h l0) l1) l2) l3) l4 in
  cells hm (brk h) = l0 /\ cells hm (S (brk h)) = l1 /\
  cells hm (S (S (brk h))) = l2 /\ cells hm (S (S (S (brk h)))) = l3 /\
  cells hm (S (S (S (S (brk h))))) = l4 /\
  brk hm = S (S (S (S (S (brk h))))).
Proof. cbv zeta. repeat split; now ptr_simp. Qed.

Section InterpolateRun.

(** The optimizer call and the three kernel evaluations of an
    orchestrator, each taking the buffer it fills. *)
Variable opt : Comp unit.
Variables fxx fpx fpp : ptr -> Comp unit.

Variables (yp y p : ptr) (np ns dim : nat) (var_yp : option ptr) (h : heap).

(** The hyperparameters after the optimizer and the three kernels. *)
Variable p1 : list R.
Variables zxx zpx zpp : nat -> R.

(** The caller's inputs are as they were on entry, the hyperparameters
    as the optimizer left them. *)
Let stable (h' : heap) : Prop :=
  (forall q, (q < brk h)%nat -> q <> p -> q <> yp -> cells h' q = cells h q) /\
  cells h' p = p1.

Hypothesis Hopt :
  forall h', (forall q, (q < brk h)%nat -> cells h' q = cells h q) ->
    opt h' = Done tt (poke h' p p1).
Hypothesis Hxx :
  forall h' o, stable h' -> (brk h <= o)%nat -> (ns * ns <= length (cells h' o))%nat ->
    fxx o h' = Done tt (poke h' o (drawn zxx (ns * ns) (cells h' o))).
Hypothesis Hpx :
  forall h' o, stable h' -> (brk h <= o)%nat -> (np * ns <= length (cells h' o))%nat ->
    fpx o h' = Done tt (poke h' o (drawn zpx (np * ns) (cells h' o))).
Hypothesis Hpp :
  forall h' o, stable h' -> (brk h <= o)%nat -> (np * np <= length (cells h' o))%nat ->
    fpp o h' = Done tt (poke h' o (drawn zpp (np * np) (cells h' o))).

Hypothesis Vyp : (yp < brk h)%nat.
Hypothesis Vy : (y < brk h)%nat.
Hypothesis Vp : (p < brk h)%nat.
Hypothesis Nyp : yp <> p.
Hypothesis Nyy : yp <> y.
Hypothesis Ny : y <> p.
Hypothesis Hns : (0 < ns)%nat.
Hypothesis Hnp : (0 < np)%nat.
Hypothesis Ins : (Z.of_nat ns < 2147483648)%Z.
Hypothesis Inp : (Z.of_nat np < 2147483648)%Z.
Hypothesis Ly : (ns <= length (cells h y))%nat.
Hypothesis Lyp : (np <= length (cells h yp))%nat.
Hypothesis Hvar :
  forall v, var_yp = Some v ->
    (v < brk h)%nat /\ v <> yp /\ v <> p /\ (np * np <= length (cells h v))%nat.

Let krxx := drawn zxx (ns * ns) (repeat 0 (ns * ns)).
Let krpx := drawn zpx (np * ns) (repeat 0 (np * ns)).

Hypothesis Hsym : symmetric ns (rowmajor krxx ns).
Hypothesis Hpd : posdef ns (jittered ns eps krxx).

(** The common body of [gpr_interpolate] and [gpr_interpolate_asymm]
    after their five allocations, the first at [b]. *)
Let body (b : ptr) : Comp unit :=
  opt ;;
  fxx b ;;
  get_gpr_weights (S (S (S (S b)))) (S b) b ns dim y ;;
  fpx (S (S b)) ;;
  gpr_predict yp (S (S (S (S b)))) (S (S b)) np ns ;;
  match var_yp with
  | Some v =>
      fpp (S (S (S b))) ;;
      get_var_mat_chd v (S (S (S b))) (S (S b)) (S b) np ns
  | None => ret tt
  end ;;
  free (S (S (S (S b)))) ;;
  free (S (S b)) ;;
  free (S b) ;;
  free b ;;
  free (S (S (S b))).

Lemma interp_run :
  exists h' wt,
    body (brk h)
      (grow (grow (grow (grow (grow h (repeat 0 (ns * ns))) (repeat 0 (ns * ns)))
                     (repeat 0 (np * ns))) (repeat 0 (np * np))) (repeat 0 ns))
    = Done tt h' /\
    (forall i, (i < ns)%nat ->
       Rsum ns (fun j => jittered ns eps krxx i j * get wt j) = get (cells h y) i) /\
    (forall i, (i < np)%nat ->
       get (cells h' yp) i = Rsum ns (fun k => get krpx (i * ns + k) * get wt k)) /\
    (forall v, var_yp = Some v ->
       (forall r c, (r < np)%nat -> (c < np)%nat ->
          get (cells h' v) (r * np + c) = get (cells h' v) (c * np + r)) /\
       (forall i, (i < np)%nat -> get (cells h' v) (i * np + i) <= zpp (i * np + i))).
Proof.
  destruct (cells_grow5 h (repeat 0 (ns * ns)) (repeat 0 (ns * ns))
              (repeat 0 (np * ns)) (repeat 0 (np * np)) (repeat 0 ns))
    as (M0 & M1 & M2 & M3 & M4 & Hb).
  pose proof (grow_old5 h (repeat 0 (ns * ns)) (repeat 0 (ns * ns))
                (repeat 0 (np * ns)) (repeat 0 (np * np)) (repeat 0 ns)) as Hold.
  set (hm := grow _ _) in *. clearbody hm.
  set (b := brk h) in *.
  unfold body.
  (* the optimizer *)
  rewrite (bind_run _ _ _ _ _ (Hopt hm Hold)).
  set (h3 := poke hm p p1).
  assert (F3p : cells h3 p = p1) by apply cells_poke_eq.
  assert (F3 : forall q, q <> p -> cells h3 q = cells hm q).
  { intros q Hq. unfold h3. now rewrite cells_poke_neq by exact Hq. }
  assert (B3 : brk h3 = brk hm) by reflexivity.
  clearbody h3.
  assert (St3 : stable h3).
  { split; [| exact F3p]. intros q Q1 Q2 Q3. rewrite F3 by exact Q2. now apply Hold. }
  (* the training kernel *)
  rewrite (bind_run _ _ _ _ _ (Hxx h3 b St3 (Nat.le_refl b)
             ltac:(rewrite F3, M0, repeat_length by lia; lia))).
  rewrite (F3 b), M0 by lia. fold krxx.
  set (h4 := poke h3 b krxx).
  assert (F4b : cells h4 b = krxx) by apply cells_poke_eq.
  assert (G4 : forall q, q <> b -> q <> p -> cells h4 q = cells hm q).
  { intros q Q1 Q2. unfold h4. rewrite cells_poke_neq by exact Q1. now apply F3. }
  assert (G4p : cells h4 p = p1).
  { unfold h4. rewrite cells_poke_neq by lia. exact F3p. }
  assert (B4 : brk h4 = brk hm) by exact B3.
  clearbody h4.
  (* the weights *)
  destruct (get_gpr_weights_core (S (S (S (S b)))) (S b) b ns dim y h4)
    as (h5 & E5 & F5 & B5 & W5 & K5 & S5 & _ & P5).
  1-4: lia.
  1-2: assumption.
  - rewrite F4b. unfold krxx. now rewrite length_drawn, repeat_length.
  - now rewrite G4, M1, repeat_length by lia.
  - rewrite G4, Hold by lia. exact Ly.
  - now rewrite G4, M4, repeat_length by lia.
  - now rewrite F4b.
  - now rewrite F4b.
  - rewrite (bind_run _ _ _ _ _ E5). clear E5.
    rewrite F4b in S5. rewrite (G4 y), (Hold y) in S5 by lia.
    rewrite G4, M4, repeat_length in W5 by lia.
    rewrite G4, M1, repeat_length in K5 by lia.
    set (w := S (S (S (S b)))) in *.
    assert (G5 : forall q, q <> b -> q <> p -> q <> w -> q <> S b ->
               cells h5 q = cells hm q).
    { intros q Q1 Q2 Q3 Q4. rewrite F5 by assumption. now apply G4. }
    assert (G5p : cells h5 p = p1) by (rewrite F5 by (unfold w; lia); exact G4p).
    assert (St5 : stable h5).
    { split; [| exact G5p]. intros q Q1 Q2 Q3.
      rewrite G5 by (unfold w; lia). now apply Hold. }
    (* the cross kernel *)
    rewrite (bind_run _ _ _ _ _ (Hpx h5 (S (S b)) St5 ltac:(lia)
               ltac:(rewrite G5, M2, repeat_length by (unfold w; lia); lia))).
    rewrite (G5 (S (S b))), M2 by (unfold w; lia). fold krpx.
    set (h6 := poke h5 (S (S b)) krpx).
    assert (F6k : cells h6 (S (S b)) = krpx) by apply cells_poke_eq.
    assert (F6 : forall q, q <> S (S b) -> cells h6 q = cells h5 q).
    { intros q Hq. unfold h6. now rewrite cells_poke_neq by exact Hq. }
    assert (B6 : brk h6 = brk hm) by (unfold h6; simpl; congruence).
    clearbody h6.
    (* the prediction *)
    rewrite (bind_run _ _ _ _ _
               (gpr_predict_run yp w (S (S b)) np ns h6 Hns Hnp Ins Inp
                  ltac:(rewrite F6k; unfold krpx;
                        now rewrite length_drawn, repeat_length)
                  ltac:(rewrite F6 by (unfold w; lia); now rewrite W5)
                  ltac:(rewrite F6, G5, Hold by (unfold w; lia); exact Lyp))).
    rewrite F6k, (F6 w), (F6 yp), (G5 yp), (Hold yp) by (unfold w; lia).
    set (pred := Blas.dgemv_T ns np 1 krpx ns (cells h5 w) 0 (cells h yp)).
    set (h7 := poke h6 yp pred).
    assert (F7y : cells h7 yp = pred) by apply cells_poke_eq.
    assert (F7 : forall q, q <> yp -> cells h7 q = cells h6 q).
    { intros q Hq. unfold h7. now rewrite cells_poke_neq by exact Hq. }
    assert (B7 : brk h7 = brk hm) by exact B6.
    clearbody h7.
    assert (Hval : forall i, (i < np)%nat ->
              get pred i = Rsum ns (fun k => get krpx (i * ns + k) * get (cells h5 w) k)).
    { intros i Hi. unfold pred. rewrite get_dgemv_T by assumption.
      rewrite (Rsum_ext ns (fun i0 => get krpx (ix ns i0 i) * get (cells h5 w) i0)
                 (fun k => get krpx (i * ns + k) * get (cells h5 w) k)).
      - lra.
      - intros k Hk. unfold ix. now rewrite (Nat.add_comm k). }
    (* the variance, when asked for *)
    assert (Htail : exists h9,
              match var_yp with
              | Some v =>
                  fpp (S (S (S b))) ;;
                  get_var_mat_chd v (S (S (S b))) (S (S b)) (S b) np ns
              | None => ret tt
              end h7 = Done tt h9 /\ cells h9 yp = pred /\
              (forall v, var_yp = Some v ->
                 (v < b)%nat /\
                 (forall r c, (r < np)%nat -> (c < np)%nat ->
                    get (cells h9 v) (r * np + c) = get (cells h9 v) (c * np + r)) /\
                 (forall i, (i < np)%nat ->
                    get (cells h9 v) (i * np + i) <= zpp (i * np + i)))).
    { destruct var_yp as [v |].
      - destruct (Hvar v eq_refl) as (Vv & Nv1 & Nv2 & Lv).
        assert (St7 : stable h7).
        { split.
          - intros q Q1 Q2 Q3. rewrite F7, F6, G5 by (unfold w; lia). now apply Hold.
          - rewrite F7, F6 by lia. exact G5p. }
        rewrite (bind_run _ _ _ _ _ (Hpp h7 (S (S (S b))) St7 ltac:(lia)
                   ltac:(rewrite F7, F6, G5, M3, repeat_length by (unfold w; lia);
                         lia))).
        rewrite (F7 (S (S (S b)))), (F6 (S (S (S b)))), (G5 (S (S (S b)))), M3
          by (unfold w; lia).
        set (krpp := drawn zpp (np * np) (repeat 0 (np * np))).
        set (h8 := poke h7 (S (S (S b))) krpp).
        assert (F8 : forall q, q <> S (S (S b)) -> cells h8 q = cells h7 q).
        { intros q Hq. unfold h8. now rewrite cells_poke_neq by exact Hq. }
        assert (F8k : cells h8 (S (S (S b))) = krpp) by apply cells_poke_eq.
        assert (B8 : brk h8 = brk hm) by exact B7.
        clearbody h8.
        destruct (get_var_mat_chd_run v (S (S (S b))) (S (S b)) (S b) np ns h8)
          as (h9 & E9 & F9 & _); try lia.
        + rewrite F8, F7, F6 by lia. rewrite K5. lia.
        + rewrite F8, F7 by lia. rewrite F6k. unfold krpx.
          rewrite length_drawn, repeat_length. lia.
        + rewrite F8k. unfold krpp. rewrite length_drawn, repeat_length. lia.
        + rewrite F8, F7, F6, G5, Hold by (unfold w; lia). exact Lv.
        + exists h9. split; [exact E9 |].
          split; [rewrite F9 by lia; rewrite F8 by lia; exact F7y |].
          intros v' Hv'. injection Hv' as <-. split; [exact Vv |].
          destruct (get_var_mat_chd_core v (S (S (S b))) (S (S b)) (S b) np ns h8)
            as (h9' & V & E9' & _ & Hlow & Hup); try lia.
          * rewrite F8, F7, F6 by lia. rewrite K5. lia.
          * rewrite F8, F7 by lia. rewrite F6k. unfold krpx.
            rewrite length_drawn, repeat_length. lia.
          * rewrite F8k. unfold krpp. rewrite length_drawn, repeat_length. lia.
          * rewrite F8, F7, F6, G5, Hold by (unfold w; lia). exact Lv.
          * intros i Hi. rewrite F8, F7, F6 by lia.
            apply Rgt_not_eq. now apply P5.
          * rewrite E9 in E9'. injection E9' as <-. split.
            -- intros r c Hr Hc. rewrite <- !ix_rowmajor.
               destruct (Nat.lt_trichotomy r c) as [Hlt | [-> | Hgt]].
               ++ symmetry. now apply Hup.
               ++ reflexivity.
               ++ now apply Hup.
            -- intros i Hi. rewrite <- !ix_rowmajor.
               rewrite (Hlow i i (Nat.le_refl i) Hi), F8k.
               unfold krpp.
               rewrite get_drawn
                 by (rewrite ?repeat_length; ix_bound).
               assert (0 <= Rsum ns (fun l => get V (ix ns l i) * get V (ix ns l i))).
               { apply Rsum_nonneg. intros l _. apply Rle_0_sqr. }
               lra.
      - exists h7. split; [reflexivity |]. split; [exact F7y |].
        intros v Hv. discriminate. }
    destruct Htail as (h9 & E9 & F9y & F9v).
    rewrite (bind_run _ _ _ _ _ E9).
    eexists. exists (cells h5 w). split; [reflexivity |]. split; [| split].
    + exact S5.
    + intros i Hi. cbn [cells poke].
      rewrite !(proj2 (Nat.eqb_neq yp _)) by (unfold w; lia).
      rewrite F9y. now apply Hval.
    + intros v Hv. destruct (F9v v Hv) as (Vv & Hs9 & Hd9).
      cbn [cells poke].
      rewrite !(proj2 (Nat.eqb_neq v _)) by (unfold w; lia).
      split; assumption.
Qed.

End InterpolateRun.

Lemma get_asymm_covar_run A krn xa xb axa axb na nb dim p npar h :
  (na * nb <= length (cells h krn))%nat ->
  get_asymm_covar A krn xa xb axa axb na nb dim p npar h
  = Done tt (poke h krn
               (drawn (A (cells h xa) (cells h xb) (cells h axa) (cells h axb)
                         na nb dim (cells h p) npar)
                      (na * nb) (cells h krn))).
Proof.
  intros Hl. unfold get_asymm_covar.
  rewrite (bind_run _ _ _ _ _ (eq_refl : peek xa h = Done (cells h xa) h)).
  rewrite (bind_run _ _ _ _ _ (eq_refl : peek xb h = Done (cells h xb) h)).
  rewrite (bind_run _ _ _ _ _ (eq_refl : peek axa h = Done (cells h axa) h)).
  rewrite (bind_run _ _ _ _ _ (eq_refl : peek axb h = Done (cells h axb) h)).
  rewrite (bind_run _ _ _ _ _ (eq_refl : peek p h = Done (cells h p) h)).
  now rewrite (bind_run _ _ _ _ _ (need_ok krn (na * nb) h Hl)).
Qed.

(** What [gpr_interpolate] leaves in [yp]. *)
Lemma gpr_interpolate_run
      (K : list R -> list R -> nat -> nat -> nat -> list R -> nat -> nat -> R)
      (O : list R -> nat -> list R -> list R -> nat -> nat -> list R)
      xp yp np x y ns dim p npar var_yp (is_opt : bool) h :
  (xp < brk h)%nat -> (yp < brk h)%nat -> (x < brk h)%nat -> (y < brk h)%nat ->
  (p < brk h)%nat ->
  yp <> xp -> yp <> x -> yp <> y -> yp <> p -> p <> xp -> p <> x -> p <> y ->
  (0 < ns)%nat -> (0 < np)%nat ->
  (Z.of_nat ns < 2147483648)%Z -> (Z.of_nat np < 2147483648)%Z ->
  (ns <= length (cells h y))%nat -> (np <= length (cells h yp))%nat ->
  (forall v, var_yp = Some v ->
     (v < brk h)%nat /\ v <> yp /\ v <> p /\ (np * np <= length (cells h v))%nat) ->
  let p1 := if is_opt
            then O (cells h p) npar (cells h x) (cells h y) ns dim
            else cells h p in
  let krxx := drawn (K (cells h x) (cells h x) ns ns dim p1 npar)
                    (ns * ns) (repeat 0 (ns * ns)) in
  let krpx := drawn (K (cells h xp) (cells h x) np ns dim p1 npar)
                    (np * ns) (repeat 0 (np * ns)) in
  symmetric ns (rowmajor krxx ns) ->
  posdef ns (jittered ns eps krxx) ->
  exists h' wt,
    gpr_interpolate K O xp yp np x y ns dim p npar var_yp is_opt h = Done tt h' /\
    (forall i, (i < ns)%nat ->
       Rsum ns (fun j => jittered ns eps krxx i j * get wt j) = get (cells h y) i) /\
    (forall i, (i < np)%nat ->
       get (cells h' yp) i = Rsum ns (fun k => get krpx (i * ns + k) * get wt k)) /\
    (forall v, var_yp = Some v ->
       (forall r c, (r < np)%nat -> (c < np)%nat ->
          get (cells h' v) (r * np + c) = get (cells h' v) (c * np + r)) /\
       (forall i, (i < np)%nat ->
          get (cells h' v) (i * np + i)
          <= K (cells h xp) (cells h xp) np np dim p1 npar (i * np + i)%nat)).
Proof.
  intros V1 V2 V4 V5 V7 N1 N3 N8 N4 N5 N6 N9 Hns Hnp Ins Inp L1 L3 Hvar
         p1 krxx krpx Hsym Hpd.
  unfold gpr_interpolate.
  do 5 rewrite (bind_run _ _ _ _ _ (malloc_run _ _)).
  rewrite !brk_grow.
  apply (interp_run
           (if is_opt then get_hyper_param_ard O p npar x y ns dim else ret tt)
           (fun o => get_krn_se_ard K o x x ns ns dim p npar)
           (fun o => get_krn_se_ard K o xp x np ns dim p npar)
           (fun o => get_krn_se_ard K o xp xp np np dim p npar)
           yp y p np ns dim var_yp h p1
           (K (cells h x) (cells h x) ns ns dim p1 npar)
           (K (cells h xp) (cells h x) np ns dim p1 npar)
           (K (cells h xp) (cells h xp) np np dim p1 npar)); auto.
  - intros h' Hh. unfold p1. destruct is_opt.
    + unfold get_hyper_param_ard, bind, peek, modify.
      now rewrite (Hh x V4), (Hh y V5), (Hh p V7).
    + unfold ret. f_equal. rewrite <- (Hh p V7). symmetry. apply poke_self.
  - intros h' o (St & Sp) Ho Hl. rewrite get_krn_se_ard_run by exact Hl.
    rewrite (St x), Sp by auto. reflexivity.
  - intros h' o (St & Sp) Ho Hl. rewrite get_krn_se_ard_run by exact Hl.
    rewrite (St x), (St xp), Sp by auto. reflexivity.
  - intros h' o (St & Sp) Ho Hl. rewrite get_krn_se_ard_run by exact Hl.
    rewrite (St xp), Sp by auto. reflexivity.
Qed.


Lemma gpr_interpolate_example_run :
  exists h' wt,
    gpr_interpolate (fun _ _ _ _ _ _ _ _ => 1) (fun hp _ _ _ _ _ => hp)
      0%nat 1%nat 1 2%nat 3%nat 1 1 4%nat 1 (Some 5%nat) false
      (heap_of [[0]; [0]; [0]; [3]; [1]; [0]]) = Done tt h' /\
    (1 + eps) * get wt 0 = 3 /\
    get (cells h' 1%nat) 0 = get wt 0.
Proof.
  destruct (gpr_interpolate_run (fun _ _ _ _ _ _ _ _ => 1) (fun hp _ _ _ _ _ => hp)
              0%nat 1%nat 1 2%nat 3%nat 1 1 4%nat 1 (Some 5%nat) false
              (heap_of [[0]; [0]; [0]; [3]; [1]; [0]]))
    as (h' & wt & Hr & Hs & Hy & _); try discriminate; try (simpl; lia).
  - intros v Hv. injection Hv as <-. simpl. repeat split; try lia; discriminate.
  - apply symmetric_1.
  - apply posdef_1. unfold jittered, drawn, get, eps. simpl. lra.
  - exists h', wt. split; [exact Hr |]. split.
    + specialize (Hs O ltac:(lia)). unfold jittered, drawn, get in Hs.
      simpl in Hs. unfold get. lra.
    + rewrite (Hy O ltac:(lia)). unfold drawn, get. simpl. lra.
Qed.


Lemma gpr_interpolate_footprint_witness :
  exists h',
    gpr_interpolate (fun _ _ _ _ _ _ _ _ => 1) (fun hp _ _ _ _ _ => hp)
      0%nat 1%nat 1 2%nat 3%nat 1 1 4%nat 1 (Some 5%nat) false
      (heap_of [[0]; [0]; [0]; [3]; [1]; [0]]) = Done tt h' /\
    cells h' 6%nat = [] /\ cells h' 10%nat = [] /\
    cells h' 3%nat = [3] /\ cells h' 4%nat = [1].
Proof.
  destruct gpr_interpolate_example_run as (h' & wt & Hr & _).
  edestruct gpr_interpolate_footprint as (Hb & Hrel & Hf).
  4: exact Hr.
  1-2: simpl; lia.
  1: intros v Hv; injection Hv as <-; simpl; lia.
  simpl in Hb, Hrel, Hf.
  exists h'. split; [exact Hr |]. split; [| split; [| split]].
  - apply Hrel. lia.
  - apply Hrel. lia.
  - apply Hf; try lia; discriminate.
  - apply Hf; try lia; discriminate.
Defined.

(** What [gpr_interpolate_asymm] leaves in [yp]. *)
Lemma gpr_interpolate_asymm_run
      (A : list R -> list R -> list R -> list R -> nat -> nat -> nat ->
           list R -> nat -> nat -> R)
      (O : list R -> nat -> list R -> list R -> list R -> nat -> nat -> list R)
      xp axp yp np x ax y ns dim p npar var_yp (is_opt : bool) h :
  (xp < brk h)%nat -> (axp < brk h)%nat -> (yp < brk h)%nat -> (x < brk h)%nat ->
  (ax < brk h)%nat -> (y < brk h)%nat -> (p < brk h)%nat ->
  yp <> xp -> yp <> axp -> yp <> x -> yp <> ax -> yp <> y -> yp <> p ->
  p <> xp -> p <> axp -> p <> x -> p <> ax -> p <> y ->
  (0 < ns)%nat -> (0 < np)%nat ->
  (Z.of_nat ns < 2147483648)%Z -> (Z.of_nat np < 2147483648)%Z ->
  (ns <= length (cells h y))%nat -> (np <= length (cells h yp))%nat ->
  (forall v, var_yp = Some v ->
     (v < brk h)%nat /\ v <> yp /\ v <> p /\ (np * np <= length (cells h v))%nat) ->
  let p1 := if is_opt
            then O (cells h p) npar (cells h x) (cells h ax) (cells h y) ns dim
            else cells h p in
  let krxx := drawn (A (cells h x) (cells h x) (cells h ax) (cells h ax)
                       ns ns dim p1 npar)
                    (ns * ns) (repeat 0 (ns * ns)) in
  let krpx := drawn (A (cells h xp) (cells h x) (cells h axp) (cells h ax)
                       np ns dim p1 npar)
                    (np * ns) (repeat 0 (np * ns)) in
  symmetric ns (rowmajor krxx ns) ->
  posdef ns (jittered ns eps krxx) ->
  exists h' wt,
    gpr_interpolate_asymm A O xp axp yp np x ax y ns dim p npar var_yp is_opt h
    = Done tt h' /\
    (forall i, (i < ns)%nat ->
       Rsum ns (fun j => jittered ns eps krxx i j * get wt j) = get (cells h y) i) /\
    (forall i, (i < np)%nat ->
       get (cells h' yp) i = Rsum ns (fun k => get krpx (i * ns + k) * get wt k)) /\
    (forall v, var_yp = Some v ->
       (forall r c, (r < np)%nat -> (c < np)%nat ->
          get (cells h' v) (r * np + c) = get (cells h' v) (c * np + r)) /\
       (forall i, (i < np)%nat ->
          get (cells h' v) (i * np + i)
          <= A (cells h xp) (cells h xp) (cells h axp) (cells h axp)
               np np dim p1 npar (i * np + i)%nat)).
Proof.
  intros V1 V1a V2 V4 V4a V5 V7 N1 N1a N3 N3a N8 N4 N5 N5a N6 N6a N9
         Hns Hnp Ins Inp L1 L3 Hvar p1 krxx krpx Hsym Hpd.
  unfold gpr_interpolate_asymm.
  do 5 rewrite (bind_run _ _ _ _ _ (malloc_run _ _)).
  rewrite !brk_grow.
  apply (interp_run
           (if is_opt then get_hyper_param_ard_asymm O p npar x ax y ns dim else ret tt)
           (fun o => get_asymm_covar A o x x ax ax ns ns dim p npar)
           (fun o => get_asymm_covar A o xp x axp ax np ns dim p npar)
           (fun o => get_asymm_covar A o xp xp axp axp np np dim p npar)
           yp y p np ns dim var_yp h p1
           (A (cells h x) (cells h x) (cells h ax) (cells h ax) ns ns dim p1 npar)
           (A (cells h xp) (cells h x) (cells h axp) (cells h ax) np ns dim p1 npar)
           (A (cells h xp) (cells h xp) (cells h axp) (cells h axp) np np dim p1 npar));
    auto.
  - intros h' Hh. unfold p1. destruct is_opt.
    + unfold get_hyper_param_ard_asymm, bind, peek, modify.
      now rewrite (Hh x V4), (Hh ax V4a), (Hh y V5), (Hh p V7).
    + unfold ret. f_equal. rewrite <- (Hh p V7). symmetry. apply poke_self.
  - intros h' o (St & Sp) Ho Hl. rewrite get_asymm_covar_run by exact Hl.
    rewrite (St x), (St ax), Sp by auto. reflexivity.
  - intros h' o (St & Sp) Ho Hl. rewrite get_asymm_covar_run by exact Hl.
    rewrite (St x), (St xp), (St ax), (St axp), Sp by auto. reflexivity.
  - intros h' o (St & Sp) Ho Hl. rewrite get_asymm_covar_run by exact Hl.
    rewrite (St xp), (St axp), Sp by auto. reflexivity.
Qed.


Lemma gpr_interpolate_asymm_example_run :
  exists h' wt,
    gpr_interpolate_asymm (fun _ _ aa ab _ _ _ _ _ _ => 1 + get aa 0 * get ab 0)
      (fun hp _ _ _ _ _ _ => hp)
      0%nat 5%nat 1%nat 1 2%nat 6%nat 3%nat 1 1 4%nat 1 (Some 7%nat) false
      (heap_of [[0]; [0]; [0]; [3]; [1]; [2]; [1]; [0]]) = Done tt h' /\
    (2 + eps) * get wt 0 = 3 /\
    get (cells h' 1%nat) 0 = 3 * get wt 0.
Proof.
  destruct (gpr_interpolate_asymm_run
              (fun _ _ aa ab _ _ _ _ _ _ => 1 + get aa 0 * get ab 0)
              (fun hp _ _ _ _ _ _ => hp)
              0%nat 5%nat 1%nat 1 2%nat 6%nat 3%nat 1 1 4%nat 1 (Some 7%nat) false
              (heap_of [[0]; [0]; [0]; [3]; [1]; [2]; [1]; [0]]))
    as (h' & wt & Hr & Hs & Hy & _); try discriminate; try (simpl; lia).
  - intros v Hv. injection Hv as <-. simpl. repeat split; try lia; discriminate.
  - apply symmetric_1.
  - apply posdef_1. unfold jittered, drawn, get, eps. simpl. lra.
  - exists h', wt. split; [exact Hr |]. split.
    + specialize (Hs O ltac:(lia)). unfold jittered, drawn, get in Hs.
      simpl in Hs. unfold get. lra.
    + rewrite (Hy O ltac:(lia)). unfold drawn, get. simpl. lra.
Qed.


Lemma gpr_interpolate_asymm_footprint_witness :
  exists h',
    gpr_interpolate_asymm (fun _ _ aa ab _ _ _ _ _ _ => 1 + get aa 0 * get ab 0)
      (fun hp _ _ _ _ _ _ => hp)
      0%nat 5%nat 1%nat 1 2%nat 6%nat 3%nat 1 1 4%nat 1 (Some 7%nat) false
      (heap_of [[0]; [0]; [0]; [3]; [1]; [2]; [1]; [0]]) = Done tt h' /\
    cells h' 8%nat = [] /\ cells h' 12%nat = [] /\
    cells h' 5%nat = [2] /\ cells h' 6%nat = [1].
Proof.
  destruct gpr_interpolate_asymm_example_run as (h' & wt & Hr & _).
  edestruct gpr_interpolate_asymm_footprint as (Hb & Hrel & Hf).
  4: exact Hr.
  1-2: simpl; lia.
  1: intros v Hv; injection Hv as <-; simpl; lia.
  simpl in Hb, Hrel, Hf.
  exists h'. split; [exact Hr |]. split; [| split; [| split]].
  - apply Hrel. lia.
  - apply Hrel. lia.
  - apply Hf; try lia; discriminate.
  - apply Hf; try lia; discriminate.
Defined.

Lemma gpr_interpolate_mean_example_run :
  exists h',
    gpr_interpolate_mean (fun _ _ _ _ _ _ _ _ => 1) (fun hp _ _ _ _ _ => hp)
      0%nat 1%nat 2%nat 1 3%nat 4%nat 5%nat 1 1 6%nat 1 None false
      (heap_of [[0]; [0]; [5]; [0]; [3]; [1]; [1]]) = Done tt h'.
Proof.
  destruct (gpr_interpolate_mean_run (fun _ _ _ _ _ _ _ _ => 1) (fun hp _ _ _ _ _ => hp)
              0%nat 1%nat 2%nat 1 3%nat 4%nat 5%nat 1 1 6%nat 1 false
              (heap_of [[0]; [0]; [5]; [0]; [3]; [1]; [1]]))
    as (h' & wt & Hr & _); try discriminate; try (simpl; lia).
  - apply symmetric_1.
  - apply posdef_1. unfold jittered, drawn, get, eps. simpl. lra.
  - exists h'. exact Hr.
Qed.

Lemma gpr_interpolate_mean_footprint_witness :
  exists h',
    gpr_interpolate_mean (fun _ _ _ _ _ _ _ _ => 1) (fun hp _ _ _ _ _ => hp)
      0%nat 1%nat 2%nat 1 3%nat 4%nat 5%nat 1 1 6%nat 1 None false
      (heap_of [[0]; [0]; [5]; [0]; [3]; [1]; [1]]) = Done tt h' /\
    cells h' 7%nat = [] /\ cells h' 12%nat = [] /\
    cells h' 2%nat = [5] /\ cells h' 5%nat = [1] /\ cells h' 6%nat = [1].
Proof.
  destruct gpr_interpolate_mean_example_run as (h' & Hr).
  edestruct gpr_interpolate_mean_footprint as (Hb & Hrel & Hf).
  4: exact Hr.
  1-2: simpl; lia.
  1: intros v Hv; discriminate.
  simpl in Hb, Hrel, Hf.
  exists h'. split; [exact Hr |]. split; [| split; [| split; [| split]]].
  - apply Hrel. lia.
  - apply Hrel. lia.
  - apply Hf; try lia; discriminate.
  - apply Hf; try lia; discriminate.
  - apply Hf; try lia; discriminate.
Defined.

(* ================================================================== *)
(** * The mean-offset orchestrator against the plain one *)

(** X24. With prior means that are zero, [gpr_interpolate_mean] returns
    the same predictions as [gpr_interpolate] on the same data (no
    variance requested; [y] holds exactly [ns] values). *)
Theorem gpr_interpolate_mean_zero_means :
  forall (krn_se_ard : list R -> list R -> nat -> nat -> nat -> list R -> nat -> nat -> R)
         (hyper_param_ard : list R -> nat -> list R -> list R -> nat -> nat -> list R)
         (xp yp yp_mn : ptr) (np : nat) (x y y_mn : ptr) (ns dim : nat) (p : ptr)
         (npar : nat) (is_opt : bool) (h : heap),
    (xp < brk h)%nat -> (yp < brk h)%nat -> (yp_mn < brk h)%nat -> (x < brk h)%nat ->
    (y < brk h)%nat -> (y_mn < brk h)%nat -> (p < brk h)%nat ->
    yp <> xp -> yp <> yp_mn -> yp <> x -> yp <> y -> yp <> p ->
    p <> xp -> p <> x -> p <> y -> p <> yp_mn ->
    (0 < ns)%nat -> (0 < np)%nat ->
    (Z.of_nat ns < 2147483648)%Z -> (Z.of_nat np < 2147483648)%Z ->
    length (cells h y) = ns -> (ns <= length (cells h y_mn))%nat ->
    (np <= length (cells h yp))%nat -> (np <= length (cells h yp_mn))%nat ->
    (forall i, (i < ns)%nat -> get (cells h y_mn) i = 0) ->
    (forall i, (i < np)%nat -> get (cells h yp_mn) i = 0) ->
    let p1 := if is_opt
              then hyper_param_ard (cells h p) npar (cells h x) (cells h y) ns dim
              else cells h p in
    let krxx := drawn (krn_se_ard (cells h x) (cells h x) ns ns dim p1 npar)
                      (ns * ns) (repeat 0 (ns * ns)) in
    symmetric ns (rowmajor krxx ns) ->
    posdef ns (jittered ns eps krxx) ->
    exists h1 h2,
      gpr_interpolate krn_se_ard hyper_param_ard
        xp yp np x y ns dim p npar None is_opt h = Done tt h1 /\
      gpr_interpolate_mean krn_se_ard hyper_param_ard
        xp yp yp_mn np x y y_mn ns dim p npar None is_opt h = Done tt h2 /\
      (forall i, (i < np)%nat -> get (cells h2 yp) i = get (cells h1 yp) i).
Proof.
  intros K O xp yp yp_mn np x y y_mn ns dim p npar is_opt h
         V1 V2 V3 V4 V5 V6 V7 N1 N2 N3 N8 N4 N5 N6 N9 N7 Hns Hnp Ins Inp
         L1 L2 L3 L4 Zy Zyp p1 krxx Hsym Hpd.
  assert (E : Blas.daxpy ns (-1) (cells h y_mn)
                (Blas.dcopy ns (cells h y) (repeat 0 ns)) = cells h y).
  { apply buffer_ext.
    - now rewrite length_daxpy, length_dcopy, repeat_length.
    - rewrite length_daxpy, length_dcopy, repeat_length. intros i Hi.
      rewrite get_daxpy by now rewrite length_dcopy, repeat_length.
      rewrite get_dcopy by now rewrite repeat_length.
      rewrite (proj2 (Nat.ltb_lt i ns) Hi), (Zy i Hi). ring. }
  destruct (gpr_interpolate_run K O xp yp np x y ns dim p npar None is_opt h
              V1 V2 V4 V5 V7 N1 N3 N8 N4 N5 N6 N9 Hns Hnp Ins Inp
              ltac:(lia) L3 ltac:(intros v Hv; discriminate) Hsym Hpd)
    as (h1 & w1 & R1 & S1 & Y1 & _).
  pose proof (gpr_interpolate_mean_run K O xp yp yp_mn np x y y_mn ns dim p npar
                is_opt h V1 V2 V3 V4 V5 V6 V7 N1 N2 N3 N4 N5 N6 N7 Hns Hnp Ins Inp
                ltac:(lia) L2 L3 L4) as M.
  cbv zeta in M. rewrite E in M.
  destruct (M Hsym Hpd) as (h2 & w2 & R2 & S2 & Y2).
  exists h1, h2. split; [exact R1 |]. split; [exact R2 |].
  intros i Hi. rewrite (Y2 i Hi), (Y1 i Hi), (Zyp i Hi).
  assert (Hsame : forall k, (k < ns)%nat -> get w2 k = get w1 k).
  { apply (posdef_unique ns (jittered ns eps krxx) (get w2) (get w1) Hpd).
    intros k Hk. pose proof (S2 k Hk) as A2.
    rewrite (Zy k Hk), Rminus_0_r in A2.
    exact (eq_trans A2 (eq_sym (S1 k Hk))). }
  rewrite Rminus_0_r. apply Rsum_ext.
  intros k Hk. now rewrite (Hsame k Hk).
Qed.

Lemma gpr_interpolate_mean_zero_means_witness :
  exists h1 h2,
    gpr_interpolate (fun _ _ _ _ _ _ _ _ => 1) (fun hp _ _ _ _ _ => hp)
      0%nat 1%nat 1 3%nat 4%nat 1 1 6%nat 1 None false
      (heap_of [[0]; [0]; [0]; [0]; [3]; [0]; [1]]) = Done tt h1 /\
    gpr_interpolate_mean (fun _ _ _ _ _ _ _ _ => 1) (fun hp _ _ _ _ _ => hp)
      0%nat 1%nat 2%nat 1 3%nat 4%nat 5%nat 1 1 6%nat 1 None false
      (heap_of [[0]; [0]; [0]; [0]; [3]; [0]; [1]]) = Done tt h2 /\
    get (cells h2 1%nat) 0 = get (cells h1 1%nat) 0.
Proof.
  destruct (gpr_interpolate_mean_zero_means
              (fun _ _ _ _ _ _ _ _ => 1) (fun hp _ _ _ _ _ => hp)
              0%nat 1%nat 2%nat 1 3%nat 4%nat 5%nat 1 1 6%nat 1 false
              (heap_of [[0]; [0]; [0]; [0]; [3]; [0]; [1]]))
    as (h1 & h2 & R1 & R2 & He);
    try discriminate; try reflexivity; try (simpl; lia).
  - intros i Hi. replace i with O by lia. reflexivity.
  - intros i Hi. replace i with O by lia. reflexivity.
  - apply symmetric_1.
  - apply posdef_1. unfold jittered, drawn, get, eps. simpl. lra.
  - exists h1, h2. split; [exact R1 |]. split; [exact R2 |]. apply (He O). lia.
Defined.

(** X25. Whenever [gpr_interpolate_mean] returns with a variance buffer
    supplied, that buffer holds an exactly symmetric matrix: nothing
    after the mirroring of [get_var_mat_chd] writes to it. *)
Theorem gpr_interpolate_mean_variance_symmetric :
  forall (krn_se_ard : list R -> list R -> nat -> nat -> nat -> list R -> nat -> nat -> R)
         (hyper_param_ard : list R -> nat -> list R -> list R -> nat -> nat -> list R)
         (xp yp yp_mn : ptr) (np : nat) (x y y_mn : ptr) (ns dim : nat) (p : ptr)
         (npar : nat) (v : ptr) (is_opt : bool) (h h' : heap),
    (v < brk h)%nat ->
    gpr_interpolate_mean krn_se_ard hyper_param_ard
      xp yp yp_mn np x y y_mn ns dim p npar (Some v) is_opt h = Done tt h' ->
    forall i j, (i < np)%nat -> (j < np)%nat ->
      get (cells h' v) (i * np + j) = get (cells h' v) (j * np + i).
Proof.
  intros K O xp yp yp_mn np x y y_mn ns dim p npar v is_opt h h' Vv E i j Hi Hj.
  unfold gpr_interpolate_mean in E.
  do 6 rewrite (bind_run _ _ _ _ _ (malloc_run _ _)) in E.
  rewrite !brk_grow in E. cbv zeta in E.
  do 8 (apply bind_Done in E as (? & ? & _ & E)).
  apply bind_Done in E as ([] & hB & Evar & Efree).
  (* the variance as [get_var_mat_chd] leaves it *)
  assert (Hsym : get (cells hB v) (i * np + j) = get (cells hB v) (j * np + i)).
  { apply bind_Done in Evar as (? & hA & _ & Evar).
    unfold get_var_mat_chd in Evar.
    apply bind_Done in Evar as (V & h0 & _ & Evar).
    do 4 (apply bind_Done in Evar as (? & ? & _ & Evar)).
    apply bind_Done in Evar as ([] & h5 & Hmir & Hfree).
    injection Hfree as <-.
    rewrite cells_poke.
    destruct (Nat.eqb v V); [now rewrite !get_nil |].
    eapply mirror_symmetric; eauto. }
  (* the releases do not touch it *)
  assert (Hwo : writes_only (fun q => q <> v)
                  (free (S (S (S (S (S (brk h)))))) ;;
                   free (S (S (S (S (brk h))))) ;;
                   free (S (S (brk h))) ;;
                   free (S (brk h)) ;;
                   free (brk h) ;;
                   free (S (S (S (brk h)))))) by (wo; cbn beta; lia).
  destruct (Hwo _ _ _ Efree) as (_ & Hf).
  rewrite Hf by auto. exact Hsym.
Qed.

Lemma gpr_interpolate_mean_variance_example_run :
  exists h',
    gpr_interpolate_mean (fun _ _ _ _ _ _ _ _ => 1) (fun hp _ _ _ _ _ => hp)
      0%nat 1%nat 2%nat 2 3%nat 4%nat 5%nat 1 1 6%nat 1 (Some 7%nat) false
      (heap_of [[0; 1]; [0; 0]; [0; 0]; [0]; [3]; [1]; [1]; [0; 0; 0; 0]])
    = Done tt h'.
Proof.
  eexists.
  cbv -[Rplus Rmult Rminus Rdiv Rinv Ropp IZR Rle_dec sqrt].
  match goal with
  | |- context [Rle_dec ?a ?b] => destruct (Rle_dec a b) as [Hle | Hgt]
  end.
  - exfalso. lra.
  - reflexivity.
Qed.

Lemma gpr_interpolate_mean_variance_symmetric_witness :
  exists h',
    gpr_interpolate_mean (fun _ _ _ _ _ _ _ _ => 1) (fun hp _ _ _ _ _ => hp)
      0%nat 1%nat 2%nat 2 3%nat 4%nat 5%nat 1 1 6%nat 1 (Some 7%nat) false
      (heap_of [[0; 1]; [0; 0]; [0; 0]; [0]; [3]; [1]; [1]; [0; 0; 0; 0]])
    = Done tt h' /\
    get (cells h' 7%nat) (0 * 2 + 1) = get (cells h' 7%nat) (1 * 2 + 0).
Proof.
  destruct gpr_interpolate_mean_variance_example_run as (h' & Hr).
  exists h'. split; [exact Hr |].
  eapply gpr_interpolate_mean_variance_symmetric.
  2: exact Hr.
  all: simpl; lia.
Defined.

(* ================================================================== *)
(** * The copy count of [sample_gp]

    [sample_gp] copies the covariance with [dcopy_], whose count
    [N = ns * ns] is an [int]: from [ns = 46341] on the product does not
    fit and, up to [ns = 65536], the count DCOPY receives is negative or
    zero, so that nothing is copied.  The jitter and the factorization
    then work on the scratch buffer as [malloc] left it (zero-filled
    here, indeterminate in C), not on the covariance.  The copy loops of
    [get_gpr_weights] and [get_var_mat] count in [unsigned long] and
    have no such limit. *)

Lemma to_int_wrapped n :
  (2147483648 <= Z.of_nat n <= 4294967296)%Z -> (to_int n <= 0)%Z.
Proof.
  intros H. unfold to_int.
  destruct (Z.eq_dec (Z.of_nat n) 4294967296) as [E | E].
  - rewrite E. reflexivity.
  - rewrite Z.mod_small by lia.
    destruct (Z.ltb_spec (Z.of_nat n) 2147483648); lia.
Qed.

Lemma dcopy_nothing N X Y h : (N <= 0)%Z -> dcopy_ N X Y h = Done tt h.
Proof.
  intros H. unfold dcopy_.
  destruct (Z.leb_spec N 0); [reflexivity | lia].
Qed.

Lemma get_repeat_0 n t : get (repeat 0 n) t = 0.
Proof. unfold get. apply nth_repeat. Qed.

Lemma posdef_jitter_only ns e :
  0 < e -> posdef ns (jittered ns e (repeat 0 (ns * ns))).
Proof.
  intros He x (i & Hi & Hx).
  rewrite (Rsum_ext ns _ (fun i => e * (x i * x i))).
  - rewrite Rsum_scal_l. apply Rmult_lt_0_compat; [exact He|].
    apply (Rsum_pos ns _ i Hi).
    + intros k _. nra.
    + nra.
  - intros k Hk.
    rewrite (Rsum_ext ns _ (fun j => (if Nat.eqb k j then e else 0) * (x k * x j))).
    + now rewrite Rsum_delta.
    + intros j _. unfold jittered. rewrite get_repeat_0. ring.
Qed.

Lemma symmetric_zero ns : symmetric ns (rowmajor (repeat 0 (ns * ns)) ns).
Proof. intros i j _ _. unfold rowmajor. now rewrite !get_repeat_0. Qed.

Section WrappedSampler.

Variable normal_rnd : nat -> Z -> nat -> R.

(** The run of [sample_gp] when the copy count wraps. *)
Lemma sample_gp_wrapped_run y mn kxx ns seed h :
  (2147483648 <= Z.of_nat (ns * ns) <= 4294967296)%Z ->
  (y < brk h)%nat ->
  (forall m, mn = Some m -> (m < brk h)%nat /\ m <> y /\ (ns <= length (cells h m))%nat) ->
  (ns <= length (cells h y))%nat ->
  let F := fst (Blas.dpotf2_L ns (jitter ns eps (repeat 0 (ns * ns))) ns) in
  exists h',
    sample_gp normal_rnd y mn kxx ns seed h = Done tt h' /\
    factored ns ns ns (jitter ns eps (repeat 0 (ns * ns))) F /\
    (forall i, (i < ns)%nat ->
       get (cells h' y) i
       = Rsum ns (fun k => Lw F ns i k * normal_rnd ns seed k)
         + match mn with Some m => get (cells h m) i | None => 0 end).
Proof.
  intros Hw V1 Hmn L2 F.
  assert (Hns : (0 < ns)%nat) by nia.
  assert (Hint : (Z.of_nat ns < 2147483648)%Z) by nia.
  unfold sample_gp.
  rewrite (bind_run _ _ _ _ _ (eq_refl : malloc (ns * ns) h
                                         = Done (brk h) (grow h (repeat 0 (ns * ns))))).
  set (h0 := grow h (repeat 0 (ns * ns))).
  assert (C0 : forall q, (q < brk h)%nat -> cells h0 q = cells h q).
  { intros q Hq. apply cells_grow_neq. lia. }
  assert (C0V : cells h0 (brk h) = repeat 0 (ns * ns)) by apply cells_grow_eq.
  remember (brk h) as V eqn:EV.
  assert (NV1 : y <> V) by lia.
  cbv zeta. rewrite !(to_int_small ns) by assumption.
  (* the copy count is not positive: nothing is copied *)
  rewrite (bind_run _ _ _ _ _ (dcopy_nothing _ kxx V h0 (to_int_wrapped _ Hw))).
  set (K0 := repeat 0 (ns * ns)) in *.
  assert (LK0 : length K0 = (ns * ns)%nat) by apply repeat_length.
  (* the jitter *)
  rewrite (bind_run _ _ _ _ _ (jitter_loop_run V ns 1E-7 h0
             ltac:(rewrite C0V; lia))).
  rewrite C0V.
  fold eps. set (K := jitter ns eps K0) in *. set (h2 := poke h0 V K).
  assert (LK : (ns * ns <= length K)%nat) by (unfold K; rewrite length_jitter; lia).
  assert (HpdK : posdef ns (Asym K ns)).
  { apply (posdef_ext ns (jittered ns eps K0)).
    - intros i j Hi Hj. symmetry. apply Asym_jitter0; auto; [apply symmetric_zero | lia].
    - apply posdef_jitter_only. unfold eps. lra. }
  destruct (dpotf2_L_posdef ns K Hns LK HpdK) as (Hs & HF).
  (* the factorization *)
  rewrite (bind_run _ _ _ _ _ (dpotrf_L_run ns V h2 Hns
             ltac:(unfold h2; rewrite cells_poke_eq; exact LK))).
  replace (cells h2 V) with K by (unfold h2; now cells_simp).
  rewrite Hs. fold F in HF |- *.
  set (h3 := poke h2 V F).
  rewrite (bind_run _ _ _ _ _ (eq_refl : assert_ (Z.of_nat 0 =? 0)%Z h3 = Done tt h3)).
  assert (C3 : forall q, (q < V)%nat -> cells h3 q = cells h q).
  { intros q Hq. assert (q <> V) by lia. unfold h3, h2. cells_simp. now apply C0. }
  assert (C3V : cells h3 V = F) by (unfold h3; now cells_simp).
  assert (LF : length F = length K) by apply HF.
  (* the draw *)
  rewrite (bind_run _ _ _ _ _ (fill_normal_rnd_run normal_rnd y ns seed h3
             ltac:(rewrite C3 by auto; exact L2))).
  rewrite (C3 y) by auto.
  set (z := drawn (normal_rnd ns seed) ns (cells h y)).
  set (h4 := poke h3 y z).
  assert (Lz : length z = length (cells h y)) by apply length_drawn.
  (* the product *)
  rewrite (bind_run _ _ _ _ _ (dtrmv_LNN_run ns V y h4 Hns
             ltac:(unfold h4; cells_simp; rewrite C3V; lia)
             ltac:(unfold h4; cells_simp; lia))).
  replace (cells h4 V) with F by (unfold h4; cells_simp; now rewrite C3V).
  replace (cells h4 y) with z by (unfold h4; now cells_simp).
  set (x := Blas.dtrmv_LNN ns F ns z). set (h5 := poke h4 y x).
  destruct (dtrmv_LNN_spec ns F ns z ltac:(lia)) as (Lx & _ & Hx). fold x in Lx, Hx.
  assert (C5 : forall q, (q < V)%nat -> q <> y -> cells h5 q = cells h q).
  { intros q Hq Hqy. unfold h5, h4. cells_simp. now apply C3. }
  assert (Hxi : forall i, (i < ns)%nat ->
             get x i = Rsum ns (fun k => Lw F ns i k * normal_rnd ns seed k)).
  { intros i Hi. rewrite Hx by auto. apply Rsum_ext. intros k Hk.
    unfold z. now rewrite get_drawn by auto. }
  destruct mn as [m|].
  - destruct (Hmn m eq_refl) as (Vm & Nm & Lm).
    rewrite (bind_run _ _ _ _ _ (mean_loop_run y m ns h5 Nm
               ltac:(unfold h5; cells_simp; lia)
               ltac:(rewrite C5 by auto; exact Lm))).
    replace (cells h5 y) with x by (unfold h5; now cells_simp).
    rewrite (C5 m) by auto.
    eexists. split; [reflexivity|]. split; [exact HF|].
    intros i Hi. cells_simp.
    rewrite get_add_mean by (auto; lia). now rewrite Hxi.
  - rewrite (bind_run _ _ _ _ _ (eq_refl : ret tt h5 = Done tt h5)).
    eexists. split; [reflexivity|]. split; [exact HF|].
    intros i Hi. cells_simp. unfold h5. cells_simp.
    rewrite Hxi by auto. ring.
Qed.

End WrappedSampler.

(** C8, where the code departs from it.  For [46341 <= ns <= 65536] the
    copy count wraps and [sample_gp] never reads the covariance buffer:
    on the zero-filled scratch buffer the vector it returns is [L z]
    (plus the mean) for the Cholesky factor [L] of [eps I], the jitter
    alone, whatever the covariance is, and not for the factor of the
    jittered covariance. *)
Theorem sample_gp_large_covariance_ignored :
  forall (normal_rnd : nat -> Z -> nat -> R)
         (y : ptr) (mn : option ptr) (kxx : ptr) (ns : nat) (seed : Z) (h : heap),
    (2147483648 <= Z.of_nat (ns * ns) <= 4294967296)%Z ->
    (y < brk h)%nat ->
    (forall m, mn = Some m ->
       (m < brk h)%nat /\ m <> y /\ (ns <= length (cells h m))%nat) ->
    (ns <= length (cells h y))%nat ->
    exists (h' : heap) (L : nat -> nat -> R),
      sample_gp normal_rnd y mn kxx ns seed h = Done tt h' /\
      (forall i k, (i < k)%nat -> L i k = 0) /\
      (forall i, (i < ns)%nat -> 0 < L i i) /\
      (forall i j, (i < ns)%nat -> (j < ns)%nat ->
         Rsum ns (fun k => L i k * L j k) = if Nat.eqb i j then eps else 0) /\
      (forall i, (i < ns)%nat ->
         get (cells h' y) i
         = match mn with
           | None => Rsum ns (fun k => L i k * normal_rnd ns seed k)
           | Some m => Rsum ns (fun k => L i k * normal_rnd ns seed k) + get (cells h m) i
           end).
Proof.
  intros normal_rnd y mn kxx ns seed h Hw V1 Hmn L2.
  destruct (sample_gp_wrapped_run normal_rnd y mn kxx ns seed h Hw V1 Hmn L2)
    as (h' & Hr & HF & Hy).
  set (K := jitter ns eps (repeat 0 (ns * ns))) in *.
  set (F := fst (Blas.dpotf2_L ns K ns)) in *.
  assert (LK : (ns * ns <= length K)%nat).
  { unfold K. rewrite length_jitter, repeat_length. lia. }
  exists h', (Lw F ns). split; [exact Hr|].
  split; [| split; [| split]].
  - intros i k Hik. now apply Lw_upper.
  - intros i Hi. rewrite Lw_diag. apply HF; auto.
  - intros i j Hi Hj. rewrite (factored_product ns K F i j LK HF Hi Hj).
    unfold K. rewrite Asym_jitter0; auto.
    + unfold jittered. rewrite get_repeat_0. ring.
    + apply symmetric_zero.
    + rewrite repeat_length. lia.
  - intros i Hi. rewrite Hy by auto. destruct mn; [reflexivity | ring].
Qed.

Lemma sample_gp_large_covariance_ignored_witness :
  exists (h' : heap) (L : nat -> nat -> R),
    sample_gp (fun _ _ _ => 1) 0%nat None 1%nat (Z.to_nat 46341) 42
      (heap_of [repeat 0 (Z.to_nat 46341);
                repeat 1 (Z.to_nat 46341 * Z.to_nat 46341)]) = Done tt h' /\
    (forall i j, (i < Z.to_nat 46341)%nat -> (j < Z.to_nat 46341)%nat ->
       Rsum (Z.to_nat 46341) (fun k => L i k * L j k)
       = if Nat.eqb i j then eps else 0) /\
    (forall i, (i < Z.to_nat 46341)%nat ->
       get (cells h' 0%nat) i = Rsum (Z.to_nat 46341) (fun k => L i k * 1)).
Proof.
  assert (E : Z.of_nat (Z.to_nat 46341) = 46341%Z) by now rewrite Z2Nat.id.
  revert E. generalize (Z.to_nat 46341). intros ns E.
  destruct (sample_gp_large_covariance_ignored (fun _ _ _ => 1) 0%nat None 1%nat ns 42%Z
              (heap_of [repeat 0 ns; repeat 1 (ns * ns)]))
    as (h' & L & Hr & _ & _ & HL & Hy).
  - rewrite Nat2Z.inj_mul, E. lia.
  - unfold heap_of. cbn [brk length]. lia.
  - intros m Hm. discriminate Hm.
  - unfold heap_of. cbn [cells nth]. rewrite repeat_length. lia.
  - exists h', L. split; [exact Hr|]. split; [exact HL | exact Hy].
Defined.
